(** * report-sdk: the styled-string parser, the markup-tree serializer and
      the block-content normalizer of [src/utils.js]

    A shallow embedding of [splitByBrTag], [parseBlockContent], [stripTags],
    [parseStyledString] and [htmlToDocx], and the properties of them that the
    design document states.

    Conventions.
    - A JavaScript string is a [string]: a sequence of code units, here the
      code units below 256.  Every character the code inspects ([<], [>],
      [/], the word characters, the [data-] prefix) lies in that range.
    - Built-ins of the language ([slice], [split], [includes], [trim],
      [String.prototype.replace] with a global regular expression) are
      modelled by the functions of [JsString] and [StyleRegExp].
    - The browser's [DOMParser] is not part of the repository: the entity
      decoder is a parameter and [htmlToDocx] starts from the parsed tree. *)

From Stdlib Require Import Ascii NArith.
From stdpp Require Import base option list strings.

Set Warnings "-register-all".

(** ** Strings as the code uses them *)

Module JsString.

Definition isEmpty (s : string) : bool :=
  match s with EmptyString => true | String _ _ => false end.

Fixpoint takeStr (n : nat) (s : string) : string :=
  match n, s with
  | S n', String c s' => String c (takeStr n' s')
  | _, _ => EmptyString
  end.

Fixpoint dropStr (n : nat) (s : string) : string :=
  match n, s with
  | S n', String _ s' => dropStr n' s'
  | _, _ => s
  end.

(** [s.slice(a, b)] and [s.slice(a)] for non-negative indices. *)
Definition slice (s : string) (a b : nat) : string := takeStr (b - a) (dropStr a s).
Definition sliceFrom (s : string) (a : nat) : string := dropStr a s.

(** [s.startsWith(p)] *)
Fixpoint startsWith (p s : string) : bool :=
  match p, s with
  | EmptyString, _ => true
  | String a p', String b s' => if Ascii.eqb a b then startsWith p' s' else false
  | String _ _, EmptyString => false
  end.

(** [s.indexOf(needle)], [None] standing for [-1]. *)
Fixpoint indexOf (needle s : string) : option nat :=
  if startsWith needle s then Some 0
  else match s with
       | EmptyString => None
       | String _ s' => S <$> indexOf needle s'
       end.

(** [s.includes(needle)] *)
Definition includes (needle s : string) : bool :=
  match indexOf needle s with Some _ => true | None => false end.

(** [s.replace(pat, rep)] with a string pattern: the first occurrence only. *)
Definition replaceFirst (pat rep s : string) : string :=
  match indexOf pat s with
  | Some i => takeStr i s +:+ rep +:+ dropStr (i + String.length pat) s
  | None => s
  end.

(** [s.split(sep)] for a non-empty separator: [skip] counts the code units
    of the separator occurrence still to be passed over. *)
Fixpoint splitGo (sep : string) (skip : nat) (s : string) : list string :=
  match s with
  | EmptyString => [EmptyString]
  | String c s' =>
      match skip with
      | S k => splitGo sep k s'
      | 0 =>
          if startsWith sep s then EmptyString :: splitGo sep (String.length sep - 1) s'
          else match splitGo sep 0 s' with
               | p :: ps => String c p :: ps
               | [] => [String c EmptyString]
               end
      end
  end.

Fixpoint chars (s : string) : list string :=
  match s with
  | EmptyString => []
  | String c s' => String c EmptyString :: chars s'
  end.

Definition split (sep s : string) : list string :=
  if isEmpty sep then chars s else splitGo sep 0 s.

(** [arr.join('')] over strings. *)
Definition join (l : list string) : string := foldr String.append EmptyString l.

(** White space and line terminators of [String.prototype.trim] among the
    code units below 256. *)
Definition isWhiteSpace (c : ascii) : bool :=
  match N_of_ascii c with
  | 9 | 10 | 11 | 12 | 13 | 32 | 160 => true
  | _ => false
  end%N.

Fixpoint trimStart (s : string) : string :=
  match s with
  | String c s' => if isWhiteSpace c then trimStart s' else s
  | EmptyString => EmptyString
  end.

Fixpoint trimEnd (s : string) : string :=
  match s with
  | EmptyString => EmptyString
  | String c s' =>
      let t := trimEnd s' in
      if isEmpty t && isWhiteSpace c then EmptyString else String c t
  end.

Definition trim (s : string) : string := trimEnd (trimStart s).

(** [\w] of a regular expression without the [u] and [i] flags. *)
Definition isWordChar (c : ascii) : bool :=
  let n := N_of_ascii c in
  ((48 <=? n) && (n <=? 57) || (65 <=? n) && (n <=? 90)
   || (97 <=? n) && (n <=? 122) || (n =? 95))%N.

End JsString.

Import JsString.

(** ** The global regular expression of [processSegments] *)

Module StyleRegExp.

(** One match of [/<(\w+)>(.*?)<\/\1>/gs], as the replace callback
    receives it: [(match, tag, innerText, offset)]. *)
Record RegExpMatch := mkMatch {
  m_match : string;
  m_tag : string;
  m_inner : string;
  m_offset : nat
}.

(** The longest run of word characters at the head of [s], and what
    follows it. *)
Fixpoint wordRun (s : string) : string * string :=
  match s with
  | String c s' =>
      if isWordChar c then let '(w, r) := wordRun s' in (String c w, r)
      else (EmptyString, s)
  | EmptyString => (EmptyString, EmptyString)
  end.

Definition openTag (tag : string) : string := "<" +:+ tag +:+ ">".
Definition closeTag (tag : string) : string := "</" +:+ tag +:+ ">".

(** A match anchored at the head of [s].  [\w+] is greedy and the next
    pattern character [>] is no word character, so the tag is the whole
    word run; [.*?] is lazy (and, with the [s] flag, crosses newlines), so
    the inner text stops at the first closing tag. *)
Definition matchHere (s : string) : option (string * string) :=
  match s with
  | String "<" s1 =>
      let '(tag, s2) := wordRun s1 in
      if isEmpty tag then None
      else match s2 with
           | String ">" s3 =>
               match indexOf (closeTag tag) s3 with
               | Some j => Some (tag, takeStr j s3)
               | None => None
               end
           | _ => None
           end
  | _ => None
  end.

Definition matchText (tag inner : string) : string :=
  openTag tag +:+ inner +:+ closeTag tag.

(** The successive matches of the global expression in [s]: leftmost
    first, the search resuming at the end of each match.  [pos] is the
    index of the head of [s] in the whole string, [skip] the number of code
    units of the current match still to be passed over. *)
Fixpoint scan (pos skip : nat) (s : string) : list RegExpMatch :=
  match s with
  | EmptyString => []
  | String _ s' =>
      match skip with
      | S k => scan (S pos) k s'
      | 0 =>
          match matchHere s with
          | Some (tag, inner) =>
              let m := matchText tag inner in
              mkMatch m tag inner pos :: scan (S pos) (String.length m - 1) s'
          | None => scan (S pos) 0 s'
          end
      end
  end.

Definition matchAll (s : string) : list RegExpMatch := scan 0 0 s.

End StyleRegExp.

Import StyleRegExp.

(** ** The styled-string parser *)

(** The style object threaded through [processSegments]: its only possible
    keys are [bold] ([true]), [italics] ([true]) and [underline] ([{}]); a
    field is [true] when the key is present. *)
Record Styles := mkStyles {
  bold : bool;
  italics : bool;
  underline : bool
}.

Definition noStyles : Styles := mkStyles false false false.

(** A text part [{ type: 'text', content, ...styles }]. *)
Record StyledRun := mkRun {
  type : string;
  content : string;
  styles : Styles
}.

Definition createTextPart (content : string) (styles : Styles) : StyledRun :=
  mkRun "text" content styles.

Definition newStylesFor (tag : string) (styles : Styles) : Styles :=
  let s1 := if String.eqb tag "strong" || String.eqb tag "b"
            then mkStyles true (italics styles) (underline styles) else styles in
  let s2 := if String.eqb tag "em" || String.eqb tag "i"
            then mkStyles (bold s1) true (underline s1) else s1 in
  if String.eqb tag "u" then mkStyles (bold s2) (italics s2) true else s2.

(** The body of the replace callback: [acc] is [(result, lastIndex)]. *)
Definition segmentCallback (str : string) (styles : Styles)
    (recur : string -> Styles -> option (list StyledRun))
    (acc : option (list StyledRun * nat)) (m : RegExpMatch)
    : option (list StyledRun * nat) :=
  '(result, lastIndex) ← acc;
  let plainText := slice str lastIndex (m_offset m) in
  let result :=
    if isEmpty plainText then result
    else result ++ [createTextPart plainText styles] in
  inner ← recur (m_inner m) (newStylesFor (m_tag m) styles);
  Some (result ++ inner, m_offset m + String.length (m_match m)).

(** [processSegments]; the recursion is on the inner text of a match, which
    is shorter than the segment, so [fuel] above the length of the segment
    is never used up ([processSegmentsF_contents]). *)
Fixpoint processSegmentsF (fuel : nat) (str : string) (styles : Styles)
    : option (list StyledRun) :=
  match fuel with
  | 0 => None
  | S fuel' =>
      if isEmpty str then Some [createTextPart EmptyString styles]
      else
        '(result, lastIndex) ←
          fold_left (segmentCallback str styles (processSegmentsF fuel'))
                    (matchAll str) (Some ([], 0));
        let remainingText := sliceFrom str lastIndex in
        Some (if isEmpty remainingText then result
              else result ++ [createTextPart remainingText styles])
  end.

Definition processSegments (str : string) (styles : Styles)
    : option (list StyledRun) :=
  processSegmentsF (S (String.length str)) str styles.

(** [htmlString.replace(/<[^>]*>/g, '')]: [inTag] holds while a tag, whose
    closing [>] is known to exist, is being passed over. *)
Fixpoint removeTagsGo (inTag : bool) (s : string) : string :=
  match s with
  | EmptyString => EmptyString
  | String c s' =>
      if inTag then
        if Ascii.eqb c ">" then removeTagsGo false s' else removeTagsGo true s'
      else if Ascii.eqb c "<" && includes ">" s' then removeTagsGo true s'
      else String c (removeTagsGo false s')
  end.

Definition removeTags (s : string) : string := removeTagsGo false s.

(** [/<u-org>[\s\S]*?<\/u-org>/g.test(s)]: the expression is not anchored. *)
Fixpoint testSentinel (s : string) : bool :=
  (startsWith "<u-org>" s && includes "</u-org>" (dropStr 7 s))
  || match s with
     | EmptyString => false
     | String _ s' => testSentinel s'
     end.

(** What [parseStyledString] may be handed: a string, [null], [undefined],
    or any other value, given by the string its [toString()] returns. *)
Inductive JsInput :=
  | InString (s : string)
  | InNull
  | InUndefined
  | InOther (repr : string).

Inductive Thrown := TypeError.

Inductive Completion (A : Type) :=
  | Normal (a : A)
  | Throw (e : Thrown).
Arguments Normal {A} a.
Arguments Throw {A} e.

(** The outcome of a call: the warnings written to the console and how the
    call completed. *)
Record Outcome := mkOutcome {
  console : list string;
  completion : Completion (list StyledRun)
}.

Section StyledString.

(** [new DOMParser().parseFromString(s, 'text/html').body.textContent]:
    the browser's entity decoding, outside the repository. *)
Variable decodeEntities : string -> string.

Definition stripTags (htmlString : string) : string :=
  if isEmpty htmlString then EmptyString
  else decodeEntities (removeTags htmlString).

Definition parseString (inputString : string) : option (list StyledRun) :=
  let inputString :=
    if testSentinel inputString then stripTags inputString else inputString in
  processSegments inputString noStyles.

Definition warning : string := "warning: inputString is not a string".

(** [None] would mean that [processSegmentsF] ran out of fuel, which does
    not happen ([parseStyledString_returns]). *)
Definition parseStyledString (inputString : JsInput) : option Outcome :=
  match inputString with
  | InString s => mkOutcome [] ∘ Normal <$> parseString s
  | InNull | InUndefined => Some (mkOutcome [warning] (Throw TypeError))
  | InOther repr => mkOutcome [warning] ∘ Normal <$> parseString repr
  end.

End StyledString.

(** The plain text of a styled string as the parser sees it: the opening and
    closing tags of every matched pair removed, inside out; anything else,
    an unmatched tag included, is text. *)
Fixpoint stripPairsF (fuel : nat) (s : string) : string :=
  match fuel, s with
  | S fuel', String c s' =>
      match matchHere s with
      | Some (tag, inner) =>
          stripPairsF fuel' inner
          +:+ stripPairsF fuel' (dropStr (String.length (matchText tag inner)) s)
      | None => String c (stripPairsF fuel' s')
      end
  | _, _ => EmptyString
  end.

Definition stripPairs (s : string) : string := stripPairsF (String.length s) s.

Definition contents (runs : list StyledRun) : string := join (content <$> runs).

(** ** The markup-tree serializer *)

(** The value of a key of the [properties] object built by
    [parseProperties]: an attribute value or a record of sub-fields.  An
    object is the list of its keys in insertion order. *)
Inductive PropVal :=
  | PStr (s : string)
  | PObj (fields : list (string * PropVal)).

Abbreviation Props := (list (string * PropVal)).

Fixpoint getProp {V : Type} (o : list (string * V)) (k : string) : option V :=
  match o with
  | [] => None
  | (k', v) :: o' => if String.eqb k' k then Some v else getProp o' k
  end.

(** [o[k] = v]: an existing key keeps its place. *)
Fixpoint setProp {V : Type} (o : list (string * V)) (k : string) (v : V)
    : list (string * V) :=
  match o with
  | [] => [(k, v)]
  | (k', v') :: o' =>
      if String.eqb k' k then (k, v) :: o' else (k', v') :: setProp o' k v
  end.

Definition propTruthy (v : PropVal) : bool :=
  match v with
  | PStr s => negb (isEmpty s)
  | PObj _ => true
  end.

(** [o.g1 = o.g1 || {}; ...; o.g1...gn.leaf = v].  In module code (strict
    mode) creating a property on a string throws a [TypeError]: [None]. *)
Fixpoint assignPath (o : Props) (groups : list string) (leaf : string)
    (v : PropVal) : option Props :=
  match groups with
  | [] => Some (setProp o leaf v)
  | g :: groups' =>
      let current :=
        match getProp o g with
        | Some x => if propTruthy x then x else PObj []
        | None => PObj []
        end in
      match current with
      | PObj gf => gf' ← assignPath gf groups' leaf v; Some (setProp o g (PObj gf'))
      | PStr _ => None
      end
  end.

(** What a [case] of the [switch] in [parseProperties] does. *)
Inductive Target :=
  | EmptyRecord (key : string)
  | Field (groups : list string) (leaf : string).

(** The [case] labels of the [switch], in source order. *)
Definition translationTable : list (string * Target) :=
  [ ("data-underline", EmptyRecord "underline");
    ("data-positionaltab-alignment", Field ["positionalTab"] "alignment");
    ("data-positionaltab-leader", Field ["positionalTab"] "leader");
    ("data-positionaltab-relativeto", Field ["positionalTab"] "relativeTo");
    ("data-spacing-before", Field ["spacing"] "before");
    ("data-spacing-after", Field ["spacing"] "after");
    ("data-transformation-width", Field ["transformation"] "width");
    ("data-transformation-height", Field ["transformation"] "height");
    ("data-bullet-level", Field ["bullet"] "level");
    ("data-numbering-reference", Field ["numbering"] "reference");
    ("data-numbering-level", Field ["numbering"] "level");
    ("data-numbering-instance", Field ["numbering"] "instance");
    ("data-alttext-title", Field ["altText"] "title");
    ("data-alttext-description", Field ["altText"] "description");
    ("data-alttext-name", Field ["altText"] "name");
    ("data-width-size", Field ["width"] "size");
    ("data-width-type", Field ["width"] "type");
    ("data-margins-top", Field ["margins"] "top");
    ("data-margins-bottom", Field ["margins"] "bottom");
    ("data-margins-left", Field ["margins"] "left");
    ("data-margins-right", Field ["margins"] "right");
    ("data-borders-top-style", Field ["borders"; "top"] "style");
    ("data-borders-top-size", Field ["borders"; "top"] "size");
    ("data-borders-top-color", Field ["borders"; "top"] "color");
    ("data-borders-bottom-style", Field ["borders"; "bottom"] "style");
    ("data-borders-bottom-size", Field ["borders"; "bottom"] "size");
    ("data-borders-bottom-color", Field ["borders"; "bottom"] "color");
    ("data-borders-left-style", Field ["borders"; "left"] "style");
    ("data-borders-left-size", Field ["borders"; "left"] "size");
    ("data-borders-left-color", Field ["borders"; "left"] "color");
    ("data-borders-right-style", Field ["borders"; "right"] "style");
    ("data-borders-right-size", Field ["borders"; "right"] "size");
    ("data-borders-right-color", Field ["borders"; "right"] "color");
    ("data-image-type", Field [] "imageType");
    ("data-floating-horizontalposition-align",
       Field ["floating"; "horizontalPosition"] "align");
    ("data-floating-verticalposition-align",
       Field ["floating"; "verticalPosition"] "align");
    ("data-floating-verticalposition-relative",
       Field ["floating"; "verticalPosition"] "relative") ].

(** The [default] branch: [attr.name.replace('data-', '')]. *)
Definition flatKey (name : string) : string := replaceFirst "data-" "" name.

Definition isDataAttribute (name : string) : bool :=
  startsWith "data-" name && negb (String.eqb name "data-type").

(** One turn of the [for ... of] loop over the attributes. *)
Definition parseAttribute (properties : option Props) (attr : string * string)
    : option Props :=
  p ← properties;
  let '(name, value) := attr in
  if isDataAttribute name then
    match getProp translationTable name with
    | Some (EmptyRecord key) => Some (setProp p key (PObj []))
    | Some (Field groups leaf) => assignPath p groups leaf (PStr value)
    | None =>
        (* [properties['__proto__'] = value] runs the setter inherited from
           [Object.prototype], which ignores a string: no key is created *)
        if String.eqb (flatKey name) "__proto__" then Some p
        else Some (setProp p (flatKey name) (PStr value))
    end
  else Some p.

Definition parseProperties (attributes : list (string * string)) : option Props :=
  fold_left parseAttribute attributes (Some []).

(** A node of the parsed document: a text node, an element with its
    attributes in document order (names distinct), or any other node. *)
Inductive Node :=
  | TextNode (nodeValue : string)
  | ElementNode (tagName : string) (attributes : list (string * string))
                (childNodes : list Node)
  | OtherNode.

(** The values [nodeToObject] returns and builds. *)
Inductive JsVal :=
  | JUndefined
  | JNull
  | JStr (s : string)
  | JObj (fields : list (string * JsVal))
  | JArr (items : list JsVal).

Fixpoint ofPropVal (v : PropVal) : JsVal :=
  match v with
  | PStr s => JStr s
  | PObj fs => JObj ((fun kv => (kv.1, ofPropVal kv.2)) <$> fs)
  end.

Definition jsTruthy (v : JsVal) : bool :=
  match v with
  | JUndefined | JNull => false
  | JStr s => negb (isEmpty s)
  | JObj _ | JArr _ => true
  end.

(** [String.prototype.toLowerCase] on the code units below 256. *)
Definition lowerChar (c : ascii) : ascii :=
  let n := N_of_ascii c in
  if ((65 <=? n) && (n <=? 90)
      || (192 <=? n) && (n <=? 222) && negb (n =? 215))%N
  then ascii_of_N (n + 32) else c.

Fixpoint toLowerCase (s : string) : string :=
  match s with
  | EmptyString => EmptyString
  | String c s' => String (lowerChar c) (toLowerCase s')
  end.

(** An element of an array as [join] prints it. *)
Fixpoint joinElem (v : JsVal) : string :=
  match v with
  | JUndefined | JNull => EmptyString
  | JStr s => s
  | JObj _ => "[object Object]"
  | JArr l =>
      (fix commas (l : list JsVal) : string :=
         match l with
         | [] => EmptyString
         | [x] => joinElem x
         | x :: l' => joinElem x +:+ "," +:+ commas l'
         end) l
  end.

(** [child.content] *)
Definition contentOf (child : JsVal) : JsVal :=
  match child with
  | JObj fs => default JUndefined (getProp fs "content")
  | _ => JUndefined
  end.

(** [children.push(...childObject)] or [children.push(childObject)] *)
Definition pushSpread (children : list JsVal) (childObject : JsVal) : list JsVal :=
  if jsTruthy childObject then
    match childObject with
    | JArr xs => children ++ xs
    | _ => children ++ [childObject]
    end
  else children.

(** [children.push(childObject)] of the [contentWrapper] branch *)
Definition pushPlain (children : list JsVal) (childObject : JsVal) : list JsVal :=
  if jsTruthy childObject then children ++ [childObject] else children.

Definition typeOf (tagName : string) (attributes : list (string * string)) : string :=
  match getProp attributes "data-type" with
  | Some v => if isEmpty v then toLowerCase tagName else v
  | None => toLowerCase tagName
  end.

Definition textObject (content : string) : JsVal :=
  JObj [("type", JStr "text"); ("content", JStr content)].

(** [{ type, ...properties }] *)
Definition spreadProps (type : string) (properties : Props) : list (string * JsVal) :=
  fold_left (fun o kv => setProp o kv.1 (ofPropVal kv.2)) properties
            [("type", JStr type)].

(** The loop [for (const child of childNodes)] that [nodeToObject] runs in
    two branches and [htmlToDocx] on the body: each child is converted and
    its result pushed. *)
Definition reduceChildren (convert : Node -> option JsVal)
    (push : list JsVal -> JsVal -> list JsVal) (childNodes : list Node)
    : option (list JsVal) :=
  fold_left (fun children child =>
               c ← children; childObject ← convert child;
               Some (push c childObject))
            childNodes (Some []).

(** [nodeToObject]; [None] when [parseProperties] throws. *)
Fixpoint nodeToObject (node : Node) : option JsVal :=
  match node with
  | TextNode nodeValue =>
      Some (if isEmpty (trim nodeValue) then JNull else textObject nodeValue)
  | ElementNode tagName attributes childNodes =>
      let type := typeOf tagName attributes in
      if String.eqb type "emptyLine" then Some JNull
      else if String.eqb type "contentWrapper" then
        JArr <$> reduceChildren nodeToObject pushPlain childNodes
      else
        properties ← parseProperties attributes;
        children ← reduceChildren nodeToObject pushSpread childNodes;
        let obj := spreadProps type properties in
        Some (JObj
          (if String.eqb type "text" then
             setProp obj "content" (JStr (join (joinElem ∘ contentOf <$> children)))
           else if bool_decide (0 < length children) then
             setProp obj "children" (JArr children)
           else obj))
  | OtherNode => Some JNull
  end.

(** [htmlToDocx] on the child nodes of the parsed document's body. *)
Definition htmlToDocx (bodyChildNodes : list Node) : option (list JsVal) :=
  reduceChildren nodeToObject pushSpread bodyChildNodes.

(** ** The block-content normalizer *)

(** [parseBlockContent] works on objects and arrays shared with its caller,
    so the store is explicit.  A value is a primitive (numbers, which the
    normalizer never inspects, are left out) or a reference; a cell of the
    store is an object: its named fields, in insertion order, and, for an
    array, its elements.  A computation threads the store and may throw
    ([None]; the only exception the normalizer can raise is a
    [TypeError]). *)

Abbreviation loc := nat.

Inductive val :=
  | VUndefined
  | VNull
  | VBool (b : bool)
  | VStr (s : string)
  | VRef (l : loc).

Record cell := mkCell {
  fields : list (string * val);
  elems : option (list val)
}.

(** [delete o[k]] *)
Fixpoint deleteProp {V : Type} (o : list (string * V)) (k : string)
    : list (string * V) :=
  match o with
  | [] => []
  | (k', v) :: o' =>
      if String.eqb k' k then deleteProp o' k else (k', v) :: deleteProp o' k
  end.

Abbreviation heap := (list cell).

Definition M (A : Type) : Type := heap -> option (A * heap).

Definition throw {A} : M A := fun _ => None.

Global Instance M_ret : MRet M := fun A a h => Some (a, h).
Global Instance M_bind : MBind M := fun A B k m h =>
  match m h with
  | Some (a, h') => k a h'
  | None => None
  end.

Definition truthy (v : val) : bool :=
  match v with
  | VUndefined | VNull => false
  | VBool b => b
  | VStr s => negb (isEmpty s)
  | VRef _ => true
  end.

Definition readCell (l : loc) : M cell :=
  fun h => match h !! l with Some c => Some (c, h) | None => None end.

Definition writeCell (l : loc) (c : cell) : M unit :=
  fun h => if bool_decide (l < length h) then Some ((), <[l := c]> h) else None.

Definition alloc (c : cell) : M val :=
  fun h => Some (VRef (length h), h ++ [c]).

(** [[]] and [{}] *)
Definition newArray (items : list val) : M val := alloc (mkCell [] (Some items)).
Definition newObject : M val := alloc (mkCell [] None).

(** [v.k], for the field names the normalizer reads (no built-in property
    of a primitive or of an array is among them) *)
Definition getField (k : string) (v : val) : M val :=
  match v with
  | VUndefined | VNull => throw
  | VBool _ | VStr _ => mret VUndefined
  | VRef l => c ← readCell l; mret (default VUndefined (getProp (fields c) k))
  end.

(** [v?.k] *)
Definition optField (k : string) (v : val) : M val :=
  match v with
  | VUndefined | VNull => mret VUndefined
  | _ => getField k v
  end.

(** [v.k = x]; on a primitive it throws in strict mode. *)
Definition setField (k : string) (x : val) (v : val) : M unit :=
  match v with
  | VRef l => c ← readCell l; writeCell l (mkCell (setProp (fields c) k x) (elems c))
  | _ => throw
  end.

(** [delete v.k] *)
Definition deleteField (k : string) (v : val) : M unit :=
  match v with
  | VUndefined | VNull => throw
  | VBool _ | VStr _ => mret ()
  | VRef l => c ← readCell l; writeCell l (mkCell (deleteProp (fields c) k) (elems c))
  end.

(** The elements of the array [v] refers to; anything else has none of the
    array methods the normalizer calls. *)
Definition readArray (v : val) : M (list val) :=
  match v with
  | VRef l =>
      c ← readCell l;
      match elems c with Some xs => mret xs | None => throw end
  | _ => throw
  end.

(** [arr.push(x1, ..., xn)] *)
Definition push (xs : list val) (arr : val) : M unit :=
  match arr with
  | VRef l =>
      c ← readCell l;
      match elems c with
      | Some ys => writeCell l (mkCell (fields c) (Some (ys ++ xs)))
      | None => throw
      end
  | _ => throw
  end.

(** [arr.forEach(f)]: the length is read once, each element when its turn
    comes. *)
Fixpoint forEachFrom (arr : val) (i n : nat) (f : val -> M unit) : M unit :=
  match n with
  | 0 => mret ()
  | S n' =>
      xs ← readArray arr;
      match xs !! i with Some x => f x | None => mret () end;;
      forEachFrom arr (S i) n' f
  end.

Definition forEach (arr : val) (f : val -> M unit) : M unit :=
  xs ← readArray arr; forEachFrom arr 0 (length xs) f.

(** [arr.filter((p) => p)] *)
Definition filterTruthy (arr : val) : M val :=
  xs ← readArray arr; newArray (List.filter truthy xs).

(** [x || []] and [x || {}] *)
Definition orArray (x : val) : M val := if truthy x then mret x else newArray [].
Definition orObject (x : val) : M val := if truthy x then mret x else newObject.

Definition isString (s : string) (v : val) : bool :=
  match v with VStr s' => String.eqb s' s | _ => false end.

(** What one [item] of [splitByBrTag] contributes to [result]:
    [item.includes(delimiter) ? item.split(delimiter) : [item]].  Only
    strings and arrays have [includes]; only strings have [split]. *)
Definition splitItem (delimiter : string) (item : val) : M (list val) :=
  match item with
  | VStr s =>
      mret (if includes delimiter s then VStr <$> split delimiter s else [item])
  | VRef _ =>
      xs ← readArray item;
      if existsb (isString delimiter) xs then throw else mret [item]
  | _ => throw
  end.

Definition splitByBrTagWith (delimiter : string) (arr : val) : M val :=
  result ← newArray [];
  forEach arr (fun item => parts ← splitItem delimiter item; push parts result);;
  mret result.

Definition splitByBrTag : val -> M val := splitByBrTagWith "<br>".

(** [item.paragraphs = item.paragraphs.filter((p) => p)] *)
Definition filterParagraphs (item : val) : M unit :=
  p ← getField "paragraphs" item;
  p' ← filterTruthy p;
  setField "paragraphs" p' item.

(** [x?.length] as a condition. *)
Definition optLengthTruthy (x : val) : M bool :=
  match x with
  | VUndefined | VNull | VBool _ => mret false
  | VStr s => mret (negb (isEmpty s))
  | VRef l =>
      c ← readCell l;
      match elems c with
      | Some xs => mret (bool_decide (0 < length xs))
      | None => mret (truthy (default VUndefined (getProp (fields c) "length")))
      end
  end.

(** The object [parseBlockContent] returns. *)
Record BlockContent := mkBlockContent {
  pretitle : val;
  title : val;
  subtitle : val;
  description : val;
  paragraphs : val;
  images : val;
  links : val;
  lists : val;
  tables : val;
  items : val;
  properties : val
}.

(** A destructuring default [= '']: it applies to [undefined] only. *)
Definition orEmptyString (v : val) : val :=
  match v with VUndefined => VStr "" | _ => v end.

Section BlockContent.

(** [block.getBlockItems()], the accessor of the content-management
    system: it reads the store and returns the array of items, or throws. *)
Variable getBlockItems : heap -> val -> option val.

Definition callGetBlockItems (block : val) : M val :=
  fun h => match getBlockItems h block with
           | Some v => Some (v, h)
           | None => None
           end.

Definition parseBlockContent (block : val) : M BlockContent :=
  main ← getField "main" block;
  header0 ← optField "header" main;
  header ← orObject header0;
  pretitle ← getField "pretitle" header;
  title ← getField "title" header;
  subtitle ← getField "subtitle" header;
  description ← getField "description" header;
  body0 ← optField "body" main;
  body ← orObject body0;
  items ← callGetBlockItems block;
  forEach items (fun item =>
    banner ← getField "banner" item;
    if truthy banner then
      images ← getField "images" item;
      push [banner] images;;
      deleteField "banner" item
    else mret ());;
  _ ← newArray [];
  _ ← newArray [];
  _ ← newArray [];
  _ ← newArray [];
  tables ← newArray [];
  properties ← newObject;
  paragraphs0 ← getField "paragraphs" body;
  paragraphs ← orArray paragraphs0;
  imgs0 ← getField "imgs" body;
  images ← orArray imgs0;
  links0 ← getField "links" body;
  links ← orArray links0;
  lists0 ← getField "lists" body;
  lists ← orArray lists0;
  mainBanner ← optField "banner" main;
  (if truthy mainBanner then push [mainBanner] images else mret ());;
  paragraphs ← filterTruthy paragraphs;
  forEach items filterParagraphs;;
  forEach lists (fun list => forEach list filterParagraphs);;
  forEach items (fun item =>
    itemLists ← getField "lists" item;
    nonEmpty ← optLengthTruthy itemLists;
    if (nonEmpty : bool) then
      forEach itemLists (fun list => forEach list filterParagraphs)
    else mret ());;
  paragraphs ← splitByBrTag paragraphs;
  forEach items (fun item =>
    p ← getField "paragraphs" item;
    p' ← splitByBrTag p;
    setField "paragraphs" p' item);;
  mret (mkBlockContent (orEmptyString pretitle) (orEmptyString title)
         (orEmptyString subtitle) (orEmptyString description)
         paragraphs images links lists tables items properties).

End BlockContent.

(** ** Predicates and sample data of the statements *)

(** *** Styled strings *)

(** A matched tag pair starts somewhere in [s]. *)
Fixpoint anyTagPair (s : string) : bool :=
  match matchHere s with Some _ => true | None => false end
  || match s with
     | EmptyString => false
     | String _ s' => anyTagPair s'
     end.

(** A markup-free string: no matched pair of style tags and no sentinel
    pair. *)
Definition markupFree (s : string) : bool :=
  negb (anyTagPair s) && negb (testSentinel s).

(** *** The attribute mapping *)

(** [o.g1...gn.leaf], [None] standing for [undefined]. *)
Fixpoint getPath (o : Props) (groups : list string) (leaf : string) : option PropVal :=
  match groups with
  | [] => getProp o leaf
  | g :: groups' =>
      match getProp o g with
      | Some (PObj gf) => getPath gf groups' leaf
      | _ => None
      end
  end.

(** Where the design document says an attribute [name="value"] ends up in
    [properties]: at its nested path when the table names it (an empty
    record for [data-underline]), under its flat key otherwise. *)
Definition placed (properties : Props) (name value : string) : Prop :=
  match getProp translationTable name with
  | Some (EmptyRecord key) => getProp properties key = Some (PObj [])
  | Some (Field groups leaf) => getPath properties groups leaf = Some (PStr value)
  | None => getProp properties (flatKey name) = Some (PStr value)
  end.

(** The first key of the path a table entry writes. *)
Definition targetHead (t : Target) : string :=
  match t with
  | EmptyRecord key => key
  | Field [] leaf => leaf
  | Field (g :: _) _ => g
  end.

(** *** The output tree *)

(** A node of the output proper: an object whose type is not
    [contentWrapper] and whose [children], if any, are such nodes, none of
    them a bare sequence. *)
Fixpoint isMarkupNode (v : JsVal) : bool :=
  match v with
  | JObj fs =>
      (fix fields (l : list (string * JsVal)) : bool :=
         match l with
         | [] => true
         | (k, x) :: l' =>
             (if String.eqb k "type" then
                match x with
                | JStr t => negb (String.eqb t "contentWrapper")
                | _ => false
                end
              else if String.eqb k "children" then
                match x with
                | JArr items =>
                    (fix all (l : list JsVal) : bool :=
                       match l with
                       | [] => true
                       | y :: l' => isMarkupNode y && all l'
                       end) items
                | _ => true
                end
              else true)
             && fields l'
         end) fs
  | _ => false
  end.

(** No object of type [contentWrapper] is met when going down through
    sequences and [children]. *)
Fixpoint wrapperFree (v : JsVal) : bool :=
  match v with
  | JObj fs =>
      (fix fields (l : list (string * JsVal)) : bool :=
         match l with
         | [] => true
         | (k, x) :: l' =>
             (if String.eqb k "type" then
                match x with
                | JStr t => negb (String.eqb t "contentWrapper")
                | _ => true
                end
              else if String.eqb k "children" then
                match x with
                | JArr items =>
                    (fix all (l : list JsVal) : bool :=
                       match l with
                       | [] => true
                       | y :: l' => wrapperFree y && all l'
                       end) items
                | _ => true
                end
              else true)
             && fields l'
         end) fs
  | JArr items =>
      (fix all (l : list JsVal) : bool :=
         match l with
         | [] => true
         | y :: l' => wrapperFree y && all l'
         end) items
  | _ => true
  end.

(** What [wrapperFree] asks of one field of an object. *)
Definition fieldFree (kx : string * JsVal) : bool :=
  if String.eqb kx.1 "type" then
    match kx.2 with
    | JStr t => negb (String.eqb t "contentWrapper")
    | _ => true
    end
  else if String.eqb kx.1 "children" then
    match kx.2 with
    | JArr items => forallb wrapperFree items
    | _ => true
    end
  else true.

(** [<div><span data-type="contentWrapper"><span data-type="contentWrapper">
    <p>x</p></span></span></div>] *)
Definition nestedWrappers : list Node :=
  [ ElementNode "DIV" []
      [ ElementNode "SPAN" [("data-type", "contentWrapper")]
          [ ElementNode "SPAN" [("data-type", "contentWrapper")]
              [ ElementNode "P" [] [TextNode "x"] ] ] ] ].


(** A text node is kept when its trimmed value is not empty. *)
Definition keptText (v : string) : bool := negb (isEmpty (trim v)).

(** The path an attribute is written to and the value written there. *)
Definition effect (name value : string) : list string * string * PropVal :=
  match getProp translationTable name with
  | Some (EmptyRecord key) => ([], key, PObj [])
  | Some (Field groups leaf) => (groups, leaf, PStr value)
  | None => ([], flatKey name, PStr value)
  end.

(** Two paths part ways at some key: neither is a prefix of the other. *)
Fixpoint diverge (p q : list string) : bool :=
  match p, q with
  | x :: p', y :: q' => if String.eqb x y then diverge p' q' else true
  | _, _ => false
  end.

(** The write [o.g1...gn.leaf = v] does not throw: every group on the path
    is absent, an empty string (which [|| {}] replaces) or a record with the
    same property. *)
Fixpoint compatible (o : Props) (groups : list string) : Prop :=
  match groups with
  | [] => True
  | g :: groups' =>
      match getProp o g with
      | None => True
      | Some (PObj gf) => compatible gf groups'
      | Some (PStr s) => s = ""
      end
  end.

Definition fullPath (t : Target) : list string :=
  match t with
  | EmptyRecord key => [key]
  | Field groups leaf => groups ++ [leaf]
  end.

(** The table as a whole: distinct labels write to paths that part ways. *)
Definition tableCoherent : bool :=
  forallb (fun e1 =>
    forallb (fun e2 =>
      String.eqb e1.1 e2.1 || diverge (fullPath e1.2) (fullPath e2.2))
      translationTable)
    translationTable.

Definition effectPath (name : string) : list string :=
  let '(groups, leaf, _) := effect name "" in groups ++ [leaf].

(** The attribute is written nowhere: it is [data-__proto__]. *)
Definition dropped (name : string) : bool :=
  match getProp translationTable name with
  | Some _ => false
  | None => String.eqb (flatKey name) "__proto__"
  end.

Definition sameValue (v w : PropVal) : bool :=
  match v, w with
  | PStr x, PStr y => String.eqb x y
  | PObj [], PObj [] => true
  | _, _ => false
  end.

(** Two attributes do not disturb each other: they are written to paths
    that part ways, or the same value is written to the same path. *)
Definition agree (a b : string * string) : bool :=
  let '(ga, la, va) := effect a.1 a.2 in
  let '(gb, lb, vb) := effect b.1 b.2 in
  diverge (ga ++ [la]) (gb ++ [lb])
  || (bool_decide (ga ++ [la] = gb ++ [lb]) && sameValue va vb).

(** No [data-*] attribute of the element is dropped, and any two of them
    agree.  As the paths of the table part ways and flat keys differ with
    the names, two attributes fail to agree only when the flat key of one,
    outside the table, is the first key of the path of the other, in the
    table; they still agree when that path is the flat key alone
    ([data-imageType] and [data-image-type]) and the values are equal. *)
Definition coverable (attributes : list (string * string)) : bool :=
  forallb (fun a =>
    negb (isDataAttribute a.1)
    || (negb (dropped a.1)
        && forallb (fun b =>
             negb (isDataAttribute b.1) || String.eqb a.1 b.1 || agree a b)
             attributes))
    attributes.

(** [properties.g] is a non-empty string: a write below [g] throws. *)
Definition stuck (o : Props) (g : string) : bool :=
  match getProp o g with
  | Some (PStr s) => negb (isEmpty s)
  | _ => false
  end.

(** The first group of the path a table attribute writes to. *)
Definition firstGroup (name : string) : option string :=
  match getProp translationTable name with
  | Some (Field (g :: _) _) => Some g
  | _ => None
  end.

(** No write to a group of the table goes wrong, but for the groups that
    hold a non-empty string. *)
Definition groupsUsable (o : Props) : Prop :=
  forall name g gs leaf,
    getProp translationTable name = Some (Field (g :: gs) leaf) ->
    stuck o g = true \/ compatible o (g :: gs).

(** A table attribute of the list writes below a key that holds a non-empty
    string. *)
Definition waits (o : Props) (attributes : list (string * string)) : Prop :=
  exists b g, b ∈ attributes /\ firstGroup b.1 = Some g /\ stuck o g = true.

(** A [data-*] attribute outside the table with a non-empty value comes
    before a table attribute whose first group is its flat key. *)
Fixpoint blocked (attributes : list (string * string)) : bool :=
  match attributes with
  | [] => false
  | (name, value) :: rest =>
      (isDataAttribute name
       && bool_decide (getProp translationTable name = None)
       && negb (isEmpty value)
       && existsb (fun b => bool_decide (firstGroup b.1 = Some (flatKey name))) rest)
      || blocked rest
  end.

(** The attributes of an element such as
    [<p class="c" data-type="paragraph" data-spacing-after="50" data-foo="x">]. *)
Definition sampleAttributes : list (string * string) :=
  [ ("class", "c"); ("data-type", "paragraph");
    ("data-spacing-after", "50"); ("data-foo", "x") ].

(** *** What the normalizer leaves alone *)

(** The bound that holds whatever the store shares: [c'] is [c] but for
    its [banner] and [paragraphs] fields and for elements appended to it.
    What happens to each cell of a block that shares nothing is [changed],
    below. *)
Definition cellStable (c c' : cell) : Prop :=
  (forall k : string, k <> "banner" -> k <> "paragraphs" ->
     getProp (fields c') k = getProp (fields c) k)
  /\ match elems c with
     | Some xs => exists ys, elems c' = Some (xs ++ ys)
     | None => elems c' = None
     end.

(** Every object and array of [h] is still there in [h'], changed at most
    as [cellStable] allows. *)
Definition heapStable (h h' : heap) : Prop :=
  forall (l : loc) (c : cell), h !! l = Some c ->
    exists c', h' !! l = Some c' /\ cellStable c c'.

Definition preserves {A : Type} (m : M A) : Prop :=
  forall h a h', m h = Some (a, h') -> heapStable h h'.

(** *** A sample block *)

Definition object (l : list (string * val)) : cell := mkCell l None.
Definition array (l : list val) : cell := mkCell [] (Some l).

(** An accessor that returns the items array kept at [l]. *)
Definition itemsAt (l : loc) : heap -> val -> option val := fun _ _ => Some (VRef l).

(** A store holding one block (at [0]) with a header, a banner, images, the
    block-level paragraphs [ps], one list with one entry (at [8], paragraphs
    [rs]) and one item (at [11], array of items at [10]) with a banner, the
    paragraphs [qs] and one list with one entry (at [16], paragraphs [ts]). *)
Definition blockStore (banner : val) (imgs ps qs rs ts : list val) : heap :=
  [ object [("main", VRef 1)];
    object [("header", VRef 2); ("body", VRef 3); ("banner", banner)];
    object [("title", VStr "T")];
    object [("paragraphs", VRef 4); ("imgs", VRef 5); ("lists", VRef 6)];
    array ps;
    array imgs;
    array [VRef 7];
    array [VRef 8];
    object [("paragraphs", VRef 9)];
    array rs;
    array [VRef 11];
    object [("paragraphs", VRef 12); ("images", VRef 13); ("lists", VRef 14);
            ("banner", VStr "item-banner")];
    array qs;
    array [];
    array [VRef 15];
    array [VRef 16];
    object [("paragraphs", VRef 17)];
    array ts ].

(** [v.paragraphs], as a sequence *)
Definition paragraphsOf (v : val) : M (list val) :=
  p ← getField "paragraphs" v; readArray p.

(** [v.k], as a sequence *)
Definition arrayOf (k : string) (v : val) : M (list val) :=
  p ← getField k v; readArray p.

(** The non-empty strings of a sequence. *)
Definition keep (ss : list string) : list string :=
  List.filter (fun s => negb (isEmpty s)) ss.

(** A paragraph split at the delimiter, when it has one. *)
Definition pieces (delimiter s : string) : list string :=
  if includes delimiter s then split delimiter s else [s].

Definition brPieces (ss : list string) : list string := flat_map (pieces "<br>") ss.

(** The store of the examples: the banner ["B"], one image, and in every
    paragraph sequence a paragraph with a line break and an empty one. *)
Definition sampleStore : heap :=
  blockStore (VStr "B") [VStr "i"]
    [VStr "a<br>b"; VStr ""] [VStr "q<br>r"; VStr ""]
    [VStr "x<br>y"; VStr ""] [VStr "u<br>v"; VStr ""].

(** *** Blocks whose objects and arrays are not shared *)

(** The description of a block in a store: where its objects and arrays
    are and what its sequences hold.  A list entry is the object at
    [entryAt], whose [paragraphs] is the array at [entryParagraphsAt],
    holding [entryParagraphs]. *)
Record EntryD := mkEntryD {
  entryAt : loc;
  entryParagraphsAt : loc;
  entryParagraphs : list val
}.

(** A list is the array at [listAt] of its entries. *)
Record ListD := mkListD {
  listAt : loc;
  listEntries : list EntryD
}.

(** An item is the object at [itemAt]; its [images], when it has the
    array, its [paragraphs] and its [lists], when it has the array. *)
Record ItemD := mkItemD {
  itemAt : loc;
  itemBanner : val;
  itemImagesAt : option loc;
  itemImages : list val;
  itemParagraphsAt : loc;
  itemParagraphs : list val;
  itemListsAt : option loc;
  itemLists : list ListD
}.

(** A block is the object at [blockAt]; [block.main] and [block.main.body]
    are objects or absent, the sequences of the body arrays or absent, and
    [getBlockItems] returns the array at [itemsArrayAt]. *)
Record BlockD := mkBlockD {
  blockAt : loc;
  mainAt : option loc;
  bodyAt : option loc;
  mainBanner : val;
  paragraphsAt : option loc;
  blockParagraphs : list val;
  imgsAt : option loc;
  blockImgs : list val;
  listsAt : option loc;
  blockLists : list ListD;
  itemsArrayAt : loc;
  blockItems : list ItemD
}.

(** [c.k] *)
Definition fieldOf (c : cell) (k : string) : val :=
  default VUndefined (getProp (fields c) k).

(** The array at [l] holds [xs]. *)
Definition arrayAt (h : heap) (l : loc) (xs : list val) : Prop :=
  exists c, h !! l = Some c /\ elems c = Some xs.

(** [v] is the array at [l], holding [xs], or is falsy. *)
Definition optArrayIn (h : heap) (v : val) (o : option loc) (xs : list val) : Prop :=
  match o with
  | Some l => v = VRef l /\ arrayAt h l xs
  | None => truthy v = false /\ xs = []
  end.

Definition entryIn (h : heap) (e : EntryD) : Prop :=
  exists c, h !! entryAt e = Some c
    /\ fieldOf c "paragraphs" = VRef (entryParagraphsAt e)
    /\ arrayAt h (entryParagraphsAt e) (entryParagraphs e).

Definition listIn (h : heap) (l : ListD) : Prop :=
  arrayAt h (listAt l) ((VRef ∘ entryAt) <$> listEntries l)
  /\ Forall (entryIn h) (listEntries l).

(** [v] is the array at [l] of the lists [ls], or is falsy. *)
Definition listsIn (h : heap) (v : val) (o : option loc) (ls : list ListD) : Prop :=
  optArrayIn h v o ((VRef ∘ listAt) <$> ls) /\ Forall (listIn h) ls.

Definition itemIn (h : heap) (it : ItemD) : Prop :=
  exists c, h !! itemAt it = Some c
    /\ fieldOf c "banner" = itemBanner it
    /\ (truthy (itemBanner it) = true -> is_Some (itemImagesAt it))
    /\ (forall l, itemImagesAt it = Some l ->
          fieldOf c "images" = VRef l /\ arrayAt h l (itemImages it))
    /\ fieldOf c "paragraphs" = VRef (itemParagraphsAt it)
    /\ arrayAt h (itemParagraphsAt it) (itemParagraphs it)
    /\ listsIn h (fieldOf c "lists") (itemListsAt it) (itemLists it).

(** Every entry that is not falsy is a string. *)
Definition splittable (xs : list val) : Prop :=
  Forall (fun v => truthy v = true -> exists s, v = VStr s) xs.

(** The strings of a sequence. *)
Definition texts (xs : list val) : list string :=
  omap (fun v => match v with VStr s => Some s | _ => None end) xs.

(** The store [h] holds the block [d]. *)
Definition describes (h : heap) (d : BlockD) : Prop :=
  exists cb cm cbody,
    h !! blockAt d = Some cb
    /\ match mainAt d with
       | Some l => fieldOf cb "main" = VRef l /\ h !! l = Some cm
       | None => (fieldOf cb "main" = VUndefined \/ fieldOf cb "main" = VNull)
                 /\ cm = mkCell [] None
       end
    /\ match fieldOf cm "header" with
       | VRef l => is_Some (h !! l)
       | _ => True
       end
    /\ match bodyAt d with
       | Some l => fieldOf cm "body" = VRef l /\ h !! l = Some cbody
       | None => truthy (fieldOf cm "body") = false /\ cbody = mkCell [] None
       end
    /\ fieldOf cm "banner" = mainBanner d
    /\ optArrayIn h (fieldOf cbody "paragraphs") (paragraphsAt d) (blockParagraphs d)
    /\ optArrayIn h (fieldOf cbody "imgs") (imgsAt d) (blockImgs d)
    /\ listsIn h (fieldOf cbody "lists") (listsAt d) (blockLists d)
    /\ arrayAt h (itemsArrayAt d) ((VRef ∘ itemAt) <$> blockItems d)
    /\ Forall (itemIn h) (blockItems d)
    /\ splittable (blockParagraphs d)
    /\ Forall (fun it => splittable (itemParagraphs it)) (blockItems d).

(** The objects and arrays of the description. *)
Definition entryLocs (e : EntryD) : list loc := [entryAt e; entryParagraphsAt e].

Definition listLocs (l : ListD) : list loc :=
  listAt l :: flat_map entryLocs (listEntries l).

Definition listsLocs (o : option loc) (ls : list ListD) : list loc :=
  option_list o ++ flat_map listLocs ls.

Definition itemLocs (it : ItemD) : list loc :=
  itemAt it :: option_list (itemImagesAt it) ++ [itemParagraphsAt it]
  ++ listsLocs (itemListsAt it) (itemLists it).

Definition blockLocs (d : BlockD) : list loc :=
  blockAt d :: option_list (mainAt d) ++ option_list (bodyAt d)
  ++ option_list (paragraphsAt d) ++ option_list (imgsAt d)
  ++ listsLocs (listsAt d) (blockLists d)
  ++ itemsArrayAt d :: flat_map itemLocs (blockItems d).

(** No object or array of the block is shared: the places of the
    description are distinct. *)
Definition separated (d : BlockD) : Prop := NoDup (blockLocs d).

(** The entries of lists. *)
Definition entriesOf (ls : list ListD) : list EntryD := flat_map listEntries ls.

(** Every list entry of the block and of its items. *)
Definition blockEntries (d : BlockD) : list EntryD :=
  entriesOf (blockLists d) ++ flat_map (fun it => entriesOf (itemLists it)) (blockItems d).

(** [getBlockItems] returns the array of items, whatever has been created
    since the call. *)
Definition accessor (getBlockItems : heap -> val -> option val) (h : heap) (d : BlockD)
    : Prop :=
  forall news, getBlockItems (h ++ news) (VRef (blockAt d)) = Some (VRef (itemsArrayAt d)).

(** What the call may have done to the cell at [l], [c] before and [c']
    after, in a store that had [n] cells:
    - an item has lost its banner, if it had one, and has a new sequence
      under [paragraphs];
    - the [images] of an item that had a banner have gained it;
    - a list entry has a new sequence under [paragraphs];
    - [block.main.body.imgs] has gained the banner of the block, if it has
      one;
    - any other cell is as it was. *)
Definition changed (d : BlockD) (n : nat) (l : loc) (c c' : cell) : Prop :=
  (forall it, it ∈ blockItems d -> l = itemAt it ->
     elems c' = elems c
     /\ (forall k : string, k <> "banner" -> k <> "paragraphs" ->
           getProp (fields c') k = getProp (fields c) k)
     /\ getProp (fields c') "banner"
        = (if truthy (itemBanner it) then None else getProp (fields c) "banner")
     /\ exists p, getProp (fields c') "paragraphs" = Some (VRef p) /\ n <= p)
  /\ (forall it, it ∈ blockItems d -> itemImagesAt it = Some l ->
        fields c' = fields c
        /\ elems c' = (if truthy (itemBanner it)
                       then Some (itemImages it ++ [itemBanner it])
                       else elems c))
  /\ (forall e, e ∈ blockEntries d -> l = entryAt e ->
        elems c' = elems c
        /\ (forall k : string, k <> "paragraphs" ->
              getProp (fields c') k = getProp (fields c) k)
        /\ exists p, getProp (fields c') "paragraphs" = Some (VRef p) /\ n <= p)
  /\ (imgsAt d = Some l ->
        fields c' = fields c
        /\ elems c' = (if truthy (mainBanner d) then Some (blockImgs d ++ [mainBanner d])
                       else elems c))
  /\ ((forall it, it ∈ blockItems d -> l <> itemAt it /\ itemImagesAt it <> Some l) ->
      (forall e, e ∈ blockEntries d -> l <> entryAt e) ->
      imgsAt d <> Some l ->
      c' = c).

(** The places the call writes to. *)
Definition written (d : BlockD) : list loc :=
  flat_map (fun it => itemAt it :: option_list (itemImagesAt it)) (blockItems d)
  ++ (entryAt <$> blockEntries d) ++ option_list (imgsAt d).

(** [H] has every cell of [h] as it is in [h], the cells at [D] apart. *)
Definition stableOutside (D : list loc) (h H : heap) : Prop :=
  length h <= length H
  /\ forall l, l < length h -> l ∉ D -> H !! l = h !! l.

(** A cell after [banner] has been pushed to its elements [xs], if it is
    not falsy. *)
Definition pushedTo (banner : val) (xs : list val) (c : cell) : cell :=
  if truthy banner then mkCell (fields c) (Some (xs ++ [banner])) else c.

(** The cell of an item after its banner has been moved. *)
Definition afterBanner (it : ItemD) (c : cell) : cell :=
  if truthy (itemBanner it) then mkCell (deleteProp (fields c) "banner") (elems c) else c.

(** [c] with [paragraphs] set to the array at [p]. *)
Definition withParagraphs (c : cell) (p : loc) : cell :=
  mkCell (setProp (fields c) "paragraphs" (VRef p)) (elems c).

(** In [H], the object at [l], which was [c] in [h0], is [base c] with,
    under [paragraphs], an array that holds [xs]; the array is one of [own]
    or was created after the store had [b] cells. *)
Definition holdsParagraphs (h0 : heap) (b : nat) (own : list loc) (l : loc)
    (base : cell -> cell) (xs : list val) (H : heap) : Prop :=
  exists c p,
    h0 !! l = Some c
    /\ (p ∈ own \/ b <= p)
    /\ H !! l = Some (withParagraphs (base c) p)
    /\ arrayAt H p xs.

(** The cell at [l], [c] in [h0], is [f c] in [H]. *)
Definition cellBecomes (h0 H : heap) (l : loc) (f : cell -> cell) : Prop :=
  exists c, h0 !! l = Some c /\ H !! l = Some (f c).

(** The states of the objects of a block in the course of the call, in a
    store [H] that began as [h0] with [b] cells. *)

(** A list entry before its paragraphs are filtered, and after. *)
Definition entryReady (h0 : heap) (b : nat) (H : heap) (e : EntryD) : Prop :=
  holdsParagraphs h0 b [entryParagraphsAt e] (entryAt e) id (entryParagraphs e) H.

Definition entryFiltered (h0 : heap) (b : nat) (H : heap) (e : EntryD) : Prop :=
  holdsParagraphs h0 b [] (entryAt e) id (List.filter truthy (entryParagraphs e)) H.

Definition listReady (h0 : heap) (b : nat) (H : heap) (l : ListD) : Prop :=
  arrayAt H (listAt l) ((VRef ∘ entryAt) <$> listEntries l)
  /\ forall e, e ∈ listEntries l -> entryReady h0 b H e.

(** The lists of an item before the loop over them. *)
Definition itemListsReady (h0 : heap) (b : nat) (H : heap) (it : ItemD) : Prop :=
  (exists c, H !! itemAt it = Some c
     /\ optArrayIn H (fieldOf c "lists") (itemListsAt it) ((VRef ∘ listAt) <$> itemLists it))
  /\ forall l, l ∈ itemLists it -> listReady h0 b H l.

(** An item before its banner is moved, and after. *)
Definition bannerReady (h0 H : heap) (it : ItemD) : Prop :=
  cellBecomes h0 H (itemAt it) id
  /\ forall l, itemImagesAt it = Some l -> cellBecomes h0 H l id.

Definition bannerMoved (h0 H : heap) (it : ItemD) : Prop :=
  cellBecomes h0 H (itemAt it) (afterBanner it)
  /\ forall l, itemImagesAt it = Some l ->
       cellBecomes h0 H l (pushedTo (itemBanner it) (itemImages it)).

(** An item with its paragraphs filtered, and split. *)
Definition itemFiltered (h0 : heap) (b : nat) (H : heap) (it : ItemD) : Prop :=
  holdsParagraphs h0 b [] (itemAt it) (afterBanner it)
    (List.filter truthy (itemParagraphs it)) H.

Definition itemSplit (h0 : heap) (b : nat) (H : heap) (it : ItemD) : Prop :=
  holdsParagraphs h0 b [] (itemAt it) (afterBanner it)
    (VStr <$> brPieces (texts (List.filter truthy (itemParagraphs it)))) H.

(** The places of the description the call only reads. *)
Definition readLists (o : option loc) (ls : list ListD) : list loc :=
  option_list o
  ++ flat_map (fun l => listAt l :: (entryParagraphsAt <$> listEntries l)) ls.

Definition readOnly (d : BlockD) : list loc :=
  blockAt d :: option_list (mainAt d) ++ option_list (bodyAt d)
  ++ option_list (paragraphsAt d)
  ++ readLists (listsAt d) (blockLists d)
  ++ itemsArrayAt d
     :: flat_map (fun it => itemParagraphsAt it
                            :: readLists (itemListsAt it) (itemLists it))
          (blockItems d).

(** The description of [sampleStore]. *)
Definition sampleBlock : BlockD :=
  mkBlockD 0 (Some 1) (Some 3) (VStr "B")
    (Some 4) [VStr "a<br>b"; VStr ""]
    (Some 5) [VStr "i"]
    (Some 6) [mkListD 7 [mkEntryD 8 9 [VStr "x<br>y"; VStr ""]]]
    10
    [mkItemD 11 (VStr "item-banner") (Some 13) [] 12 [VStr "q<br>r"; VStr ""]
       (Some 14) [mkListD 15 [mkEntryD 16 17 [VStr "u<br>v"; VStr ""]]]].

(** ** Further definitions *)

(** *** The parser as a recursive descent *)

(** The first match of the style expression in [s]: the text before it, its
    tag, its inner text and the text after it. *)
Fixpoint firstMatch (s : string) : option (string * string * string * string) :=
  match matchHere s with
  | Some (tag, inner) =>
      Some (EmptyString, tag, inner, dropStr (String.length (matchText tag inner)) s)
  | None =>
      match s with
      | EmptyString => None
      | String c s' =>
          match firstMatch s' with
          | Some (pre, tag, inner, rest) => Some (String c pre, tag, inner, rest)
          | None => None
          end
      end
  end.

(** A run for a piece of text, unless the piece is empty. *)
Definition plainRun (text : string) (styles : Styles) : list StyledRun :=
  if isEmpty text then [] else [createTextPart text styles].

(** The runs of a non-empty segment, read off as a recursive descent: the
    text before the first matched pair, the inner text of the pair with the
    style of its tag added, then the runs of the text after the pair. *)
Fixpoint segmentsF (fuel : nat) (s : string) (styles : Styles) : list StyledRun :=
  match fuel with
  | 0 => []
  | S fuel' =>
      match firstMatch s with
      | None => plainRun s styles
      | Some (pre, tag, inner, rest) =>
          plainRun pre styles
          ++ (let styles' := newStylesFor tag styles in
              if isEmpty inner then [createTextPart EmptyString styles']
              else segmentsF fuel' inner styles')
          ++ segmentsF fuel' rest styles
      end
  end.

Definition descend (s : string) (styles : Styles) : list StyledRun :=
  if isEmpty s then [createTextPart EmptyString styles]
  else segmentsF (S (String.length s)) s styles.

(** Every flag of [st1] is a flag of [st2]. *)
Definition stylesWithin (st1 st2 : Styles) : bool :=
  implb (bold st1) (bold st2) && implb (italics st1) (italics st2)
  && implb (underline st1) (underline st2).

(** No [<] of [s] is followed, anywhere later, by a [>]: nothing in [s] is
    a tag for [stripTags]. *)
Fixpoint tagFree (s : string) : bool :=
  match s with
  | EmptyString => true
  | String c s' => negb (Ascii.eqb c "<" && includes ">" s') && tagFree s'
  end.

Fixpoint allWordChars (s : string) : bool :=
  match s with
  | EmptyString => true
  | String c s' => isWordChar c && allWordChars s'
  end.

(** Some opening tag of [tags] occurs in [s]. *)
Definition tagSeen (tags : list string) (s : string) : bool :=
  existsb (fun t => includes (openTag t) s) tags.

(** A style of a run is either inherited or comes with one of its tags. *)
Definition styleExplained (s : string) (st : Styles) (r : StyledRun) : Prop :=
  (bold (styles r) = true -> bold st = true \/ tagSeen ["strong"; "b"] s = true)
  /\ (italics (styles r) = true -> italics st = true \/ tagSeen ["em"; "i"] s = true)
  /\ (underline (styles r) = true -> underline st = true \/ tagSeen ["u"] s = true).

Fixpoint occurs (a : ascii) (s : string) : bool :=
  match s with
  | EmptyString => false
  | String c s' => Ascii.eqb a c || occurs a s'
  end.

(** *** The serializer's view of a node *)

(** The nodes [nodeToObject] answers with [null]: a text node of white
    space, an element of type [emptyLine], a node that is neither text nor
    element. *)
Definition ignored (n : Node) : bool :=
  match n with
  | TextNode nodeValue => isEmpty (trim nodeValue)
  | ElementNode tagName attributes _ => String.eqb (typeOf tagName attributes) "emptyLine"
  | OtherNode => true
  end.

Definition isWrapper (n : Node) : bool :=
  match n with
  | ElementNode tagName attributes _ =>
      String.eqb (typeOf tagName attributes) "contentWrapper"
  | _ => false
  end.

(** The loop over the children from an accumulator on. *)
Definition reduceFrom (push : list JsVal -> JsVal -> list JsVal)
    (acc : option (list JsVal)) (nodes : list Node) : option (list JsVal) :=
  fold_left (fun children child =>
               c ← children; childObject ← nodeToObject child;
               Some (push c childObject)) nodes acc.

(** Both ways of pushing append to what was collected. *)
Definition appends (push : list JsVal -> JsVal -> list JsVal) : Prop :=
  forall acc v, push acc v = acc ++ push [] v.

(** *** Strings joined and split *)

(** [arr.join(sep)] over strings. *)
Fixpoint joinWith (sep : string) (l : list string) : string :=
  match l with
  | [] => EmptyString
  | [x] => x
  | x :: l' => x +:+ sep +:+ joinWith sep l'
  end.

(** *** The format of an image ([Image]) *)



(** *** Values without [includes] *)

(** The values on which [item.includes] is not a function, or [item] has
    no property at all: everything but strings and objects. *)
Definition noIncludes (v : val) : bool :=
  match v with
  | VUndefined | VNull | VBool _ => true
  | VStr _ | VRef _ => false
  end.

(** *** [mergeListParagraphs] *)

(** An item of the list, as far as the function reads it: the strings of
    its [paragraphs].  [None] is a list that is [null] or [undefined]. *)
Definition mergeListParagraphs (list : option (list (list string))) : string :=
  match list with
  | Some items =>
      fold_left (fun paragraph paragraphs =>
                   paragraph +:+ "<span>" +:+ join paragraphs +:+ "</span>")
                items EmptyString
  | None => EmptyString
  end.

Definition isObject (v : JsVal) : Prop := exists fs, v = JObj fs.

(** *** [findSecondLeadingText] *)

(** [s.endsWith(suffix)] *)
Definition endsWith (suffix s : string) : bool :=
  (String.length suffix <=? String.length s)
  && String.eqb (dropStr (String.length s - String.length suffix) s) suffix.

(** [[a-z]] with the [i] flag *)
Definition isLetter (c : ascii) : bool :=
  let n := N_of_ascii c in
  ((65 <=? n) && (n <=? 90) || (97 <=? n) && (n <=? 122))%N.

Definition isAngle (c : ascii) : bool := Ascii.eqb c "<" || Ascii.eqb c ">".

(** The first alternative of [/(<\/?[a-z][^>]*>)|([^<>]+)/gi] at the head
    of [s]: the length of the match.  The tag runs to the first [>]. *)
Definition tagAt (s : string) : option nat :=
  match s with
  | String "<" s1 =>
      let '(slash, s2) :=
        match s1 with
        | String "/" s2 => (1, s2)
        | _ => (0, s1)
        end in
      match s2 with
      | String c s3 =>
          if isLetter c then
            match indexOf ">" s3 with
            | Some j => Some (1 + slash + 1 + j + 1)
            | None => None
            end
          else None
      | EmptyString => None
      end
  | _ => None
  end.

(** The second alternative: the longest run without [<] and [>]. *)
Fixpoint textRun (s : string) : string :=
  match s with
  | String c s' => if isAngle c then EmptyString else String c (textRun s')
  | EmptyString => EmptyString
  end.

(** [htmlString.match(regex) || []]: the matches from left to right;
    [skip] counts the code units of the current match still to be passed
    over. *)
Fixpoint matchParts (skip : nat) (s : string) : list string :=
  match s with
  | EmptyString => []
  | String _ s' =>
      match skip with
      | S k => matchParts k s'
      | 0 =>
          match tagAt s with
          | Some n => takeStr n s :: matchParts (n - 1) s'
          | None =>
              let t := textRun s in
              if isEmpty t then matchParts 0 s'
              else t :: matchParts (String.length t - 1) s'
          end
      end
  end.

(** The list is given by the paragraphs of its items. *)
Definition findSecondLeadingText (list : list (list string)) : string :=
  let htmlString :=
    match list !! 1 with
    | Some paragraphs =>
        match paragraphs !! 0 with
        | Some p => p
        | None => EmptyString
        end
    | None => EmptyString
    end in
  let parts := matchParts 0 htmlString in
  let strippedParts :=
    (fun part => if startsWith "<" part && endsWith ">" part then EmptyString else part)
      <$> parts in
  let filteredParts :=
    List.filter (fun part => negb (String.eqb part EmptyString)) strippedParts in
  match filteredParts with
  | p :: _ => p
  | [] => EmptyString
  end.

Fixpoint angleFree (s : string) : bool :=
  match s with
  | EmptyString => true
  | String c s' => negb (isAngle c) && angleFree s'
  end.

(** ** The components, as the markup that reaches the serializer

    A component is given by the element the serializer finds in the
    document for it: what React renders, written out as a string and read
    back by the HTML parser of [htmlToDocx].  A host element
    [<tag a='v' ...>] is an [ElementNode] with its attributes in the order
    the properties are written, a later property of the same name taking
    the place of an earlier one ([setProp]); [className] reaches the
    document as [class]; a data attribute set to [true] as the string
    [true]; a [Fragment] leaves no node.  A string child is a text node,
    the empty string none.

    Three things are outside the repository and are parameters.  Class
    names are computed by the [tailwind-merge] library: [twJoin].  The
    HTML parser does not hand back every string as it was written: it
    turns a carriage return into a line feed, for one; [textValue] is what
    it reads back from a string written as text, [attrValue] from a string
    written as the value of an attribute.  The properties a caller passes
    on ([props]) are given by the attributes they reach the document as.
    The serializer reads no attribute but the [data-] ones. *)

(** [{ ...a, ...b }] *)
Definition spread (a b : list (string * string)) : list (string * string) :=
  fold_left (fun o kv => setProp o kv.1 kv.2) b a.

(** [TextRun]: [<span {...props} data-type='text'>{children}</span>] *)
Definition TextRun (props : list (string * string)) (children : list Node) : Node :=
  ElementNode "SPAN" (setProp props "data-type" "text") children.

(** [dataAttributes] of [createTextRun] *)
Definition dataAttributes (text : StyledRun) : list (string * string) :=
  let d0 := [] in
  let d1 := if italics (styles text) then setProp d0 "data-italics" "true" else d0 in
  let d2 := if bold (styles text) then setProp d1 "data-bold" "true" else d1 in
  if underline (styles text) then setProp d2 "data-underline" "true" else d2.

(** [parsed.findIndex(p)], [None] standing for [-1] *)
Fixpoint findIndexFrom {A : Type} (p : A -> bool) (i : nat) (l : list A) : option nat :=
  match l with
  | [] => None
  | x :: l' => if p x then Some i else findIndexFrom p (S i) l'
  end.

Definition findIndex {A : Type} (p : A -> bool) (l : list A) : option nat :=
  findIndexFrom p 0 l.

(** [i < targetIndex] *)
Definition before (i : nat) (targetIndex : option nat) : bool :=
  match targetIndex with
  | Some k => i <? k
  | None => false
  end.

(** The two columns of [Paragraph].  The parts of [parsed] are objects made
    one by one by [createTextPart], so [parsed.indexOf(text)] is the place
    of [text] in [parsed]: the loop runs over the parts with their
    places. *)
Definition columns (target : string) (parsed : list StyledRun)
    : list StyledRun * list StyledRun :=
  let targetIndex := findIndex (fun text => String.eqb (content text) target) parsed in
  fold_left (fun cols it =>
               if before it.1 targetIndex then (cols.1 ++ [it.2], cols.2)
               else (cols.1, cols.2 ++ [it.2]))
            (imap pair parsed) ([], []).

(** The attributes of the first part of the second column. *)
Definition positionalTab (alignment relativeTo : string) : list (string * string) :=
  [ ("data-positionaltab-alignment", alignment);
    ("data-positionaltab-relativeto", relativeTo);
    ("data-positionaltab-leader", "none") ].

Definition twoColumnModes : list string :=
  ["twoColumnLayoutWide"; "twoColumnLayout"; "twoColumnLayoutJustified";
   "twoLevelIndentation"].

(** The positional tab as the serializer reads it, by mode. *)
Definition tabOf (mode : string) : string * string :=
  if String.eqb mode "twoColumnLayoutJustified" then ("right", "margin")
  else ("left", "indent").

(** [format] of [Paragraph], as far as the component reads it: [list] by
    the paragraphs of its items, [numberingNumber] by the string it is
    written as, [None] when it is absent or falsy. *)
Inductive Format :=
  mkFormat (mode : string) (items : list (list string)) (numberingNumber : option string).

(** [if (data)]: a string that is not empty. *)
Definition given (data : option string) : option string :=
  match data with
  | Some d => if isEmpty d then None else Some d
  | None => None
  end.

Section Components.

(** What the components and the serializer leave to others: the decoder
    of entities of [parseStyledString], the join of class names, and what
    the HTML parser of [htmlToDocx] reads back from a text and from an
    attribute value the renderer wrote (it turns carriage returns into
    line feeds, for one). *)
Variable decodeEntities : string -> string.
Variable twJoin : list (option string) -> string.
Variable textValue : string -> string.
Variable attrValue : string -> string.

(** The text the serializer finds for the string child [children]. *)
Definition readBack (children : string) : string :=
  if isEmpty children then EmptyString else textValue children.

(** [{children}] for a string *)
Definition textChild (children : string) : list Node :=
  let nodeValue := readBack children in
  if isEmpty nodeValue then [] else [TextNode nodeValue].

(** [parseStyledString(data)] for a string: the parts it returns. *)
Definition parsedOf (data : string) : option (list StyledRun) :=
  outcome ← parseStyledString decodeEntities (InString data);
  match completion outcome with
  | Normal parsed => Some parsed
  | Throw _ => None
  end.

(** [createTextRun] of [Paragraph.js] *)
Definition createTextRun (text : StyledRun) (extraDataAttributes : list (string * string))
    (className : string) : Node :=
  TextRun
    (spread
       (spread
          [("class",
            attrValue
              (twJoin [ (if italics (styles text) then Some "italic" else None);
                        (if bold (styles text) then Some "font-bold" else None);
                        (if underline (styles text) then Some "underline" else None);
                        Some className ]))]
          (dataAttributes text))
       extraDataAttributes)
    (textChild (content text)).

(** [<span className=... data-type='contentWrapper'>] of the first column *)
Definition firstColumnSpan (className : option string) (firstColumn : list StyledRun)
    : Node :=
  ElementNode "SPAN"
    (match className with Some c => [("class", c)] | None => [] end
     ++ [("data-type", "contentWrapper")])
    ((fun text => createTextRun text [] "") <$> firstColumn).

(** and of the second, whose first part carries the positional tab *)
Definition secondColumnSpan (className : option string) (tab : list (string * string))
    (secondColumn : list StyledRun) : Node :=
  ElementNode "SPAN"
    (match className with Some c => [("class", c)] | None => [] end
     ++ [("data-type", "contentWrapper")])
    (imap (fun index text => createTextRun text (if index =? 0 then tab else []) "")
          secondColumn).

(** [Paragraph]: [Tag] is the tag name of the element [as] stands for,
    [children] the nodes the children are in the document and [props] the
    attributes the other properties are there.  [None]: the parser of
    styled strings gave no parts. *)
Definition Paragraph (Tag : string) (data : option string) (children : list Node)
    (format : option Format) (props : list (string * string)) : option Node :=
  match given data with
  | Some data =>
      parsed ← parsedOf data;
      let plain :=
        ElementNode Tag (setProp props "data-type" "paragraph")
          ((fun text => createTextRun text [] "") <$> parsed) in
      match format with
      | Some (mkFormat mode list numberingNumber) =>
          if String.eqb mode "twoColumnLayoutWide" || String.eqb mode "twoColumnLayout"
             || String.eqb mode "twoColumnLayoutJustified"
             || String.eqb mode "twoLevelIndentation"
          then
            let target := findSecondLeadingText list in
            let '(firstColumn, secondColumn) := columns target parsed in
            if String.eqb mode "twoColumnLayoutWide" || String.eqb mode "twoColumnLayout"
            then
              Some (ElementNode Tag
                (setProp (setProp (setProp props "class" "flex") "data-type" "paragraph")
                         "data-style" mode)
                [ firstColumnSpan
                    (Some (if String.eqb mode "twoColumnLayoutWide" then "w-2/3"
                           else "w-1/2"))
                    firstColumn;
                  secondColumnSpan
                    (Some (if String.eqb mode "twoColumnLayoutWide" then "w-1/3"
                           else "w-1/2"))
                    (positionalTab "left" "indent") secondColumn ])
            else if String.eqb mode "twoColumnLayoutJustified" then
              Some (ElementNode Tag
                (setProp (setProp (setProp props "class" "flex justify-between")
                                  "data-type" "paragraph")
                         "data-style" mode)
                [ firstColumnSpan None firstColumn;
                  secondColumnSpan None (positionalTab "right" "margin") secondColumn ])
            else if String.eqb mode "twoLevelIndentation" then
              Some (ElementNode Tag
                (setProp (setProp (setProp props "class" "flex") "data-type" "paragraph")
                         "data-style" mode)
                [ firstColumnSpan (Some "w-1/3 pl-8") firstColumn;
                  secondColumnSpan (Some "w-2/3 pl-4") (positionalTab "left" "indent")
                    secondColumn ])
            else Some plain
          else
            match numberingNumber with
            | Some number =>
                if String.eqb mode "ordered-list-reversed" then
                  Some (ElementNode Tag
                    (setProp (setProp (setProp props "class" "flex ml-3")
                                      "data-type" "paragraph")
                             "data-style" "reversedList")
                    [ firstColumnSpan (Some "w-8 text-right")
                        [createTextPart (number +:+ ".") noStyles];
                      secondColumnSpan (Some "flex-1 pl-8")
                        (positionalTab "left" "indent") parsed ])
                else Some plain
            | None => Some plain
            end
      | None => Some plain
      end
  | None => Some (ElementNode "P" (setProp props "data-type" "paragraph") children)
  end.

(** *** [Link] *)

(** [linkDataAttrs] *)
Definition linkDataAttrs (href : string) : list (string * string) :=
  let isExternal := startsWith "http" href in
  let attrs :=
    [("data-type", if isExternal then "externalHyperlink" else "internalHyperlink")] in
  if isExternal then setProp attrs "data-link" (attrValue href)
  else setProp attrs "data-anchor" (attrValue href).

(** [<a href={href} className='underline text-blue-700' {...linkDataAttrs}>
       <TextRun data-style='Hyperlink'>{label}</TextRun></a>] *)
Definition linkAnchor (href label : string) : Node :=
  ElementNode "A"
    (spread [("href", attrValue href); ("class", "underline text-blue-700")]
       (linkDataAttrs href))
    [TextRun [("data-style", "Hyperlink")] (textChild label)].

(** [Link]: the anchor is the child of a [Paragraph] without [data]. *)
Definition Link (href label : string) (props : list (string * string)) : option Node :=
  Paragraph "P" None [linkAnchor href label] None props.

(** *** The headings *)

(** [createTextRun] of [Headings.js] *)
Definition createHeadingRun (text : StyledRun) : Node :=
  TextRun
    (spread
       [("class",
         attrValue
           (twJoin [ (if italics (styles text) then Some "italic" else None);
                     (if bold (styles text) then Some "font-bold" else None);
                     (if underline (styles text) then Some "underline" else None) ]))]
       (dataAttributes text))
    (textChild (content text)).

(** [H1] to [H4] differ in the tag of the element with [data] ([tag]), the
    tag of the element without ([plainTag]) and the heading name only.
    [children] is [None] when the property is falsy, and else the nodes the
    children are in the document; [props] is without [className].  The
    result is [Some None] for [null]. *)
Definition heading (tag plainTag name : string) (data : option string)
    (children : option (list Node)) (props : list (string * string))
    : option (option Node) :=
  match children, given data with
  | None, None => Some None
  | _, _ =>
      let properties :=
        setProp (setProp props "data-type" "paragraph") "data-heading" name in
      match given data with
      | Some data =>
          parsed ← parsedOf data;
          Some (Some (ElementNode tag properties (createHeadingRun <$> parsed)))
      | None => Some (Some (ElementNode plainTag properties (default [] children)))
      end
  end.

Definition H1 := heading "H1" "P" "HEADING_1".
Definition H2 := heading "H2" "H2" "HEADING_2".
Definition H3 := heading "H3" "H3" "HEADING_3".
Definition H4 := heading "H4" "H4" "HEADING_4".

(** What the serializer makes of a part rendered by [createTextRun]. *)
Definition exportedRun (text : StyledRun) (extra : list (string * JsVal)) : JsVal :=
  JObj ([("type", JStr "text")]
        ++ (if italics (styles text) then [("italics", JStr "true")] else [])
        ++ (if bold (styles text) then [("bold", JStr "true")] else [])
        ++ (if underline (styles text) then [("underline", JObj [])] else [])
        ++ extra
        ++ [("content",
             JStr (if keptText (readBack (content text)) then readBack (content text)
                   else ""))]).

End Components.

Definition exportedTab (alignment relativeTo : string) : list (string * JsVal) :=
  [ ("positionalTab",
     JObj [ ("alignment", JStr alignment); ("relativeTo", JStr relativeTo);
            ("leader", JStr "none") ]) ].

(** *** Items with a banner and no images *)

Definition notRef (v : val) : bool :=
  match v with VRef _ => false | _ => true end.

(** In [h], entry [k] of the array at [la] is the object at [li], which
    has a banner and, under [images], nothing to push it to. *)
Definition bannerWithoutImages (la k li : loc) (h : heap) : Prop :=
  (exists ca ys, h !! la = Some ca /\ elems ca = Some ys /\ ys !! k = Some (VRef li))
  /\ exists ci, h !! li = Some ci
       /\ truthy (default VUndefined (getProp (fields ci) "banner")) = true
       /\ notRef (default VUndefined (getProp (fields ci) "images")) = true.

(** [m] throws from every store in which [J] holds. *)
Definition dooms {A : Type} (J : heap -> Prop) (m : M A) : Prop :=
  forall h, J h -> m h = None.

(** The first loop of [parseBlockContent], over one item. *)
Definition moveBanner (item : val) : M unit :=
  banner ← getField "banner" item;
  if truthy banner then
    images ← getField "images" item;
    push [banner] images;;
    deleteField "banner" item
  else mret ().

(** In [h], entry [k] of the array at [la] is the object at [li], which
    has no array under [paragraphs]. *)
Definition withoutParagraphs (la k li : loc) (h : heap) : Prop :=
  (exists ca ys, h !! la = Some ca /\ elems ca = Some ys /\ ys !! k = Some (VRef li))
  /\ exists ci, h !! li = Some ci
       /\ notRef (default VUndefined (getProp (fields ci) "paragraphs")) = true.

(** A run of [m] that returns leaves [J] as it found it. *)
Definition keeps {A : Type} (J : heap -> Prop) (m : M A) : Prop :=
  forall h a h1, m h = Some (a, h1) -> J h -> J h1.

(** Every code unit of [s] is white space. *)
Fixpoint allWhiteSpace (s : string) : bool :=
  match s with
  | EmptyString => true
  | String c s' => isWhiteSpace c && allWhiteSpace s'
  end.

(** * Properties

    ** Strings *)

Section StringFacts.
Implicit Types s p r : string.

Lemma str_app_cons c s r : String c s +:+ r = String c (s +:+ r).
Proof. reflexivity. Qed.

Lemma str_app_nil_l s : "" +:+ s = s.
Proof. reflexivity. Qed.

Lemma str_app_nil_r s : s +:+ "" = s.
Proof. induction s as [|c s IH]; [done|]. by rewrite str_app_cons, IH. Qed.

Lemma str_app_assoc s p r : (s +:+ p) +:+ r = s +:+ p +:+ r.
Proof. induction s as [|c s IH]; [done|]. by rewrite !str_app_cons, IH. Qed.

Lemma str_length_app s r : String.length (s +:+ r) = String.length s + String.length r.
Proof. induction s as [|c s IH]; [done|]. rewrite str_app_cons. simpl. by rewrite IH. Qed.

Lemma takeStr_app p r : takeStr (String.length p) (p +:+ r) = p.
Proof. induction p as [|c p IH]; [by destruct r|]. rewrite str_app_cons. simpl. by rewrite IH. Qed.

Lemma dropStr_app p r : dropStr (String.length p) (p +:+ r) = r.
Proof. induction p as [|c p IH]; [by destruct r|]. by rewrite str_app_cons. Qed.

Lemma dropStr_0 s : dropStr 0 s = s.
Proof. by destruct s. Qed.

Lemma dropStr_app_add p r n :
  dropStr (String.length p + n) (p +:+ r) = dropStr n r.
Proof. induction p as [|c p IH]; [done|]. by rewrite str_app_cons. Qed.

Lemma takeStr_dropStr n s : takeStr n s +:+ dropStr n s = s.
Proof.
  revert s. induction n as [|n IH]; intros [|c s]; try done.
  simpl. by rewrite str_app_cons, IH.
Qed.

Lemma length_takeStr n s : n <= String.length s -> String.length (takeStr n s) = n.
Proof.
  revert s. induction n as [|n IH]; intros [|c s] ?; simpl in *; try done; try lia.
  rewrite IH; lia.
Qed.

Lemma startsWith_app p s : startsWith p s = true -> s = p +:+ dropStr (String.length p) s.
Proof.
  revert s. induction p as [|a p IH]; intros s H.
  - by rewrite dropStr_0.
  - destruct s as [|b s]; [done|]. simpl in H.
    destruct (Ascii.eqb_spec a b) as [->|]; [|done].
    rewrite str_app_cons. simpl. by rewrite <- IH.
Qed.

Lemma indexOf_Some needle s j :
  indexOf needle s = Some j ->
  s = takeStr j s +:+ needle +:+ dropStr (j + String.length needle) s.
Proof.
  revert j. induction s as [|c s IH]; intros j; simpl.
  - destruct (startsWith needle "") eqn:E; [|done]. intros [= <-].
    by apply startsWith_app in E.
  - destruct (startsWith needle (String c s)) eqn:E.
    + intros [= <-]. by apply startsWith_app in E.
    + destruct (indexOf needle s) as [i|] eqn:Ei; [|done].
      intros [= <-]. simpl. rewrite str_app_cons. f_equal. by apply IH.
Qed.

Lemma startsWith_length p s : startsWith p s = true -> String.length p <= String.length s.
Proof.
  intros H. apply startsWith_app in H.
  assert (String.length s = String.length (p +:+ dropStr (String.length p) s)) as E by congruence.
  rewrite str_length_app in E. lia.
Qed.

Lemma indexOf_bound needle s j :
  indexOf needle s = Some j -> j + String.length needle <= String.length s.
Proof.
  revert j. induction s as [|c s IH]; intros j; simpl.
  - destruct (startsWith needle "") eqn:E; [|done]. intros [= <-].
    by apply startsWith_length in E.
  - destruct (startsWith needle (String c s)) eqn:E.
    + intros [= <-]. by apply startsWith_length in E.
    + destruct (indexOf needle s) as [i|] eqn:Ei; [|done].
      intros [= <-]. specialize (IH i eq_refl). simpl. lia.
Qed.

Lemma wordRun_app s w r : wordRun s = (w, r) -> s = w +:+ r.
Proof.
  revert w r. induction s as [|c s IH]; intros w r; simpl.
  - by intros [= <- <-].
  - destruct (isWordChar c).
    + destruct (wordRun s) as [w' r'] eqn:E. intros [= <- <-].
      rewrite str_app_cons. f_equal. by apply IH.
    + by intros [= <- <-].
Qed.

(** A match at the head of [s] is a prefix of [s], and its inner text is
    shorter than [s]. *)
Lemma matchHere_Some s tag inner :
  matchHere s = Some (tag, inner) ->
  s = matchText tag inner +:+ dropStr (String.length (matchText tag inner)) s
  /\ String.length inner < String.length s.
Proof.
  unfold matchHere. destruct s as [|c s1]; [done|].
  destruct (Ascii.eqb_spec c "<") as [->|Hc]; cycle 1.
  { destruct c as [[][][][][][][][]]; try done. }
  destruct (wordRun s1) as [w s2] eqn:Ew. apply wordRun_app in Ew as ->.
  destruct (isEmpty w) eqn:Ee; [done|].
  destruct s2 as [|d s3]; [done|].
  destruct (Ascii.eqb_spec d ">") as [->|Hd]; cycle 1.
  { destruct d as [[][][][][][][][]]; try done. }
  destruct (indexOf (closeTag w) s3) as [j|] eqn:Ej; [|done].
  intros [= <- <-].
  pose proof (indexOf_bound _ _ _ Ej) as Hb.
  pose proof (indexOf_Some _ _ _ Ej) as Hs.
  assert (String "<" (w +:+ String ">" s3)
          = matchText w (takeStr j s3) +:+ dropStr (j + String.length (closeTag w)) s3) as E.
  { unfold matchText, openTag. rewrite !str_app_assoc. rewrite str_app_cons, str_app_nil_l.
    f_equal. f_equal. rewrite str_app_cons, str_app_nil_l. f_equal. exact Hs. }
  split.
  - rewrite E at 2. rewrite <- (Nat.add_0_r (String.length (matchText _ _))).
    rewrite dropStr_app_add, dropStr_0. done.
  - simpl. rewrite str_length_app. simpl. rewrite length_takeStr by lia. lia.
Qed.
End StringFacts.

Section ScanFacts.

Lemma scan_skip k s pos : scan pos k s = scan (pos + k) 0 (dropStr k s).
Proof.
  revert s pos. induction k as [|k IH]; intros s pos.
  - by rewrite dropStr_0, Nat.add_0_r.
  - destruct s as [|c s]; [done|]. simpl. rewrite IH. f_equal. lia.
Qed.

Lemma matchText_length tag inner : 0 < String.length (matchText tag inner).
Proof. unfold matchText, openTag. simpl. lia. Qed.

Lemma dropStr_length_lt k s :
  0 < k -> s <> "" -> String.length (dropStr k s) < String.length s.
Proof.
  revert s. induction k as [|k IH]; intros [|c s] ??; try done; try lia.
  simpl. destruct k; [rewrite dropStr_0; lia|].
  destruct s as [|d s]; [simpl; lia|]. specialize (IH (String d s)). 
  etrans; [apply IH; [lia|done]|]. simpl. lia.
Qed.

Lemma scan_cons pos c s :
  scan pos 0 (String c s)
  = match matchHere (String c s) with
    | Some (tag, inner) =>
        mkMatch (matchText tag inner) tag inner pos
        :: scan (S pos) (String.length (matchText tag inner) - 1) s
    | None => scan (S pos) 0 s
    end.
Proof. reflexivity. Qed.

Lemma scan_match pos c s tag inner :
  matchHere (String c s) = Some (tag, inner) ->
  scan pos 0 (String c s)
  = mkMatch (matchText tag inner) tag inner pos
    :: scan (pos + String.length (matchText tag inner)) 0
            (dropStr (String.length (matchText tag inner)) (String c s)).
Proof.
  intros H. rewrite scan_cons, H. f_equal. rewrite scan_skip.
  pose proof (matchText_length tag inner).
  destruct (String.length (matchText tag inner)) as [|n] eqn:E; [lia|].
  simpl. rewrite Nat.sub_0_r. f_equal. lia.
Qed.

Lemma scan_nomatch pos c s :
  matchHere (String c s) = None -> scan pos 0 (String c s) = scan (S pos) 0 s.
Proof. intros H. by rewrite scan_cons, H. Qed.

End ScanFacts.

Section StripPairsFacts.

Lemma stripPairsF_cons n c s :
  stripPairsF (S n) (String c s)
  = match matchHere (String c s) with
    | Some (tag, inner) =>
        stripPairsF n inner
        +:+ stripPairsF n (dropStr (String.length (matchText tag inner)) (String c s))
    | None => String c (stripPairsF n s)
    end.
Proof. reflexivity. Qed.

Lemma stripPairsF_fuel n m s :
  String.length s <= n -> String.length s <= m -> stripPairsF n s = stripPairsF m s.
Proof.
  revert m s. induction n as [|n IH]; intros m s Hn Hm.
  - destruct s; [by destruct m|simpl in Hn; lia].
  - destruct s as [|c s]; [by destruct m|].
    destruct m as [|m]; [simpl in Hm; lia|].
    rewrite !stripPairsF_cons. destruct (matchHere (String c s)) as [[tag inner]|] eqn:E.
    + apply matchHere_Some in E as [E1 E2].
      pose proof (dropStr_length_lt (String.length (matchText tag inner)) (String c s)
                    (matchText_length _ _) ltac:(done)) as Hd.
      simpl in *. f_equal; apply IH; lia.
    + f_equal. simpl in *. apply IH; lia.
Qed.

Lemma stripPairs_nil : stripPairs "" = "".
Proof. done. Qed.

Lemma stripPairs_match s tag inner :
  matchHere s = Some (tag, inner) ->
  stripPairs s
  = stripPairs inner +:+ stripPairs (dropStr (String.length (matchText tag inner)) s).
Proof.
  intros H. unfold stripPairs. destruct s as [|c s]; [done|].
  change (String.length (String c s)) with (S (String.length s)).
  rewrite stripPairsF_cons, H.
  apply matchHere_Some in H as [E1 E2].
  pose proof (dropStr_length_lt (String.length (matchText tag inner)) (String c s)
                (matchText_length _ _) ltac:(done)) as Hd.
  simpl in *. f_equal; apply stripPairsF_fuel; lia.
Qed.

Lemma stripPairs_nomatch c s :
  matchHere (String c s) = None -> stripPairs (String c s) = String c (stripPairs s).
Proof.
  intros H. unfold stripPairs. change (String.length (String c s)) with (S (String.length s)).
  by rewrite stripPairsF_cons, H.
Qed.

Lemma join_app l1 l2 : join (l1 ++ l2) = join l1 +:+ join l2.
Proof.
  induction l1 as [|x l1 IH]; [done|].
  change (join ((x :: l1) ++ l2)) with (x +:+ join (l1 ++ l2)).
  change (join (x :: l1)) with (x +:+ join l1).
  by rewrite IH, str_app_assoc.
Qed.

Lemma contents_app r1 r2 : contents (r1 ++ r2) = contents r1 +:+ contents r2.
Proof. unfold contents. by rewrite fmap_app, join_app. Qed.

Lemma contents_part s st : contents [createTextPart s st] = s.
Proof. apply str_app_nil_r. Qed.

End StripPairsFacts.

Section ProcessSegmentsFacts.

Lemma slice_gap pre gap rest :
  slice (pre +:+ gap +:+ rest) (String.length pre) (String.length pre + String.length gap) = gap.
Proof.
  unfold slice. rewrite dropStr_app.
  replace (String.length pre + String.length gap - String.length pre) with (String.length gap) by lia.
  apply takeStr_app.
Qed.

Lemma isEmpty_false_contents s st (r : list StyledRun) :
  contents (if isEmpty s then r else r ++ [createTextPart s st]) = contents r +:+ s.
Proof.
  destruct s; simpl.
  - by rewrite str_app_nil_r.
  - by rewrite contents_app, contents_part.
Qed.

Lemma segmentCallback_Some str st F result lastIndex m ri :
  F (m_inner m) (newStylesFor (m_tag m) st) = Some ri ->
  segmentCallback str st F (Some (result, lastIndex)) m
  = Some ((if isEmpty (slice str lastIndex (m_offset m)) then result
           else result ++ [createTextPart (slice str lastIndex (m_offset m)) st]) ++ ri,
          m_offset m + String.length (m_match m)).
Proof. intros H. unfold segmentCallback. simpl. by rewrite H. Qed.

Lemma fold_left_step {A B} (f : A -> B -> A) x l a :
  fold_left f (x :: l) a = fold_left f l (f a x).
Proof. reflexivity. Qed.

(** The replace loop: [pre] is the text up to [lastIndex], [gap] the text
    scanned since without a match, [rest] the text still to be scanned. *)
Lemma replaceLoop_contents str st F :
  (forall inner st', String.length inner < String.length str ->
     exists r, F inner st' = Some r /\ contents r = stripPairs inner) ->
  forall n rest pre gap result,
    String.length rest <= n -> str = pre +:+ gap +:+ rest ->
    exists result' last,
      fold_left (segmentCallback str st F)
                (scan (String.length pre + String.length gap) 0 rest)
                (Some (result, String.length pre)) = Some (result', last)
      /\ contents result' +:+ dropStr last str
         = contents result +:+ gap +:+ stripPairs rest.
Proof.
  intros HF. induction n as [|n IH]; intros rest pre gap result Hn Hstr.
  - destruct rest; [|simpl in Hn; lia]. simpl. exists result, (String.length pre).
    split; [done|]. rewrite Hstr, dropStr_app. done.
  - destruct rest as [|c rest].
    { simpl. exists result, (String.length pre).
      split; [done|]. rewrite Hstr, dropStr_app. done. }
    destruct (matchHere (String c rest)) as [[tag inner]|] eqn:E.
    + rewrite (scan_match _ _ _ _ _ E), (stripPairs_match _ _ _ E).
      pose proof (matchHere_Some _ _ _ E) as [E1 E2].
      set (m := matchText tag inner) in *.
      set (rest2 := dropStr (String.length m) (String c rest)) in *.
      assert (String.length str = String.length pre + String.length gap + String.length (String c rest)) as Hlen.
      { rewrite Hstr, !str_length_app. lia. }
      destruct (HF inner (newStylesFor tag st) ltac:(lia)) as (ri & Hri & Hci).
      rewrite fold_left_step, (segmentCallback_Some _ _ _ _ _ _ ri) by done.
      cbn [m_offset m_match].
      replace (slice str _ _) with gap by (by rewrite Hstr, slice_gap).
      set (result1 := if isEmpty gap then result else result ++ [createTextPart gap st]).
      destruct (IH rest2 (pre +:+ gap +:+ m) "" (result1 ++ ri)) as (r' & last & Hf & Hc).
      { pose proof (dropStr_length_lt (String.length m) (String c rest)
                      (matchText_length _ _) ltac:(done)). unfold rest2. simpl in *. lia. }
      { rewrite Hstr, E1 at 1. by rewrite !str_app_assoc. }
      exists r', last. split.
      * rewrite <- Hf. rewrite !str_length_app. simpl String.length.
        by rewrite Nat.add_0_r, Nat.add_assoc.
      * rewrite Hc. rewrite contents_app. unfold result1.
        rewrite isEmpty_false_contents, Hci. by rewrite !str_app_assoc.
    + rewrite (scan_nomatch _ _ _ E), (stripPairs_nomatch _ _ E).
      destruct (IH rest pre (gap +:+ String c "") result) as (r' & last & Hf & Hc).
      { simpl in Hn. lia. }
      { rewrite Hstr. by rewrite !str_app_assoc. }
      exists r', last. split.
      * rewrite <- Hf. f_equal. f_equal. rewrite str_length_app. simpl. lia.
      * rewrite Hc. by rewrite !str_app_assoc.
Qed.

(** With fuel above the length of the segment [processSegmentsF] returns,
    and its runs spell the segment without the tags of its matched
    pairs. *)
Lemma processSegmentsF_contents fuel s st :
  String.length s < fuel ->
  exists r, processSegmentsF fuel s st = Some r /\ contents r = stripPairs s.
Proof.
  revert s st. induction fuel as [|fuel IH]; intros s st Hf; [lia|].
  simpl. destruct s as [|c s]; [by eexists|]. simpl isEmpty. cbv iota.
  destruct (replaceLoop_contents (String c s) st (processSegmentsF fuel)
              (fun i st' Hi => IH i st' ltac:(lia))
              (String.length (String c s)) (String c s) "" "" [] ltac:(done) ltac:(done))
    as (r' & last & Hl & Hc).
  unfold matchAll. simpl String.length in Hl at 2 3. simpl plus in Hl. rewrite Hl. simpl.
  eexists. split; [done|].
  unfold sliceFrom. rewrite isEmpty_false_contents. rewrite Hc. done.
Qed.

Lemma processSegments_contents s st :
  exists r, processSegments s st = Some r /\ contents r = stripPairs s.
Proof. apply processSegmentsF_contents. lia. Qed.

End ProcessSegmentsFacts.

(** ** The styled-string parser *)

Section ParseStyledStringFacts.

Variable decodeEntities : string -> string.

Lemma parseString_contents s :
  exists runs,
    parseString decodeEntities s = Some runs
    /\ contents runs
       = stripPairs (if testSentinel s then stripTags decodeEntities s else s).
Proof. unfold parseString. apply processSegments_contents. Qed.

(** The parser returns on every input: the fuel of [processSegmentsF] is
    never used up. *)
Lemma parseStyledString_returns input :
  is_Some (parseStyledString decodeEntities input).
Proof.
  destruct input as [s| | |repr]; simpl; try done.
  - destruct (parseString_contents s) as (r & -> & _). by eexists.
  - destruct (parseString_contents repr) as (r & -> & _). by eexists.
Qed.

Lemma anyTagPair_scan s pos : anyTagPair s = false -> scan pos 0 s = [].
Proof.
  revert pos. induction s as [|c s IH]; intros pos H; [done|].
  change (anyTagPair (String c s))
    with (match matchHere (String c s) with Some _ => true | None => false end
          || anyTagPair s) in H.
  apply orb_false_iff in H as [H1 H2].
  destruct (matchHere (String c s)) eqn:E; [done|].
  rewrite (scan_nomatch _ _ _ E). by apply IH.
Qed.

Lemma processSegments_plain s st :
  anyTagPair s = false -> processSegments s st = Some [createTextPart s st].
Proof.
  intros H. unfold processSegments. 
  change (processSegmentsF (S (String.length s)) s st)
    with (if isEmpty s then Some [createTextPart EmptyString st]
          else '(result, lastIndex) ←
                 fold_left (segmentCallback s st (processSegmentsF (String.length s)))
                           (matchAll s) (Some ([], 0));
               Some (if isEmpty (sliceFrom s lastIndex) then result
                     else result ++ [createTextPart (sliceFrom s lastIndex) st])).
  unfold matchAll. rewrite (anyTagPair_scan _ _ H).
  destruct s as [|c s]; done.
Qed.

End ParseStyledStringFacts.



(** C8.  A markup-free string is parsed into exactly one run, whose content
    is the string and which carries no style flag; parsing the content of
    that run again gives the same single run. *)
Theorem parseStyledString_markupFree (decodeEntities : string -> string) (s : string) :
  markupFree s = true ->
  exists run,
    parseStyledString decodeEntities (InString s) = Some (mkOutcome [] (Normal [run]))
    /\ content run = s
    /\ styles run = noStyles
    /\ parseStyledString decodeEntities (InString (content run))
       = Some (mkOutcome [] (Normal [run])).
Proof.
  intros H. apply andb_true_iff in H as [H1 H2].
  apply negb_true_iff in H1, H2.
  assert (parseStyledString decodeEntities (InString s)
          = Some (mkOutcome [] (Normal [createTextPart s noStyles]))) as E.
  { simpl. unfold parseString. rewrite H2. by rewrite processSegments_plain. }
  exists (createTextPart s noStyles). by repeat split.
Qed.

Lemma parseStyledString_markupFree_witness :
  markupFree "1 < 2, a<br>b" = true
  /\ exists run,
       parseStyledString (fun s => s) (InString "1 < 2, a<br>b")
       = Some (mkOutcome [] (Normal [run]))
       /\ content run = "1 < 2, a<br>b"
       /\ styles run = noStyles
       /\ parseStyledString (fun s => s) (InString (content run))
          = Some (mkOutcome [] (Normal [run])).
Proof.
  split; [reflexivity|].
  apply (parseStyledString_markupFree (fun s => s) "1 < 2, a<br>b"). reflexivity.
Defined.

Lemma startsWith_self needle r : startsWith needle (needle +:+ r) = true.
Proof.
  induction needle as [|c needle IH]; [done|].
  rewrite str_app_cons. simpl. by rewrite Ascii.eqb_refl.
Qed.

Lemma includes_app p needle r : includes needle (p +:+ needle +:+ r) = true.
Proof.
  unfold includes.
  assert (is_Some (indexOf needle (p +:+ needle +:+ r))) as [i ->]; [|done].
  induction p as [|c p IH].
  - exists 0. rewrite str_app_nil_l.
    destruct (needle +:+ r) eqn:E; simpl; rewrite <- E; by rewrite startsWith_self.
  - rewrite str_app_cons.
    change (indexOf needle (String c (p +:+ needle +:+ r)))
      with (if startsWith needle (String c (p +:+ needle +:+ r)) then Some 0
            else S <$> indexOf needle (p +:+ needle +:+ r)).
    destruct (startsWith needle _); [by eexists|].
    destruct IH as [i ->]. by eexists.
Qed.

(** A string wrapped in the sentinel pair passes the sentinel test. *)
Lemma testSentinel_wrapped inner :
  testSentinel ("<u-org>" +:+ inner +:+ "</u-org>") = true.
Proof.
  change (testSentinel ("<u-org>" +:+ inner +:+ "</u-org>"))
    with (includes "</u-org>" (inner +:+ "</u-org>" +:+ "")
          || testSentinel ("u-org>" +:+ inner +:+ "</u-org>")).
  by rewrite includes_app.
Qed.

(** C3, at the failing input.  The sentinel expression is not anchored: a
    string wrapped in the sentinel pair takes the tag-stripping path, and so
    does an input that only contains a sentinel pair; there the [<b>] pair
    outside the sentinel is stripped, not read as bold.  Without the
    sentinel pair the same [<b>] pair is read as bold. *)
Theorem sentinel_inside_strips_outer_tags (decodeEntities : string -> string) :
  (forall inner, testSentinel ("<u-org>" +:+ inner +:+ "</u-org>") = true)
  /\ testSentinel "a<b>x</b><u-org>y</u-org>" = true
  /\ parseStyledString decodeEntities (InString "a<b>x</b><u-org>y</u-org>")
     = mkOutcome [] ∘ Normal <$> processSegments (decodeEntities "axy") noStyles
  /\ parseStyledString (fun s => s) (InString "a<b>x</b><u-org>y</u-org>")
     = Some (mkOutcome [] (Normal [createTextPart "axy" noStyles]))
  /\ parseStyledString decodeEntities (InString "a<b>x</b>")
     = Some (mkOutcome []
               (Normal [createTextPart "a" noStyles;
                        createTextPart "x" (mkStyles true false false)])).
Proof. split; [apply testSentinel_wrapped|]. by repeat split. Qed.

(** C6, at the failing inputs.  [null] and [undefined] have no [toString]:
    after the warning the call throws.  Any other non-string value is
    coerced, a warning is written and parsing goes on. *)
Theorem parseStyledString_nullish_throws (decodeEntities : string -> string) :
  parseStyledString decodeEntities InNull = Some (mkOutcome [warning] (Throw TypeError))
  /\ parseStyledString decodeEntities InUndefined
     = Some (mkOutcome [warning] (Throw TypeError))
  /\ forall repr, exists runs,
       parseStyledString decodeEntities (InOther repr)
       = Some (mkOutcome [warning] (Normal runs))
       /\ parseString decodeEntities repr = Some runs.
Proof.
  repeat split. intros repr.
  destruct (parseString_contents decodeEntities repr) as (runs & H & _).
  exists runs. simpl. by rewrite H.
Qed.

(** ** The markup-tree serializer *)

(** C2, at the failing input.  The [contentWrapper] branch pushes what its
    children return without spreading it, so a wrapper directly inside a
    wrapper hands its parent a sequence that holds a sequence: the [div]
    gets a bare sequence as a child, where the claim has the [p] node. *)
Theorem nested_contentWrapper_not_spliced :
  htmlToDocx nestedWrappers
  = Some [ JObj [ ("type", JStr "div");
                  ("children",
                   JArr [ JArr [ JObj [ ("type", JStr "p");
                                        ("children", JArr [textObject "x"]) ] ] ]) ] ]
  /\ (forallb isMarkupNode <$> htmlToDocx nestedWrappers) = Some false.
Proof. split; reflexivity. Qed.

Lemma reduceChildren_text_acc (vs : list string) (acc : list JsVal) :
  fold_left (fun children child =>
               c ← children; childObject ← nodeToObject child;
               Some (pushSpread c childObject))
            (TextNode <$> vs) (Some acc)
  = Some (acc ++ (textObject <$> List.filter keptText vs)).
Proof.
  revert acc. induction vs as [|v vs IH]; intros acc.
  - by rewrite app_nil_r.
  - rewrite fmap_cons, fold_left_step. unfold keptText in *. simpl.
    destruct (isEmpty (trim v)); simpl.
    + apply IH.
    + unfold pushSpread. simpl. rewrite IH. by rewrite <- app_assoc.
Qed.

Lemma reduceChildren_text (vs : list string) :
  reduceChildren nodeToObject pushSpread (TextNode <$> vs)
  = Some (textObject <$> List.filter keptText vs).
Proof. unfold reduceChildren. by rewrite reduceChildren_text_acc. Qed.

(** C5 (as amended).  A text node of the document becomes a text object
    whose content is the node's value as it is, white space included; a
    text node whose trimmed value is empty produces no node.  So it is for
    the text nodes of the body and for those of an element, here a [p]. *)
Theorem htmlToDocx_text_nodes (vs : list string) :
  let texts := textObject <$> List.filter (fun v => negb (isEmpty (trim v))) vs in
  htmlToDocx (TextNode <$> vs) = Some texts
  /\ htmlToDocx [ElementNode "P" [] (TextNode <$> vs)]
     = Some [ JObj (if bool_decide (0 < length texts)
                    then [("type", JStr "p"); ("children", JArr texts)]
                    else [("type", JStr "p")]) ].
Proof.
  split.
  - apply reduceChildren_text.
  - unfold htmlToDocx, reduceChildren at 1.
    change (fold_left ?f [?x] (Some [])) with (f (Some []) x). cbn [mbind option_bind].
    change (nodeToObject (ElementNode "P" [] (TextNode <$> vs)))
      with (children ← reduceChildren nodeToObject pushSpread (TextNode <$> vs);
            Some (JObj (if bool_decide (0 < length children)
                        then setProp [("type", JStr "p")] "children" (JArr children)
                        else [("type", JStr "p")]))).
    rewrite reduceChildren_text. cbn [mbind option_bind]. unfold keptText.
    by case_bool_decide.
Qed.

(** C5 (as stated) fails: the text of [<p> a </p>] keeps its white space. *)
Lemma text_node_keeps_white_space :
  htmlToDocx [ElementNode "P" [] [TextNode " a "]]
  = Some [ JObj [ ("type", JStr "p"); ("children", JArr [textObject " a "]) ] ]
  /\ trim " a " <> " a ".
Proof. split; [reflexivity|discriminate]. Qed.

(** ** The attribute mapping *)

Section PropsFacts.

Context {V : Type}.
Implicit Types o : list (string * V).

Lemma getProp_setProp_eq o k v : getProp (setProp o k v) k = Some v.
Proof.
  induction o as [|[k' v'] o IH]; simpl.
  - by rewrite String.eqb_refl.
  - destruct (String.eqb_spec k' k) as [->|Hne]; simpl.
    + by rewrite String.eqb_refl.
    + by destruct (String.eqb_spec k' k).
Qed.

Lemma getProp_setProp_ne o k k' v : k <> k' -> getProp (setProp o k v) k' = getProp o k'.
Proof.
  intros Hne. induction o as [|[k0 v0] o IH]; simpl.
  - by destruct (String.eqb_spec k k').
  - destruct (String.eqb_spec k0 k) as [->|Hne0]; simpl.
    + by destruct (String.eqb_spec k k').
    + destruct (String.eqb_spec k0 k'); [done|apply IH].
Qed.

Lemma getProp_Some_elem o k v : getProp o k = Some v -> (k, v) ∈ o.
Proof.
  induction o as [|[k0 v0] o IH]; simpl; [done|].
  destruct (String.eqb_spec k0 k) as [->|Hne].
  - intros [= ->]. left.
  - intros H. right. by apply IH.
Qed.

End PropsFacts.

Section AssignPathFacts.

Lemma getPath_nil_obj groups leaf : getPath [] groups leaf = None.
Proof. by destruct groups. Qed.

Lemma compatible_nil groups : compatible [] groups.
Proof. by destruct groups. Qed.

Lemma assignPath_Some o groups leaf v :
  compatible o groups -> is_Some (assignPath o groups leaf v).
Proof.
  revert o. induction groups as [|g gs IH]; intros o Hc; simpl; [by eexists|].
  simpl in Hc. destruct (getProp o g) as [[s|gf]|] eqn:E.
  - subst s. simpl. destruct (IH [] (compatible_nil gs)) as [gf' ->]. by eexists.
  - simpl. destruct (IH gf Hc) as [gf' ->]. by eexists.
  - destruct (IH [] (compatible_nil gs)) as [gf' ->]. by eexists.
Qed.

Lemma assignPath_None o groups leaf v :
  assignPath o groups leaf v = None -> ~ compatible o groups.
Proof.
  intros H Hc. destruct (assignPath_Some o groups leaf v Hc) as [? ?]. congruence.
Qed.

Lemma getPath_assignPath_eq o groups leaf v o' :
  assignPath o groups leaf v = Some o' -> getPath o' groups leaf = Some v.
Proof.
  revert o o'. induction groups as [|g gs IH]; intros o o'; simpl.
  - intros [= <-]. apply getProp_setProp_eq.
  - destruct (match getProp o g with
              | Some x => if propTruthy x then x else PObj []
              | None => PObj []
              end) as [s|gf]; [done|].
    destruct (assignPath gf gs leaf v) as [gf'|] eqn:E; [|done].
    simpl. intros [= <-]. rewrite getProp_setProp_eq. by eapply IH.
Qed.

(** A write leaves alone what is read along a path that parts ways with
    the path written. *)
Lemma getPath_assignPath_ne o groups leaf v o' groups' leaf' :
  assignPath o groups leaf v = Some o' ->
  diverge (groups ++ [leaf]) (groups' ++ [leaf']) = true ->
  getPath o' groups' leaf' = getPath o groups' leaf'.
Proof.
  revert o o' groups'. induction groups as [|g gs IH]; intros o o' gs'; simpl.
  - intros [= <-] Hd. destruct gs' as [|g' gs']; simpl in *.
    + destruct (String.eqb_spec leaf leaf'); [done|]. by apply getProp_setProp_ne.
    + destruct (String.eqb_spec leaf g'); [by destruct (gs' ++ [leaf'])|].
      by rewrite getProp_setProp_ne.
  - intros Ha Hd.
    destruct (match getProp o g with
              | Some x => if propTruthy x then x else PObj []
              | None => PObj []
              end) as [s|gf] eqn:Ec; [done|].
    destruct (assignPath gf gs leaf v) as [gf'|] eqn:E; [|done].
    simpl in Ha. injection Ha as <-.
    destruct gs' as [|g' gs']; simpl in *.
    + destruct (String.eqb_spec g leaf'); [by destruct (gs ++ [leaf])|].
      by apply getProp_setProp_ne.
    + destruct (String.eqb_spec g g') as [<-|Hne].
      * rewrite getProp_setProp_eq. rewrite (IH _ _ _ E Hd).
        destruct (getProp o g) as [[s|gf0]|]; simpl in Ec.
        -- destruct (isEmpty s); simpl in Ec; [|done].
           injection Ec as <-. apply getPath_nil_obj.
        -- by injection Ec as <-.
        -- injection Ec as <-. apply getPath_nil_obj.
      * by rewrite getProp_setProp_ne.
Qed.

(** A write keeps every group path usable, unless it puts a value where the
    path expects a group. *)
Lemma compatible_assignPath o groups leaf v o' groups' :
  assignPath o groups leaf v = Some o' ->
  ~ (groups ++ [leaf]) `prefix_of` groups' ->
  compatible o groups' -> compatible o' groups'.
Proof.
  revert o o' groups'. induction groups as [|g gs IH]; intros o o' gs'; simpl.
  - intros [= <-] Hp Hc. destruct gs' as [|g' gs']; [done|]. simpl in *.
    destruct (String.eqb_spec leaf g') as [->|Hne].
    + exfalso. apply Hp. by apply prefix_cons, prefix_nil.
    + by rewrite getProp_setProp_ne.
  - intros Ha Hp Hc.
    destruct (match getProp o g with
              | Some x => if propTruthy x then x else PObj []
              | None => PObj []
              end) as [s|gf] eqn:Ec; [done|].
    destruct (assignPath gf gs leaf v) as [gf'|] eqn:E; [|done].
    simpl in Ha. injection Ha as <-.
    destruct gs' as [|g' gs']; [done|]. simpl in *.
    destruct (String.eqb_spec g g') as [<-|Hne].
    + rewrite getProp_setProp_eq. apply (IH _ _ _ E).
      * intros Hq. apply Hp. by apply prefix_cons.
      * destruct (getProp o g) as [[s|gf0]|]; simpl in Ec.
        -- subst s. injection Ec as <-. apply compatible_nil.
        -- by injection Ec as <-.
        -- injection Ec as <-. apply compatible_nil.
    + by rewrite getProp_setProp_ne.
Qed.

Lemma diverge_not_prefix p q : diverge p q = true -> ~ p `prefix_of` q.
Proof.
  revert q. induction p as [|x p IH]; intros q; [done|].
  destruct q as [|y q]; [done|]. simpl.
  destruct (String.eqb_spec x y) as [->|Hne].
  - intros Hd Hp. apply (IH _ Hd). by apply prefix_cons_inv_2 in Hp.
  - intros _ Hp. by apply prefix_cons_inv_1 in Hp.
Qed.

Lemma not_prefix_app (p q r : list string) : ~ p `prefix_of` (q ++ r) -> ~ p `prefix_of` q.
Proof. intros H Hp. apply H. by apply prefix_app_r. Qed.

Lemma diverge_heads x p y q : x <> y -> diverge (x :: p) (y :: q) = true.
Proof. intros H. simpl. by destruct (String.eqb_spec x y). Qed.

(** Paths that do not part ways: one is the other, extended. *)
Lemma diverge_false (p q : list string) :
  diverge p q = false -> (exists r, q = p ++ r) \/ (exists r, p = q ++ r).
Proof.
  revert q. induction p as [|x p IH]; intros q; [by left; eexists|].
  destruct q as [|y q]; [by right; eexists|]. simpl.
  destruct (String.eqb_spec x y) as [->|Hne]; [|done].
  intros H. destruct (IH _ H) as [[r ->]|[r ->]]; [left|right]; by exists r.
Qed.

(** What is read along a path goes through a non-empty record at every
    shorter path. *)
Lemma getPath_through o groups leaf rest leaf' v :
  getPath o (groups ++ leaf :: rest) leaf' = Some v ->
  exists gf, getPath o groups leaf = Some (PObj gf) /\ gf <> [].
Proof.
  revert o. induction groups as [|g gs IH]; intros o; simpl.
  - destruct (getProp o leaf) as [[s|gf]|]; [done| |done].
    intros H. exists gf. split; [done|]. intros ->. by rewrite getPath_nil_obj in H.
  - destruct (getProp o g) as [[s|gf]|]; [done| |done]. apply IH.
Qed.

End AssignPathFacts.

Section ParsePropertiesFacts.

Lemma tableCoherent_true : tableCoherent = true.
Proof. vm_compute. reflexivity. Qed.

Lemma flatKey_data name : startsWith "data-" name = true -> name = "data-" +:+ flatKey name.
Proof.
  intros H. unfold flatKey, replaceFirst.
  assert (indexOf "data-" name = Some 0) as ->.
  { destruct name as [|a name]; [done|].
    change (indexOf "data-" (String a name))
      with (if startsWith "data-" (String a name) then Some 0
            else S <$> indexOf "data-" name).
    by rewrite H. }
  apply startsWith_app in H. by destruct name.
Qed.

Lemma effect_path name value :
  let '(groups, leaf, _) := effect name value in groups ++ [leaf] = effectPath name.
Proof. unfold effectPath, effect. by destruct (getProp translationTable name) as [[|]|]. Qed.

Lemma fullPath_head t : exists tl, fullPath t = targetHead t :: tl.
Proof. destruct t as [k|[|g gs] l]; by eexists. Qed.

Lemma effectPath_table name t :
  getProp translationTable name = Some t -> effectPath name = fullPath t.
Proof. intros H. unfold effectPath, effect. rewrite H. by destruct t. Qed.

Lemma effectPath_flat name :
  getProp translationTable name = None -> effectPath name = [flatKey name].
Proof. intros H. unfold effectPath, effect. by rewrite H. Qed.

(** The names of the table are [data-*] attributes. *)
Lemma table_data name t :
  getProp translationTable name = Some t -> isDataAttribute name = true.
Proof.
  intros H. apply getProp_Some_elem in H.
  assert (forallb (fun e => isDataAttribute e.1) translationTable = true) as Hall
    by (vm_compute; reflexivity).
  rewrite forallb_forall in Hall. by apply (Hall (name, t)), list_elem_of_In.
Qed.

(** Distinct names of the table are written to paths that part ways. *)
Lemma table_diverge n1 t1 n2 t2 :
  getProp translationTable n1 = Some t1 -> getProp translationTable n2 = Some t2 ->
  n1 <> n2 -> diverge (fullPath t1) (fullPath t2) = true.
Proof.
  intros E1 E2 Hne.
  pose proof tableCoherent_true as Hc. unfold tableCoherent in Hc.
  rewrite forallb_forall in Hc.
  specialize (Hc (n1, t1) ltac:(by apply list_elem_of_In, getProp_Some_elem)).
  rewrite forallb_forall in Hc.
  specialize (Hc (n2, t2) ltac:(by apply list_elem_of_In, getProp_Some_elem)).
  simpl in Hc. by destruct (String.eqb_spec n1 n2).
Qed.

(** Distinct [data-*] names have distinct flat keys. *)
Lemma flatKey_inj n1 n2 :
  isDataAttribute n1 = true -> isDataAttribute n2 = true ->
  flatKey n1 = flatKey n2 -> n1 = n2.
Proof.
  intros [H1 _]%andb_true_iff [H2 _]%andb_true_iff Heq.
  rewrite (flatKey_data _ H1), (flatKey_data _ H2). by rewrite Heq.
Qed.

Lemma parseAttribute_other p name value :
  isDataAttribute name = false -> parseAttribute (Some p) (name, value) = Some p.
Proof. intros H. unfold parseAttribute. cbn [mbind option_bind]. by rewrite H. Qed.

Lemma parseAttribute_dropped p name value :
  isDataAttribute name = true -> dropped name = true ->
  parseAttribute (Some p) (name, value) = Some p.
Proof.
  intros H Hd. unfold parseAttribute, dropped in *. cbn [mbind option_bind]. rewrite H.
  destruct (getProp translationTable name) as [[|]|]; [done..|]. by rewrite Hd.
Qed.

Lemma parseAttribute_effect p name value :
  isDataAttribute name = true -> dropped name = false ->
  parseAttribute (Some p) (name, value)
  = let '(groups, leaf, v) := effect name value in assignPath p groups leaf v.
Proof.
  intros H Hd. unfold parseAttribute, effect, dropped in *. cbn [mbind option_bind].
  rewrite H. destruct (getProp translationTable name) as [[|]|]; [done..|]. by rewrite Hd.
Qed.

Lemma fold_parseAttribute_None attributes : fold_left parseAttribute attributes None = None.
Proof. by induction attributes. Qed.

Lemma placed_effect props name value :
  placed props name value
  <-> let '(groups, leaf, v) := effect name value in getPath props groups leaf = Some v.
Proof. unfold placed, effect. by destruct (getProp translationTable name) as [[|]|]. Qed.

(** The value written is a string or the empty record. *)
Lemma effect_value name value :
  let '(_, _, v) := effect name value in sameValue v v = true /\ forall gf, v = PObj gf -> gf = [].
Proof.
  unfold effect. destruct (getProp translationTable name) as [[|]|]; simpl;
    (split; [by rewrite ?String.eqb_refl|]); by intros ? [= <-].
Qed.

Lemma sameValue_eq v w : sameValue v w = true -> v = w.
Proof.
  destruct v as [x|[|]], w as [y|[|]]; simpl; try done.
  by intros ->%String.eqb_eq.
Qed.

Lemma coverable_elem attributes a :
  coverable attributes = true -> a ∈ attributes -> isDataAttribute a.1 = true ->
  dropped a.1 = false
  /\ forall b, b ∈ attributes -> isDataAttribute b.1 = true -> a.1 <> b.1 -> agree a b = true.
Proof.
  unfold coverable. rewrite forallb_forall. intros H Ha Hd.
  specialize (H a ltac:(by apply list_elem_of_In)). rewrite Hd in H. simpl in H.
  apply andb_true_iff in H as [H1 H2]. split; [by apply negb_true_iff|].
  intros b Hb Hdb Hne. rewrite forallb_forall in H2.
  specialize (H2 b ltac:(by apply list_elem_of_In)). rewrite Hdb in H2. simpl in H2.
  by destruct (String.eqb_spec a.1 b.1).
Qed.

(** The paths of attributes that agree: the first is no prefix of a group
    path of the second. *)
Lemma agree_not_group a name value groups leaf :
  getProp translationTable name = Some (Field groups leaf) ->
  (a.1 <> name -> agree a (name, value) = true) ->
  ~ effectPath a.1 `prefix_of` groups.
Proof.
  intros E Ha. destruct (decide (a.1 = name)) as [->|Hne].
  - rewrite (effectPath_table _ _ E). simpl. intros Hp.
    apply prefix_length in Hp. rewrite length_app in Hp. simpl in Hp. lia.
  - specialize (Ha Hne). unfold agree in Ha. cbn [fst snd] in Ha.
    pose proof (effect_path a.1 a.2) as Hep. destruct (effect a.1 a.2) as [[ga la] va].
    unfold effect in Ha. rewrite E in Ha. rewrite <- Hep.
    apply orb_true_iff in Ha as [Hd|[Heq _]%andb_true_iff].
    + by apply (not_prefix_app _ _ [leaf]), diverge_not_prefix.
    + apply bool_decide_eq_true in Heq. rewrite Heq. intros Hp.
      apply prefix_length in Hp. rewrite length_app in Hp. simpl in Hp. lia.
Qed.

(** The loop over the attributes; its invariant: the groups of the table
    attributes of the element can be written to. *)
Lemma parseProperties_placed attributes :
  NoDup attributes.*1 -> coverable attributes = true ->
  exists properties,
    parseProperties attributes = Some properties
    /\ forall name value, (name, value) ∈ attributes ->
         isDataAttribute name = true -> placed properties name value.
Proof.
  intros Hnd Hcov. unfold parseProperties.
  assert (forall pre suf, attributes = pre ++ suf ->
            exists p, fold_left parseAttribute pre (Some []) = Some p
              /\ (forall name value groups leaf, (name, value) ∈ attributes ->
                    getProp translationTable name = Some (Field groups leaf) ->
                    compatible p groups)
              /\ forall name value, (name, value) ∈ pre ->
                   isDataAttribute name = true -> placed p name value) as Hloop.
  { induction pre as [|[n v] pre IH] using rev_ind; intros suf Heq.
    - exists []. split; [done|]. split.
      + intros. apply compatible_nil.
      + intros ?? H. by apply elem_of_nil in H.
    - destruct (IH ([(n, v)] ++ suf)) as (p & Hp & Hu & Hpl); [by rewrite Heq, <- app_assoc|].
      rewrite fold_left_app, Hp.
      change (fold_left parseAttribute [(n, v)] (Some p))
        with (parseAttribute (Some p) (n, v)).
      assert ((n, v) ∈ attributes) as Hin.
      { rewrite Heq, !elem_of_app. left. right. by apply list_elem_of_singleton. }
      destruct (isDataAttribute n) eqn:Ed; cycle 1.
      { exists p. rewrite parseAttribute_other by done.
        split; [done|]. split; [done|].
        intros n' v' Hin' Hd. apply elem_of_app in Hin' as [Hin'|Hin']; [by apply Hpl|].
        apply list_elem_of_singleton in Hin'. congruence. }
      destruct (coverable_elem _ (n, v) Hcov Hin Ed) as [Hdr Hag].
      rewrite parseAttribute_effect by done.
      pose proof (effect_path n v) as Hep.
      assert (let '(groups, _, _) := effect n v in compatible p groups) as Hc.
      { unfold effect.
        destruct (getProp translationTable n) as [[k|gs l]|] eqn:E; simpl; try done.
        by eapply Hu. }
      destruct (effect n v) as [[gs leaf] w] eqn:Ee.
      destruct (assignPath_Some p gs leaf w Hc) as [p' Hp'].
      exists p'. split; [done|]. split.
      + intros name value gs'' leaf'' Hin' E.
        eapply compatible_assignPath; [done| |by eapply Hu].
        rewrite Hep. apply (agree_not_group (n, v) name value _ leaf'' E).
        intros Hne. apply Hag; [done| |done]. by eapply table_data.
      + intros n' v' Hin' Hd. apply placed_effect.
        apply elem_of_app in Hin' as [Hin'|Hin'].
        * assert (n <> n') as Hne.
          { intros <-. rewrite Heq, <- app_assoc, fmap_app in Hnd.
            apply NoDup_app in Hnd as (_ & Hnd & _).
            apply (Hnd n); [|by left].
            apply list_elem_of_fmap. by exists (n, v'). }
          assert ((n', v') ∈ attributes) as Hin''.
          { rewrite Heq, !elem_of_app. by left; left. }
          specialize (Hpl n' v' Hin' Hd). apply placed_effect in Hpl.
          specialize (Hag (n', v') Hin'' Hd Hne). unfold agree in Hag.
          cbn [fst snd] in Hag. rewrite Ee in Hag.
          destruct (effect n' v') as [[gs' leaf'] w'].
          apply orb_true_iff in Hag as [Hdv|[Hsame Hval]%andb_true_iff].
          -- rewrite <- Hpl. by eapply getPath_assignPath_ne.
          -- apply bool_decide_eq_true, app_inj_tail in Hsame as [<- <-].
             apply sameValue_eq in Hval as <-. by eapply getPath_assignPath_eq.
        * apply list_elem_of_singleton in Hin'. injection Hin' as -> ->.
          rewrite Ee. by eapply getPath_assignPath_eq. }
  destruct (Hloop attributes [] ltac:(by rewrite app_nil_r)) as (p & Hp & _ & Hpl).
  by exists p.
Qed.

(** *** When the loop throws *)

Lemma assignPath_other_key o groups leaf v o' k :
  assignPath o groups leaf v = Some o' -> head (groups ++ [leaf]) <> Some k ->
  getProp o' k = getProp o k.
Proof.
  destruct groups as [|g gs]; simpl.
  - intros [= <-] H. apply getProp_setProp_ne. congruence.
  - destruct (match getProp o g with
              | Some x => if propTruthy x then x else PObj []
              | None => PObj []
              end) as [s|gf]; [done|].
    destruct (assignPath gf gs leaf v) as [gf'|]; [|done]. simpl.
    intros [= <-] H. apply getProp_setProp_ne. congruence.
Qed.

Lemma assignPath_stuck o g gs leaf v :
  stuck o g = true -> assignPath o (g :: gs) leaf v = None.
Proof.
  unfold stuck. simpl. destruct (getProp o g) as [[s|gf]|]; [|done..].
  simpl. by intros ->.
Qed.

Lemma assignPath_unstuck o g gs leaf v o' k :
  assignPath o (g :: gs) leaf v = Some o' -> stuck o' k = stuck o k.
Proof.
  intros H. destruct (decide (g = k)) as [->|Hne].
  - destruct (stuck o k) eqn:Es; [by rewrite assignPath_stuck in H|].
    simpl in H.
    destruct (match getProp o k with
              | Some x => if propTruthy x then x else PObj []
              | None => PObj []
              end) as [s|gf]; [done|].
    destruct (assignPath gf gs leaf v) as [gf'|]; [|done]. simpl in H.
    injection H as <-. unfold stuck. by rewrite getProp_setProp_eq.
  - unfold stuck. rewrite (assignPath_other_key _ _ _ _ _ k H); [done|].
    simpl. congruence.
Qed.

Lemma firstGroup_table name g :
  firstGroup name = Some g
  <-> exists gs leaf, getProp translationTable name = Some (Field (g :: gs) leaf).
Proof.
  unfold firstGroup. split.
  - destruct (getProp translationTable name) as [[k|[|g' gs] leaf]|]; try done.
    intros [= ->]. by eexists _, _.
  - by intros (gs & leaf & ->).
Qed.

(** No group of the table is a key the table writes a value to. *)
Lemma group_not_leaf name t k g :
  getProp translationTable name = Some t -> fullPath t = [k] ->
  (exists name', firstGroup name' = Some g) -> k <> g.
Proof.
  intros E Hk (name' & (gs & leaf & E')%firstGroup_table) ->.
  assert (name <> name') as Hne.
  { intros ->. rewrite E in E'. injection E' as ->.
    simpl in Hk. by destruct gs. }
  pose proof (table_diverge _ _ _ _ E E' Hne) as Hd. rewrite Hk in Hd. simpl in Hd.
  rewrite String.eqb_refl in Hd. done.
Qed.

Lemma group_not_proto name : firstGroup name <> Some "__proto__".
Proof.
  intros (gs & leaf & E)%firstGroup_table. apply getProp_Some_elem in E.
  assert (forallb (fun e => negb (String.eqb (targetHead e.2) "__proto__")) translationTable
          = true) as Hall by (vm_compute; reflexivity).
  rewrite forallb_forall in Hall.
  by specialize (Hall _ ltac:(by apply list_elem_of_In)).
Qed.

Lemma blocked_cons name value rest :
  blocked ((name, value) :: rest) = true
  <-> (isDataAttribute name = true /\ getProp translationTable name = None /\ value <> ""
       /\ exists b, b ∈ rest /\ firstGroup b.1 = Some (flatKey name))
      \/ blocked rest = true.
Proof.
  change (blocked ((name, value) :: rest))
    with ((isDataAttribute name
           && bool_decide (getProp translationTable name = None)
           && negb (isEmpty value)
           && existsb (fun b => bool_decide (firstGroup b.1 = Some (flatKey name))) rest)
          || blocked rest).
  rewrite orb_true_iff, !andb_true_iff, bool_decide_eq_true, existsb_exists.
  assert (negb (isEmpty value) = true <-> value <> "") as -> by (by destruct value).
  split; (intros [H|H]; [left|by right]).
  - destruct H as (((? & ?) & ?) & b & Hb & Hf). repeat split; try done.
    exists b. split; [by apply list_elem_of_In|]. by apply bool_decide_eq_true in Hf.
  - destruct H as (? & ? & ? & b & Hb & Hf). repeat split; try done.
    exists b. split; [by apply list_elem_of_In|]. by apply bool_decide_eq_true.
Qed.

Lemma waits_cons o name value rest :
  waits o ((name, value) :: rest)
  <-> (exists g, firstGroup name = Some g /\ stuck o g = true) \/ waits o rest.
Proof.
  unfold waits. split.
  - intros (b & g & [->|Hb]%elem_of_cons & Hf & Hs).
    + left. by exists g.
    + right. by exists b, g.
  - intros [(g & Hf & Hs)|(b & g & Hb & Hf & Hs)].
    + exists (name, value), g. split; [left|done].
    + exists b, g. split; [by right|done].
Qed.

Lemma waits_ext o o' attributes :
  (forall name g, firstGroup name = Some g -> stuck o' g = stuck o g) ->
  waits o' attributes <-> waits o attributes.
Proof.
  intros H. unfold waits. split; intros (b & g & Hb & Hf & Hs); exists b, g.
  - by rewrite <- (H _ _ Hf).
  - by rewrite (H _ _ Hf).
Qed.

(** A write that succeeds keeps the groups usable. *)
Lemma groupsUsable_assignPath o n v o' :
  isDataAttribute n = true -> dropped n = false ->
  parseAttribute (Some o) (n, v) = Some o' ->
  groupsUsable o -> groupsUsable o'.
Proof.
  intros Hd Hdr Ho' Hu name g gs leaf E.
  rewrite parseAttribute_effect in Ho' by done.
  unfold effect in Ho'.
  destruct (getProp translationTable n) as [t|] eqn:En.
  - assert (~ fullPath t `prefix_of` (g :: gs)) as Hpre.
    { destruct (decide (n = name)) as [->|Hne].
      - rewrite En in E. injection E as ->. simpl. intros Hp.
        apply prefix_length in Hp. simpl in Hp. rewrite length_app in Hp. simpl in Hp. lia.
      - apply (not_prefix_app _ _ [leaf]), diverge_not_prefix.
        by apply (table_diverge _ _ _ _ En E). }
    assert (exists G l w, assignPath o G l w = Some o' /\ fullPath t = G ++ [l])
      as (G & l & w & Ha & HG).
    { destruct t as [k|G l]; by eexists _, _, _. }
    rewrite HG in Hpre.
    destruct (Hu _ _ _ _ E) as [Hs|Hc].
    + left. destruct G as [|g' G].
      * unfold stuck. rewrite (assignPath_other_key _ _ _ _ _ g Ha); [done|].
        simpl. intros [= ->]. apply Hpre, prefix_cons, prefix_nil.
      * by rewrite (assignPath_unstuck _ _ _ _ _ _ g Ha).
    + right. by eapply compatible_assignPath.
  - injection Ho' as <-. destruct (decide (flatKey n = g)) as [Hk|Hk].
    + destruct v as [|c v].
      * right. simpl. by rewrite Hk, getProp_setProp_eq.
      * left. unfold stuck. by rewrite Hk, getProp_setProp_eq.
    + destruct (Hu _ _ _ _ E) as [Hs|Hc].
      * left. unfold stuck in *. by rewrite getProp_setProp_ne.
      * right. simpl in *. by rewrite getProp_setProp_ne.
Qed.

(** The loop throws exactly when it reaches a table attribute whose first
    group holds a non-empty string. *)
Lemma fold_parseAttribute_blocked attributes : forall p,
  NoDup attributes.*1 -> groupsUsable p ->
  (forall name g, firstGroup name = Some g -> stuck p g = true ->
     "data-" +:+ g ∉ attributes.*1) ->
  fold_left parseAttribute attributes (Some p) = None
  <-> blocked attributes = true \/ waits p attributes.
Proof.
  induction attributes as [|[n v] rest IH]; intros p Hnd Hu Hfresh.
  - simpl. split; [done|]. intros [?|(b & g & Hb & _)]; [done|]. by apply elem_of_nil in Hb.
  - rewrite fmap_cons in Hnd. apply NoDup_cons in Hnd as [Hn Hnd]. cbn [fst] in Hn.
    assert (forall name g, firstGroup name = Some g -> stuck p g = true ->
              "data-" +:+ g ∉ rest.*1) as Hfresh'.
    { intros name g Hf Hs Hin. apply (Hfresh name g Hf Hs). rewrite fmap_cons. by right. }
    rewrite blocked_cons, waits_cons.
    change (fold_left parseAttribute ((n, v) :: rest) (Some p))
      with (fold_left parseAttribute rest (parseAttribute (Some p) (n, v))).
    destruct (isDataAttribute n) eqn:Ed; cycle 1.
    { rewrite parseAttribute_other by done. rewrite (IH p Hnd Hu Hfresh').
      split; [tauto|]. intros [[(? & _)|?]|[(g & Hf & _)|?]]; try tauto; try done.
      apply firstGroup_table in Hf as (gs & leaf & E). apply table_data in E. congruence. }
    destruct (dropped n) eqn:Edr.
    { rewrite parseAttribute_dropped by done. rewrite (IH p Hnd Hu Hfresh').
      unfold dropped in Edr.
      destruct (getProp translationTable n) as [t|] eqn:En; [done|].
      apply String.eqb_eq in Edr.
      split; [tauto|]. intros [[(_ & _ & _ & b & _ & Hf)|?]|[(g & Hf & _)|?]]; try tauto.
      - rewrite Edr in Hf. by apply group_not_proto in Hf.
      - unfold firstGroup in Hf. by rewrite En in Hf. }
    destruct (getProp translationTable n) as [t|] eqn:En.
    + (* a table attribute *)
      destruct (parseAttribute (Some p) (n, v)) as [p'|] eqn:Ep.
      * assert (forall k, (exists name, firstGroup name = Some k) -> stuck p' k = stuck p k) as Hst.
        { intros k Hk. rewrite parseAttribute_effect in Ep by done.
          unfold effect in Ep. rewrite En in Ep.
          destruct t as [key|[|g gs] leaf].
          - injection Ep as <-. unfold stuck. rewrite getProp_setProp_ne; [done|].
            by apply (group_not_leaf n (EmptyRecord key) key k En).
          - injection Ep as <-. unfold stuck. rewrite getProp_setProp_ne; [done|].
            by apply (group_not_leaf n (Field [] leaf) leaf k En).
          - by eapply assignPath_unstuck. }
        rewrite (IH p' Hnd).
        -- rewrite (waits_ext p p') by (intros; apply Hst; by eexists).
           split; [tauto|]. intros [[(_ & ? & _)|?]|[(g & Hf & Hs)|?]]; try tauto; [done|].
           exfalso. apply firstGroup_table in Hf as (gs & leaf & E).
           rewrite parseAttribute_effect in Ep by done. unfold effect in Ep.
           rewrite En in Ep. rewrite E in En. injection En as <-.
           by rewrite assignPath_stuck in Ep.
        -- by eapply groupsUsable_assignPath.
        -- intros name g Hf Hs. apply (Hfresh' name g Hf). rewrite <- Hs. symmetry.
           apply Hst. by eexists.
      * rewrite fold_parseAttribute_None. split; [|done]. intros _. right. left.
        rewrite parseAttribute_effect in Ep by done. unfold effect in Ep. rewrite En in Ep.
        destruct t as [key|[|g gs] leaf]; [done..|].
        exists g. split; [by apply firstGroup_table; eexists _, _|].
        destruct (Hu _ _ _ _ En) as [Hs|Hc]; [done|].
        destruct (assignPath_Some p (g :: gs) leaf (PStr v) Hc) as [? ?]. congruence.
    + (* an attribute outside the table *)
      assert (parseAttribute (Some p) (n, v) = Some (setProp p (flatKey n) (PStr v))) as Ep.
      { rewrite parseAttribute_effect by done. unfold effect. by rewrite En. }
      pose proof (proj1 (andb_true_iff _ _) Ed) as [Hdata _].
      assert (forall name, firstGroup name = Some (flatKey n) -> stuck p (flatKey n) = false)
        as Hk.
      { intros name Hf. destruct (stuck p (flatKey n)) eqn:Es; [|done]. exfalso.
        apply (Hfresh name _ Hf Es). rewrite <- (flatKey_data _ Hdata), fmap_cons. left. }
      rewrite Ep. rewrite (IH _ Hnd).
      * assert (waits (setProp p (flatKey n) (PStr v)) rest
                <-> (v <> "" /\ exists b, b ∈ rest /\ firstGroup b.1 = Some (flatKey n))
                    \/ waits p rest) as ->.
        { unfold waits. split.
          - intros (b & g & Hb & Hf & Hs). destruct (decide (flatKey n = g)) as [<-|Hne].
            + left. split; [|by exists b]. intros ->. unfold stuck in Hs.
              by rewrite getProp_setProp_eq in Hs.
            + right. exists b, g. unfold stuck in *. by rewrite getProp_setProp_ne in Hs.
          - intros [(Hv & b & Hb & Hf)|(b & g & Hb & Hf & Hs)].
            + exists b, (flatKey n). unfold stuck. rewrite getProp_setProp_eq.
              by destruct v.
            + exists b, g. unfold stuck. rewrite getProp_setProp_ne; [done|].
              intros <-. by rewrite (Hk _ Hf) in Hs. }
        split; [tauto|]. intros [[(_ & _ & ? & ?)|?]|[(g & Hf & _)|?]]; try tauto.
        unfold firstGroup in Hf. by rewrite En in Hf.
      * eapply groupsUsable_assignPath; [exact Ed|exact Edr|exact Ep|exact Hu].
      * intros name g Hf Hs. destruct (decide (flatKey n = g)) as [<-|Hne].
        -- by rewrite <- (flatKey_data _ Hdata).
        -- apply (Hfresh' name g Hf). unfold stuck in *.
           by rewrite getProp_setProp_ne in Hs.
Qed.

Lemma parseProperties_blocked attributes :
  NoDup attributes.*1 -> parseProperties attributes = None <-> blocked attributes = true.
Proof.
  intros Hnd. unfold parseProperties. rewrite fold_parseAttribute_blocked; [|done|..].
  - split; [|by left]. intros [?|(b & g & _ & _ & Hs)]; done.
  - intros name g gs leaf _. by right.
  - intros name g _ Hs. done.
Qed.

(** *** When an attribute is not where the design document puts it *)

Lemma parseProperties_no_proto attributes properties :
  parseProperties attributes = Some properties -> getProp properties "__proto__" = None.
Proof.
  unfold parseProperties. revert properties.
  induction attributes as [|[n v] attrs IH] using rev_ind; intros p.
  - by intros [= <-].
  - rewrite fold_left_app.
    change (fold_left parseAttribute [(n, v)] ?a) with (parseAttribute a (n, v)).
    destruct (fold_left parseAttribute attrs (Some [])) as [p0|] eqn:E0; [|done].
    destruct (isDataAttribute n) eqn:Ed;
      [|rewrite parseAttribute_other by done; intros [= <-]; by apply IH].
    destruct (dropped n) eqn:Edr;
      [rewrite parseAttribute_dropped by done; intros [= <-]; by apply IH|].
    rewrite parseAttribute_effect by done.
    pose proof (effect_path n v) as Hep.
    destruct (effect n v) as [[gs leaf] w]. intros Ha.
    rewrite (assignPath_other_key _ _ _ _ _ _ Ha); [by apply IH|].
    rewrite Hep. unfold dropped in Edr.
    destruct (getProp translationTable n) as [t|] eqn:En.
    + rewrite (effectPath_table _ _ En). destruct (fullPath_head t) as [tl ->]. simpl.
      intros [= Heq]. apply getProp_Some_elem in En.
      assert (forallb (fun e => negb (String.eqb (targetHead e.2) "__proto__"))
                translationTable = true) as Hall by (vm_compute; reflexivity).
      rewrite forallb_forall in Hall.
      specialize (Hall _ ltac:(by apply list_elem_of_In)). simpl in Hall.
      by rewrite Heq in Hall.
    + rewrite (effectPath_flat _ En). simpl. intros [= Heq]. by rewrite Heq in Edr.
Qed.

(** Attributes that are both where the design document puts them agree. *)
Lemma placed_agree properties a b :
  placed properties a.1 a.2 -> placed properties b.1 b.2 -> agree a b = true.
Proof.
  intros Ha%placed_effect Hb%placed_effect. unfold agree.
  pose proof (effect_value a.1 a.2) as Hva. pose proof (effect_value b.1 b.2) as Hvb.
  destruct (effect a.1 a.2) as [[ga la] va], (effect b.1 b.2) as [[gb lb] vb].
  destruct (diverge (ga ++ [la]) (gb ++ [lb])) eqn:Ed; [done|]. simpl.
  apply diverge_false in Ed as [[r Hr]|[r Hr]]; destruct r as [|x r].
  - rewrite app_nil_r in Hr. rewrite Hr, bool_decide_eq_true_2 by done. simpl.
    apply app_inj_tail in Hr as [-> ->]. rewrite Ha in Hb. injection Hb as <-. apply Hva.
  - exfalso. destruct (exists_last (l := x :: r)) as (r' & y & Hy); [done|].
    rewrite Hy, app_assoc in Hr. apply app_inj_tail in Hr as [-> _].
    rewrite <- app_assoc in Hb. simpl in Hb.
    apply getPath_through in Hb as (gf & Hg & Hne). rewrite Ha in Hg.
    destruct Hva as [_ Hva]. injection Hg as Hg. by apply Hne, Hva.
  - rewrite app_nil_r in Hr. rewrite Hr, bool_decide_eq_true_2 by done. simpl.
    apply app_inj_tail in Hr as [-> ->]. rewrite Ha in Hb. injection Hb as <-. apply Hva.
  - exfalso. destruct (exists_last (l := x :: r)) as (r' & y & Hy); [done|].
    rewrite Hy, app_assoc in Hr. apply app_inj_tail in Hr as [-> _].
    rewrite <- app_assoc in Ha. simpl in Ha.
    apply getPath_through in Ha as (gf & Hg & Hne). rewrite Hb in Hg.
    destruct Hvb as [_ Hvb]. injection Hg as Hg. by apply Hne, Hvb.
Qed.

Lemma placed_coverable attributes properties :
  parseProperties attributes = Some properties ->
  (forall name value, (name, value) ∈ attributes ->
     isDataAttribute name = true -> placed properties name value) ->
  coverable attributes = true.
Proof.
  intros Hp Hpl. unfold coverable. apply forallb_forall. intros [n v] Hin%list_elem_of_In.
  cbn [fst]. destruct (isDataAttribute n) eqn:Ed; [simpl|done].
  apply andb_true_iff. split.
  - apply negb_true_iff. destruct (dropped n) eqn:Edr; [|done]. exfalso.
    specialize (Hpl n v Hin Ed). unfold placed, dropped in *.
    destruct (getProp translationTable n); [done|]. apply String.eqb_eq in Edr.
    rewrite Edr, (parseProperties_no_proto _ _ Hp) in Hpl. done.
  - apply forallb_forall. intros [n' v'] Hin'%list_elem_of_In. cbn [fst].
    destruct (isDataAttribute n') eqn:Ed'; [simpl|done].
    destruct (String.eqb n n'); [done|]. simpl.
    apply (placed_agree properties (n, v) (n', v')); by apply Hpl.
Qed.

End ParsePropertiesFacts.

(** C7 (as amended).  For an element whose attribute names are distinct:
    [parseProperties] throws exactly when a [data-*] attribute outside the
    table, with a non-empty value, comes before a table attribute whose
    first group is its flat key; and it returns with every [data-*]
    attribute but [data-type] where the design document puts it (a table
    attribute at its nested path, an empty record for [data-underline],
    any other at its flat key) exactly when no attribute is
    [data-__proto__] and any two [data-*] attributes agree. *)
Theorem parseProperties_total_coverage (attributes : list (string * string)) :
  NoDup attributes.*1 ->
  (parseProperties attributes = None <-> blocked attributes = true)
  /\ (coverable attributes = true
      <-> exists properties,
            parseProperties attributes = Some properties
            /\ forall name value, (name, value) ∈ attributes ->
                 isDataAttribute name = true -> placed properties name value).
Proof.
  intros Hnd. split; [by apply parseProperties_blocked|]. split.
  - by apply parseProperties_placed.
  - intros (properties & Hp & Hpl). by eapply placed_coverable.
Qed.

Lemma parseProperties_total_coverage_witness :
  NoDup sampleAttributes.*1
  /\ blocked sampleAttributes = false
  /\ coverable sampleAttributes = true
  /\ exists properties,
       parseProperties sampleAttributes = Some properties
       /\ forall name value, (name, value) ∈ sampleAttributes ->
            isDataAttribute name = true -> placed properties name value.
Proof.
  assert (NoDup sampleAttributes.*1) as Hnd
    by (apply (bool_decide_unpack _); vm_compute; exact I).
  split; [exact Hnd|]. split; [reflexivity|]. split; [reflexivity|].
  exact (proj1 (proj2 (parseProperties_total_coverage sampleAttributes Hnd)) eq_refl).
Defined.

(** C7 (as stated) fails when a flat key is a top-level key of the table.
    After [data-spacing-after="50"], [data-spacing="x"] overwrites the group:
    nothing is left at [spacing.after].  Before it, an empty [data-spacing]
    is replaced by the group: the attribute outside the table is dropped;
    a non-empty one makes the write to the group throw.  And
    [data-__proto__] is stored nowhere. *)
Lemma flat_key_clashes_with_group :
  (parseProperties [("data-spacing-after", "50"); ("data-spacing", "x")]
   = Some [("spacing", PStr "x")]
   /\ ~ placed [("spacing", PStr "x")] "data-spacing-after" "50")
  /\ (parseProperties [("data-spacing", ""); ("data-spacing-after", "50")]
      = Some [("spacing", PObj [("after", PStr "50")])]
      /\ ~ placed [("spacing", PObj [("after", PStr "50")])] "data-spacing" "")
  /\ parseProperties [("data-spacing", "x"); ("data-spacing-after", "50")] = None
  /\ (parseProperties [("data-__proto__", "x")] = Some []
      /\ ~ placed [] "data-__proto__" "x").
Proof. repeat split; try reflexivity; vm_compute; discriminate. Qed.

(** The examples of the design document; a flat key that is a group of the
    table is kept when no attribute of that group is there. *)
Example parseProperties_examples :
  parseProperties sampleAttributes
  = Some [("spacing", PObj [("after", PStr "50")]); ("foo", PStr "x")]
  /\ parseProperties [("data-width", "5")] = Some [("width", PStr "5")]
  /\ coverable [("data-width", "5")] = true
  /\ coverable [("data-imageType", "png"); ("data-image-type", "png")] = true
  /\ coverable [("data-imageType", "png"); ("data-image-type", "jpg")] = false.
Proof. repeat split; reflexivity. Qed.

(** ** The markup-tree serializer: no wrapper in the output *)

Section WrapperFree.

Lemma wrapperFree_arr items : wrapperFree (JArr items) = forallb wrapperFree items.
Proof. reflexivity. Qed.

Lemma wrapperFree_obj fs : wrapperFree (JObj fs) = forallb fieldFree fs.
Proof.
  induction fs as [|[k x] fs IH]; [done|].
  change (wrapperFree (JObj ((k, x) :: fs)))
    with ((if String.eqb k "type" then
             match x with
             | JStr t => negb (String.eqb t "contentWrapper")
             | _ => true
             end
           else if String.eqb k "children" then
             match x with
             | JArr items => wrapperFree (JArr items)
             | _ => true
             end
           else true) && wrapperFree (JObj fs)).
  by rewrite IH.
Qed.

Lemma forallb_setProp (o : list (string * JsVal)) k v :
  forallb fieldFree o = true -> fieldFree (k, v) = true ->
  forallb fieldFree (setProp o k v) = true.
Proof.
  intros Ho Hv. induction o as [|[k' v'] o IH]; simpl.
  - by rewrite Hv.
  - simpl in Ho. apply andb_true_iff in Ho as [H1 H2].
    destruct (String.eqb_spec k' k) as [->|Hne]; simpl.
    + by rewrite Hv, H2.
    + by rewrite H1, IH.
Qed.

(** A write touches one top-level key: the first key of its path. *)
Lemma assignPath_keys o groups leaf v o' k x :
  assignPath o groups leaf v = Some o' -> (k, x) ∈ o' ->
  (exists x0, (k, x0) ∈ o) \/ head (groups ++ [leaf]) = Some k.
Proof.
  assert (forall (o : Props) k0 v0 k x, (k, x) ∈ setProp o k0 v0 ->
            (exists x0, (k, x0) ∈ o) \/ k0 = k) as Hset.
  { clear. intros o k0 v0 k x. induction o as [|[k1 v1] o IH]; simpl.
    - intros H. apply list_elem_of_singleton in H. injection H as -> ->. by right.
    - destruct (String.eqb_spec k1 k0) as [->|Hne]; intros H.
      + apply elem_of_cons in H as [H|H]; [injection H as -> ->; by right|].
        left. exists x. by right.
      + apply elem_of_cons in H as [H|H].
        * injection H as -> ->. left. exists v1. by left.
        * destruct (IH H) as [[x0 H0]|H0]; [|by right]. left. exists x0. by right. }
  destruct groups as [|g gs]; simpl.
  - intros [= <-] H. destruct (Hset _ _ _ _ _ H) as [? | ->]; auto.
  - destruct (match getProp o g with
              | Some x => if propTruthy x then x else PObj []
              | None => PObj []
              end) as [s|gf]; [done|].
    destruct (assignPath gf gs leaf v) as [gf'|]; [|done]. simpl.
    intros [= <-] H. destruct (Hset _ _ _ _ _ H) as [? | ->]; auto.
Qed.

Lemma effectPath_head_not_type name :
  isDataAttribute name = true -> head (effectPath name) <> Some "type".
Proof.
  intros Hd. destruct (getProp translationTable name) as [t|] eqn:E.
  - rewrite (effectPath_table _ _ E). destruct (fullPath_head t) as [tl ->]. simpl.
    intros [= Heq].
    assert (forallb (fun e => negb (String.eqb (targetHead e.2) "type")) translationTable
            = true) as Hall by (vm_compute; reflexivity).
    rewrite forallb_forall in Hall.
    specialize (Hall (name, t) ltac:(by apply list_elem_of_In, getProp_Some_elem)).
    simpl in Hall. rewrite Heq in Hall. done.
  - rewrite (effectPath_flat _ E). simpl. intros [= Heq].
    apply andb_true_iff in Hd as [Hs Hn]. apply flatKey_data in Hs.
    rewrite Heq in Hs. rewrite Hs in Hn. done.
Qed.

(** [parseProperties] never writes a key [type]. *)
Lemma parseProperties_no_type attributes properties x :
  parseProperties attributes = Some properties -> ("type", x) ∉ properties.
Proof.
  unfold parseProperties. revert properties x.
  induction attributes as [|[n v] attrs IH] using rev_ind; intros p x.
  - intros [= <-]. apply not_elem_of_nil.
  - rewrite fold_left_app.
    change (fold_left parseAttribute [(n, v)] ?a) with (parseAttribute a (n, v)).
    destruct (fold_left parseAttribute attrs (Some [])) as [p0|] eqn:E0; [|done].
    destruct (isDataAttribute n) eqn:Ed.
    + destruct (dropped n) eqn:Edr;
        [rewrite parseAttribute_dropped by done; intros [= <-]; by apply IH|].
      rewrite parseAttribute_effect by done.
      pose proof (effect_path n v) as Hep.
      destruct (effect n v) as [[gs leaf] w]. intros Ha Hin.
      destruct (assignPath_keys _ _ _ _ _ _ _ Ha Hin) as [[x0 H0]|Hh].
      * by apply (IH p0 x0).
      * rewrite Hep in Hh. by apply (effectPath_head_not_type n).
    + unfold parseAttribute. cbn [mbind option_bind]. rewrite Ed.
      intros [= <-]. by apply IH.
Qed.

Lemma spreadProps_free type (properties : Props) :
  type <> "contentWrapper" -> (forall x, ("type", x) ∉ properties) ->
  forallb fieldFree (spreadProps type properties) = true.
Proof.
  intros Ht Hp. unfold spreadProps.
  assert (forallb fieldFree [("type", JStr type)] = true) as Hinit.
  { simpl. unfold fieldFree. simpl. by destruct (String.eqb_spec type "contentWrapper"). }
  revert Hinit. generalize [("type", JStr type)].
  induction properties as [|[k pv] ps IH]; intros o Ho; [done|].
  simpl. apply IH.
  - intros x Hx. apply (Hp x). by right.
  - apply forallb_setProp; [done|]. unfold fieldFree. simpl.
    destruct (String.eqb_spec k "type") as [->|_].
    { exfalso. apply (Hp pv). by left. }
    destruct (String.eqb k "children"); [|done].
    destruct (ofPropVal pv) eqn:E; try done. by destruct pv.
Qed.

Lemma reduce_None (push : list JsVal -> JsVal -> list JsVal) kids :
  fold_left (fun children child =>
               c ← children; childObject ← nodeToObject child;
               Some (push c childObject)) kids None = None.
Proof. by induction kids. Qed.

Lemma reduceChildren_free (push : list JsVal -> JsVal -> list JsVal) kids out :
  (forall acc o, forallb wrapperFree acc = true -> wrapperFree o = true ->
     forallb wrapperFree (push acc o) = true) ->
  Forall (fun kid => forall v, nodeToObject kid = Some v -> wrapperFree v = true) kids ->
  reduceChildren nodeToObject push kids = Some out ->
  forallb wrapperFree out = true.
Proof.
  intros Hpush Hk. unfold reduceChildren.
  assert (forallb wrapperFree [] = true) as Hacc by done.
  revert Hacc. generalize (@nil JsVal). revert out.
  induction Hk as [|kid kids Hkid Hkids IH]; intros out acc Hacc; simpl.
  - by intros [= <-].
  - destruct (nodeToObject kid) as [o|] eqn:Eo; simpl.
    + apply IH. apply Hpush; [done|]. by apply Hkid.
    + by rewrite reduce_None.
Qed.

Lemma pushPlain_free acc o :
  forallb wrapperFree acc = true -> wrapperFree o = true ->
  forallb wrapperFree (pushPlain acc o) = true.
Proof.
  intros Ha Ho. unfold pushPlain. destruct (jsTruthy o); [|done].
  rewrite forallb_app, Ha. cbn [forallb]. by rewrite Ho.
Qed.

Lemma pushSpread_free acc o :
  forallb wrapperFree acc = true -> wrapperFree o = true ->
  forallb wrapperFree (pushSpread acc o) = true.
Proof.
  intros Ha Ho. unfold pushSpread. destruct (jsTruthy o); [|done].
  destruct o as [| | |fs|items];
    try (rewrite forallb_app, Ha; cbn [forallb]; by rewrite Ho).
  rewrite wrapperFree_arr in Ho. by rewrite forallb_app, Ha, Ho.
Qed.

Lemma Node_nested_ind (P : Node -> Prop) :
  (forall v, P (TextNode v)) ->
  (forall tag attrs kids, Forall P kids -> P (ElementNode tag attrs kids)) ->
  P OtherNode ->
  forall node, P node.
Proof.
  intros Ht He Ho. fix IH 1. intros [v|tag attrs kids|]; [apply Ht| |apply Ho].
  apply He. induction kids as [|kid kids IHk]; constructor; [apply IH|apply IHk].
Qed.

Lemma nodeToObject_free node v : nodeToObject node = Some v -> wrapperFree v = true.
Proof.
  revert v. induction node as [s|tag attrs kids IH|] using Node_nested_ind; intros v.
  - simpl. intros [= <-]. by destruct (isEmpty (trim s)).
  - change (nodeToObject (ElementNode tag attrs kids))
      with (let type := typeOf tag attrs in
            if String.eqb type "emptyLine" then Some JNull
            else if String.eqb type "contentWrapper" then
              JArr <$> reduceChildren nodeToObject pushPlain kids
            else
              properties ← parseProperties attrs;
              children ← reduceChildren nodeToObject pushSpread kids;
              let obj := spreadProps type properties in
              Some (JObj
                (if String.eqb type "text" then
                   setProp obj "content" (JStr (join (joinElem ∘ contentOf <$> children)))
                 else if bool_decide (0 < length children) then
                   setProp obj "children" (JArr children)
                 else obj))).
    cbv zeta. destruct (String.eqb (typeOf tag attrs) "emptyLine"); [by intros [= <-]|].
    destruct (String.eqb_spec (typeOf tag attrs) "contentWrapper") as [_|Hne].
    + destruct (reduceChildren nodeToObject pushPlain kids) as [out|] eqn:E; [|done].
      simpl. intros [= <-]. rewrite wrapperFree_arr.
      by eapply (reduceChildren_free pushPlain); [apply pushPlain_free| |].
    + destruct (parseProperties attrs) as [props|] eqn:Ep; [|done]. simpl.
      destruct (reduceChildren nodeToObject pushSpread kids) as [out|] eqn:E; [|done].
      simpl. intros [= <-]. rewrite wrapperFree_obj.
      assert (forallb wrapperFree out = true) as Hout
        by (by eapply (reduceChildren_free pushSpread); [apply pushSpread_free| |]).
      assert (forallb fieldFree (spreadProps (typeOf tag attrs) props) = true) as Hs.
      { apply spreadProps_free; [done|]. intros x. by eapply parseProperties_no_type. }
      destruct (String.eqb (typeOf tag attrs) "text").
      * by apply forallb_setProp.
      * case_bool_decide; [|done]. by apply forallb_setProp.
  - by intros [= <-].
Qed.

End WrapperFree.

(** The part of C2 that holds: whatever the fragment, no object of type
    [contentWrapper] is in the output, at any depth. *)
Theorem htmlToDocx_no_wrapper (nodes : list Node) (out : list JsVal) :
  htmlToDocx nodes = Some out -> forallb wrapperFree out = true.
Proof.
  intros H. eapply (reduceChildren_free pushSpread); [apply pushSpread_free| |exact H].
  apply Forall_forall. intros node _ v. apply nodeToObject_free.
Qed.

(** ** The block-content normalizer: what it leaves alone *)

Section Frame.

Lemma cellStable_refl c : cellStable c c.
Proof.
  split; [done|]. destruct (elems c) as [xs|]; [|done].
  exists []. by rewrite app_nil_r.
Qed.

Lemma cellStable_trans c1 c2 c3 : cellStable c1 c2 -> cellStable c2 c3 -> cellStable c1 c3.
Proof.
  intros [F1 E1] [F2 E2]. split.
  - intros k ??. by rewrite F2, F1.
  - destruct (elems c1) as [xs|].
    + destruct E1 as [ys E1]. rewrite E1 in E2. destruct E2 as [zs E2].
      exists (ys ++ zs). by rewrite E2, app_assoc.
    + by rewrite E1 in E2.
Qed.

Lemma heapStable_refl h : heapStable h h.
Proof. intros l c H. exists c. split; [done|apply cellStable_refl]. Qed.

Lemma heapStable_trans h1 h2 h3 : heapStable h1 h2 -> heapStable h2 h3 -> heapStable h1 h3.
Proof.
  intros H12 H23 l c1 H1. destruct (H12 l c1 H1) as (c2 & H2 & S12).
  destruct (H23 l c2 H2) as (c3 & H3 & S23). exists c3.
  split; [done|]. by eapply cellStable_trans.
Qed.

Lemma heapStable_alloc h c : heapStable h (h ++ [c]).
Proof.
  intros l c0 H. exists c0. split; [|apply cellStable_refl].
  by apply lookup_app_l_Some.
Qed.

Lemma heapStable_write h l c c' :
  h !! l = Some c -> cellStable c c' -> heapStable h (<[l := c']> h).
Proof.
  intros Hl Hs l0 c0 H0. destruct (decide (l = l0)) as [<-|Hne].
  - exists c'. rewrite list_lookup_insert_eq by (by eapply lookup_lt_Some).
    split; [done|]. congruence.
  - exists c0. rewrite list_lookup_insert_ne by done. split; [done|apply cellStable_refl].
Qed.

Lemma getProp_deleteProp_ne {V} (o : list (string * V)) k k' :
  k <> k' -> getProp (deleteProp o k) k' = getProp o k'.
Proof.
  intros Hne. induction o as [|[k0 v0] o IH]; simpl; [done|].
  destruct (String.eqb_spec k0 k) as [->|Hne0]; simpl.
  - destruct (String.eqb_spec k k'); [done|apply IH].
  - destruct (String.eqb_spec k0 k'); [done|apply IH].
Qed.

Lemma preserves_ret {A} (a : A) : preserves (mret a).
Proof. intros h a' h' [= _ <-]. apply heapStable_refl. Qed.

Lemma preserves_throw {A} : preserves (@throw A).
Proof. by intros h a h'. Qed.

Lemma preserves_bind {A B} (m : M A) (k : A -> M B) :
  preserves m -> (forall a, preserves (k a)) -> preserves (m ≫= k).
Proof.
  intros Hm Hk h b h' H. unfold mbind, M_bind in H.
  destruct (m h) as [[a h1]|] eqn:E; [|done].
  eapply heapStable_trans; [by eapply Hm|by eapply Hk].
Qed.

Lemma preserves_readCell l : preserves (readCell l).
Proof.
  intros h c h' H. unfold readCell in H. destruct (h !! l); [|done].
  injection H as _ <-. apply heapStable_refl.
Qed.

Lemma writeCell_stable l c c' h u h' :
  h !! l = Some c -> cellStable c c' -> writeCell l c' h = Some (u, h') -> heapStable h h'.
Proof.
  intros Hl Hs H. unfold writeCell in H. case_bool_decide; [|done].
  injection H as _ <-. by eapply heapStable_write.
Qed.

Lemma preserves_alloc c : preserves (alloc c).
Proof. intros h a h' [= _ <-]. apply heapStable_alloc. Qed.

(** An update of the cell just read that [cellStable] allows. *)
Lemma preserves_update l (f : cell -> M unit) :
  (forall c h u h', h !! l = Some c -> f c h = Some (u, h') -> heapStable h h') ->
  preserves (readCell l ≫= f).
Proof.
  intros Hf h u h' H. unfold mbind, M_bind, readCell in H.
  destruct (h !! l) as [c|] eqn:E; [|done]. by eapply Hf.
Qed.

Lemma preserves_getField k v : preserves (getField k v).
Proof.
  destruct v; simpl; try apply preserves_ret; try apply preserves_throw.
  apply preserves_bind; [apply preserves_readCell|intros; apply preserves_ret].
Qed.

Lemma preserves_optField k v : preserves (optField k v).
Proof. destruct v; simpl; try apply preserves_ret; apply (preserves_getField k (VRef _)). Qed.

Lemma preserves_setParagraphs x v : preserves (setField "paragraphs" x v).
Proof.
  destruct v; simpl; try apply preserves_throw.
  apply preserves_update. intros c h u h' Hl H.
  eapply writeCell_stable; [done| |done]. split; simpl.
  - intros k _ Hk. by rewrite getProp_setProp_ne.
  - destruct (elems c); [|done]. exists []. by rewrite app_nil_r.
Qed.

Lemma preserves_deleteBanner v : preserves (deleteField "banner" v).
Proof.
  destruct v; simpl; try apply preserves_throw; try apply preserves_ret.
  apply preserves_update. intros c h u h' Hl H.
  eapply writeCell_stable; [done| |done]. split; simpl.
  - intros k Hk _. by rewrite getProp_deleteProp_ne.
  - destruct (elems c); [|done]. exists []. by rewrite app_nil_r.
Qed.

Lemma preserves_readArray v : preserves (readArray v).
Proof.
  destruct v; simpl; try apply preserves_throw.
  apply preserves_bind; [apply preserves_readCell|].
  intros c. destruct (elems c); [apply preserves_ret|apply preserves_throw].
Qed.

Lemma preserves_push xs arr : preserves (push xs arr).
Proof.
  destruct arr; simpl; try apply preserves_throw.
  apply preserves_update. intros c h u h' Hl H.
  destruct (elems c) as [ys|] eqn:E; [|done].
  eapply writeCell_stable; [done| |done]. split; simpl; [done|].
  rewrite E. by exists xs.
Qed.

Lemma preserves_forEachFrom arr i n f :
  (forall x, preserves (f x)) -> preserves (forEachFrom arr i n f).
Proof.
  intros Hf. revert i. induction n as [|n IH]; intros i; simpl.
  - apply preserves_ret.
  - apply preserves_bind; [apply preserves_readArray|]. intros xs.
    apply preserves_bind; [|intros; apply IH].
    destruct (xs !! i); [apply Hf|apply preserves_ret].
Qed.

Lemma preserves_forEach arr f : (forall x, preserves (f x)) -> preserves (forEach arr f).
Proof.
  intros Hf. apply preserves_bind; [apply preserves_readArray|].
  intros xs. by apply preserves_forEachFrom.
Qed.

Lemma preserves_newArray xs : preserves (newArray xs).
Proof. apply preserves_alloc. Qed.

Lemma preserves_newObject : preserves newObject.
Proof. apply preserves_alloc. Qed.

Lemma preserves_filterTruthy arr : preserves (filterTruthy arr).
Proof.
  apply preserves_bind; [apply preserves_readArray|intros; apply preserves_newArray].
Qed.

Lemma preserves_orArray x : preserves (orArray x).
Proof. unfold orArray. destruct (truthy x); [apply preserves_ret|apply preserves_newArray]. Qed.

Lemma preserves_orObject x : preserves (orObject x).
Proof. unfold orObject. destruct (truthy x); [apply preserves_ret|apply preserves_newObject]. Qed.

Lemma preserves_splitItem d item : preserves (splitItem d item).
Proof.
  destruct item; simpl; try apply preserves_throw; try apply preserves_ret.
  apply preserves_bind; [apply (preserves_readArray (VRef _))|].
  intros xs. destruct (existsb _ xs); [apply preserves_throw|apply preserves_ret].
Qed.

Lemma preserves_splitByBrTag arr : preserves (splitByBrTag arr).
Proof.
  apply preserves_bind; [apply preserves_newArray|]. intros result.
  apply preserves_bind; [|intros; apply preserves_ret].
  apply preserves_forEach. intros item.
  apply preserves_bind; [apply preserves_splitItem|intros; apply preserves_push].
Qed.

Lemma preserves_filterParagraphs item : preserves (filterParagraphs item).
Proof.
  apply preserves_bind; [apply preserves_getField|]. intros p.
  apply preserves_bind; [apply preserves_filterTruthy|]. intros p'.
  apply preserves_setParagraphs.
Qed.

Lemma preserves_optLengthTruthy x : preserves (optLengthTruthy x).
Proof.
  destruct x; simpl; try apply preserves_ret.
  apply preserves_bind; [apply preserves_readCell|].
  intros c. destruct (elems c); apply preserves_ret.
Qed.

Lemma preserves_callGetBlockItems getBlockItems block :
  preserves (callGetBlockItems getBlockItems block).
Proof.
  intros h a h' H. unfold callGetBlockItems in H.
  destruct (getBlockItems h block); [|done]. injection H as _ <-.
  apply heapStable_refl.
Qed.

End Frame.

Create HintDb frame discriminated.
#[local] Hint Resolve preserves_ret preserves_throw preserves_getField preserves_optField
  preserves_setParagraphs preserves_deleteBanner preserves_readArray preserves_push
  preserves_newArray preserves_newObject preserves_filterTruthy preserves_orArray
  preserves_orObject preserves_splitByBrTag preserves_filterParagraphs
  preserves_optLengthTruthy preserves_callGetBlockItems : frame.

Ltac frame_step :=
  first
    [ solve [auto with frame]
    | match goal with |- preserves (forEach _ _) => apply preserves_forEach; intros ? end
    | match goal with |- preserves (if ?b then _ else _) => destruct b end
    | match goal with |- preserves (_ ≫= _) => apply preserves_bind; [|intros ?] end ].

Lemma preserves_parseBlockContent getBlockItems block :
  preserves (parseBlockContent getBlockItems block).
Proof. unfold parseBlockContent. repeat frame_step. Qed.

(** ** The block-content normalizer: runs on a known store *)

Section SplitFacts.

Lemma filter_truthy_strings (ss : list string) :
  List.filter truthy (VStr <$> ss) = VStr <$> keep ss.
Proof.
  induction ss as [|s ss IH]; [done|].
  rewrite fmap_cons. unfold keep in *. cbn [List.filter truthy].
  destruct (isEmpty s); cbn [negb]; [exact IH|].
  rewrite fmap_cons. f_equal. exact IH.
Qed.

Lemma bind_run {A B} (m : M A) (k : A -> M B) h a h1 :
  m h = Some (a, h1) -> (m ≫= k) h = k a h1.
Proof. intros H. unfold mbind, M_bind. by rewrite H. Qed.

Lemma readArray_app h l c xs c' :
  h !! l = Some c -> elems c = Some xs ->
  readArray (VRef l) (h ++ [c']) = Some (xs, h ++ [c']).
Proof.
  intros Hl He. unfold readArray. erewrite bind_run; cycle 1.
  { unfold readCell. by rewrite (lookup_app_l_Some _ _ _ _ Hl). }
  by rewrite He.
Qed.

Lemma push_last h ys xs :
  push xs (VRef (length h)) (h ++ [array ys]) = Some ((), h ++ [array (ys ++ xs)]).
Proof.
  unfold push. erewrite bind_run; cycle 1.
  { unfold readCell. by rewrite list_lookup_middle. }
  simpl. unfold writeCell. rewrite length_app. simpl.
  rewrite bool_decide_true by lia.
  rewrite <- (Nat.add_0_r (length h)) at 1. by rewrite insert_app_r.
Qed.

(** The loop of [splitByBrTag] over an array of strings. *)
Lemma forEachFrom_split d h l c ss :
  h !! l = Some c -> elems c = Some (VStr <$> ss) ->
  forall n i acc, i + n = length ss ->
    forEachFrom (VRef l) i n
      (fun item => parts ← splitItem d item; push parts (VRef (length h)))
      (h ++ [array acc])
    = Some ((), h ++ [array (acc ++ (VStr <$> flat_map (pieces d) (drop i ss)))]).
Proof.
  intros Hl He. induction n as [|n IH]; intros i acc Hi.
  - rewrite drop_ge by lia. simpl. by rewrite app_nil_r.
  - simpl forEachFrom.
    erewrite bind_run by (by eapply readArray_app).
    destruct (ss !! i) as [s|] eqn:Es; cycle 1.
    { apply lookup_ge_None in Es. lia. }
    rewrite list_lookup_fmap, Es. simpl.
    erewrite bind_run; cycle 1.
    { erewrite bind_run by reflexivity. apply push_last. }
    rewrite IH by lia. f_equal. f_equal. f_equal. f_equal.
    rewrite (drop_S _ s _ Es). simpl. rewrite fmap_app, app_assoc.
    f_equal. f_equal. unfold pieces. by destruct (includes d s).
Qed.

Lemma splitByBrTag_strings h l c xs ss :
  h !! l = Some c -> elems c = Some xs -> xs = VStr <$> ss ->
  splitByBrTag (VRef l) h
  = Some (VRef (length h), h ++ [array (VStr <$> brPieces ss)]).
Proof.
  intros Hl He ->. unfold splitByBrTag, splitByBrTagWith.
  erewrite bind_run by reflexivity.
  erewrite bind_run; [reflexivity|].
  unfold forEach. erewrite bind_run by (by eapply readArray_app).
  rewrite length_fmap.
  exact (forEachFrom_split "<br>" h l c ss Hl He (length ss) 0 [] eq_refl).
Qed.

Lemma forEach_single h l c x f :
  h !! l = Some c -> elems c = Some [x] ->
  forEach (VRef l) f h = (f x ≫= fun _ => mret ()) h.
Proof.
  intros Hl He. unfold forEach.
  assert (readArray (VRef l) h = Some ([x], h)) as Hr.
  { unfold readArray. erewrite bind_run; [|unfold readCell; by rewrite Hl]. by rewrite He. }
  erewrite bind_run by exact Hr. simpl.
  erewrite bind_run by exact Hr. simpl. reflexivity.
Qed.

End SplitFacts.

Section SymbolicRun.

Lemma bind_assoc_run {A B C} (m : M A) (k1 : A -> M B) (k2 : B -> M C) h :
  ((m ≫= k1) ≫= k2) h = (m ≫= fun a => k1 a ≫= k2) h.
Proof. unfold mbind, M_bind. by destruct (m h) as [[]|]. Qed.

Lemma bind_congr_run {A B} (m m' : M A) (k : A -> M B) h :
  m h = m' h -> (m ≫= k) h = (m' ≫= k) h.
Proof. intros H. unfold mbind, M_bind. by rewrite H. Qed.

End SymbolicRun.

(** One step of a run on a known store: the first operation is evaluated,
    unless it is a loop over a sequence that is not known. *)
Ltac run_step :=
  lazymatch goal with
  | |- (?m ≫= ?k) ?h = _ =>
      lazymatch m with
      | context [splitByBrTag] => fail
      | _ =>
          let r := eval vm_compute in (m h) in
          lazymatch r with
          | Some (?a, ?h1) =>
              rewrite (bind_run m k h a h1) by (vm_compute; reflexivity); cbv beta
          end
      end
  end.

Ltac run_split lem :=
  lazymatch goal with
  | |- (?m ≫= ?k) ?h = _ =>
      erewrite (bind_run m k h);
      [|eapply splitByBrTag_strings; [reflexivity|reflexivity|exact lem]];
      cbv beta
  end.


(** ** The block-content normalizer on a block that shares nothing *)

Section Operations.

Implicit Types h H : heap.

Lemma run_getField h l c k :
  h !! l = Some c -> getField k (VRef l) h = Some (fieldOf c k, h).
Proof. intros Hl. unfold getField, readCell, mbind, M_bind. by rewrite Hl. Qed.

Lemma run_optField h l c k :
  h !! l = Some c -> optField k (VRef l) h = Some (fieldOf c k, h).
Proof. apply run_getField. Qed.

Lemma run_setField h l c k x :
  h !! l = Some c ->
  setField k x (VRef l) h = Some ((), <[l := mkCell (setProp (fields c) k x) (elems c)]> h).
Proof.
  intros Hl. unfold setField, readCell, writeCell, mbind, M_bind. rewrite Hl.
  by rewrite bool_decide_true by (by eapply lookup_lt_Some).
Qed.

Lemma run_deleteField h l c k :
  h !! l = Some c ->
  deleteField k (VRef l) h
  = Some ((), <[l := mkCell (deleteProp (fields c) k) (elems c)]> h).
Proof.
  intros Hl. unfold deleteField, readCell, writeCell, mbind, M_bind. rewrite Hl.
  by rewrite bool_decide_true by (by eapply lookup_lt_Some).
Qed.

Lemma run_readArray h l xs : arrayAt h l xs -> readArray (VRef l) h = Some (xs, h).
Proof.
  intros (c & Hl & He). unfold readArray, readCell, mbind, M_bind. by rewrite Hl, He.
Qed.

Lemma run_push h l c ys xs :
  h !! l = Some c -> elems c = Some ys ->
  push xs (VRef l) h = Some ((), <[l := mkCell (fields c) (Some (ys ++ xs))]> h).
Proof.
  intros Hl He. unfold push, readCell, writeCell, mbind, M_bind. rewrite Hl, He.
  by rewrite bool_decide_true by (by eapply lookup_lt_Some).
Qed.

Lemma run_filterTruthy h l xs :
  arrayAt h l xs ->
  filterTruthy (VRef l) h = Some (VRef (length h), h ++ [array (List.filter truthy xs)]).
Proof.
  intros Ha. unfold filterTruthy. by erewrite bind_run by (by apply run_readArray).
Qed.

(** The entries that are not falsy, when they are strings. *)
Lemma filter_truthy_texts xs :
  splittable xs -> List.filter truthy xs = VStr <$> texts (List.filter truthy xs).
Proof.
  induction 1 as [|v xs Hv _ IH]; [done|]. cbn [List.filter].
  destruct (truthy v) eqn:E; [|exact IH].
  destruct (Hv eq_refl) as [s ->].
  change (texts (VStr s :: List.filter truthy xs))
    with (s :: texts (List.filter truthy xs)).
  rewrite fmap_cons. f_equal. exact IH.
Qed.

Lemma run_split_filtered h l xs :
  arrayAt h l (List.filter truthy xs) -> splittable xs ->
  splitByBrTag (VRef l) h
  = Some (VRef (length h),
          h ++ [array (VStr <$> brPieces (texts (List.filter truthy xs)))]).
Proof.
  intros (c & Hl & He) Hs. eapply splitByBrTag_strings; [exact Hl|exact He|].
  by apply filter_truthy_texts.
Qed.

Lemma run_orArray h v o xs :
  optArrayIn h v o xs ->
  exists l H, orArray v h = Some (VRef l, H) /\ arrayAt H l xs
    /\ ((o = Some l /\ H = h) \/ (o = None /\ l = length h /\ H = h ++ [array []])).
Proof.
  unfold optArrayIn, orArray. destruct o as [l|].
  - intros [-> Ha]. exists l, h. simpl. split; [done|]. split; [done|]. by left.
  - intros [-> ->]. exists (length h), (h ++ [array []]). split; [done|]. split.
    + exists (array []). by rewrite list_lookup_middle.
    + by right.
Qed.

Lemma setProp_same {V} (o : list (string * V)) k v :
  getProp o k = Some v -> setProp o k v = o.
Proof.
  induction o as [|[k' v'] o IH]; simpl; [done|].
  destruct (String.eqb_spec k' k) as [->|Hne].
  - by intros [= ->].
  - intros H. by rewrite IH.
Qed.

Lemma setProp_twice {V} (o : list (string * V)) k v w :
  setProp (setProp o k v) k w = setProp o k w.
Proof.
  induction o as [|[k' v'] o IH]; simpl.
  - by rewrite String.eqb_refl.
  - destruct (String.eqb_spec k' k) as [->|Hne]; simpl.
    + by rewrite String.eqb_refl.
    + destruct (String.eqb_spec k' k); [done|]. by rewrite IH.
Qed.

Lemma fieldOf_ref c k l : fieldOf c k = VRef l -> getProp (fields c) k = Some (VRef l).
Proof. unfold fieldOf. by destruct (getProp (fields c) k) as [v|]; simpl; [intros ->|]. Qed.

Lemma withParagraphs_same c p : fieldOf c "paragraphs" = VRef p -> withParagraphs c p = c.
Proof.
  intros H%fieldOf_ref. unfold withParagraphs. rewrite setProp_same by done. by destruct c.
Qed.

Lemma withParagraphs_twice c p q :
  withParagraphs (withParagraphs c p) q = withParagraphs c q.
Proof. unfold withParagraphs. simpl. by rewrite setProp_twice. Qed.

End Operations.

Section Stable.

Implicit Types h H : heap.

Lemma stableOutside_refl D h : stableOutside D h h.
Proof. by split. Qed.

Lemma stableOutside_trans D1 D2 h1 h2 h3 :
  stableOutside D1 h1 h2 -> stableOutside D2 h2 h3 -> stableOutside (D1 ++ D2) h1 h3.
Proof.
  intros [L1 S1] [L2 S2]. split; [lia|]. intros l Hl Hn.
  rewrite not_elem_of_app in Hn. destruct Hn as [Hn1 Hn2].
  rewrite S2 by (done || lia). by apply S1.
Qed.

Lemma stableOutside_weaken D D' h H :
  stableOutside D h H -> (forall l, l ∈ D -> l ∈ D') -> stableOutside D' h H.
Proof. intros [L S] Hsub. split; [done|]. intros l Hl Hn. apply S; [done|]. naive_solver. Qed.

Lemma stableOutside_alloc D h c : stableOutside D h (h ++ [c]).
Proof.
  split; [rewrite length_app; lia|]. intros l Hl _. by apply lookup_app_l.
Qed.

Lemma stableOutside_app D h news : stableOutside D h (h ++ news).
Proof.
  split; [rewrite length_app; lia|]. intros l Hl _. by apply lookup_app_l.
Qed.

Lemma stableOutside_insert h l c : stableOutside [l] h (<[l := c]> h).
Proof.
  split; [by rewrite length_insert|]. intros l' _ Hn.
  apply list_lookup_insert_ne. intros ->. apply Hn. left.
Qed.

Lemma stableOutside_lookup D h H l c :
  stableOutside D h H -> h !! l = Some c -> l ∉ D -> H !! l = Some c.
Proof. intros [_ S] Hl Hn. rewrite S; [done| |done]. by eapply lookup_lt_Some. Qed.

Lemma stableOutside_arrayAt D h H l xs :
  stableOutside D h H -> arrayAt h l xs -> l ∉ D -> arrayAt H l xs.
Proof. intros HS (c & Hl & He) Hn. exists c. split; [|done]. by eapply stableOutside_lookup. Qed.

Lemma holdsParagraphs_stable h0 b own l base xs D H H' :
  holdsParagraphs h0 b own l base xs H ->
  stableOutside D H H' -> l ∉ D -> (forall p, p ∈ own -> p ∉ D) ->
  (forall d, d ∈ D -> d < b) ->
  holdsParagraphs h0 b own l base xs H'.
Proof.
  intros (c & p & Hc & Hp & Hl & Ha) HS Hn Hown Hb.
  exists c, p. split; [done|]. split; [done|]. split.
  - by eapply stableOutside_lookup.
  - eapply stableOutside_arrayAt; [done..|].
    destruct Hp as [Hp|Hp]; [by apply Hown|]. intros Hd. apply Hb in Hd. lia.
Qed.

Lemma holdsParagraphs_own h0 b own own' l base xs H :
  holdsParagraphs h0 b own l base xs H -> (forall p, p ∈ own -> p ∈ own') ->
  holdsParagraphs h0 b own' l base xs H.
Proof.
  intros (c & p & Hc & Hp & Hl & Ha) Hsub. exists c, p.
  split; [done|]. split; [|done]. destruct Hp; [left|right]; auto.
Qed.

End Stable.

Lemma elem_of_flat_map {A B} (g : A -> list B) (xs : list A) (y : B) :
  y ∈ flat_map g xs <-> exists x, x ∈ xs /\ y ∈ g x.
Proof.
  split.
  - intros (x & Hx & Hy)%list_elem_of_In%in_flat_map. exists x.
    by split; apply list_elem_of_In.
  - intros (x & Hx & Hy). apply list_elem_of_In, in_flat_map. exists x.
    by split; apply list_elem_of_In.
Qed.

Lemma NoDup_flat_map_pos {A B} (g : A -> list B) (xs : list A) :
  NoDup (flat_map g xs) ->
  forall i j x y, i <> j -> xs !! i = Some x -> xs !! j = Some y ->
    forall l, l ∈ g x -> l ∉ g y.
Proof.
  induction xs as [|x0 xs IH]; intros Hnd i j x y Hij Hi Hj l Hx Hy; [done|].
  simpl in Hnd. apply NoDup_app in Hnd as (_ & Hd & Hnd).
  destruct i as [|i], j as [|j]; simpl in Hi, Hj; try done.
  - injection Hi as <-. apply (Hd l Hx), elem_of_flat_map. exists y.
    split; [by eapply list_elem_of_lookup_2|done].
  - injection Hj as <-. apply (Hd l Hy), elem_of_flat_map. exists x.
    split; [by eapply list_elem_of_lookup_2|done].
  - by apply (IH Hnd i j x y ltac:(congruence) Hi Hj l).
Qed.

Lemma NoDup_flat_map_sub {A B} (g : A -> list B) (xs : list A) x :
  NoDup (flat_map g xs) -> x ∈ xs -> NoDup (g x).
Proof.
  induction xs as [|x0 xs IH]; intros Hnd Hx; [by apply elem_of_nil in Hx|].
  simpl in Hnd. apply NoDup_app in Hnd as (H0 & _ & Hnd).
  apply elem_of_cons in Hx as [->|Hx]; [done|by apply IH].
Qed.

Lemma NoDup_flat_map_inj {A B} (g : A -> list B) (xs : list A) x y l :
  NoDup (flat_map g xs) -> x ∈ xs -> y ∈ xs -> l ∈ g x -> l ∈ g y -> x = y.
Proof.
  intros Hnd (i & Hi)%list_elem_of_lookup (j & Hj)%list_elem_of_lookup Hx Hy.
  destruct (decide (i = j)) as [->|Hne]; [congruence|].
  by destruct (NoDup_flat_map_pos g xs Hnd i j x y Hne Hi Hj l Hx).
Qed.

(** A loop over an array of distinct objects, its body working for each
    object [o] on places [fp o] of its own, writing to [wr o] among them,
    and creating cells.  [Pre o] holds of [o] until its turn, [Post o]
    from then on. *)
Section Owned.

Context {O : Type}.
Variables (place : O -> loc) (fp wr : O -> list loc).
Variables (Pre Post : O -> heap -> Prop).
Variable f : val -> M unit.
Variable b : nat.

Hypothesis wr_fp : forall o l, l ∈ wr o -> l ∈ fp o.

Hypothesis Pre_stable : forall o D H H',
  Pre o H -> stableOutside D H H' -> (forall l, l ∈ D -> l ∉ fp o) ->
  (forall l, l ∈ D -> l < b) -> Pre o H'.

Hypothesis Post_stable : forall o D H H',
  Post o H -> stableOutside D H H' -> (forall l, l ∈ D -> l ∉ fp o) ->
  (forall l, l ∈ D -> l < b) -> Post o H'.

Lemma forEach_owned os la h :
  (forall o H, o ∈ os -> b <= length H -> Pre o H ->
     exists H', f (VRef (place o)) H = Some ((), H')
       /\ stableOutside (wr o) H H' /\ Post o H') ->
  b <= length h -> la < b ->
  arrayAt h la ((VRef ∘ place) <$> os) ->
  (forall o, o ∈ os -> (la ∉ wr o) /\ (forall l, l ∈ wr o -> l < b)) ->
  NoDup (flat_map fp os) ->
  (forall o, o ∈ os -> Pre o h) ->
  exists h', forEach (VRef la) f h = Some ((), h')
    /\ stableOutside (flat_map wr os) h h'
    /\ forall o, o ∈ os -> Post o h'.
Proof.
  intros step Hb Hla Harr Hwr Hnd Hpre.
  pose proof (NoDup_flat_map_pos fp os Hnd) as Hdisj.
  assert (forall n k H, k + n = length os ->
            stableOutside (flat_map wr (take k os)) h H ->
            (forall i o, i < k -> os !! i = Some o -> Post o H) ->
            (forall i o, k <= i -> os !! i = Some o -> Pre o H) ->
            exists H', forEachFrom (VRef la) k n f H = Some ((), H')
              /\ stableOutside (flat_map wr os) h H'
              /\ forall i o, os !! i = Some o -> Post o H') as Hloop.
  { induction n as [|n IH]; intros k H Hk HS Hpost Hpre'.
    - exists H. split; [done|]. rewrite take_ge in HS by lia. split; [done|].
      intros i o Hi. apply (Hpost i o); [|done]. apply lookup_lt_Some in Hi. lia.
    - destruct (lookup_lt_is_Some_2 os k) as [o Ho]; [lia|].
      assert (o ∈ os) as Hin by (by eapply list_elem_of_lookup_2).
      assert (la ∉ flat_map wr (take k os)) as Hla'.
      { intros (o' & Ho' & Hl)%elem_of_flat_map.
        apply elem_of_take in Ho' as (? & ? & ?).
        assert (o' ∈ os) as Hin' by (by eapply list_elem_of_lookup_2).
        by apply (Hwr o' Hin'). }
      simpl forEachFrom.
      erewrite bind_run; cycle 1.
      { apply run_readArray. eapply stableOutside_arrayAt; done. }
      rewrite list_lookup_fmap, Ho. simpl.
      destruct (step o H Hin) as (H' & Hf & HS' & HP).
      { destruct HS. lia. }
      { by apply (Hpre' k). }
      erewrite bind_run by exact Hf.
      apply (IH (S k) H').
      + lia.
      + rewrite (take_S_r _ _ _ Ho), flat_map_app. simpl. rewrite app_nil_r.
        by eapply stableOutside_trans.
      + intros i o' Hi Ho'. destruct (decide (i = k)) as [->|Hne].
        * rewrite Ho in Ho'. by injection Ho' as <-.
        * eapply Post_stable; [apply (Hpost i o'); [lia|done]|exact HS'| |].
          -- intros l Hl%wr_fp. by apply (Hdisj k i o o').
          -- intros l Hl. by apply (Hwr o Hin).
      + intros i o' Hi Ho'.
        eapply Pre_stable; [apply (Hpre' i o'); [lia|done]|exact HS'| |].
        * intros l Hl%wr_fp. apply (Hdisj k i o o'); [lia|done..].
        * intros l Hl. by apply (Hwr o Hin). }
  unfold forEach. erewrite bind_run by (by apply run_readArray).
  rewrite length_fmap.
  destruct (Hloop (length os) 0 h) as (h' & Hrun & HS & HP).
  - done.
  - rewrite take_0. apply stableOutside_refl.
  - intros i o Hi. lia.
  - intros i o _ Hi. apply Hpre. by eapply list_elem_of_lookup_2.
  - exists h'. split; [done|]. split; [done|].
    intros o (i & Hi)%list_elem_of_lookup. by eapply HP.
Qed.

End Owned.

Section Replace.

Variable h0 : heap.
Variable b : nat.

Lemma cellBecomes_stable D H H' l f :
  cellBecomes h0 H l f -> stableOutside D H H' -> l ∉ D -> cellBecomes h0 H' l f.
Proof.
  intros (c & Hc & Hl) HS Hn. exists c. split; [done|]. by eapply stableOutside_lookup.
Qed.

Lemma arrayAt_fresh_stable D H H' n xs :
  arrayAt H n xs -> stableOutside D H H' -> b <= n -> (forall d, d ∈ D -> d < b) ->
  arrayAt H' n xs.
Proof.
  intros Ha HS Hn Hb. eapply stableOutside_arrayAt; [done..|].
  intros Hd. apply Hb in Hd. lia.
Qed.

(** [item.paragraphs = op(item.paragraphs)], for an [op] that makes of an
    array holding [xs] a new array holding [ys]. *)
Lemma replace_step (op : val -> M val) own l base xs ys H :
  (forall H p, arrayAt H p xs ->
     op (VRef p) H = Some (VRef (length H), H ++ [array ys])) ->
  b <= length H -> l < b ->
  holdsParagraphs h0 b own l base xs H ->
  exists H',
    (p ← getField "paragraphs" (VRef l); p' ← op p; setField "paragraphs" p' (VRef l)) H
    = Some ((), H')
    /\ stableOutside [l] H H'
    /\ holdsParagraphs h0 b [] l base ys H'.
Proof.
  intros Hop Hb Hlb (c & p & Hc & Hp & Hl & Ha).
  erewrite bind_run by (by apply run_getField).
  assert (fieldOf (withParagraphs (base c) p) "paragraphs" = VRef p) as ->.
  { unfold fieldOf, withParagraphs. simpl. by rewrite getProp_setProp_eq. }
  erewrite bind_run by (by apply Hop).
  assert (l < length H) as Hlt by (by eapply lookup_lt_Some).
  erewrite run_setField by (by apply lookup_app_l_Some).
  eexists. split; [done|]. split.
  - eapply (stableOutside_trans [] [l]); [apply stableOutside_alloc|].
    apply stableOutside_insert.
  - exists c, (length H). split; [done|]. split; [right; lia|]. split.
    + rewrite list_lookup_insert_eq by (rewrite length_app; lia).
      exact (f_equal Some (withParagraphs_twice (base c) p (length H))).
    + exists (array ys). split; [|done].
      rewrite list_lookup_insert_ne by lia. by rewrite list_lookup_middle.
Qed.

Lemma flat_map_singleton {A B} (g : A -> B) (xs : list A) :
  flat_map (fun x => [g x]) xs = g <$> xs.
Proof. induction xs as [|x xs IH]; [done|]. simpl. by rewrite IH. Qed.

(** The loop [arr.forEach((item) => item.paragraphs = op(item.paragraphs))]
    over objects that share nothing. *)
Lemma replaceLoop {O} (place : O -> loc) (fp own : O -> list loc)
    (base : O -> cell -> cell) (src tgt : O -> list val) (op : val -> M val) os la h :
  (forall o, o ∈ os ->
     forall H p, arrayAt H p (src o) ->
       op (VRef p) H = Some (VRef (length H), H ++ [array (tgt o)])) ->
  (forall o, place o ∈ fp o /\ forall l, l ∈ own o -> l ∈ fp o) ->
  b <= length h -> la < b ->
  arrayAt h la ((VRef ∘ place) <$> os) ->
  (forall o, o ∈ os -> place o <> la /\ place o < b) ->
  NoDup (flat_map fp os) ->
  (forall o, o ∈ os -> holdsParagraphs h0 b (own o) (place o) (base o) (src o) h) ->
  exists h',
    forEach (VRef la)
      (fun item => p ← getField "paragraphs" item; p' ← op p;
                   setField "paragraphs" p' item) h
    = Some ((), h')
    /\ stableOutside (place <$> os) h h'
    /\ forall o, o ∈ os -> holdsParagraphs h0 b [] (place o) (base o) (tgt o) h'.
Proof.
  intros Hop Hfp Hb Hla Harr Hplace Hnd Hpre.
  rewrite <- (flat_map_singleton place).
  apply (forEach_owned place fp (fun o => [place o])
           (fun o => holdsParagraphs h0 b (own o) (place o) (base o) (src o))
           (fun o => holdsParagraphs h0 b [] (place o) (base o) (tgt o))
           _ b).
  - intros o l ->%list_elem_of_singleton. apply (proj1 (Hfp o)).
  - intros o D H H' HP HS HD HDb. eapply holdsParagraphs_stable; [done..| | |done].
    + intros Hin. apply (HD _ Hin), (proj1 (Hfp o)).
    + intros p Hp Hin. by apply (HD _ Hin), (proj2 (Hfp o)).
  - intros o D H H' HP HS HD HDb. eapply holdsParagraphs_stable; [done..| | |done].
    + intros Hin. apply (HD _ Hin), (proj1 (Hfp o)).
    + intros p Hp. by apply elem_of_nil in Hp.
  - intros o H Hin HbH HP.
    eapply replace_step; [by apply Hop|done|by apply Hplace|done].
  - done.
  - done.
  - done.
  - intros o Hin. split.
    + intros ->%list_elem_of_singleton. by apply (Hplace o Hin).
    + intros l ->%list_elem_of_singleton. by apply Hplace.
  - done.
  - done.
Qed.

End Replace.

Section Loops.

Variable h0 : heap.
Variable b : nat.

Lemma entryAt_entryLocs e : entryAt e ∈ entryLocs e.
Proof. left. Qed.

Lemma entryParagraphsAt_entryLocs e : entryParagraphsAt e ∈ entryLocs e.
Proof. right. left. Qed.

Lemma entryLocs_listLocs l e x : e ∈ listEntries l -> x ∈ entryLocs e -> x ∈ listLocs l.
Proof. intros He Hx. right. apply elem_of_flat_map. by exists e. Qed.

Lemma listLocs_listsLocs o ls l x : l ∈ ls -> x ∈ listLocs l -> x ∈ listsLocs o ls.
Proof.
  intros Hl Hx. apply elem_of_app. right. apply elem_of_flat_map. by exists l.
Qed.

Lemma fmap_flat_map {A B C} (g : B -> C) (f : A -> list B) (xs : list A) :
  g <$> flat_map f xs = flat_map (fun x => g <$> f x) xs.
Proof. induction xs as [|x xs IH]; [done|]. simpl. by rewrite fmap_app, IH. Qed.

Lemma entryReady_stable D H H' e :
  entryReady h0 b H e -> stableOutside D H H' -> (forall l, l ∈ D -> l ∉ entryLocs e) ->
  (forall l, l ∈ D -> l < b) -> entryReady h0 b H' e.
Proof.
  intros HP HS HD HDb. eapply holdsParagraphs_stable; [done..| | |done].
  - intros Hin. apply (HD _ Hin), entryAt_entryLocs.
  - intros p ->%list_elem_of_singleton Hin. apply (HD _ Hin), entryParagraphsAt_entryLocs.
Qed.

Lemma entryFiltered_stable D H H' e :
  entryFiltered h0 b H e -> stableOutside D H H' -> entryAt e ∉ D ->
  (forall l, l ∈ D -> l < b) -> entryFiltered h0 b H' e.
Proof.
  intros HP HS HD HDb. eapply holdsParagraphs_stable; [done..| |done].
  intros p Hp. by apply elem_of_nil in Hp.
Qed.

Lemma listReady_stable D H H' l :
  listReady h0 b H l -> stableOutside D H H' -> (forall x, x ∈ D -> x ∉ listLocs l) ->
  (forall x, x ∈ D -> x < b) -> listReady h0 b H' l.
Proof.
  intros [Ha He] HS HD HDb. split.
  - eapply stableOutside_arrayAt; [done..|]. intros Hin. apply (HD _ Hin). left.
  - intros e Hin. eapply entryReady_stable; [by apply He|done| |done].
    intros x Hx Hx'. apply (HD _ Hx). by eapply entryLocs_listLocs.
Qed.

(** The loop over the entries of one list. *)
Lemma filterEntries l H :
  b <= length H -> NoDup (listLocs l) -> (forall x, x ∈ listLocs l -> x < b) ->
  listReady h0 b H l ->
  exists H',
    forEach (VRef (listAt l)) filterParagraphs H = Some ((), H')
    /\ stableOutside (entryAt <$> listEntries l) H H'
    /\ forall e, e ∈ listEntries l -> entryFiltered h0 b H' e.
Proof.
  intros Hb Hnd Hlt [Harr Hready].
  apply NoDup_cons in Hnd as [Hla Hnd].
  apply (replaceLoop h0 b entryAt entryLocs (fun e => [entryParagraphsAt e])
           (fun _ => id) entryParagraphs
           (fun e => List.filter truthy (entryParagraphs e)) filterTruthy).
  - intros e _ H1 p Ha. by apply run_filterTruthy.
  - intros e. split; [apply entryAt_entryLocs|].
    intros x ->%list_elem_of_singleton. apply entryParagraphsAt_entryLocs.
  - done.
  - apply Hlt. left.
  - done.
  - intros e He. split.
    + intros Heq. apply Hla, elem_of_flat_map. exists e. split; [done|].
      rewrite <- Heq. apply entryAt_entryLocs.
    + apply Hlt. eapply entryLocs_listLocs; [done|apply entryAt_entryLocs].
  - done.
  - done.
Qed.

(** The loop over lists and their entries. *)
Lemma filterLists ls la h :
  b <= length h -> la < b ->
  arrayAt h la ((VRef ∘ listAt) <$> ls) ->
  NoDup (la :: flat_map listLocs ls) ->
  (forall x, x ∈ flat_map listLocs ls -> x < b) ->
  (forall l, l ∈ ls -> listReady h0 b h l) ->
  exists h',
    forEach (VRef la) (fun list => forEach list filterParagraphs) h = Some ((), h')
    /\ stableOutside (entryAt <$> entriesOf ls) h h'
    /\ forall e, e ∈ entriesOf ls -> entryFiltered h0 b h' e.
Proof.
  intros Hb Hla Harr Hnd Hlt Hready.
  apply NoDup_cons in Hnd as [Hla' Hnd].
  destruct (forEach_owned listAt listLocs (fun l => entryAt <$> listEntries l)
              (fun l H => listReady h0 b H l)
              (fun l H => forall e, e ∈ listEntries l -> entryFiltered h0 b H e)
              (fun list => forEach list filterParagraphs) b) with (os := ls) (la := la) (h := h)
    as (h' & Hrun & HS & HP).
  - intros l x (e & -> & He)%list_elem_of_fmap.
    eapply entryLocs_listLocs; [done|apply entryAt_entryLocs].
  - intros l D H H'. apply listReady_stable.
  - intros l D H H' HP HS HD HDb e He.
    eapply entryFiltered_stable; [by apply HP|done| |done].
    intros Hin. apply (HD _ Hin). eapply entryLocs_listLocs; [done|apply entryAt_entryLocs].
  - intros l H Hl HbH Hr. apply filterEntries; [done| | |done].
    + by eapply NoDup_flat_map_sub.
    + intros x Hx. apply Hlt, elem_of_flat_map. by exists l.
  - done.
  - done.
  - done.
  - intros l Hl. split.
    + intros (e & -> & He)%list_elem_of_fmap. apply Hla', elem_of_flat_map.
      exists l. split; [done|]. eapply entryLocs_listLocs; [done|apply entryAt_entryLocs].
    + intros x (e & -> & He)%list_elem_of_fmap. apply Hlt, elem_of_flat_map.
      exists l. split; [done|]. eapply entryLocs_listLocs; [done|apply entryAt_entryLocs].
  - done.
  - done.
  - exists h'. split; [done|]. split.
    + unfold entriesOf. by rewrite fmap_flat_map.
    + intros e (l & Hl & He)%elem_of_flat_map. by apply (HP l).
Qed.

End Loops.

Section ItemLoops.

Variable h0 : heap.
Variable b : nat.

Lemma itemAt_itemLocs it : itemAt it ∈ itemLocs it.
Proof. left. Qed.

Lemma itemImagesAt_itemLocs it l : itemImagesAt it = Some l -> l ∈ itemLocs it.
Proof. intros H. right. apply elem_of_app. left. rewrite H. left. Qed.

Lemma itemParagraphsAt_itemLocs it : itemParagraphsAt it ∈ itemLocs it.
Proof. right. apply elem_of_app. right. left. Qed.

Lemma listsLocs_itemLocs it x :
  x ∈ listsLocs (itemListsAt it) (itemLists it) -> x ∈ itemLocs it.
Proof. intros H. right. apply elem_of_app. right. by right. Qed.

Lemma itemLocs_NoDup_lists it :
  NoDup (itemLocs it) -> NoDup (listsLocs (itemListsAt it) (itemLists it)).
Proof.
  intros Hnd. apply NoDup_cons in Hnd as [_ Hnd].
  apply NoDup_app in Hnd as (_ & _ & Hnd). by apply NoDup_cons in Hnd as [_ Hnd].
Qed.

Lemma itemLocs_images_ne it l :
  NoDup (itemLocs it) -> itemImagesAt it = Some l -> itemAt it <> l.
Proof.
  intros Hnd Hl Heq. apply NoDup_cons in Hnd as [Hn _]. apply Hn.
  apply elem_of_app. left. rewrite Hl, Heq. left.
Qed.

Lemma bannerReady_stable D H H' it :
  bannerReady h0 H it -> stableOutside D H H' -> (forall l, l ∈ D -> l ∉ itemLocs it) ->
  bannerReady h0 H' it.
Proof.
  intros [H1 H2] HS HD. split.
  - eapply cellBecomes_stable; [done..|]. intros Hin. apply (HD _ Hin), itemAt_itemLocs.
  - intros l Hl. eapply cellBecomes_stable; [by apply H2|done|].
    intros Hin. by apply (HD _ Hin), itemImagesAt_itemLocs.
Qed.

Lemma bannerMoved_stable D H H' it :
  bannerMoved h0 H it -> stableOutside D H H' ->
  (forall l, l ∈ D -> l ∉ itemAt it :: option_list (itemImagesAt it)) ->
  bannerMoved h0 H' it.
Proof.
  intros [H1 H2] HS HD. split.
  - eapply cellBecomes_stable; [done..|]. intros Hin. apply (HD _ Hin). left.
  - intros l Hl. eapply cellBecomes_stable; [by apply H2|done|].
    intros Hin. apply (HD _ Hin). right. rewrite Hl. left.
Qed.

(** One turn of the first loop. *)
Lemma banner_step it H :
  NoDup (itemLocs it) -> itemIn h0 it -> bannerReady h0 H it ->
  exists H',
    (banner ← getField "banner" (VRef (itemAt it));
     if truthy banner then
       images ← getField "images" (VRef (itemAt it));
       push [banner] images;;
       deleteField "banner" (VRef (itemAt it))
     else mret ()) H = Some ((), H')
    /\ stableOutside (itemAt it :: option_list (itemImagesAt it)) H H'
    /\ bannerMoved h0 H' it.
Proof.
  intros Hnd (c & Hc & Hban & Himg & Himgs & _) [(c' & Hc' & Hl) Hready].
  rewrite Hc in Hc'. injection Hc' as <-. simpl in Hl.
  erewrite bind_run by (by apply run_getField). rewrite Hban.
  destruct (truthy (itemBanner it)) eqn:Et.
  - destruct (Himg eq_refl) as [l Hl'].
    destruct (Himgs l Hl') as [Hf (ci & Hci & Hys)].
    destruct (Hready l Hl') as (ci' & Hci' & Hli). rewrite Hci in Hci'.
    injection Hci' as <-. simpl in Hli.
    pose proof (itemLocs_images_ne it l Hnd Hl') as Hne.
    erewrite bind_run by (by apply run_getField). rewrite Hf.
    erewrite bind_run by (by eapply run_push).
    erewrite run_deleteField by (by rewrite list_lookup_insert_ne by done).
    eexists. split; [done|]. rewrite Hl'. split.
    + split; [by rewrite !length_insert|]. intros x _ Hx.
      rewrite !list_lookup_insert_ne; [done|..]; intros Heq; apply Hx; rewrite <- Heq.
      * right. left.
      * left.
    + split.
      * exists c. split; [done|]. unfold afterBanner. rewrite Et.
        apply list_lookup_insert_eq. rewrite length_insert. by eapply lookup_lt_Some.
      * intros l0 Hl0. rewrite Hl' in Hl0. injection Hl0 as <-.
        exists ci. split; [done|]. unfold pushedTo. rewrite Et.
        rewrite list_lookup_insert_ne by done.
        apply list_lookup_insert_eq. by eapply lookup_lt_Some.
  - exists H. split; [done|]. split; [apply stableOutside_refl|]. split.
    + exists c. split; [done|]. unfold afterBanner. by rewrite Et.
    + intros l Hl'. destruct (Hready l Hl') as (ci & Hci & Hli).
      exists ci. split; [done|]. unfold pushedTo. by rewrite Et.
Qed.

(** The first loop: the banners of the items are moved to their images. *)
Lemma bannerLoop its la h :
  b <= length h -> la < b ->
  arrayAt h la ((VRef ∘ itemAt) <$> its) ->
  NoDup (la :: flat_map itemLocs its) ->
  (forall x, x ∈ flat_map itemLocs its -> x < b) ->
  (forall it, it ∈ its -> itemIn h0 it /\ bannerReady h0 h it) ->
  exists h',
    forEach (VRef la)
      (fun item =>
         banner ← getField "banner" item;
         if truthy banner then
           images ← getField "images" item;
           push [banner] images;;
           deleteField "banner" item
         else mret ()) h = Some ((), h')
    /\ stableOutside (flat_map (fun it => itemAt it :: option_list (itemImagesAt it)) its)
         h h'
    /\ forall it, it ∈ its -> bannerMoved h0 h' it.
Proof.
  intros Hb Hla Harr Hnd Hlt Hready.
  apply NoDup_cons in Hnd as [Hla' Hnd].
  assert (forall it x, x ∈ itemAt it :: option_list (itemImagesAt it) -> x ∈ itemLocs it)
    as Hsub.
  { intros it x [->|Hx]%elem_of_cons; [apply itemAt_itemLocs|].
    destruct (itemImagesAt it) as [l|] eqn:E; [|by apply elem_of_nil in Hx].
    apply list_elem_of_singleton in Hx as ->. by apply itemImagesAt_itemLocs. }
  apply (forEach_owned itemAt itemLocs
           (fun it => itemAt it :: option_list (itemImagesAt it))
           (fun it H => itemIn h0 it /\ bannerReady h0 H it)
           (fun it H => bannerMoved h0 H it) _ b).
  - done.
  - intros it D H H' [Hin HP] HS HD _. split; [done|]. by eapply bannerReady_stable.
  - intros it D H H' HP HS HD _. eapply bannerMoved_stable; [done..|].
    intros l Hl Hl'. by apply (HD l Hl), Hsub.
  - intros it H Hin _ [Hi HP]. apply banner_step; [|done..].
    by eapply NoDup_flat_map_sub.
  - done.
  - done.
  - done.
  - intros it Hin. split.
    + intros Hl%Hsub. apply Hla', elem_of_flat_map. by exists it.
    + intros x Hx%Hsub. apply Hlt, elem_of_flat_map. by exists it.
  - done.
  - done.
Qed.

Lemma itemListsReady_stable D H H' it :
  itemListsReady h0 b H it -> stableOutside D H H' ->
  (forall l, l ∈ D -> l ∉ itemLocs it) -> (forall l, l ∈ D -> l < b) ->
  itemListsReady h0 b H' it.
Proof.
  intros [(c & Hc & Ho) Hls] HS HD HDb. split.
  - exists c. split.
    + eapply stableOutside_lookup; [done..|]. intros Hin. apply (HD _ Hin), itemAt_itemLocs.
    + unfold optArrayIn in *. destruct (itemListsAt it) as [la|] eqn:E; [|done].
      destruct Ho as [Hv Ha]. split; [done|].
      eapply stableOutside_arrayAt; [done..|]. intros Hin. apply (HD _ Hin).
      apply listsLocs_itemLocs. rewrite E. left.
  - intros l Hl. eapply listReady_stable; [by apply Hls|done| |done].
    intros x Hx Hx'. apply (HD _ Hx), listsLocs_itemLocs.
    by eapply listLocs_listsLocs.
Qed.

Lemma run_optLengthTruthy_array H l xs :
  arrayAt H l xs -> optLengthTruthy (VRef l) H = Some (bool_decide (0 < length xs), H).
Proof.
  intros (c & Hl & He). unfold optLengthTruthy, readCell, mbind, M_bind.
  by rewrite Hl, He.
Qed.

Lemma run_optLengthTruthy_falsy H v :
  truthy v = false -> optLengthTruthy v H = Some (false, H).
Proof. destruct v as [| |[]|s|l]; try done. simpl. by intros ->. Qed.

(** One turn of the loop over the lists of the items. *)
Lemma itemLists_step it H :
  b <= length H -> NoDup (itemLocs it) -> (forall x, x ∈ itemLocs it -> x < b) ->
  itemListsReady h0 b H it ->
  exists H',
    (itemLists ← getField "lists" (VRef (itemAt it));
     nonEmpty ← optLengthTruthy itemLists;
     if (nonEmpty : bool) then
       forEach itemLists (fun list => forEach list filterParagraphs)
     else mret ()) H = Some ((), H')
    /\ stableOutside (entryAt <$> entriesOf (itemLists it)) H H'
    /\ forall e, e ∈ entriesOf (itemLists it) -> entryFiltered h0 b H' e.
Proof.
  intros Hb Hnd Hlt [(c & Hc & Ho) Hls].
  erewrite bind_run by (by apply run_getField).
  apply itemLocs_NoDup_lists in Hnd. unfold optArrayIn, listsLocs in *.
  destruct (itemListsAt it) as [la|] eqn:E.
  - destruct Ho as [-> Ha].
    erewrite bind_run by (by apply run_optLengthTruthy_array).
    rewrite length_fmap. destruct (itemLists it) as [|l0 ls] eqn:El.
    + exists H. split; [done|]. split; [apply stableOutside_refl|].
      intros e He. by apply elem_of_nil in He.
    + rewrite bool_decide_true by (simpl; lia). rewrite <- El in *.
      apply filterLists; [done| |done|done| |done].
      * apply Hlt, listsLocs_itemLocs. rewrite E. left.
      * intros x Hx. apply Hlt, listsLocs_itemLocs. rewrite E. by right.
  - destruct Ho as [Hv Hnil]. apply fmap_nil_inv in Hnil.
    erewrite bind_run by (by apply run_optLengthTruthy_falsy).
    exists H. split; [done|]. split; [apply stableOutside_refl|].
    intros e He. rewrite Hnil in He. by apply elem_of_nil in He.
Qed.

(** The loop over the lists of the items. *)
Lemma filterItemLists its la h :
  b <= length h -> la < b ->
  arrayAt h la ((VRef ∘ itemAt) <$> its) ->
  NoDup (la :: flat_map itemLocs its) ->
  (forall x, x ∈ flat_map itemLocs its -> x < b) ->
  (forall it, it ∈ its -> itemListsReady h0 b h it) ->
  exists h',
    forEach (VRef la)
      (fun item =>
         itemLists ← getField "lists" item;
         nonEmpty ← optLengthTruthy itemLists;
         if (nonEmpty : bool) then
           forEach itemLists (fun list => forEach list filterParagraphs)
         else mret ()) h = Some ((), h')
    /\ stableOutside (entryAt <$> flat_map (fun it => entriesOf (itemLists it)) its) h h'
    /\ forall it e, it ∈ its -> e ∈ entriesOf (itemLists it) -> entryFiltered h0 b h' e.
Proof.
  intros Hb Hla Harr Hnd Hlt Hready.
  apply NoDup_cons in Hnd as [Hla' Hnd].
  assert (forall it x, x ∈ entryAt <$> entriesOf (itemLists it) -> x ∈ itemLocs it) as Hsub.
  { intros it x (e & -> & (l & Hl & He)%elem_of_flat_map)%list_elem_of_fmap.
    apply listsLocs_itemLocs. eapply listLocs_listsLocs; [done|].
    eapply entryLocs_listLocs; [done|apply entryAt_entryLocs]. }
  destruct (forEach_owned itemAt itemLocs
              (fun it => entryAt <$> entriesOf (itemLists it))
              (fun it H => itemListsReady h0 b H it)
              (fun it H => forall e, e ∈ entriesOf (itemLists it) -> entryFiltered h0 b H e)
              (fun item =>
                 itemLists ← getField "lists" item;
                 nonEmpty ← optLengthTruthy itemLists;
                 if (nonEmpty : bool) then
                   forEach itemLists (fun list => forEach list filterParagraphs)
                 else mret ()) b) with (os := its) (la := la) (h := h)
    as (h' & Hrun & HS & HP).
  - done.
  - intros it D H H'. apply itemListsReady_stable.
  - intros it D H H' HP HS HD HDb e He.
    eapply entryFiltered_stable; [by apply HP|done| |done].
    intros Hin. apply (HD _ Hin), Hsub, list_elem_of_fmap. by exists e.
  - intros it H Hin HbH HP. apply itemLists_step; [done| | |done].
    + by eapply NoDup_flat_map_sub.
    + intros x Hx. apply Hlt, elem_of_flat_map. by exists it.
  - done.
  - done.
  - done.
  - intros it Hin. split.
    + intros Hl%Hsub. apply Hla', elem_of_flat_map. by exists it.
    + intros x Hx%Hsub. apply Hlt, elem_of_flat_map. by exists it.
  - done.
  - done.
  - exists h'. split; [done|]. split.
    + by rewrite fmap_flat_map.
    + intros it e Hit He. by apply (HP it).
Qed.

(** The loops that filter and that split the paragraphs of the items. *)
Lemma itemsLoop (own : ItemD -> list loc) (src tgt : ItemD -> list val)
    (op : val -> M val) its la h :
  (forall it, it ∈ its ->
     forall H p, arrayAt H p (src it) ->
       op (VRef p) H = Some (VRef (length H), H ++ [array (tgt it)])) ->
  (forall it l, l ∈ own it -> l ∈ itemLocs it) ->
  b <= length h -> la < b ->
  arrayAt h la ((VRef ∘ itemAt) <$> its) ->
  NoDup (la :: flat_map itemLocs its) ->
  (forall x, x ∈ flat_map itemLocs its -> x < b) ->
  (forall it, it ∈ its ->
     holdsParagraphs h0 b (own it) (itemAt it) (afterBanner it) (src it) h) ->
  exists h',
    forEach (VRef la)
      (fun item => p ← getField "paragraphs" item; p' ← op p;
                   setField "paragraphs" p' item) h
    = Some ((), h')
    /\ stableOutside (itemAt <$> its) h h'
    /\ forall it, it ∈ its ->
         holdsParagraphs h0 b [] (itemAt it) (afterBanner it) (tgt it) h'.
Proof.
  intros Hop Hown Hb Hla Harr Hnd Hlt Hpre.
  apply NoDup_cons in Hnd as [Hla' Hnd].
  apply (replaceLoop h0 b itemAt itemLocs own afterBanner src tgt op); try done.
  - intros it. split; [apply itemAt_itemLocs|apply Hown].
  - intros it Hin. split.
    + intros Heq. apply Hla', elem_of_flat_map. exists it. split; [done|].
      rewrite <- Heq. apply itemAt_itemLocs.
    + apply Hlt, elem_of_flat_map. exists it. split; [done|apply itemAt_itemLocs].
Qed.

End ItemLoops.

(** *** The places of a block *)

Section Places.

Lemma entryLocs_perm es :
  flat_map entryLocs es ≡ₚ (entryAt <$> es) ++ (entryParagraphsAt <$> es).
Proof.
  induction es as [|e es IH]; [done|].
  change (flat_map entryLocs (e :: es))
    with (entryAt e :: entryParagraphsAt e :: flat_map entryLocs es).
  rewrite IH, !fmap_cons. solve_Permutation.
Qed.

Lemma listLocs_perm ls :
  flat_map listLocs ls ≡ₚ (entryAt <$> entriesOf ls) ++ readLists None ls.
Proof.
  unfold readLists. simpl option_list. rewrite app_nil_l.
  induction ls as [|l ls IH]; [done|].
  change (flat_map listLocs (l :: ls))
    with ((listAt l :: flat_map entryLocs (listEntries l)) ++ flat_map listLocs ls).
  change (entriesOf (l :: ls)) with (listEntries l ++ entriesOf ls).
  rewrite fmap_app. simpl flat_map at 2.
  rewrite IH, entryLocs_perm. solve_Permutation.
Qed.

Lemma listsLocs_perm o ls :
  listsLocs o ls ≡ₚ (entryAt <$> entriesOf ls) ++ readLists o ls.
Proof.
  unfold listsLocs. rewrite listLocs_perm. unfold readLists. simpl option_list.
  solve_Permutation.
Qed.

Lemma itemLocs_perm its :
  flat_map itemLocs its
  ≡ₚ flat_map (fun it => itemAt it :: option_list (itemImagesAt it)) its
     ++ (entryAt <$> flat_map (fun it => entriesOf (itemLists it)) its)
     ++ flat_map (fun it => itemParagraphsAt it
                            :: readLists (itemListsAt it) (itemLists it)) its.
Proof.
  induction its as [|it its IH]; [done|].
  change (flat_map itemLocs (it :: its))
    with ((itemAt it :: option_list (itemImagesAt it) ++ [itemParagraphsAt it]
           ++ listsLocs (itemListsAt it) (itemLists it)) ++ flat_map itemLocs its).
  rewrite IH, listsLocs_perm. simpl flat_map. rewrite fmap_app.
  solve_Permutation.
Qed.

Lemma blockLocs_perm d : blockLocs d ≡ₚ written d ++ readOnly d.
Proof.
  unfold blockLocs, written, readOnly, blockEntries.
  rewrite itemLocs_perm, listsLocs_perm, fmap_app. solve_Permutation.
Qed.

End Places.

Section Separation.

Variable d : BlockD.
Hypothesis Hsep : separated d.

Lemma sep_written_read : NoDup (written d ++ readOnly d).
Proof. unfold separated in Hsep. by rewrite blockLocs_perm in Hsep. Qed.

Lemma sep_NoDup_written : NoDup (written d).
Proof. pose proof sep_written_read as H. by apply NoDup_app in H as (? & _ & _). Qed.

Lemma sep_read_written x : x ∈ readOnly d -> x ∉ written d.
Proof.
  intros Hr Hw. pose proof sep_written_read as H.
  apply NoDup_app in H as (_ & H & _). by apply (H x).
Qed.

Lemma sep_items : NoDup (itemsArrayAt d :: flat_map itemLocs (blockItems d)).
Proof.
  unfold separated, blockLocs in Hsep.
  apply NoDup_cons in Hsep as [_ H].
  do 5 apply NoDup_app in H as (_ & _ & H). done.
Qed.

Lemma sep_lists : NoDup (listsLocs (listsAt d) (blockLists d)).
Proof.
  unfold separated, blockLocs in Hsep.
  apply NoDup_cons in Hsep as [_ H].
  do 4 apply NoDup_app in H as (_ & _ & H). by apply NoDup_app in H as (H & _ & _).
Qed.

(** Where the places written are. *)
Lemma itemAt_written it : it ∈ blockItems d -> itemAt it ∈ written d.
Proof.
  intros Hit. apply elem_of_app. left. apply elem_of_flat_map. exists it.
  split; [done|left].
Qed.

Lemma images_written it l :
  it ∈ blockItems d -> itemImagesAt it = Some l -> l ∈ written d.
Proof.
  intros Hit Hl. apply elem_of_app. left. apply elem_of_flat_map. exists it.
  split; [done|]. right. rewrite Hl. left.
Qed.

Lemma entry_written e : e ∈ blockEntries d -> entryAt e ∈ written d.
Proof.
  intros He. apply elem_of_app. right. apply elem_of_app. left.
  apply list_elem_of_fmap. by exists e.
Qed.

Lemma imgs_written l : imgsAt d = Some l -> l ∈ written d.
Proof.
  intros Hl. apply elem_of_app. right. apply elem_of_app. right. rewrite Hl. left.
Qed.

Lemma blockEntry e : e ∈ entriesOf (blockLists d) -> e ∈ blockEntries d.
Proof. intros He. apply elem_of_app. by left. Qed.

Lemma itemEntry it e :
  it ∈ blockItems d -> e ∈ entriesOf (itemLists it) -> e ∈ blockEntries d.
Proof.
  intros Hit He. apply elem_of_app. right. apply elem_of_flat_map. by exists it.
Qed.

(** Places written in different roles are different. *)
Lemma sep_moved_entry x e :
  x ∈ flat_map (fun it => itemAt it :: option_list (itemImagesAt it)) (blockItems d) ->
  e ∈ blockEntries d -> x <> entryAt e.
Proof.
  intros Hx He ->. pose proof sep_NoDup_written as H. unfold written in H.
  apply NoDup_app in H as (_ & H & _). apply (H _ Hx).
  apply elem_of_app. left. apply list_elem_of_fmap. by exists e.
Qed.

Lemma sep_moved_imgs x :
  x ∈ flat_map (fun it => itemAt it :: option_list (itemImagesAt it)) (blockItems d) ->
  imgsAt d <> Some x.
Proof.
  intros Hx Hl. pose proof sep_NoDup_written as H. unfold written in H.
  apply NoDup_app in H as (_ & H & _). apply (H _ Hx).
  apply elem_of_app. right. rewrite Hl. left.
Qed.

Lemma sep_entry_imgs e : e ∈ blockEntries d -> imgsAt d <> Some (entryAt e).
Proof.
  intros He Hl. pose proof sep_NoDup_written as H. unfold written in H.
  apply NoDup_app in H as (_ & _ & H). apply NoDup_app in H as (_ & H & _).
  apply (H (entryAt e)).
  - apply list_elem_of_fmap. by exists e.
  - rewrite Hl. left.
Qed.

Lemma sep_entries e e' :
  e ∈ entriesOf (blockLists d) ->
  e' ∈ flat_map (fun it => entriesOf (itemLists it)) (blockItems d) ->
  entryAt e <> entryAt e'.
Proof.
  intros He He' Heq. pose proof sep_NoDup_written as H. unfold written, blockEntries in H.
  apply NoDup_app in H as (_ & _ & H). apply NoDup_app in H as (H & _ & _).
  rewrite fmap_app in H. apply NoDup_app in H as (_ & H & _).
  apply (H (entryAt e)).
  - apply list_elem_of_fmap. by exists e.
  - rewrite Heq. apply list_elem_of_fmap. by exists e'.
Qed.

Lemma sep_item_images it it' l :
  it ∈ blockItems d -> it' ∈ blockItems d -> itemImagesAt it' = Some l -> itemAt it <> l.
Proof.
  intros Hit Hit' Hl Heq. pose proof sep_NoDup_written as H. unfold written in H.
  apply NoDup_app in H as (H & _ & _).
  assert (it = it') as <-.
  { eapply (NoDup_flat_map_inj _ _ it it' l H); [done..| |].
    - rewrite <- Heq. left.
    - right. rewrite Hl. left. }
  apply (NoDup_flat_map_sub _ _ it) in H; [|done].
  apply NoDup_cons in H as [H _]. apply H. rewrite Hl, Heq. left.
Qed.

Lemma moved_item it :
  it ∈ blockItems d ->
  itemAt it ∈ flat_map (fun it => itemAt it :: option_list (itemImagesAt it))
                (blockItems d).
Proof. intros Hit. apply elem_of_flat_map. exists it. split; [done|left]. Qed.

Lemma moved_images it l :
  it ∈ blockItems d -> itemImagesAt it = Some l ->
  l ∈ flat_map (fun it => itemAt it :: option_list (itemImagesAt it)) (blockItems d).
Proof.
  intros Hit Hl. apply elem_of_flat_map. exists it. split; [done|]. right.
  rewrite Hl. left.
Qed.

(** Where the places read are. *)
Lemma read_block : blockAt d ∈ readOnly d.
Proof. left. Qed.

Lemma read_main l : mainAt d = Some l -> l ∈ readOnly d.
Proof. intros H. right. apply elem_of_app. left. rewrite H. left. Qed.

Lemma read_body l : bodyAt d = Some l -> l ∈ readOnly d.
Proof.
  intros H. right. apply elem_of_app. right. apply elem_of_app. left. rewrite H. left.
Qed.

Lemma read_paragraphs l : paragraphsAt d = Some l -> l ∈ readOnly d.
Proof.
  intros H. right. do 2 (apply elem_of_app; right). apply elem_of_app. left.
  rewrite H. left.
Qed.

Lemma read_readLists o ls x :
  x ∈ readLists o ls
  <-> o = Some x \/ exists l, l ∈ ls
        /\ (x = listAt l \/ exists e, e ∈ listEntries l /\ x = entryParagraphsAt e).
Proof.
  unfold readLists. rewrite elem_of_app, elem_of_flat_map. split.
  - intros [H|(l & Hl & H)].
    + left. destruct o as [y|]; [|by apply elem_of_nil in H].
      by apply list_elem_of_singleton in H as ->.
    + right. exists l. split; [done|]. apply elem_of_cons in H as [->|H]; [by left|].
      right. apply list_elem_of_fmap in H as (e & -> & He). by exists e.
  - intros [->|(l & Hl & H)].
    + left. left.
    + right. exists l. split; [done|]. destruct H as [->|(e & He & ->)]; [left|].
      right. apply list_elem_of_fmap. by exists e.
Qed.

Lemma read_blockLists x : x ∈ readLists (listsAt d) (blockLists d) -> x ∈ readOnly d.
Proof. intros H. right. do 3 (apply elem_of_app; right). apply elem_of_app. by left. Qed.

Lemma read_itemsArray : itemsArrayAt d ∈ readOnly d.
Proof. right. do 4 (apply elem_of_app; right). left. Qed.

Lemma read_item it x :
  it ∈ blockItems d ->
  x ∈ itemParagraphsAt it :: readLists (itemListsAt it) (itemLists it) ->
  x ∈ readOnly d.
Proof.
  intros Hit H. right. do 4 (apply elem_of_app; right). right.
  apply elem_of_flat_map. by exists it.
Qed.

End Separation.

Section Bounds.

Variables (h : heap).

Lemma arrayAt_lt l xs : arrayAt h l xs -> l < length h.
Proof. intros (c & Hl & _). by eapply lookup_lt_Some. Qed.

Lemma listsIn_lt v o ls x : listsIn h v o ls -> x ∈ listsLocs o ls -> x < length h.
Proof.
  intros [Ho Hls] [Hx|Hx]%elem_of_app.
  - destruct o as [l|]; [|by apply elem_of_nil in Hx].
    apply list_elem_of_singleton in Hx as ->. destruct Ho as [_ Ha]. by eapply arrayAt_lt.
  - apply elem_of_flat_map in Hx as (l & Hl & Hx).
    rewrite Forall_forall in Hls. destruct (Hls l Hl) as [Ha Hes].
    apply elem_of_cons in Hx as [->|Hx]; [by eapply arrayAt_lt|].
    apply elem_of_flat_map in Hx as (e & He & Hx).
    rewrite Forall_forall in Hes. destruct (Hes e He) as (c & Hc & _ & Hp).
    apply elem_of_cons in Hx as [->|Hx]; [by eapply lookup_lt_Some|].
    apply list_elem_of_singleton in Hx as ->. by eapply arrayAt_lt.
Qed.

Lemma itemIn_lt it x : itemIn h it -> x ∈ itemLocs it -> x < length h.
Proof.
  intros (c & Hc & _ & _ & Himg & _ & Hp & Hl) [->|Hx]%elem_of_cons.
  { by eapply lookup_lt_Some. }
  apply elem_of_app in Hx as [Hx|Hx].
  { destruct (itemImagesAt it) as [l|]; [|by apply elem_of_nil in Hx].
    apply list_elem_of_singleton in Hx as ->. destruct (Himg l eq_refl) as [_ Ha].
    by eapply arrayAt_lt. }
  apply elem_of_cons in Hx as [->|Hx]; [by eapply arrayAt_lt|].
  by eapply listsIn_lt.
Qed.

Lemma items_lt its x :
  Forall (itemIn h) its -> x ∈ flat_map itemLocs its -> x < length h.
Proof.
  intros Hits (it & Hit & Hx)%elem_of_flat_map. rewrite Forall_forall in Hits.
  eapply itemIn_lt; [by apply Hits|done].
Qed.

Lemma written_lt d x : describes h d -> x ∈ written d -> x < length h.
Proof.
  intros (cb & cm & cbody & _ & _ & _ & _ & _ & _ & Hi & Hl & _ & Hits & _) Hx.
  apply elem_of_app in Hx as [Hx|Hx].
  { apply elem_of_flat_map in Hx as (it & Hit & Hx). rewrite Forall_forall in Hits.
    eapply itemIn_lt; [by apply Hits|].
    apply elem_of_cons in Hx as [->|Hx]; [left|]. right. apply elem_of_app. by left. }
  apply elem_of_app in Hx as [Hx|Hx].
  - apply list_elem_of_fmap in Hx as (e & -> & He).
    apply elem_of_app in He as [He|He].
    + apply elem_of_flat_map in He as (l & Hl' & He).
      eapply listsIn_lt; [done|]. eapply listLocs_listsLocs; [done|].
      eapply entryLocs_listLocs; [done|apply entryAt_entryLocs].
    + apply elem_of_flat_map in He as (it & Hit & He).
      apply elem_of_flat_map in He as (l & Hl' & He).
      rewrite Forall_forall in Hits. eapply itemIn_lt; [by apply Hits|].
      apply listsLocs_itemLocs. eapply listLocs_listsLocs; [done|].
      eapply entryLocs_listLocs; [done|apply entryAt_entryLocs].
  - destruct (imgsAt d) as [l|]; [|by apply elem_of_nil in Hx].
    apply list_elem_of_singleton in Hx as ->. destruct Hi as [_ Ha]. by eapply arrayAt_lt.
Qed.

End Bounds.

Section Prefix.

Lemma optField_main H mainV cm (o : option loc) k :
  match o with
  | Some l => mainV = VRef l /\ H !! l = Some cm
  | None => (mainV = VUndefined \/ mainV = VNull) /\ cm = mkCell [] None
  end ->
  optField k mainV H = Some (fieldOf cm k, H).
Proof.
  destruct o as [l|].
  - intros [-> Hl]. by apply run_optField.
  - by intros [[-> | ->] ->].
Qed.

Lemma header_reads hv H :
  match hv with VRef l => is_Some (H !! l) | _ => True end ->
  exists header news,
    orObject hv H = Some (header, H ++ news)
    /\ forall k, exists x, getField k header (H ++ news) = Some (x, H ++ news).
Proof.
  intros Hhv. unfold orObject. destruct (truthy hv) eqn:Et.
  - exists hv, []. rewrite app_nil_r. split; [done|]. intros k.
    destruct hv as [| |bb|s|l]; try done; try (by eexists).
    destruct Hhv as [c Hc]. eexists. by apply run_getField.
  - exists (VRef (length H)), [mkCell [] None]. split; [done|]. intros k.
    eexists. apply run_getField. by rewrite list_lookup_middle.
Qed.

Lemma body_object bv H cbody (o : option loc) :
  match o with
  | Some l => bv = VRef l /\ H !! l = Some cbody
  | None => truthy bv = false /\ cbody = mkCell [] None
  end ->
  exists lbody news,
    orObject bv H = Some (VRef lbody, H ++ news)
    /\ (H ++ news) !! lbody = Some cbody
    /\ (o = Some lbody \/ length H <= lbody).
Proof.
  unfold orObject. destruct o as [l|].
  - intros [-> Hl]. exists l, []. rewrite app_nil_r. split; [done|]. split; [done|by left].
  - intros [-> ->]. exists (length H), [mkCell [] None]. split; [done|].
    split; [by rewrite list_lookup_middle|right; lia].
Qed.

Lemma orArray_any v H : exists x news, orArray v H = Some (x, H ++ news).
Proof.
  unfold orArray. destruct (truthy v).
  - exists v, []. by rewrite app_nil_r.
  - by eexists _, [_].
Qed.

Lemma forEach_nil H l f : arrayAt H l [] -> forEach (VRef l) f H = Some ((), H).
Proof. intros Ha. unfold forEach. by erewrite bind_run by (by apply run_readArray). Qed.

Lemma stableOutside_insert_fresh D h H l c :
  stableOutside D h H -> length h <= l -> stableOutside D h (<[l := c]> H).
Proof.
  intros [HL HS] Hl. split; [by rewrite length_insert|]. intros x Hx Hn.
  rewrite list_lookup_insert_ne by lia. by apply HS.
Qed.

Lemma fieldOf_afterBanner it c k :
  k <> "banner" -> fieldOf (afterBanner it c) k = fieldOf c k.
Proof.
  intros Hk. unfold afterBanner, fieldOf. destruct (truthy (itemBanner it)); [|done].
  simpl. by rewrite getProp_deleteProp_ne.
Qed.

Lemma fieldOf_withParagraphs c p k :
  k <> "paragraphs" -> fieldOf (withParagraphs c p) k = fieldOf c k.
Proof.
  intros Hk. unfold withParagraphs, fieldOf. simpl. by rewrite getProp_setProp_ne.
Qed.

Lemma orArray_spec h v o xs :
  optArrayIn h v o xs ->
  exists l H, orArray v h = Some (VRef l, H) /\ arrayAt H l xs
    /\ stableOutside [] h H
    /\ match o with Some l' => l = l' | None => length h <= l end.
Proof.
  intros Ho. destruct (run_orArray h v o xs Ho) as (l & H & Hr & Ha & Hc).
  exists l, H. split; [done|]. split; [done|].
  destruct Hc as [[-> ->]|(-> & -> & ->)].
  - split; [apply stableOutside_refl|done].
  - split; [apply stableOutside_alloc|lia].
Qed.

Lemma optArrayIn_lift h H v o xs :
  optArrayIn h v o xs -> (forall l, o = Some l -> arrayAt h l xs -> arrayAt H l xs) ->
  optArrayIn H v o xs.
Proof.
  unfold optArrayIn. destruct o as [l|]; [|done]. intros [Hv Ha] Hl. split; [done|].
  by apply Hl.
Qed.

Lemma push_step H il xs mb :
  arrayAt H il xs ->
  exists H',
    (if truthy mb then push [mb] (VRef il) else mret ()) H = Some ((), H')
    /\ stableOutside [il] H H'
    /\ forall c, H !! il = Some c -> H' !! il = Some (pushedTo mb xs c).
Proof.
  intros (ci & Hci & Hys). unfold pushedTo. destruct (truthy mb).
  - eexists. split; [by eapply run_push|]. split; [apply stableOutside_insert|].
    intros c Hc. rewrite Hci in Hc. injection Hc as <-.
    apply list_lookup_insert_eq. by eapply lookup_lt_Some.
  - exists H. split; [done|]. split; [apply stableOutside_refl|done].
Qed.

Lemma stableOutside_step W h0 H H' D :
  stableOutside W h0 H -> stableOutside D H H' ->
  (forall l, l ∈ D -> l ∈ W \/ length h0 <= l) ->
  stableOutside W h0 H'.
Proof.
  intros [L1 S1] [L2 S2] Hsub. split; [lia|]. intros l Hl Hn.
  rewrite S2; [by apply S1|lia|]. intros Hin. destruct (Hsub l Hin); [done|lia].
Qed.

End Prefix.

Section Master.

Variable getBlockItems : heap -> val -> option val.
Variable h : heap.
Variable d : BlockD.

Lemma parseBlockContent_separated :
  describes h d -> separated d -> accessor getBlockItems h d ->
  exists r h',
    parseBlockContent getBlockItems (VRef (blockAt d)) h = Some (r, h')
    /\ stableOutside (written d) h h'
    /\ (exists sp, paragraphs r = VRef sp
          /\ arrayAt h' sp
               (VStr <$> brPieces (texts (List.filter truthy (blockParagraphs d)))))
    /\ (forall it, it ∈ blockItems d -> itemSplit h (length h) h' it)
    /\ (forall it l, it ∈ blockItems d -> itemImagesAt it = Some l ->
          cellBecomes h h' l (pushedTo (itemBanner it) (itemImages it)))
    /\ (forall e, e ∈ blockEntries d -> entryFiltered h (length h) h' e)
    /\ (forall l, imgsAt d = Some l ->
          cellBecomes h h' l (pushedTo (mainBanner d) (blockImgs d))).
Proof.
  intros Hdesc Hsep Hacc.
  pose proof (fun x => written_lt h d x Hdesc) as Hwlt.
  pose proof (sep_read_written d Hsep) as Hro.
  destruct Hdesc as (cb & cm & cbody & Hcb & Hmain & Hheader & Hbody & Hbanner & Hpars
                     & Himgs & Hlists & Hitems & HitemsIn & Hsplit & Hsplits).
  pose proof HitemsIn as HitemsF.
  rewrite Forall_forall in HitemsIn, Hsplits.
  set (b := length h) in *.
  set (W := written d) in *.
  set (moved := flat_map (fun it => itemAt it :: option_list (itemImagesAt it))
                  (blockItems d)).
  assert (forall x, x ∈ moved -> x ∈ W) as HmovedW.
  { intros x Hx. apply elem_of_app. by left. }
  assert (forall x, x ∈ itemAt <$> blockItems d -> x ∈ W) as HitemsW.
  { intros x (it & -> & Hit)%list_elem_of_fmap. by apply itemAt_written. }
  assert (forall x, x ∈ entryAt <$> entriesOf (blockLists d) -> x ∈ W) as HebW.
  { intros x (e & -> & He)%list_elem_of_fmap. by apply entry_written, blockEntry. }
  assert (forall x,
            x ∈ entryAt <$> flat_map (fun it => entriesOf (itemLists it)) (blockItems d) ->
            x ∈ W) as HeiW.
  { intros x (e & -> & (it & Hit & He)%elem_of_flat_map)%list_elem_of_fmap.
    by eapply entry_written, itemEntry. }
  (* the header and the body *)
  pose proof (run_getField h _ cb "main" Hcb) as R1.
  pose proof (optField_main h _ cm (mainAt d) "header" Hmain) as R2.
  destruct (header_reads _ h Hheader) as (header & n1 & R3 & Hget).
  destruct (Hget "pretitle") as [pretitle Rpre].
  destruct (Hget "title") as [title Rtitle].
  destruct (Hget "subtitle") as [subtitle Rsub].
  destruct (Hget "description") as [description Rdesc].
  assert (optField "body" (fieldOf cb "main") (h ++ n1)
          = Some (fieldOf cm "body", h ++ n1)) as R4.
  { apply (optField_main _ _ cm (mainAt d)). destruct (mainAt d) as [l|]; [|done].
    destruct Hmain as [Hm Hl]. split; [done|]. by apply lookup_app_l_Some. }
  destruct (body_object (fieldOf cm "body") (h ++ n1) cbody (bodyAt d)) as
    (lbody & n2 & R5 & Hlbody & Hlb).
  { destruct (bodyAt d) as [l|]; [|done]. destruct Hbody as [Hm Hl].
    split; [done|]. by apply lookup_app_l_Some. }
  set (H1 := (h ++ n1) ++ n2) in *.
  assert (stableOutside [] h H1) as Hext1.
  { unfold H1. rewrite <- app_assoc. apply stableOutside_app. }
  assert (stableOutside W h H1) as Cum1.
  { eapply stableOutside_weaken; [exact Hext1|]. intros l Hl. by apply elem_of_nil in Hl. }
  assert (callGetBlockItems getBlockItems (VRef (blockAt d)) H1
          = Some (VRef (itemsArrayAt d), H1)) as R6.
  { unfold callGetBlockItems, H1. rewrite <- app_assoc. by rewrite Hacc. }
  assert (lbody ∉ W) as HlbW.
  { destruct Hlb as [Hlb|Hlb].
    - by apply Hro, read_body.
    - intros Hin%Hwlt. rewrite length_app in Hlb. lia. }
  assert (b <= length H1) as Hb1 by (destruct Hext1; done).
  assert (itemsArrayAt d < b) as Hla by (by eapply arrayAt_lt).
  assert (itemsArrayAt d ∉ W) as HlaW by (apply Hro, read_itemsArray).
  (* the banners of the items *)
  destruct (bannerLoop h b (blockItems d) (itemsArrayAt d) H1) as (H2 & RA & SA & PA).
  { done. }
  { done. }
  { eapply stableOutside_arrayAt; [exact Cum1|done..]. }
  { by apply sep_items. }
  { intros x Hx. by eapply (items_lt h (blockItems d)). }
  { intros it Hit. split; [by apply HitemsIn|].
    destruct (HitemsIn it Hit) as (c & Hc & _ & _ & Himg & _). split.
    - exists c. split; [done|]. eapply stableOutside_lookup; [exact Hext1|done|].
      apply not_elem_of_nil.
    - intros l Hl. destruct (Himg l Hl) as [_ (ci & Hci & _)].
      exists ci. split; [done|]. eapply stableOutside_lookup; [exact Hext1|done|].
      apply not_elem_of_nil. }
  fold moved in SA.
  assert (stableOutside W h H2) as Cum2.
  { eapply stableOutside_step; [exact Cum1|exact SA|]. intros l Hl. left. by apply HmovedW. }
  assert (stableOutside moved h H2) as E2.
  { eapply (stableOutside_trans [] moved); [exact Hext1|exact SA]. }
  (* the new arrays and the sequences of the body *)
  set (H3 := (((((H2 ++ [mkCell [] (Some [])]) ++ [mkCell [] (Some [])])
                ++ [mkCell [] (Some [])]) ++ [mkCell [] (Some [])])
              ++ [mkCell [] (Some [])]) ++ [mkCell [] None]).
  assert (stableOutside [] H2 H3) as F3.
  { unfold H3. rewrite <- !app_assoc. apply stableOutside_app. }
  assert (H2 !! lbody = Some cbody) as Hlbody2.
  { eapply stableOutside_lookup; [exact SA|done|]. intros Hin. by apply HlbW, HmovedW. }
  assert (forall H, stableOutside [] H2 H -> H !! lbody = Some cbody) as Hbody_at.
  { intros H HS. eapply stableOutside_lookup; [exact HS|done|apply not_elem_of_nil]. }
  assert (forall H l xs, stableOutside [] H2 H -> l ∉ moved -> arrayAt h l xs ->
                         arrayAt H l xs) as Harr_at.
  { intros H l xs HS Hl Ha. eapply stableOutside_arrayAt; [exact HS| |apply not_elem_of_nil].
    eapply stableOutside_arrayAt; [exact E2|done..]. }
  destruct (orArray_spec H3 (fieldOf cbody "paragraphs") (paragraphsAt d)
              (blockParagraphs d)) as (pl & H4 & Rpl & Apl & F4 & Mpl).
  { eapply optArrayIn_lift; [exact Hpars|]. intros l Hl Ha. apply Harr_at; [done| |done].
    intros Hin. by apply (Hro l), HmovedW; [apply read_paragraphs|]. }
  assert (paragraphsAt d = Some pl \/ length H3 <= pl) as Cpl.
  { destruct (paragraphsAt d); [left; by subst|by right]. }
  assert (stableOutside [] H2 H4) as F24 by (by apply (stableOutside_trans [] [] H2 H3 H4)).
  destruct (orArray_spec H4 (fieldOf cbody "imgs") (imgsAt d) (blockImgs d))
    as (il & H5 & Ril & Ail & F5 & Mil).
  { eapply optArrayIn_lift; [exact Himgs|]. intros l Hl Ha. apply Harr_at; [done| |done].
    intros Hin. by apply (sep_moved_imgs d Hsep l). }
  assert (imgsAt d = Some il \/ length H4 <= il) as Cil.
  { destruct (imgsAt d); [left; by subst|by right]. }
  assert (stableOutside [] H2 H5) as F25 by (by apply (stableOutside_trans [] [] H2 H4 H5)).
  destruct (orArray_any (fieldOf cbody "links") H5) as (links & n6 & Rlinks).
  set (H6 := H5 ++ n6) in *.
  assert (stableOutside [] H2 H6) as F26.
  { apply (stableOutside_trans [] [] H2 H5 H6); [done|apply stableOutside_app]. }
  destruct (orArray_spec H6 (fieldOf cbody "lists") (listsAt d)
              ((VRef ∘ listAt) <$> blockLists d)) as (ll & H7 & Rll & All & F7 & Mll).
  { destruct Hlists as [Hl _]. eapply optArrayIn_lift; [exact Hl|].
    intros l Hl' Ha. apply Harr_at; [done| |done].
    intros Hin. apply (Hro l); [|by apply HmovedW].
    apply read_blockLists, read_readLists. by left. }
  assert (listsAt d = Some ll \/ length H6 <= ll) as Cll.
  { destruct (listsAt d); [left; by subst|by right]. }
  assert (stableOutside [] H2 H7) as F27 by (by apply (stableOutside_trans [] [] H2 H6 H7)).
  assert (optField "banner" (fieldOf cb "main") H7 = Some (mainBanner d, H7)) as Rban.
  { rewrite <- Hbanner. apply (optField_main _ _ cm (mainAt d)).
    destruct (mainAt d) as [l|] eqn:Em; [|done]. destruct Hmain as [Hm Hl].
    split; [done|]. eapply stableOutside_lookup; [exact F27| |apply not_elem_of_nil].
    eapply stableOutside_lookup; [exact E2|done|].
    intros Hin. by apply (Hro l), HmovedW; [apply read_main|]. }
  assert (arrayAt H7 il (blockImgs d)) as Ail7.
  { eapply stableOutside_arrayAt; [|exact Ail|apply not_elem_of_nil].
    apply (stableOutside_trans [] [] H5 H6 H7); [apply stableOutside_app|done]. }
  destruct (push_step H7 il (blockImgs d) (mainBanner d) Ail7) as (H8 & Rpush & F8 & Ppush).
  assert (il < length H5) as Hil5 by (by eapply arrayAt_lt).
  assert (pl < length H4) as Hpl4 by (by eapply arrayAt_lt).
  assert (b <= length H2) as Hb2 by (destruct SA; lia).
  assert (length H2 <= length H3) as Hl23 by (by destruct F3).
  assert (length H3 <= length H4) as Hl34 by (by destruct F4).
  assert (length H4 <= length H5) as Hl45 by (by destruct F5).
  assert (imgsAt d = Some il \/ b <= il) as Cil'.
  { destruct Cil; [by left|right; lia]. }
  assert (pl <> il) as Hplil.
  { destruct Cil as [Hi|Hi]; [|lia]. destruct Cpl as [Hp|Hp].
    - intros ->. by apply (Hro il), imgs_written; [apply read_paragraphs|].
    - apply imgs_written, Hwlt in Hi. lia. }
  set (H9 := H8 ++ [array (List.filter truthy (blockParagraphs d))]).
  assert (filterTruthy (VRef pl) H8 = Some (VRef (length H8), H9)) as Rfilter.
  { apply run_filterTruthy. eapply stableOutside_arrayAt; [exact F8| |].
    - eapply stableOutside_arrayAt; [|exact Apl|apply not_elem_of_nil].
      apply (stableOutside_trans [] [] H4 H5 H7); [done|].
      apply (stableOutside_trans [] [] H5 H6 H7); [apply stableOutside_app|done].
    - by intros ->%list_elem_of_singleton. }
  assert (stableOutside [il] H2 H9) as F29.
  { apply (stableOutside_trans [] [il] H2 H7 H9); [done|].
    apply (stableOutside_trans [il] [] H7 H8 H9); [done|apply stableOutside_alloc]. }
  assert (stableOutside (moved ++ option_list (imgsAt d)) h H9) as E9.
  { eapply stableOutside_step; [|exact F29|].
    - eapply stableOutside_weaken; [exact E2|]. intros l Hl. apply elem_of_app. by left.
    - intros l ->%list_elem_of_singleton. destruct Cil' as [->|?]; [left|by right].
      apply elem_of_app. right. left. }
  assert (stableOutside W h H9) as Cum9.
  { eapply stableOutside_weaken; [exact E9|]. intros l [Hl|Hl]%elem_of_app; [by apply HmovedW|].
    destruct (imgsAt d) as [l'|] eqn:Ei; [|by apply elem_of_nil in Hl].
    apply list_elem_of_singleton in Hl as ->. by apply imgs_written. }
  assert (b <= length H9) as Hb9 by (destruct Cum9; done).
  assert (length H8 < length H9) as Hfresh9 by (unfold H9; rewrite length_app; simpl; lia).
  assert (b <= length H8) as Hb8.
  { destruct F27, F8. lia. }
  (* the paragraphs of the items are filtered *)
  assert (forall it, it ∈ blockItems d -> itemAt it <> il) as Hitil.
  { intros it Hit Heq. destruct Cil' as [Hi|Hi].
    - apply (sep_moved_imgs d Hsep il); [|done]. rewrite <- Heq. by apply moved_item.
    - pose proof (Hwlt _ (itemAt_written d it Hit)). lia. }
  destruct (itemsLoop h b (fun it => [itemParagraphsAt it]) itemParagraphs
              (fun it => List.filter truthy (itemParagraphs it)) filterTruthy
              (blockItems d) (itemsArrayAt d) H9) as (H10 & RB & SB & PB).
  { intros it _ H p Ha. by apply run_filterTruthy. }
  { intros it l ->%list_elem_of_singleton. apply itemParagraphsAt_itemLocs. }
  { done. }
  { done. }
  { eapply stableOutside_arrayAt; [exact Cum9|done..]. }
  { by apply sep_items. }
  { intros x Hx. by eapply (items_lt h (blockItems d)). }
  { intros it Hit. destruct (PA it Hit) as [(c & Hc & Hl) _].
    destruct (HitemsIn it Hit) as (c' & Hc' & _ & _ & _ & Hp & Hpa & _).
    rewrite Hc in Hc'. injection Hc' as <-.
    exists c, (itemParagraphsAt it). split; [done|]. split; [left; left|]. split.
    - rewrite withParagraphs_same by (by rewrite fieldOf_afterBanner).
      eapply stableOutside_lookup; [exact F29|done|].
      intros Hin%list_elem_of_singleton. by apply (Hitil it).
    - eapply stableOutside_arrayAt; [exact Cum9|done|].
      apply Hro. eapply read_item; [done|left]. }
  assert (stableOutside W h H10) as Cum10.
  { eapply stableOutside_step; [exact Cum9|exact SB|]. intros l Hl. left. by apply HitemsW. }
  assert (b <= length H10) as Hb10 by (destruct Cum10; done).
  assert (forall e, e ∈ blockEntries d -> entryAt e <> il) as Heil.
  { intros e He Heq. destruct Cil' as [Hi|Hi].
    - apply (sep_entry_imgs d Hsep e He). by rewrite Heq.
    - pose proof (Hwlt _ (entry_written d e He)). lia. }
  assert (forall e it, e ∈ blockEntries d -> it ∈ blockItems d -> entryAt e <> itemAt it)
    as Heit.
  { intros e it He Hit Heq. symmetry in Heq. revert Heq.
    by apply (sep_moved_entry d Hsep); [apply moved_item|]. }
  assert (forall e, e ∈ blockEntries d -> entryAt e ∉ moved) as Hemoved.
  { intros e He Hin. by apply (sep_moved_entry d Hsep (entryAt e) e). }
  assert (stableOutside ([il] ++ (itemAt <$> blockItems d)) H2 H10) as F2_10
    by (by eapply stableOutside_trans).
  (* an entry nobody has touched *)
  assert (forall H D e,
            stableOutside W h H -> stableOutside D H2 H -> entryAt e ∉ D ->
            e ∈ blockEntries d ->
            entryIn h e -> entryParagraphsAt e ∈ readOnly d ->
            entryReady h b H e) as Hentry.
  { intros H D e HW HD HeD He (c & Hc & Hp & Ha) Hr.
    exists c, (entryParagraphsAt e). split; [done|]. split; [left; left|]. split.
    - rewrite withParagraphs_same by done.
      eapply stableOutside_lookup; [exact HD| |done].
      eapply stableOutside_lookup; [exact E2|done|]. by apply Hemoved.
    - eapply stableOutside_arrayAt; [exact HW|done|]. by apply Hro. }
  (* the lists of the block *)
  assert (length H5 <= length H6) as Hl56 by (unfold H6; rewrite length_app; lia).
  assert (ll <> il) as Hllil.
  { destruct Cll as [Hl|Hl]; [|lia]. intros ->. destruct Cil as [Hi|Hi].
    - apply (Hro il); [|by apply imgs_written].
      apply read_blockLists, read_readLists. by left.
    - destruct Hlists as [Ho _]. unfold optArrayIn in Ho. rewrite Hl in Ho.
      destruct Ho as [_ Ha%arrayAt_lt]. fold b in Ha. lia. }
  assert (ll ∉ W) as HllW.
  { destruct Cll as [Hl|Hl].
    - apply Hro, read_blockLists, read_readLists. by left.
    - intros Hin%Hwlt. destruct F25. lia. }
  assert (arrayAt H10 ll ((VRef ∘ listAt) <$> blockLists d)) as All10.
  { eapply stableOutside_arrayAt; [exact SB| |].
    - eapply stableOutside_arrayAt; [|exact All|].
      + apply (stableOutside_trans [il] [] H7 H8 H9); [done|apply stableOutside_alloc].
      + rewrite app_nil_r. by intros ->%list_elem_of_singleton.
    - intros Hin. by apply HllW, HitemsW. }
  assert (exists H11,
            forEach (VRef ll) (fun list => forEach list filterParagraphs) H10
            = Some ((), H11)
            /\ stableOutside (entryAt <$> entriesOf (blockLists d)) H10 H11
            /\ forall e, e ∈ entriesOf (blockLists d) -> entryFiltered h b H11 e)
    as (H11 & RC & SC & PC).
  { pose proof (sep_lists d Hsep) as Hnd.
    pose proof (fun x => listsIn_lt h _ _ _ x Hlists) as Hllt.
    destruct Hlists as [Ho Hls]. rewrite Forall_forall in Hls.
    unfold optArrayIn in Ho. destruct (listsAt d) as [la|] eqn:El.
    - subst ll. destruct Ho as [_ Hla'].
      apply filterLists; [done|by eapply arrayAt_lt|done|done| |].
      + intros x Hx. apply Hllt. by right.
      + intros l Hl. destruct (Hls l Hl) as [Hal Hes]. rewrite Forall_forall in Hes. split.
        * eapply stableOutside_arrayAt; [exact Cum10|done|].
          apply Hro, read_blockLists, read_readLists. right. exists l. split; [done|by left].
        * intros e He.
          assert (e ∈ blockEntries d) as Heb.
          { apply blockEntry, elem_of_flat_map. by exists l. }
          eapply (Hentry H10 _ e); [exact Cum10|exact F2_10| |done|by apply Hes|].
          -- intros [Hin%list_elem_of_singleton|(it & Heq & Hit)%list_elem_of_fmap]%elem_of_app.
             ++ by apply (Heil e).
             ++ by apply (Heit e it).
          -- apply read_blockLists, read_readLists. right. exists l. split; [done|].
             right. by exists e.
    - destruct Ho as [_ Hnil]. apply fmap_nil_inv in Hnil. rewrite Hnil in *.
      exists H10. split; [by apply forEach_nil|]. split; [apply stableOutside_refl|].
      intros e He. by apply elem_of_nil in He. }
  assert (stableOutside W h H11) as Cum11.
  { eapply stableOutside_step; [exact Cum10|exact SC|]. intros l Hl. left. by apply HebW. }
  assert (b <= length H11) as Hb11 by (destruct Cum11; done).
  assert (forall it H D,
            it ∈ blockItems d -> itemFiltered h b H10 it -> stableOutside D H10 H ->
            (forall l, l ∈ D -> exists e, e ∈ blockEntries d /\ l = entryAt e) ->
            itemFiltered h b H it) as Hfiltered.
  { intros it H D Hit HP HS HD. eapply holdsParagraphs_stable; [exact HP|exact HS| | |].
    - intros (e & He & Heq)%HD. by apply (Heit e it).
    - intros p Hp. by apply elem_of_nil in Hp.
    - intros l (e & He & ->)%HD. by apply Hwlt, entry_written. }
  assert (forall l, l ∈ entryAt <$> entriesOf (blockLists d) ->
            exists e, e ∈ blockEntries d /\ l = entryAt e) as Heb_entry.
  { intros l (e & -> & He)%list_elem_of_fmap. exists e. split; [by apply blockEntry|done]. }
  assert (forall l,
            l ∈ entryAt <$> flat_map (fun it => entriesOf (itemLists it)) (blockItems d) ->
            exists e, e ∈ blockEntries d /\ l = entryAt e) as Hei_entry.
  { intros l (e & -> & (it & Hit & He)%elem_of_flat_map)%list_elem_of_fmap.
    exists e. split; [by eapply itemEntry|done]. }
  (* the lists of the items *)
  assert (stableOutside (([il] ++ (itemAt <$> blockItems d))
                         ++ (entryAt <$> entriesOf (blockLists d))) H2 H11) as F2_11
    by (by eapply stableOutside_trans).
  destruct (filterItemLists h b (blockItems d) (itemsArrayAt d) H11)
    as (H12 & RD & SD & PD).
  { done. }
  { done. }
  { eapply stableOutside_arrayAt; [exact Cum11|done..]. }
  { by apply sep_items. }
  { intros x Hx. by eapply (items_lt h (blockItems d)). }
  { intros it Hit.
    pose proof (Hfiltered it H11 _ Hit (PB it Hit) SC Heb_entry) as (c & p & Hc & _ & Hl & _).
    destruct (HitemsIn it Hit) as (c' & Hc' & _ & _ & _ & _ & _ & [Ho Hls]).
    rewrite Hc in Hc'. injection Hc' as <-. rewrite Forall_forall in Hls. split.
    - eexists. split; [exact Hl|].
      rewrite fieldOf_withParagraphs, fieldOf_afterBanner by done.
      eapply optArrayIn_lift; [exact Ho|]. intros l Hl' Ha.
      eapply stableOutside_arrayAt; [exact Cum11|done|].
      apply Hro. eapply read_item; [done|]. right. apply read_readLists. by left.
    - intros l Hl'. destruct (Hls l Hl') as [Hal Hes]. rewrite Forall_forall in Hes. split.
      + eapply stableOutside_arrayAt; [exact Cum11|done|].
        apply Hro. eapply read_item; [done|]. right. apply read_readLists.
        right. exists l. split; [done|by left].
      + intros e He.
        assert (e ∈ flat_map (fun it => entriesOf (itemLists it)) (blockItems d)) as Hei.
        { apply elem_of_flat_map. exists it. split; [done|].
          apply elem_of_flat_map. by exists l. }
        assert (e ∈ blockEntries d) as Heb by (apply elem_of_app; by right).
        eapply (Hentry H11 _ e); [exact Cum11|exact F2_11| |done|by apply Hes|].
        * intros [[Hin%list_elem_of_singleton|(it' & Heq & Hit')%list_elem_of_fmap]%elem_of_app
                 |(e' & Heq & He')%list_elem_of_fmap]%elem_of_app.
          -- by apply (Heil e).
          -- by apply (Heit e it').
          -- symmetry in Heq. revert Heq. by apply (sep_entries d Hsep).
        * eapply read_item; [done|]. right. apply read_readLists. right.
          exists l. split; [done|]. right. by exists e. }
  assert (stableOutside W h H12) as Cum12.
  { eapply stableOutside_step; [exact Cum11|exact SD|]. intros l Hl. left. by apply HeiW. }
  assert (b <= length H12) as Hb12 by (destruct Cum12; done).
  (* the paragraphs of the block are split *)
  assert (stableOutside ((entryAt <$> entriesOf (blockLists d))
            ++ (entryAt <$> flat_map (fun it => entriesOf (itemLists it)) (blockItems d)))
            H10 H12) as F10_12 by (by eapply stableOutside_trans).
  assert (forall l,
            l ∈ (entryAt <$> entriesOf (blockLists d))
                ++ (entryAt <$> flat_map (fun it => entriesOf (itemLists it))
                                  (blockItems d)) ->
            exists e, e ∈ blockEntries d /\ l = entryAt e) as Hentries.
  { intros l [Hl|Hl]%elem_of_app; [by apply Heb_entry|by apply Hei_entry]. }
  set (H13 := H12 ++ [array (VStr <$> brPieces
                               (texts (List.filter truthy (blockParagraphs d))))]).
  assert (splitByBrTag (VRef (length H8)) H12 = Some (VRef (length H12), H13)) as Rsplit.
  { apply run_split_filtered; [|done].
    eapply (arrayAt_fresh_stable b); [|exact F10_12|done|].
    - eapply (arrayAt_fresh_stable b); [|exact SB|done|].
      + exists (array (List.filter truthy (blockParagraphs d))).
        split; [|done]. unfold H9. by rewrite list_lookup_middle.
      + intros l Hl. by apply Hwlt, HitemsW.
    - intros l (e & He & ->)%Hentries. by apply Hwlt, entry_written. }
  (* the paragraphs of the items are split *)
  destruct (itemsLoop h b (fun _ => [])
              (fun it => List.filter truthy (itemParagraphs it))
              (fun it => VStr <$> brPieces (texts (List.filter truthy (itemParagraphs it))))
              splitByBrTag (blockItems d) (itemsArrayAt d) H13) as (H14 & RE & SE & PE).
  { intros it Hit H p Ha. apply run_split_filtered; [done|by apply Hsplits]. }
  { intros it l Hl. by apply elem_of_nil in Hl. }
  { unfold H13. rewrite length_app. lia. }
  { done. }
  { eapply stableOutside_arrayAt; [apply stableOutside_alloc| |apply not_elem_of_nil].
    eapply stableOutside_arrayAt; [exact Cum12|done..]. }
  { by apply sep_items. }
  { intros x Hx. by eapply (items_lt h (blockItems d)). }
  { intros it Hit.
    eapply holdsParagraphs_stable;
      [exact (Hfiltered it H12 _ Hit (PB it Hit) F10_12 Hentries)
      |apply (stableOutside_alloc [])|apply not_elem_of_nil| |].
    - intros p Hp. by apply elem_of_nil in Hp.
    - intros l Hl. by apply elem_of_nil in Hl. }
  assert (stableOutside W h H14) as Cum14.
  { eapply stableOutside_step; [|exact SE|].
    - eapply stableOutside_step; [exact Cum12|apply (stableOutside_alloc [])|].
      intros l Hl. by apply elem_of_nil in Hl.
    - intros l Hl. left. by apply HitemsW. }
  assert (stableOutside ([] ++ (itemAt <$> blockItems d)) H12 H14) as F12_14.
  { eapply stableOutside_trans; [apply (stableOutside_alloc [])|exact SE]. }
  simpl app in F12_14.
  (* the call *)
  eexists _, H14. split.
  { unfold parseBlockContent.
    erewrite bind_run by exact R1. erewrite bind_run by exact R2.
    erewrite bind_run by exact R3. erewrite bind_run by exact Rpre.
    erewrite bind_run by exact Rtitle. erewrite bind_run by exact Rsub.
    erewrite bind_run by exact Rdesc. erewrite bind_run by exact R4.
    erewrite bind_run by exact R5. erewrite bind_run by exact R6.
    erewrite bind_run by exact RA.
    do 6 (erewrite bind_run by reflexivity). fold H3.
    erewrite bind_run by (apply run_getField; by apply Hbody_at).
    erewrite bind_run by exact Rpl.
    erewrite bind_run by (apply run_getField; by apply Hbody_at).
    erewrite bind_run by exact Ril.
    erewrite bind_run by (apply run_getField; by apply Hbody_at).
    erewrite bind_run by exact Rlinks.
    erewrite bind_run by (apply run_getField; by apply Hbody_at).
    erewrite bind_run by exact Rll.
    erewrite bind_run by exact Rban.
    erewrite bind_run by exact Rpush.
    erewrite bind_run by exact Rfilter.
    erewrite bind_run by exact RB.
    erewrite bind_run by exact RC.
    erewrite bind_run by exact RD.
    erewrite bind_run by exact Rsplit.
    erewrite bind_run by exact RE.
    reflexivity. }
  split; [exact Cum14|]. split.
  { exists (length H12). split; [done|].
    eapply (arrayAt_fresh_stable b); [|exact SE|done|].
    - exists (array (VStr <$> brPieces (texts (List.filter truthy (blockParagraphs d))))).
      split; [|done]. unfold H13. by rewrite list_lookup_middle.
    - intros l Hl. by apply Hwlt, HitemsW. }
  split; [exact PE|]. split.
  { (* the images of the items *)
    intros it l Hit Hl. destruct (PA it Hit) as [_ Him].
    assert (stableOutside ((([il] ++ (itemAt <$> blockItems d))
                            ++ (entryAt <$> entriesOf (blockLists d)))
                           ++ (entryAt <$> flat_map (fun it => entriesOf (itemLists it))
                                             (blockItems d)))
              H2 H12) as F2_12 by (by eapply stableOutside_trans).
    eapply cellBecomes_stable; [|exact F12_14|].
    - eapply cellBecomes_stable; [by apply Him|exact F2_12|].
      intros [[[Hin%list_elem_of_singleton|(it' & Heq & Hit')%list_elem_of_fmap]%elem_of_app
              |Hin]%elem_of_app|Hin]%elem_of_app.
      + destruct Cil' as [Hi|Hi].
        * apply (sep_moved_imgs d Hsep il); [|done]. rewrite <- Hin.
          by eapply moved_images.
        * pose proof (Hwlt _ (images_written d it l Hit Hl)). lia.
      + symmetry in Heq. revert Heq.
        exact (sep_item_images d Hsep it' it l Hit' Hit Hl).
      + apply Heb_entry in Hin as (e & He & Heq). revert Heq.
        apply (sep_moved_entry d Hsep); [by eapply moved_images|done].
      + apply Hei_entry in Hin as (e & He & Heq). revert Heq.
        apply (sep_moved_entry d Hsep); [by eapply moved_images|done].
    - intros (it' & Heq & Hit')%list_elem_of_fmap.
      symmetry in Heq. revert Heq. exact (sep_item_images d Hsep it' it l Hit' Hit Hl). }
  split.
  { (* the list entries *)
    intros e He.
    assert (entryAt e ∉ itemAt <$> blockItems d) as Hne.
    { intros (it & Heq & Hit)%list_elem_of_fmap. by apply (Heit e it). }
    assert (forall l, l ∈ itemAt <$> blockItems d -> l < b) as Hitb.
    { intros l Hl. by apply Hwlt, HitemsW. }
    apply elem_of_app in He as [He'|He'].
    - eapply entryFiltered_stable; [|exact F12_14|done|done].
      eapply entryFiltered_stable; [by apply PC|exact SD| |].
      + intros (e' & Heq & Hin)%list_elem_of_fmap. revert Heq.
        by apply (sep_entries d Hsep).
      + intros l (e' & He'' & ->)%Hei_entry. by apply Hwlt, entry_written.
    - apply elem_of_flat_map in He' as (it & Hit & He').
      eapply entryFiltered_stable; [|exact F12_14|done|done].
      by apply (PD it e). }
  (* the images of the body *)
  intros l Hl. unfold optArrayIn in Himgs. rewrite Hl in Mil, Himgs. subst il.
  destruct Himgs as [_ (ci & Hci & Hxs)].
  exists ci. split; [done|].
  assert (H7 !! l = Some ci) as Hl7.
  { eapply stableOutside_lookup; [exact F27| |apply not_elem_of_nil].
    eapply stableOutside_lookup; [exact E2|done|].
    intros Hin. by apply (sep_moved_imgs d Hsep l). }
  assert (written d = W) as HW by done.
  assert (forall x, x ∈ (itemAt <$> blockItems d) -> l <> x) as Hlit.
  { intros x (it & -> & Hit)%list_elem_of_fmap Heq.
    apply (sep_moved_imgs d Hsep l); [|done]. rewrite Heq. by apply moved_item. }
  assert (forall x, (exists e, e ∈ blockEntries d /\ x = entryAt e) -> l <> x) as Hle.
  { intros x (e & He & ->) Heq. apply (sep_entry_imgs d Hsep e He). by rewrite <- Heq. }
  eapply stableOutside_lookup; [exact F12_14| |].
  - eapply stableOutside_lookup; [exact F10_12| |].
    + eapply stableOutside_lookup; [exact SB| |].
      * apply (lookup_app_l_Some H8). by apply Ppush.
      * intros Hin. by apply (Hlit l).
    + intros Hin%Hentries. by apply (Hle l).
  - intros Hin. by apply (Hlit l).
Qed.

End Master.

(** ** The block-content normalizer: the claims *)

Section Changed.

Lemma getProp_deleteProp_eq {V} (o : list (string * V)) k : getProp (deleteProp o k) k = None.
Proof.
  induction o as [|[k0 v0] o IH]; simpl; [done|].
  destruct (String.eqb_spec k0 k) as [->|Hne]; simpl; [done|].
  by destruct (String.eqb_spec k0 k).
Qed.


Lemma written_role d l :
  l ∈ written d ->
  (exists it, it ∈ blockItems d /\ (l = itemAt it \/ itemImagesAt it = Some l))
  \/ (exists e, e ∈ blockEntries d /\ l = entryAt e)
  \/ imgsAt d = Some l.
Proof.
  intros [Hl|[Hl|Hl]%elem_of_app]%elem_of_app.
  - left. apply elem_of_flat_map in Hl as (it & Hit & Hl). exists it. split; [done|].
    apply elem_of_cons in Hl as [->|Hl]; [by left|]. right.
    destruct (itemImagesAt it) as [x|]; [|by apply elem_of_nil in Hl].
    by apply list_elem_of_singleton in Hl as ->.
  - right. left. apply list_elem_of_fmap in Hl as (e & -> & He). by exists e.
  - right. right. destruct (imgsAt d) as [x|]; [|by apply elem_of_nil in Hl].
    by apply list_elem_of_singleton in Hl as ->.
Qed.

End Changed.

Section Sample.

Lemma sampleBlock_describes : describes sampleStore sampleBlock.
Proof.
  unfold describes. exists (object [("main", VRef 1)]).
  exists (object [("header", VRef 2); ("body", VRef 3); ("banner", VStr "B")]).
  exists (object [("paragraphs", VRef 4); ("imgs", VRef 5); ("lists", VRef 6)]).
  repeat first
    [ reflexivity
    | match goal with
      | |- _ /\ _ => split
      | |- is_Some _ => eexists
      | |- arrayAt _ _ _ => eexists
      | |- optArrayIn _ _ _ _ => split
      | |- listsIn _ _ _ _ => split
      | |- listIn _ _ => split
      | |- entryIn _ _ => eexists
      | |- itemIn _ _ => eexists
      | |- splittable _ => unfold splittable
      | |- Forall _ _ => constructor
      | |- _ -> _ => intros
      | |- exists _, _ => eexists
      | |- match ?x with _ => _ end =>
          let y := eval vm_compute in x in change x with y; cbv iota beta
      | H : _ = Some ?l |- _ => is_var l; vm_compute in H; injection H as <-
      end ].
Qed.

Lemma sampleBlock_separated : separated sampleBlock.
Proof. apply (bool_decide_unpack _). vm_compute. exact I. Qed.

Lemma sampleBlock_accessor : accessor (itemsAt 10) sampleStore sampleBlock.
Proof. by intros news. Qed.

End Sample.

(** C4 (as amended).  [parseBlockContent] works on the caller's objects.
    Whatever the store, a call that returns has changed the cells that were
    there in two ways only: the [banner] and [paragraphs] fields of objects,
    and elements appended to arrays.  On a block that shares no object or
    array it returns, and it has changed five kinds of cells, each in one
    way: an item has lost its banner, if it had one, and has a new sequence
    under [paragraphs]; the [images] of an item that had a banner have gained
    it; a list entry, of the block or of an item, has a new sequence under
    [paragraphs]; [block.main.body.imgs] has gained the banner of the block,
    if the block has one; every other cell is as it was. *)
Theorem parseBlockContent_frame
    (getBlockItems : heap -> val -> option val) (block : val) (h : heap) :
  (forall r h', parseBlockContent getBlockItems block h = Some (r, h') -> heapStable h h')
  /\ (forall d,
        block = VRef (blockAt d) ->
        describes h d -> separated d -> accessor getBlockItems h d ->
        exists r h',
          parseBlockContent getBlockItems block h = Some (r, h')
          /\ forall l c, h !! l = Some c ->
               exists c', h' !! l = Some c' /\ changed d (length h) l c c').
Proof.
  split; [intros r h'; apply preserves_parseBlockContent|].
  intros d -> Hdesc Hsep Hacc.
  destruct (parseBlockContent_separated getBlockItems h d Hdesc Hsep Hacc)
    as (r & h' & Hrun & HS & _ & Hitems & Himages & Hentries & Himgs).
  exists r, h'. split; [done|]. intros l c Hl.
  assert (l < length h') as Hlt.
  { apply lookup_lt_Some in Hl. destruct HS. lia. }
  destruct (lookup_lt_is_Some_2 h' l Hlt) as [c' Hc']. exists c'. split; [done|].
  split; [|split; [|split; [|split]]].
  - intros it Hin Heq.
    destruct (Hitems it Hin) as (c0 & p & Hc0 & Hp & Hit & _). subst l.
    rewrite Hl in Hc0. injection Hc0 as <-. rewrite Hc' in Hit. injection Hit as ->.
    split; [|split; [|split]].
    + unfold afterBanner. by destruct (truthy (itemBanner it)).
    + intros k Hb Hk. unfold withParagraphs, afterBanner. simpl.
      rewrite getProp_setProp_ne by done.
      destruct (truthy (itemBanner it)); [|done]. simpl. by rewrite getProp_deleteProp_ne.
    + unfold withParagraphs, afterBanner. simpl. rewrite getProp_setProp_ne by done.
      destruct (truthy (itemBanner it)); [|done]. simpl. apply getProp_deleteProp_eq.
    + exists p. split.
      * unfold withParagraphs. simpl. apply getProp_setProp_eq.
      * destruct Hp as [Hp|Hp]; [by apply elem_of_nil in Hp|done].
  - intros it Hin Heq.
    destruct (Himages it l Hin Heq) as (c0 & Hc0 & Hit).
    rewrite Hl in Hc0. injection Hc0 as <-. rewrite Hc' in Hit. injection Hit as ->.
    unfold pushedTo. by destruct (truthy (itemBanner it)).
  - intros e Hin Heq.
    destruct (Hentries e Hin) as (c0 & p & Hc0 & Hp & He & _). subst l.
    rewrite Hl in Hc0. injection Hc0 as <-. rewrite Hc' in He. injection He as ->.
    split; [done|]. split.
    + intros k Hk. unfold withParagraphs. simpl. by rewrite getProp_setProp_ne.
    + exists p. split.
      * unfold withParagraphs. simpl. apply getProp_setProp_eq.
      * destruct Hp as [Hp|Hp]; [by apply elem_of_nil in Hp|done].
  - intros Heq.
    destruct (Himgs l Heq) as (c0 & Hc0 & Hi).
    rewrite Hl in Hc0. injection Hc0 as <-. rewrite Hc' in Hi. injection Hi as ->.
    unfold pushedTo. by destruct (truthy (mainBanner d)).
  - intros Hni Hne Hng.
    assert (l ∉ written d) as Hw.
    { intros [(it & Hit & [Hi|Hi])|[(e & He & Heq)|Hi]]%written_role.
      - by destruct (Hni it Hit).
      - by destruct (Hni it Hit).
      - by apply (Hne e).
      - done. }
    pose proof (stableOutside_lookup _ _ _ _ _ HS Hl Hw) as Hc.
    rewrite Hc' in Hc. by injection Hc.
Qed.

Lemma parseBlockContent_frame_witness :
  exists r h',
    parseBlockContent (itemsAt 10) (VRef 0) sampleStore = Some (r, h')
    /\ heapStable sampleStore h'
    /\ forall l c, sampleStore !! l = Some c ->
         exists c', h' !! l = Some c' /\ changed sampleBlock (length sampleStore) l c c'.
Proof.
  destruct (parseBlockContent_frame (itemsAt 10) (VRef 0) sampleStore) as [Hany Hsep].
  destruct (Hsep sampleBlock eq_refl sampleBlock_describes sampleBlock_separated
              sampleBlock_accessor) as (r & h' & Hrun & Hch).
  exists r, h'. split; [exact Hrun|]. split; [exact (Hany r h' Hrun)|exact Hch].
Defined.

(** C4 (as stated) fails: [images] is [block.main.body.imgs] itself, so
    pushing the block's banner changes that array; and every entry of
    [block.main.body.lists] gets a new, filtered [paragraphs] sequence. *)
Lemma parseBlockContent_mutates_imgs_and_lists :
  exists r h',
    parseBlockContent (itemsAt 10) (VRef 0) sampleStore = Some (r, h')
    /\ arrayOf "imgs" (VRef 3) sampleStore = Some ([VStr "i"], sampleStore)
    /\ arrayOf "imgs" (VRef 3) h' = Some ([VStr "i"; VStr "B"], h')
    /\ paragraphsOf (VRef 8) sampleStore = Some ([VStr "x<br>y"; VStr ""], sampleStore)
    /\ paragraphsOf (VRef 8) h' = Some ([VStr "x<br>y"], h').
Proof. eexists _, _. split; [vm_compute; reflexivity|]. repeat split. Qed.


(** C10.  The filter runs before the split, so a paragraph that ends with
    the marker passes the filter and leaves an empty string behind. *)
Theorem parseBlockContent_empty_paragraph :
  List.filter truthy [VStr "a<br>"] = [VStr "a<br>"]
  /\ exists r h',
       parseBlockContent (itemsAt 10) (VRef 0)
         (blockStore VUndefined [] [VStr "a<br>"] [] [] []) = Some (r, h')
       /\ readArray (paragraphs r) h' = Some ([VStr "a"; VStr ""], h').
Proof. split; [reflexivity|]. eexists _, _. split; [vm_compute; reflexivity|]. reflexivity. Qed.



(** The example of the design document: the block-level paragraphs
    [["a<br>b", ""]] become [["a", "b"]]. *)
Example parseBlockContent_example :
  exists r h',
    parseBlockContent (itemsAt 10) (VRef 0) sampleStore = Some (r, h')
    /\ readArray (paragraphs r) h' = Some ([VStr "a"; VStr "b"], h')
    /\ title r = VStr "T" /\ pretitle r = VStr "".
Proof. eexists _, _. split; [vm_compute; reflexivity|]. repeat split. Qed.

(** * Further properties

    ** The styled-string parser as a recursive descent *)

Section Descent.

Lemma firstMatch_unfold s :
  firstMatch s
  = match matchHere s with
    | Some (tag, inner) =>
        Some (EmptyString, tag, inner, dropStr (String.length (matchText tag inner)) s)
    | None =>
        match s with
        | EmptyString => None
        | String c s' =>
            match firstMatch s' with
            | Some (pre, tag, inner, rest) => Some (String c pre, tag, inner, rest)
            | None => None
            end
        end
    end.
Proof. by destruct s. Qed.

(** The first match splits the string in three, and what it hands on is
    shorter than the string. *)
Lemma firstMatch_Some s pre tag inner rest :
  firstMatch s = Some (pre, tag, inner, rest) ->
  s = pre +:+ matchText tag inner +:+ rest
  /\ String.length inner < String.length s
  /\ String.length rest < String.length s.
Proof.
  revert pre tag inner rest.
  induction s as [|c s IH]; intros pre tag inner rest; rewrite firstMatch_unfold.
  - destruct (matchHere "") as [[t i]|] eqn:E; [|done].
    apply matchHere_Some in E as [_ E]. simpl in E. lia.
  - destruct (matchHere (String c s)) as [[t i]|] eqn:E.
    + intros H.
      assert (pre = "" /\ tag = t /\ inner = i
              /\ rest = dropStr (String.length (matchText t i)) (String c s))
        as (-> & -> & -> & ->) by (by inversion H).
      clear H. pose proof (matchHere_Some _ _ _ E) as [E1 E2].
      split; [exact E1|]. split; [exact E2|].
      apply dropStr_length_lt; [apply matchText_length|done].
    + destruct (firstMatch s) as [[[[p t] i] r]|] eqn:Ef; [|done].
      intros [= <- <- <- <-]. destruct (IH _ _ _ _ eq_refl) as (Hs & H1 & H2).
      split; [by rewrite str_app_cons, <- Hs|]. simpl. split; lia.
Qed.

(** The matches the replace loop runs over, from the first match on. *)
Lemma scan_firstMatch s pos :
  scan pos 0 s
  = match firstMatch s with
    | None => []
    | Some (pre, tag, inner, rest) =>
        mkMatch (matchText tag inner) tag inner (pos + String.length pre)
        :: scan (pos + String.length pre + String.length (matchText tag inner)) 0 rest
    end.
Proof.
  revert pos. induction s as [|c s IH]; intros pos; rewrite firstMatch_unfold.
  - destruct (matchHere "") as [[t i]|] eqn:E; [|done].
    apply matchHere_Some in E as [_ E]. simpl in E. lia.
  - destruct (matchHere (String c s)) as [[t i]|] eqn:E.
    + rewrite (scan_match _ _ _ _ _ E). simpl String.length. by rewrite Nat.add_0_r.
    + rewrite (scan_nomatch _ _ _ E), IH.
      destruct (firstMatch s) as [[[[p t] i] r]|]; [|done].
      simpl String.length. by rewrite !Nat.add_succ_r.
Qed.

Lemma segmentsF_fuel n m s st :
  String.length s < n -> String.length s < m -> segmentsF n s st = segmentsF m s st.
Proof.
  revert m s st. induction n as [|n IH]; intros m s st Hn Hm; [lia|].
  destruct m as [|m]; [lia|]. simpl.
  destruct (firstMatch s) as [[[[p t] i] r]|] eqn:E; [|done].
  apply firstMatch_Some in E as (_ & Hi & Hr).
  f_equal. f_equal.
  - destruct (isEmpty i); [done|]. apply IH; lia.
  - apply IH; lia.
Qed.

Lemma descend_inner fuel inner st :
  String.length inner < fuel ->
  (if isEmpty inner then [createTextPart EmptyString st] else segmentsF fuel inner st)
  = descend inner st.
Proof.
  intros H. unfold descend. destruct (isEmpty inner); [done|].
  apply segmentsF_fuel; lia.
Qed.

Lemma plainRun_finish (result : list StyledRun) text st :
  (if isEmpty text then result else result ++ [createTextPart text st])
  = result ++ plainRun text st.
Proof. unfold plainRun. destruct (isEmpty text); [by rewrite app_nil_r|done]. Qed.

(** The replace loop from [lastIndex] on: [pre] is the text before
    [lastIndex], [rest] the text from there. *)
Lemma replaceLoop_descend str st F :
  (forall inner st', String.length inner < String.length str ->
     F inner st' = Some (descend inner st')) ->
  forall n rest pre result,
    String.length rest < n -> str = pre +:+ rest ->
    exists result' last,
      fold_left (segmentCallback str st F) (scan (String.length pre) 0 rest)
                (Some (result, String.length pre)) = Some (result', last)
      /\ result' ++ plainRun (sliceFrom str last) st = result ++ segmentsF n rest st.
Proof.
  intros HF. induction n as [|n IH]; intros rest pre result Hn Hstr; [lia|].
  rewrite scan_firstMatch. simpl segmentsF.
  destruct (firstMatch rest) as [[[[p t] i] r]|] eqn:E.
  - pose proof (firstMatch_Some _ _ _ _ _ E) as (Hrest & Hi & Hr).
    assert (String.length rest <= String.length str) as Hle.
    { rewrite Hstr, str_length_app. lia. }
    rewrite fold_left_step.
    rewrite (segmentCallback_Some _ _ _ _ _ _ (descend i (newStylesFor t st)))
      by (apply HF; simpl; lia).
    cbn [m_offset m_match].
    replace (slice str _ _) with p
      by (by rewrite Hstr, Hrest, slice_gap).
    destruct (IH r (pre +:+ p +:+ matchText t i)
                ((result ++ plainRun p st) ++ descend i (newStylesFor t st)))
      as (r' & last & Hf & Hc).
    { lia. }
    { rewrite Hstr, Hrest. by rewrite !str_app_assoc. }
    exists r', last. split.
    + rewrite <- Hf. rewrite !str_length_app, Nat.add_assoc.
      by rewrite plainRun_finish, <- app_assoc.
    + rewrite Hc. rewrite (descend_inner n i) by lia.
      by rewrite <- !app_assoc.
  - exists result, (String.length pre). split; [done|].
    unfold sliceFrom. by rewrite Hstr, dropStr_app.
Qed.

Lemma processSegmentsF_descend fuel s st :
  String.length s < fuel -> processSegmentsF fuel s st = Some (descend s st).
Proof.
  revert s st. induction fuel as [|fuel IH]; intros s st Hf; [lia|].
  simpl. unfold descend. destruct s as [|c s]; [done|]. simpl isEmpty. cbv iota.
  destruct (replaceLoop_descend (String c s) st (processSegmentsF fuel)
              (fun i st' Hi => IH i st' ltac:(lia))
              (S (String.length (String c s))) (String c s) "" []
              ltac:(lia) ltac:(done))
    as (r' & last & Hl & Hc).
  unfold matchAll. simpl String.length in Hl at 1 2. rewrite Hl. simpl.
  rewrite plainRun_finish. by rewrite Hc.
Qed.

End Descent.

Section DescentFacts.

Lemma firstMatch_nil : firstMatch "" = None.
Proof. reflexivity. Qed.

Lemma segmentsF_nil n st : segmentsF (S n) "" st = [].
Proof. reflexivity. Qed.

Lemma segmentsF_S n s st :
  segmentsF (S n) s st
  = match firstMatch s with
    | None => plainRun s st
    | Some (pre, tag, inner, rest) =>
        plainRun pre st
        ++ (let styles' := newStylesFor tag st in
            if isEmpty inner then [createTextPart EmptyString styles']
            else segmentsF n inner styles')
        ++ segmentsF n rest st
    end.
Proof. reflexivity. Qed.

(** A property of the runs that holds of plain runs and passes through a
    matched pair holds of every run of the descent. *)
Lemma segmentsF_Forall (P : string -> Styles -> StyledRun -> Prop) :
  (forall s st, P s st (createTextPart s st)) ->
  (forall pre tag inner rest st r,
      P pre st r -> P (pre +:+ matchText tag inner +:+ rest) st r) ->
  (forall pre tag inner rest st r,
      P inner (newStylesFor tag st) r -> P (pre +:+ matchText tag inner +:+ rest) st r) ->
  (forall pre tag inner rest st r,
      P rest st r -> P (pre +:+ matchText tag inner +:+ rest) st r) ->
  forall n s st, Forall (P s st) (segmentsF n s st).
Proof.
  intros Hplain Hpre Hin Hrest. induction n as [|n IH]; intros s st; [constructor|].
  rewrite segmentsF_S.
  destruct (firstMatch s) as [[[[p t] i] r]|] eqn:E.
  - apply firstMatch_Some in E as (-> & _ & _).
    rewrite !Forall_app. split_and!.
    + unfold plainRun. destruct (isEmpty p); [constructor|].
      constructor; [|constructor]. apply Hpre, Hplain.
    + cbv zeta. destruct i as [|c i]; simpl isEmpty; cbv iota.
      * constructor; [|constructor]. apply Hin, Hplain.
      * eapply Forall_impl; [apply IH|]. intros x Hx. by apply Hin.
    + eapply Forall_impl; [apply IH|]. intros x Hx. by apply Hrest.
  - unfold plainRun. destruct (isEmpty s); [constructor|].
    constructor; [|constructor]. apply Hplain.
Qed.

Lemma descend_Forall (P : string -> Styles -> StyledRun -> Prop) :
  (forall s st, P s st (createTextPart s st)) ->
  (forall pre tag inner rest st r,
      P pre st r -> P (pre +:+ matchText tag inner +:+ rest) st r) ->
  (forall pre tag inner rest st r,
      P inner (newStylesFor tag st) r -> P (pre +:+ matchText tag inner +:+ rest) st r) ->
  (forall pre tag inner rest st r,
      P rest st r -> P (pre +:+ matchText tag inner +:+ rest) st r) ->
  forall s st, Forall (P s st) (descend s st).
Proof.
  intros Hplain Hpre Hin Hrest s st. unfold descend.
  destruct (isEmpty s) eqn:E.
  - destruct s; [|done]. constructor; [|constructor]. apply Hplain.
  - by apply segmentsF_Forall.
Qed.

Lemma segmentsF_nonempty n s st :
  String.length s < n -> s <> "" -> segmentsF n s st <> [].
Proof.
  revert s st. induction n as [|n IH]; intros s st Hn Hs; [lia|].
  rewrite segmentsF_S.
  destruct (firstMatch s) as [[[[p t] i] r]|] eqn:E.
  - apply firstMatch_Some in E as (_ & Hi & _). cbv zeta.
    intros H. apply app_eq_nil in H as [_ H]. apply app_eq_nil in H as [H _].
    destruct i as [|c i]; [done|]. simpl isEmpty in H. cbv iota in H.
    revert H. apply IH; [lia|done].
  - unfold plainRun. by destruct s.
Qed.

Lemma descend_nonempty s st : descend s st <> [].
Proof.
  unfold descend. destruct s as [|c s]; [done|].
  apply segmentsF_nonempty; [lia|done].
Qed.

Lemma stylesWithin_refl st : stylesWithin st st = true.
Proof. by destruct st as [[] [] []]. Qed.

Lemma stylesWithin_newStylesFor tag st st' :
  stylesWithin (newStylesFor tag st) st' = true -> stylesWithin st st' = true.
Proof.
  unfold newStylesFor.
  destruct (String.eqb tag "strong" || String.eqb tag "b"),
    (String.eqb tag "em" || String.eqb tag "i"), (String.eqb tag "u");
    destruct st as [[] [] []], st' as [[] [] []]; done.
Qed.

Lemma includes_inside needle p x r :
  includes needle x = true -> includes needle (p +:+ x +:+ r) = true.
Proof.
  unfold includes at 1. destruct (indexOf needle x) as [j|] eqn:E; [|done].
  intros _. apply indexOf_Some in E. rewrite E.
  rewrite <- (str_app_assoc (takeStr j x)), <- (str_app_assoc p), (str_app_assoc _ needle).
  rewrite <- (str_app_assoc p), str_app_assoc, (str_app_assoc needle).
  apply includes_app.
Qed.

Lemma tagSeen_inside tags p x r :
  tagSeen tags x = true -> tagSeen tags (p +:+ x +:+ r) = true.
Proof.
  unfold tagSeen. rewrite !existsb_exists. intros (t & Ht & H).
  exists t. split; [done|]. by apply includes_inside.
Qed.

Lemma tagSeen_pre tags pre m rest :
  tagSeen tags pre = true -> tagSeen tags (pre +:+ m +:+ rest) = true.
Proof.
  intros H. apply (tagSeen_inside tags "" pre (m +:+ rest)) in H. by rewrite str_app_nil_l in H.
Qed.

Lemma tagSeen_inner tags pre tag inner rest :
  tagSeen tags inner = true ->
  tagSeen tags (pre +:+ matchText tag inner +:+ rest) = true.
Proof.
  intros H. unfold matchText. rewrite <- (str_app_assoc pre), !str_app_assoc.
  rewrite <- (str_app_assoc pre). by apply tagSeen_inside.
Qed.

Lemma tagSeen_rest tags pre m rest :
  tagSeen tags rest = true -> tagSeen tags (pre +:+ m +:+ rest) = true.
Proof.
  intros H. apply (tagSeen_inside tags (pre +:+ m) rest "") in H.
  by rewrite str_app_nil_r, str_app_assoc in H.
Qed.

Lemma tagSeen_tag tags pre tag inner rest :
  existsb (String.eqb tag) tags = true ->
  tagSeen tags (pre +:+ matchText tag inner +:+ rest) = true.
Proof.
  rewrite existsb_exists. intros (t & Ht & E). apply String.eqb_eq in E as <-.
  unfold tagSeen. rewrite existsb_exists. exists tag. split; [done|].
  unfold matchText. rewrite !str_app_assoc. apply includes_app.
Qed.

Lemma newStylesFor_bold tag st :
  bold (newStylesFor tag st) = bold st || existsb (String.eqb tag) ["strong"; "b"].
Proof.
  unfold newStylesFor. simpl existsb.
  destruct (String.eqb tag "strong"), (String.eqb tag "b"),
    (String.eqb tag "em" || String.eqb tag "i"), (String.eqb tag "u");
    destruct st as [[] [] []]; done.
Qed.

Lemma newStylesFor_italics tag st :
  italics (newStylesFor tag st) = italics st || existsb (String.eqb tag) ["em"; "i"].
Proof.
  unfold newStylesFor. simpl existsb.
  destruct (String.eqb tag "em"), (String.eqb tag "i"),
    (String.eqb tag "strong" || String.eqb tag "b"), (String.eqb tag "u");
    destruct st as [[] [] []]; done.
Qed.

Lemma newStylesFor_underline tag st :
  underline (newStylesFor tag st) = underline st || existsb (String.eqb tag) ["u"].
Proof.
  unfold newStylesFor. simpl existsb.
  destruct (String.eqb tag "u"),
    (String.eqb tag "strong" || String.eqb tag "b"),
    (String.eqb tag "em" || String.eqb tag "i");
    destruct st as [[] [] []]; done.
Qed.

Lemma styled_inside (f : Styles -> bool) tags pre tag inner rest st r :
  (forall t st', f (newStylesFor t st') = f st' || existsb (String.eqb t) tags) ->
  (f (styles r) = true -> f (newStylesFor tag st) = true \/ tagSeen tags inner = true) ->
  f (styles r) = true ->
  f st = true \/ tagSeen tags (pre +:+ matchText tag inner +:+ rest) = true.
Proof.
  intros Hf H Hr. destruct (H Hr) as [H1|H1].
  - rewrite Hf in H1. apply orb_true_iff in H1 as [?|H1]; [by left|].
    right. by apply tagSeen_tag.
  - right. by apply tagSeen_inner.
Qed.

End DescentFacts.

(** X1.  [processSegments] returns on every segment, as a recursive
    descent on the first matched pair.  Without a matched pair the segment
    is one part (an empty part for the empty segment).  Otherwise the parts
    are: the text before the pair, if any; the parts of the inner text of
    the pair, parsed with the style of its tag added; the parts of the text
    after the pair, if any. *)
Theorem processSegments_descend (s : string) (st : Styles) :
  match firstMatch s with
  | None =>
      processSegments s st
      = Some [createTextPart (if isEmpty s then EmptyString else s) st]
  | Some (pre, tag, inner, rest) =>
      exists inside after,
        processSegments inner (newStylesFor tag st) = Some inside
        /\ (if isEmpty rest then after = [] else processSegments rest st = Some after)
        /\ processSegments s st = Some (plainRun pre st ++ inside ++ after)
  end.
Proof.
  destruct (firstMatch s) as [[[[pre tag] inner] rest]|] eqn:E.
  - pose proof (firstMatch_Some _ _ _ _ _ E) as (_ & Hi & Hr).
    exists (descend inner (newStylesFor tag st)),
      (segmentsF (String.length s) rest st).
    split; [apply processSegmentsF_descend; lia|]. split.
    + destruct rest as [|c rest]; simpl isEmpty; cbv iota.
      * destruct s; [simpl in Hi; lia|]. apply segmentsF_nil.
      * unfold processSegments. rewrite processSegmentsF_descend by lia. f_equal.
        unfold descend. simpl isEmpty. cbv iota. apply segmentsF_fuel; lia.
    + unfold processSegments. rewrite processSegmentsF_descend by lia. f_equal.
      unfold descend. destruct s as [|c s]; [simpl in Hi; lia|]. simpl isEmpty. cbv iota.
      rewrite segmentsF_S, E. cbv zeta. by rewrite descend_inner by lia.
  - unfold processSegments. rewrite processSegmentsF_descend by lia. f_equal.
    unfold descend. destruct s as [|c s]; [done|]. simpl isEmpty. cbv iota.
    by rewrite segmentsF_S, E.
Qed.

(** X2.  Called with a string, [parseStyledString] completes normally,
    without a warning, and returns at least one part; every part has type
    [text]. *)
Theorem parseStyledString_nonempty (decodeEntities : string -> string) (s : string) :
  exists runs,
    parseStyledString decodeEntities (InString s) = Some (mkOutcome [] (Normal runs))
    /\ runs <> []
    /\ Forall (fun r => type r = "text") runs.
Proof.
  unfold parseStyledString, parseString.
  set (s' := if testSentinel s then _ else _).
  exists (descend s' noStyles). unfold processSegments. rewrite processSegmentsF_descend by lia.
  split; [done|]. split; [apply descend_nonempty|].
  by apply (descend_Forall (fun _ _ r => type r = "text")).
Qed.

(** X3.  A style in effect when [processSegments] is entered is carried by
    every part it returns: a nested tag adds styles and never removes
    one. *)
Theorem processSegments_styles_kept (s : string) (st : Styles) :
  exists runs,
    processSegments s st = Some runs
    /\ Forall (fun r => stylesWithin st (styles r) = true) runs.
Proof.
  exists (descend s st). split; [apply processSegmentsF_descend; lia|].
  apply (descend_Forall (fun _ st r => stylesWithin st (styles r) = true)); try done.
  - intros. apply stylesWithin_refl.
  - intros pre tag inner rest st' r. apply stylesWithin_newStylesFor.
Qed.

(** X4.  A part is bold only if bold was in effect on entry or the segment
    contains [<strong>] or [<b>]; italic only with [<em>] or [<i>];
    underlined only with [<u>]. *)
Theorem processSegments_styles_explained (s : string) (st : Styles) :
  exists runs,
    processSegments s st = Some runs /\ Forall (styleExplained s st) runs.
Proof.
  exists (descend s st). split; [apply processSegmentsF_descend; lia|].
  apply (descend_Forall styleExplained).
  - intros s' st'. unfold styleExplained. simpl. tauto.
  - intros pre tag inner rest st' r (H1 & H2 & H3).
    split_and!; intros H;
      [destruct (H1 H) | destruct (H2 H) | destruct (H3 H)];
      auto using tagSeen_pre.
  - intros pre tag inner rest st' r (H1 & H2 & H3). split_and!.
    + apply (styled_inside bold); [apply newStylesFor_bold | exact H1].
    + apply (styled_inside italics); [apply newStylesFor_italics | exact H2].
    + apply (styled_inside underline); [apply newStylesFor_underline | exact H3].
  - intros pre tag inner rest st' r (H1 & H2 & H3).
    split_and!; intros H;
      [destruct (H1 H) | destruct (H2 H) | destruct (H3 H)];
      auto using tagSeen_rest.
Qed.

(** ** A segment that is one matched pair *)

Section Wrapped.

Lemma wordRun_word tag c r :
  allWordChars tag = true -> isWordChar c = false ->
  wordRun (tag +:+ String c r) = (tag, String c r).
Proof.
  intros Ht Hc. induction tag as [|a tag IH].
  - rewrite str_app_nil_l. simpl. by rewrite Hc.
  - simpl in Ht. apply andb_true_iff in Ht as [Ha Ht].
    rewrite str_app_cons. simpl. by rewrite Ha, (IH Ht).
Qed.

Lemma indexOf_unfold needle s :
  indexOf needle s
  = if startsWith needle s then Some 0
    else match s with
         | EmptyString => None
         | String _ s' => S <$> indexOf needle s'
         end.
Proof. by destruct s. Qed.

(** A needle whose first character does not occur again in it cannot start
    inside [i] and end inside a following copy of itself. *)
Lemma startsWith_fresh a p i q :
  occurs a p = false -> startsWith p (i +:+ String a q) = true -> startsWith p i = true.
Proof.
  revert i. induction p as [|d p IH]; intros i Ha H; [done|].
  simpl in Ha. apply orb_false_iff in Ha as [Had Ha].
  destruct i as [|e i].
  - rewrite str_app_nil_l in H. simpl in H. rewrite Ascii.eqb_sym, Had in H. done.
  - rewrite str_app_cons in H. simpl in H |- *.
    destruct (Ascii.eqb d e); [|done]. by apply IH.
Qed.

Lemma indexOf_fresh a p i r :
  occurs a p = false -> includes (String a p) i = false ->
  indexOf (String a p) (i +:+ String a p +:+ r) = Some (String.length i).
Proof.
  intros Ha. induction i as [|e i IH]; intros Hi.
  - rewrite str_app_nil_l, indexOf_unfold.
    change (String a p +:+ r) with (String a (p +:+ r)) at 1.
    by rewrite <- str_app_cons, startsWith_self.
  - unfold includes in Hi. rewrite indexOf_unfold in Hi.
    destruct (startsWith (String a p) (String e i)) eqn:Es; [done|].
    destruct (indexOf (String a p) i) as [j|] eqn:Ei; [done|].
    rewrite str_app_cons, indexOf_unfold.
    assert (startsWith (String a p) (String e (i +:+ String a p +:+ r)) = false) as ->.
    { simpl in Es |- *. destruct (Ascii.eqb a e); [|done].
      destruct (startsWith p (i +:+ String a p +:+ r)) eqn:E; [|done].
      rewrite str_app_cons in E. apply startsWith_fresh in E; [congruence|done]. }
    rewrite IH; [done|]. unfold includes. by rewrite Ei.
Qed.

Lemma occurs_app a s r : occurs a (s +:+ r) = occurs a s || occurs a r.
Proof.
  induction s as [|c s IH]; [done|]. rewrite str_app_cons. simpl.
  by rewrite IH, orb_assoc.
Qed.

Lemma occurs_word tag : allWordChars tag = true -> occurs "<" tag = false.
Proof.
  induction tag as [|c tag IH]; [done|]. intros H.
  change (isWordChar c && allWordChars tag = true) in H.
  apply andb_true_iff in H as [Hc Ht].
  change (Ascii.eqb "<" c || occurs "<" tag = false).
  rewrite (IH Ht), orb_false_r. apply Ascii.eqb_neq. intros <-. by vm_compute in Hc.
Qed.

Lemma matchHere_wrapped tag inner :
  tag <> "" -> allWordChars tag = true -> includes (closeTag tag) inner = false ->
  matchHere (matchText tag inner) = Some (tag, inner).
Proof.
  intros Hne Hw Hi.
  assert (matchText tag inner
          = String "<" (tag +:+ String ">" (inner +:+ closeTag tag +:+ ""))) as ->.
  { unfold matchText, openTag. by rewrite str_app_nil_r, !str_app_assoc. }
  unfold matchHere. rewrite (wordRun_word tag ">" _ Hw eq_refl).
  assert (isEmpty tag = false) as -> by (by destruct tag).
  assert (closeTag tag = String "<" ("/" +:+ tag +:+ ">")) as Hc by done.
  rewrite Hc in Hi |- *.
  rewrite indexOf_fresh; [by rewrite takeStr_app| |done].
  rewrite str_app_cons, str_app_nil_l.
  change (Ascii.eqb "<" "/" || occurs "<" (tag +:+ ">") = false).
  by rewrite occurs_app, occurs_word.
Qed.

Lemma firstMatch_wrapped tag inner :
  matchHere (matchText tag inner) = Some (tag, inner) ->
  firstMatch (matchText tag inner) = Some ("", tag, inner, "").
Proof.
  intros H. rewrite firstMatch_unfold, H.
  rewrite <- (str_app_nil_r (matchText tag inner)) at 2. by rewrite dropStr_app.
Qed.

End Wrapped.

Lemma newStylesFor_cases tag st :
  newStylesFor tag st
  = mkStyles (bold st || bool_decide (tag ∈ ["strong"; "b"]))
             (italics st || bool_decide (tag ∈ ["em"; "i"]))
             (underline st || bool_decide (tag = "u")).
Proof.
  assert (forall x y : string, String.eqb tag x || String.eqb tag y
                               = bool_decide (tag ∈ [x; y])) as H2.
  { intros x y. destruct (String.eqb_spec tag x) as [->|Hx]; simpl.
    - symmetry. apply bool_decide_eq_true. left.
    - destruct (String.eqb_spec tag y) as [->|Hy]; symmetry.
      + apply bool_decide_eq_true. right. left.
      + apply bool_decide_eq_false. intros [?|[?|[]%elem_of_nil]%elem_of_cons]%elem_of_cons; done. }
  assert (String.eqb tag "u" = bool_decide (tag = "u")) as H1.
  { destruct (String.eqb_spec tag "u"); symmetry;
      [by apply bool_decide_eq_true|by apply bool_decide_eq_false]. }
  unfold newStylesFor. rewrite !H2, H1. destruct st as [b i u]. cbn [bold italics underline].
  destruct (bool_decide (tag ∈ ["strong"; "b"])), (bool_decide (tag ∈ ["em"; "i"])),
    (bool_decide (tag = "u")); cbn [bold italics underline];
    by rewrite ?orb_true_r, ?orb_false_r.
Qed.

Lemma newStylesFor_other tag st :
  tag ∉ ["strong"; "b"; "em"; "i"; "u"] -> newStylesFor tag st = st.
Proof.
  intros H. rewrite newStylesFor_cases.
  rewrite !bool_decide_eq_false_2, !orb_false_r; [by destruct st|..].
  - intros ->. apply H. do 4 right. left.
  - intros [->|[->|[]%elem_of_nil]%elem_of_cons]%elem_of_cons; apply H.
    + do 2 right. left.
    + do 3 right. left.
  - intros [->|[->|[]%elem_of_nil]%elem_of_cons]%elem_of_cons; apply H.
    + left.
    + right. left.
Qed.

(** X5.  A segment that is exactly one pair [<tag>inner</tag>], the tag made
    of word characters and [inner] holding no [</tag>], is parsed as [inner]
    with the style of the tag added, whatever the tag.  The style added is
    bold for [strong] and [b], italics for [em] and [i], underline for [u];
    for any other tag the pair is dropped and no style is added: the
    segment is parsed as [inner] is, with the styles it had. *)
Theorem processSegments_wrapped (tag inner : string) (st : Styles) :
  tag <> "" -> allWordChars tag = true -> includes (closeTag tag) inner = false ->
  processSegments (matchText tag inner) st
  = processSegments inner (newStylesFor tag st)
  /\ newStylesFor tag st
     = mkStyles (bold st || bool_decide (tag ∈ ["strong"; "b"]))
                (italics st || bool_decide (tag ∈ ["em"; "i"]))
                (underline st || bool_decide (tag = "u"))
  /\ (tag ∉ ["strong"; "b"; "em"; "i"; "u"] ->
      processSegments (matchText tag inner) st = processSegments inner st).
Proof.
  intros Hne Hw Hi.
  assert (processSegments (matchText tag inner) st
          = processSegments inner (newStylesFor tag st)) as Heq.
  { pose proof (matchHere_wrapped tag inner Hne Hw Hi) as Hm.
    pose proof (firstMatch_wrapped tag inner Hm) as Hf.
    apply matchHere_Some in Hm as [_ Hlen].
    unfold processSegments. rewrite !processSegmentsF_descend by lia. f_equal.
    unfold descend at 1.
    destruct (matchText tag inner) as [|c m] eqn:Em.
    { pose proof (matchText_length tag inner) as H. rewrite Em in H. simpl in H. lia. }
    simpl isEmpty. cbv iota. rewrite segmentsF_S, Hf. cbv zeta.
    rewrite descend_inner by lia. simpl plainRun. simpl String.length.
    rewrite segmentsF_nil. by rewrite app_nil_r. }
  split; [exact Heq|]. split; [apply newStylesFor_cases|].
  intros Hother. by rewrite Heq, newStylesFor_other.
Qed.

Lemma processSegments_wrapped_witness :
  processSegments (matchText "span" "a<b>c</b>") (mkStyles false true false)
  = processSegments "a<b>c</b>" (mkStyles false true false)
  /\ processSegments (matchText "b" "a<i>c</i>") (mkStyles false false true)
     = processSegments "a<i>c</i>" (mkStyles true false true).
Proof.
  split.
  - apply (processSegments_wrapped "span" "a<b>c</b>" (mkStyles false true false));
      [done|reflexivity|reflexivity|].
    apply (bool_decide_unpack _). vm_compute. exact I.
  - exact (proj1 (processSegments_wrapped "b" "a<i>c</i>" (mkStyles false false true)
                    ltac:(done) eq_refl eq_refl)).
Defined.

(** ** Tag removal and the sentinel test *)

Section RemoveTags.

Lemma includes_char a c s :
  includes (String a "") (String c s) = Ascii.eqb a c || includes (String a "") s.
Proof.
  unfold includes. rewrite indexOf_unfold. simpl startsWith.
  destruct (Ascii.eqb a c); [done|]. simpl. by destruct (indexOf (String a "") s).
Qed.

Lemma includes_char_nil a : includes (String a "") "" = false.
Proof. reflexivity. Qed.

(** What is left after the removal was in the string. *)
Lemma removeTagsGo_includes a b s :
  includes (String a "") (removeTagsGo b s) = true -> includes (String a "") s = true.
Proof.
  revert b. induction s as [|c s IH]; intros b; [done|].
  rewrite includes_char. simpl removeTagsGo.
  destruct b.
  - destruct (Ascii.eqb c ">"); intros H%IH; rewrite H; apply orb_true_r.
  - destruct (Ascii.eqb c "<" && includes ">" s).
    + intros H%IH. rewrite H. apply orb_true_r.
    + rewrite includes_char. intros [->|H%IH]%orb_true_iff; [done|].
      rewrite H. apply orb_true_r.
Qed.

Lemma removeTagsGo_tagFree b s : tagFree (removeTagsGo b s) = true.
Proof.
  revert b. induction s as [|c s IH]; intros b; [done|]. simpl removeTagsGo.
  destruct b.
  - destruct (Ascii.eqb c ">"); apply IH.
  - destruct (Ascii.eqb c "<" && includes ">" s) eqn:E; [apply IH|].
    simpl tagFree. rewrite IH, andb_true_r.
    destruct (Ascii.eqb c "<"); [|done]. simpl in E |- *.
    destruct (includes ">" (removeTagsGo false s)) eqn:E'; [|done].
    apply removeTagsGo_includes in E'. congruence.
Qed.

Lemma removeTagsGo_fixed s : tagFree s = true -> removeTagsGo false s = s.
Proof.
  induction s as [|c s IH]; [done|]. simpl.
  intros [H1 H2]%andb_true_iff. apply negb_true_iff in H1. rewrite H1.
  by rewrite IH.
Qed.

Lemma testSentinel_unfold s :
  testSentinel s
  = (startsWith "<u-org>" s && includes "</u-org>" (dropStr 7 s))
    || match s with
       | EmptyString => false
       | String _ s' => testSentinel s'
       end.
Proof. by destruct s. Qed.

End RemoveTags.

(** X6.  After the tag removal of [stripTags] no [<] of the text is followed
    by a [>], so nothing is left for a second removal to take out. *)
Theorem removeTags_tagFree (s : string) :
  tagFree (removeTags s) = true /\ removeTags (removeTags s) = removeTags s.
Proof.
  split; [apply removeTagsGo_tagFree|].
  apply removeTagsGo_fixed, removeTagsGo_tagFree.
Qed.

(** X7.  The sentinel test of [parseStyledString] succeeds exactly on the
    strings that contain [<u-org>] and, somewhere after it, [</u-org>]. *)
Theorem testSentinel_iff (s : string) :
  testSentinel s = true
  <-> exists a b c, s = a +:+ "<u-org>" +:+ b +:+ "</u-org>" +:+ c.
Proof.
  split.
  - induction s as [|x s IH]; rewrite testSentinel_unfold.
    + done.
    + intros [[H1 H2]%andb_true_iff|H]%orb_true_iff.
      * apply startsWith_app in H1. unfold includes in H2.
        destruct (indexOf "</u-org>" (dropStr 7 (String x s))) as [j|] eqn:E; [|done].
        apply indexOf_Some in E.
        exists "", (takeStr j (dropStr 7 (String x s))),
          (dropStr (j + String.length "</u-org>") (dropStr 7 (String x s))).
        rewrite str_app_nil_l. rewrite H1 at 1. f_equal. exact E.
      * destruct (IH H) as (a & b & c & ->). by exists (String x a), b, c.
  - intros (a & b & c & ->). induction a as [|x a IH]; rewrite testSentinel_unfold.
    + rewrite str_app_nil_l, startsWith_self.
      change 7 with (String.length "<u-org>"). by rewrite dropStr_app, includes_app.
    + rewrite str_app_cons, IH. apply orb_true_r.
Qed.

(** ** The markup-tree serializer: sequences of nodes *)

Section Sequences.

Lemma reduceFrom_None push nodes : reduceFrom push None nodes = None.
Proof. by induction nodes. Qed.

Lemma reduceFrom_cons push acc n nodes :
  reduceFrom push acc (n :: nodes)
  = reduceFrom push (c ← acc; childObject ← nodeToObject n; Some (push c childObject)) nodes.
Proof. reflexivity. Qed.

Lemma reduceFrom_app push acc a b :
  reduceFrom push acc (a ++ b) = reduceFrom push (reduceFrom push acc a) b.
Proof. apply fold_left_app. Qed.

Lemma pushSpread_appends : appends pushSpread.
Proof.
  intros acc v. unfold pushSpread. destruct (jsTruthy v); [|by rewrite app_nil_r].
  by destruct v.
Qed.

Lemma pushPlain_appends : appends pushPlain.
Proof.
  intros acc v. unfold pushPlain. by destruct (jsTruthy v); [|rewrite app_nil_r].
Qed.

Lemma reduceFrom_acc push acc nodes :
  appends push ->
  reduceFrom push (Some acc) nodes = (acc ++.) <$> reduceFrom push (Some []) nodes.
Proof.
  intros Hp. revert acc. induction nodes as [|n nodes IH]; intros acc.
  - simpl. by rewrite app_nil_r.
  - rewrite !reduceFrom_cons. cbn [mbind option_bind].
    destruct (nodeToObject n) as [v|]; cbn [mbind option_bind].
    + rewrite (IH (push acc v)), (IH (push [] v)), (Hp acc v).
      destruct (reduceFrom push (Some []) nodes) as [r|]; [|done].
      simpl. by rewrite app_assoc.
    + by rewrite !reduceFrom_None.
Qed.

Lemma reduceChildren_app push a b :
  appends push ->
  reduceChildren nodeToObject push (a ++ b)
  = xs ← reduceChildren nodeToObject push a;
    ys ← reduceChildren nodeToObject push b; Some (xs ++ ys).
Proof.
  intros Hp. unfold reduceChildren. fold (reduceFrom push (Some []) (a ++ b)).
  fold (reduceFrom push (Some []) a). fold (reduceFrom push (Some []) b).
  rewrite reduceFrom_app.
  destruct (reduceFrom push (Some []) a) as [xs|]; cbn [mbind option_bind].
  - rewrite reduceFrom_acc by done. by destruct (reduceFrom push (Some []) b).
  - apply reduceFrom_None.
Qed.

Lemma reduceChildren_single push n :
  reduceChildren nodeToObject push [n] = v ← nodeToObject n; Some (push [] v).
Proof. reflexivity. Qed.

(** Replacing a node of a sequence by nodes that push the same. *)
Lemma reduceChildren_replace push a n ms b :
  appends push ->
  reduceChildren nodeToObject push [n] = reduceChildren nodeToObject push ms ->
  reduceChildren nodeToObject push (a ++ n :: b)
  = reduceChildren nodeToObject push (a ++ ms ++ b).
Proof.
  intros Hp H. change (n :: b) with ([n] ++ b).
  rewrite !(reduceChildren_app push a) by done.
  by rewrite !(reduceChildren_app push _ b), H by done.
Qed.

Lemma nodeToObject_ignored n : ignored n = true -> nodeToObject n = Some JNull.
Proof.
  destruct n as [v|t attrs kids|]; simpl; [|intros ->|]; try done.
  by intros ->.
Qed.

Lemma nodeToObject_element tagName attributes childNodes :
  nodeToObject (ElementNode tagName attributes childNodes)
  = let type := typeOf tagName attributes in
    if String.eqb type "emptyLine" then Some JNull
    else if String.eqb type "contentWrapper" then
      JArr <$> reduceChildren nodeToObject pushPlain childNodes
    else
      properties ← parseProperties attributes;
      children ← reduceChildren nodeToObject pushSpread childNodes;
      let obj := spreadProps type properties in
      Some (JObj
        (if String.eqb type "text" then
           setProp obj "content" (JStr (join (joinElem ∘ contentOf <$> children)))
         else if bool_decide (0 < length children) then
           setProp obj "children" (JArr children)
         else obj)).
Proof. reflexivity. Qed.

(** Replacing a child of an element by nodes that push the same, in both
    loops over the children. *)
Lemma nodeToObject_replace tagName attributes a n ms b :
  reduceChildren nodeToObject pushSpread [n] = reduceChildren nodeToObject pushSpread ms ->
  reduceChildren nodeToObject pushPlain [n] = reduceChildren nodeToObject pushPlain ms ->
  nodeToObject (ElementNode tagName attributes (a ++ n :: b))
  = nodeToObject (ElementNode tagName attributes (a ++ ms ++ b)).
Proof.
  intros Hs Hp. rewrite !nodeToObject_element.
  rewrite (reduceChildren_replace pushSpread a n ms b pushSpread_appends Hs).
  by rewrite (reduceChildren_replace pushPlain a n ms b pushPlain_appends Hp).
Qed.

(** A child that is no wrapper hands back no sequence, so the two ways of
    pushing agree on it. *)
Lemma nodeToObject_not_array n xs :
  isWrapper n = false -> nodeToObject n <> Some (JArr xs).
Proof.
  destruct n as [v|t attrs kids|]; [by simpl; destruct (isEmpty (trim v))| |done].
  simpl isWrapper. intros Hw. rewrite nodeToObject_element. cbv zeta. rewrite Hw.
  destruct (String.eqb (typeOf t attrs) "emptyLine"); [done|].
  destruct (parseProperties attrs); [|done]. cbn [mbind option_bind].
  by destruct (reduceChildren nodeToObject pushSpread kids).
Qed.

Lemma reduceFrom_plain_spread acc kids :
  forallb (fun n => negb (isWrapper n)) kids = true ->
  reduceFrom pushPlain acc kids = reduceFrom pushSpread acc kids.
Proof.
  revert acc. induction kids as [|n kids IH]; intros acc; [done|].
  intros [Hn Hk]%andb_true_iff. apply negb_true_iff in Hn.
  rewrite !reduceFrom_cons, (IH _ Hk). f_equal.
  destruct acc as [c|]; [|done]. cbn [mbind option_bind].
  destruct (nodeToObject n) as [v|] eqn:E; [|done]. cbn [mbind option_bind].
  destruct v; try done. by apply nodeToObject_not_array in E.
Qed.

Lemma wrapper_spread tagName attributes kids :
  typeOf tagName attributes = "contentWrapper" ->
  forallb (fun n => negb (isWrapper n)) kids = true ->
  reduceChildren nodeToObject pushSpread [ElementNode tagName attributes kids]
  = reduceChildren nodeToObject pushSpread kids.
Proof.
  intros Ht Hk. rewrite reduceChildren_single, nodeToObject_element. cbv zeta.
  rewrite Ht. simpl String.eqb. cbv iota.
  unfold reduceChildren. fold (reduceFrom pushPlain (Some []) kids).
  fold (reduceFrom pushSpread (Some []) kids). rewrite (reduceFrom_plain_spread _ _ Hk).
  by destruct (reduceFrom pushSpread (Some []) kids).
Qed.

End Sequences.

(** X8.  [htmlToDocx] converts the nodes of the body one after the other:
    the result for a sequence of nodes is the result for its first part
    followed by the result for the rest, and it throws when either does. *)
Theorem htmlToDocx_app (a b : list Node) :
  htmlToDocx (a ++ b) = xs ← htmlToDocx a; ys ← htmlToDocx b; Some (xs ++ ys).
Proof. apply reduceChildren_app, pushSpread_appends. Qed.

(** X9.  A node that is ignored (a text node of white space only, an
    element of type [emptyLine], a node that is neither text nor element)
    leaves no trace: the result is the one for the document without the
    node, among the nodes of the body and among the children of an element
    alike.  The subtree of an [emptyLine] element is not even visited. *)
Theorem ignored_node_leaves_no_trace (n : Node) :
  ignored n = true ->
  (forall a b, htmlToDocx (a ++ n :: b) = htmlToDocx (a ++ b))
  /\ (forall tagName attributes a b,
        nodeToObject (ElementNode tagName attributes (a ++ n :: b))
        = nodeToObject (ElementNode tagName attributes (a ++ b))).
Proof.
  intros Hn. apply nodeToObject_ignored in Hn.
  assert (forall push, push = pushSpread \/ push = pushPlain ->
            reduceChildren nodeToObject push [n] = reduceChildren nodeToObject push [])
    as H.
  { intros push Hp. rewrite reduceChildren_single, Hn. by destruct Hp as [-> | ->]. }
  split.
  - intros a b. apply (reduceChildren_replace pushSpread a n [] b pushSpread_appends).
    apply H. by left.
  - intros t attrs a b. apply (nodeToObject_replace t attrs a n [] b); apply H; auto.
Qed.

Lemma ignored_node_leaves_no_trace_witness :
  htmlToDocx ([TextNode "a"]
              ++ ElementNode "DIV" [("data-type", "emptyLine")] [TextNode "x"]
              :: [TextNode "b"])
  = htmlToDocx ([TextNode "a"] ++ [TextNode "b"]).
Proof.
  apply (ignored_node_leaves_no_trace
           (ElementNode "DIV" [("data-type", "emptyLine")] [TextNode "x"])).
  reflexivity.
Defined.

(** X10.  An element of type [contentWrapper] none of whose children is
    itself such an element is transparent: the result is the one for the
    document with the element replaced by its children, among the nodes of
    the body and among the children of an ordinary element.  The attributes
    of the wrapper play no part. *)
Theorem contentWrapper_transparent (tagName : string)
    (attributes : list (string * string)) (kids : list Node) :
  typeOf tagName attributes = "contentWrapper" ->
  forallb (fun n => negb (isWrapper n)) kids = true ->
  (forall a b,
     htmlToDocx (a ++ ElementNode tagName attributes kids :: b)
     = htmlToDocx (a ++ kids ++ b))
  /\ (forall tagName' attributes' a b,
        isWrapper (ElementNode tagName' attributes' []) = false ->
        nodeToObject (ElementNode tagName' attributes'
                        (a ++ ElementNode tagName attributes kids :: b))
        = nodeToObject (ElementNode tagName' attributes' (a ++ kids ++ b))).
Proof.
  intros Ht Hk. pose proof (wrapper_spread tagName attributes kids Ht Hk) as Hs.
  split.
  - intros a b. by apply (reduceChildren_replace pushSpread _ _ _ _ pushSpread_appends).
  - intros t' attrs' a b Hw. simpl in Hw. rewrite !nodeToObject_element. cbv zeta.
    rewrite Hw.
    by rewrite (reduceChildren_replace pushSpread _ _ _ _ pushSpread_appends Hs).
Qed.

Lemma contentWrapper_transparent_witness :
  htmlToDocx ([TextNode "a"]
              ++ ElementNode "SPAN" [("data-type", "contentWrapper"); ("data-x", "1")]
                   [ElementNode "P" [] [TextNode "x"]; TextNode "y"]
              :: [TextNode "b"])
  = htmlToDocx ([TextNode "a"] ++ [ElementNode "P" [] [TextNode "x"]; TextNode "y"]
                ++ [TextNode "b"]).
Proof.
  apply (contentWrapper_transparent "SPAN"
           [("data-type", "contentWrapper"); ("data-x", "1")]
           [ElementNode "P" [] [TextNode "x"]; TextNode "y"]); reflexivity.
Defined.

(** ** The markup-tree serializer: the object of an element *)

Section ElementObject.

Lemma getProp_set_eq {V} (o : list (string * V)) k v : getProp (setProp o k v) k = Some v.
Proof.
  induction o as [|[k' v'] o IH]; simpl.
  - by rewrite String.eqb_refl.
  - destruct (String.eqb_spec k' k) as [->|Hne]; simpl.
    + by rewrite String.eqb_refl.
    + by destruct (String.eqb_spec k' k).
Qed.

Lemma getProp_set_ne {V} (o : list (string * V)) k k' v :
  k <> k' -> getProp (setProp o k v) k' = getProp o k'.
Proof.
  intros Hne. induction o as [|[k0 v0] o IH]; simpl.
  - by destruct (String.eqb_spec k k').
  - destruct (String.eqb_spec k0 k) as [->|Hne0]; simpl.
    + by destruct (String.eqb_spec k k').
    + destruct (String.eqb_spec k0 k'); [done|apply IH].
Qed.

Lemma spreadProps_type type (properties : Props) :
  (forall x, ("type", x) ∉ properties) ->
  getProp (spreadProps type properties) "type" = Some (JStr type).
Proof.
  intros Hp. unfold spreadProps.
  assert (getProp [("type", JStr type)] "type" = Some (JStr type)) as Hinit by done.
  revert Hinit. generalize [("type", JStr type)].
  induction properties as [|[k pv] ps IH]; intros o Ho; [done|].
  simpl. apply IH.
  - intros x Hx. apply (Hp x). by right.
  - rewrite getProp_set_ne; [done|]. intros ->. apply (Hp pv). by left.
Qed.

End ElementObject.

(** X11.  The object made for an element that is neither an [emptyLine] nor
    a [contentWrapper] has the type of the element under [type]: the value
    of [data-type] if it has one that is not empty, else the tag name in
    lower case.  No attribute and no child can put another value there. *)
Theorem nodeToObject_type (tagName : string) (attributes : list (string * string))
    (childNodes : list Node) (v : JsVal) :
  typeOf tagName attributes <> "emptyLine" ->
  typeOf tagName attributes <> "contentWrapper" ->
  nodeToObject (ElementNode tagName attributes childNodes) = Some v ->
  exists fs, v = JObj fs /\ getProp fs "type" = Some (JStr (typeOf tagName attributes)).
Proof.
  intros H1 H2. rewrite nodeToObject_element. cbv zeta.
  apply String.eqb_neq in H1, H2. rewrite H1, H2.
  destruct (parseProperties attributes) as [props|] eqn:Ep; [|done].
  cbn [mbind option_bind].
  destruct (reduceChildren nodeToObject pushSpread childNodes) as [children|]; [|done].
  cbn [mbind option_bind]. intros [= <-]. eexists. split; [done|].
  pose proof (spreadProps_type (typeOf tagName attributes) props
                (fun x => parseProperties_no_type _ _ x Ep)) as Ht.
  destruct (String.eqb (typeOf tagName attributes) "text");
    [by rewrite getProp_set_ne|].
  destruct (bool_decide _); [by rewrite getProp_set_ne|done].
Qed.

Lemma nodeToObject_type_witness :
  exists fs,
    JObj [("type", JStr "paragraph"); ("heading", JStr "HEADING_1");
          ("children", JArr [textObject "x"])] = JObj fs
    /\ getProp fs "type"
       = Some (JStr (typeOf "P" [("data-heading", "HEADING_1"); ("data-type", "paragraph")])).
Proof.
  apply (nodeToObject_type "P" [("data-heading", "HEADING_1"); ("data-type", "paragraph")]
           [TextNode "x"]); [done|done|reflexivity].
Defined.

(** X12.  The object made for an element of type [text] whose children are
    text nodes has, under [content], the values of the children joined, the
    children of white space only left out; an attribute [data-content] is
    overwritten. *)
Theorem text_element_content (tagName : string) (attributes : list (string * string))
    (vs : list string) :
  typeOf tagName attributes = "text" ->
  is_Some (parseProperties attributes) ->
  exists fs,
    nodeToObject (ElementNode tagName attributes (TextNode <$> vs)) = Some (JObj fs)
    /\ getProp fs "type" = Some (JStr "text")
    /\ getProp fs "content" = Some (JStr (join (List.filter keptText vs))).
Proof.
  intros Ht [props Ep]. rewrite nodeToObject_element. cbv zeta. rewrite Ht, Ep.
  simpl String.eqb. cbv iota. cbn [mbind option_bind].
  rewrite reduceChildren_text. cbn [mbind option_bind].
  eexists. split; [done|]. split.
  - rewrite getProp_set_ne by done.
    apply spreadProps_type. intros x. by apply (parseProperties_no_type attributes).
  - rewrite getProp_set_eq. do 2 f_equal.
    rewrite <- list_fmap_compose. induction (List.filter keptText vs) as [|x l IH]; [done|].
    rewrite fmap_cons. change (join (?a :: ?l)) with (a +:+ join l). by rewrite IH.
Qed.

Lemma text_element_content_witness :
  exists fs,
    nodeToObject (ElementNode "SPAN"
                    [("data-bold", "true"); ("data-content", "z"); ("data-type", "text")]
                    (TextNode <$> ["Hello"; " "; "world"])) = Some (JObj fs)
    /\ getProp fs "type" = Some (JStr "text")
    /\ getProp fs "content"
       = Some (JStr (join (List.filter keptText ["Hello"; " "; "world"]))).
Proof.
  apply (text_element_content "SPAN"
           [("data-bold", "true"); ("data-content", "z"); ("data-type", "text")]);
    [reflexivity|by eexists].
Defined.

(** X13.  [parseProperties] looks at the attributes whose name starts with
    [data-], [data-type] apart, and at no other: the attributes it skips
    can be taken away without changing the result. *)
Theorem parseProperties_data_only (attributes : list (string * string)) :
  parseProperties (List.filter (fun attr => isDataAttribute attr.1) attributes)
  = parseProperties attributes.
Proof.
  unfold parseProperties. generalize (Some (@nil (string * PropVal))).
  induction attributes as [|[name value] attrs IH]; intros acc; [done|].
  simpl List.filter. destruct (isDataAttribute name) eqn:E.
  - simpl. apply IH.
  - simpl fold_left. rewrite IH. f_equal. destruct acc as [p|]; [|done].
    simpl. by rewrite E.
Qed.

(** ** Splitting at a delimiter *)

Section SplitFacts2.

Lemma startsWith_empty sep : sep <> "" -> startsWith sep "" = false.
Proof. by destruct sep. Qed.

Lemma splitGo_skip sep k s : splitGo sep k s = splitGo sep 0 (dropStr k s).
Proof.
  revert k. induction s as [|c s IH]; intros k; [by destruct k|].
  destruct k as [|k]; [done|]. simpl splitGo at 1. by rewrite IH.
Qed.

Lemma splitGo_cons sep c s :
  splitGo sep 0 (String c s)
  = if startsWith sep (String c s)
    then EmptyString :: splitGo sep (String.length sep - 1) s
    else match splitGo sep 0 s with
         | p :: ps => String c p :: ps
         | [] => [String c EmptyString]
         end.
Proof. reflexivity. Qed.

(** [split] goes from one occurrence of the delimiter to the next. *)
Lemma splitGo_indexOf sep s :
  sep <> "" ->
  splitGo sep 0 s
  = match indexOf sep s with
    | None => [s]
    | Some j => takeStr j s :: splitGo sep 0 (dropStr (j + String.length sep) s)
    end.
Proof.
  intros Hsep. induction s as [|c s IH].
  - rewrite indexOf_unfold, startsWith_empty by done. done.
  - rewrite splitGo_cons, indexOf_unfold.
    destruct (startsWith sep (String c s)) eqn:E.
    + rewrite splitGo_skip. destruct sep as [|a sep]; [done|].
      simpl String.length.
      by replace (S (String.length sep) - 1) with (String.length sep) by lia.
    + rewrite IH. destruct (indexOf sep s) as [j|]; simpl; done.
Qed.

Lemma startsWith_takeStr sep n s :
  startsWith sep (takeStr n s) = true -> startsWith sep s = true.
Proof.
  revert n s. induction sep as [|a sep IH]; intros n s; [done|].
  destruct n as [|n], s as [|c s]; try done. simpl.
  destruct (Ascii.eqb a c); [apply IH|done].
Qed.

Lemma indexOf_takeStr sep s j :
  sep <> "" -> indexOf sep s = Some j -> indexOf sep (takeStr j s) = None.
Proof.
  intros Hsep. revert j. induction s as [|c s IH]; intros j; rewrite indexOf_unfold.
  - by rewrite startsWith_empty.
  - destruct (startsWith sep (String c s)) eqn:E.
    + intros [= <-]. simpl takeStr. rewrite indexOf_unfold. by rewrite startsWith_empty.
    + destruct (indexOf sep s) as [j'|] eqn:Ei; [|done]. intros [= <-].
      simpl takeStr. rewrite indexOf_unfold, (IH j' eq_refl).
      destruct (startsWith sep (String c (takeStr j' s))) eqn:E'; [|done].
      apply (startsWith_takeStr sep (S j') (String c s)) in E'. congruence.
Qed.

Lemma dropStr_shorter sep s j :
  sep <> "" -> indexOf sep s = Some j ->
  String.length (dropStr (j + String.length sep) s) < String.length s.
Proof.
  intros Hsep Hj. pose proof (indexOf_Some _ _ _ Hj) as E.
  pose proof (indexOf_bound _ _ _ Hj) as Hb.
  assert (String.length s
          = String.length (takeStr j s) + String.length sep
            + String.length (dropStr (j + String.length sep) s)) as Hl.
  { rewrite E at 1. rewrite !str_length_app. lia. }
  rewrite length_takeStr in Hl by lia.
  destruct sep; [done|]. simpl in *. lia.
Qed.

Lemma joinWith_cons sep x y l :
  joinWith sep (x :: y :: l) = x +:+ sep +:+ joinWith sep (y :: l).
Proof. reflexivity. Qed.

Lemma splitGo_nonempty sep s : splitGo sep 0 s <> [].
Proof.
  induction s as [|c s IH]; [done|]. rewrite splitGo_cons.
  destruct (startsWith sep (String c s)); [done|]. by destruct (splitGo sep 0 s).
Qed.

(** What [split] cuts, the delimiter puts together again, and no piece holds
    the delimiter. *)
Lemma splitGo_pieces sep :
  sep <> "" ->
  forall n s, String.length s < n ->
    joinWith sep (splitGo sep 0 s) = s
    /\ Forall (fun p => includes sep p = false) (splitGo sep 0 s).
Proof.
  intros Hsep. induction n as [|n IH]; intros s Hn; [lia|].
  rewrite splitGo_indexOf by done.
  destruct (indexOf sep s) as [j|] eqn:Ej.
  - pose proof (dropStr_shorter sep s j Hsep Ej) as Hlt.
    destruct (IH (dropStr (j + String.length sep) s)) as [H1 H2]; [lia|].
    split.
    + destruct (splitGo sep 0 (dropStr (j + String.length sep) s)) as [|y l] eqn:El.
      { by apply splitGo_nonempty in El. }
      rewrite joinWith_cons, H1. symmetry. by apply indexOf_Some.
    + constructor; [|done]. unfold includes. by rewrite indexOf_takeStr.
  - split; [done|]. constructor; [|done]. unfold includes. by rewrite Ej.
Qed.

Lemma pieces_fixed sep p : includes sep p = false -> pieces sep p = [p].
Proof. intros H. unfold pieces. by rewrite H. Qed.

Lemma pieces_pieces sep s :
  sep <> "" ->
  joinWith sep (pieces sep s) = s /\ Forall (fun p => includes sep p = false) (pieces sep s).
Proof.
  intros Hsep. unfold pieces. destruct (includes sep s) eqn:E.
  - unfold split. assert (isEmpty sep = false) as -> by (by destruct sep).
    apply (splitGo_pieces sep Hsep (S (String.length s))). lia.
  - split; [done|]. by constructor.
Qed.

Lemma flat_map_pieces_fixed sep ps :
  Forall (fun p => includes sep p = false) ps -> flat_map (pieces sep) ps = ps.
Proof.
  induction 1 as [|p ps Hp _ IH]; [done|]. simpl. by rewrite pieces_fixed, IH.
Qed.

Lemma brPieces_fixed ss : brPieces (brPieces ss) = brPieces ss.
Proof.
  apply flat_map_pieces_fixed. unfold brPieces.
  induction ss as [|s ss IH]; [constructor|]. simpl. apply Forall_app. split; [|done].
  by apply pieces_pieces.
Qed.

End SplitFacts2.

(** X14.  What a string paragraph contributes to the result of
    [splitByBrTag]: pieces none of which holds the delimiter and which,
    joined by the delimiter, give the paragraph back, so that no text is
    lost or made up. *)
Theorem splitItem_pieces (delimiter s : string) (h : heap) :
  delimiter <> "" ->
  exists ps,
    splitItem delimiter (VStr s) h = Some (VStr <$> ps, h)
    /\ joinWith delimiter ps = s
    /\ Forall (fun p => includes delimiter p = false) ps.
Proof.
  intros Hd. exists (pieces delimiter s). split; [|by apply pieces_pieces].
  unfold splitItem, pieces. by destruct (includes delimiter s).
Qed.

Lemma splitItem_pieces_witness :
  exists ps,
    splitItem "<br>" (VStr "a<br><br>b") [] = Some (VStr <$> ps, [])
    /\ joinWith "<br>" ps = "a<br><br>b"
    /\ Forall (fun p => includes "<br>" p = false) ps.
Proof. by apply splitItem_pieces. Defined.

(** X15.  On an array of strings [splitByBrTag] returns a new array and
    leaves its argument as it was; applied to its own result it returns a
    new array with the same strings: there is nothing left to split. *)
Theorem splitByBrTag_twice (h : heap) (l : loc) (c : cell) (ss : list string) :
  h !! l = Some c -> elems c = Some (VStr <$> ss) ->
  exists out h1 h2,
    splitByBrTag (VRef l) h = Some (VRef (length h), h1)
    /\ readArray (VRef (length h)) h1 = Some (VStr <$> out, h1)
    /\ splitByBrTag (VRef (length h)) h1 = Some (VRef (length h1), h2)
    /\ readArray (VRef (length h1)) h2 = Some (VStr <$> out, h2)
    /\ readArray (VRef l) h2 = Some (VStr <$> ss, h2).
Proof.
  intros Hl He.
  pose proof (splitByBrTag_strings h l c _ ss Hl He eq_refl) as H1.
  set (h1 := h ++ [array (VStr <$> brPieces ss)]) in *.
  assert (h1 !! length h = Some (array (VStr <$> brPieces ss))) as Hl1.
  { unfold h1. by rewrite list_lookup_middle. }
  pose proof (splitByBrTag_strings h1 (length h) _ _ (brPieces ss) Hl1 eq_refl eq_refl) as H2.
  rewrite brPieces_fixed in H2.
  exists (brPieces ss), h1, (h1 ++ [array (VStr <$> brPieces ss)]).
  split; [done|]. split.
  { unfold readArray. erewrite bind_run; [|unfold readCell; by rewrite Hl1]. done. }
  split; [done|]. split.
  { unfold readArray. erewrite bind_run; [|unfold readCell; by rewrite list_lookup_middle].
    done. }
  unfold readArray. erewrite bind_run; cycle 1.
  { unfold readCell, h1.
    by rewrite (lookup_app_l_Some _ _ _ _ (lookup_app_l_Some _ [array _] _ _ Hl)). }
  by rewrite He.
Qed.

Lemma splitByBrTag_twice_witness :
  exists out h1 h2,
    splitByBrTag (VRef 0) [array (VStr <$> ["a<br>b"; "c"])] = Some (VRef 1, h1)
    /\ readArray (VRef 1) h1 = Some (VStr <$> out, h1)
    /\ splitByBrTag (VRef 1) h1 = Some (VRef (length h1), h2)
    /\ readArray (VRef (length h1)) h2 = Some (VStr <$> out, h2)
    /\ readArray (VRef 0) h2 = Some (VStr <$> ["a<br>b"; "c"], h2).
Proof.
  apply (splitByBrTag_twice [array (VStr <$> ["a<br>b"; "c"])] 0
           (array (VStr <$> ["a<br>b"; "c"])) ["a<br>b"; "c"]); reflexivity.
Defined.

(** ** The format of an image *)

Section ImageFormat.


End ImageFormat.



(** ** [splitByBrTag] on entries that are no strings *)

Section SplitThrows.

Lemma splitItem_heap d x h parts h' :
  splitItem d x h = Some (parts, h') -> h' = h.
Proof.
  destruct x as [| |b|s|l]; try done; simpl.
  - by intros [= _ <-].
  - unfold mbind, M_bind, readCell. destruct (h !! l) as [c|]; [|done]. simpl.
    destruct (elems c) as [xs|]; [|done]. simpl.
    destruct (existsb (isString d) xs); [done|]. by intros [= _ <-].
Qed.

Lemma splitItem_noIncludes d x h : noIncludes x = true -> splitItem d x h = None.
Proof. by destruct x. Qed.

Lemma bind_none {A B} (m : M A) (k : A -> M B) h : m h = None -> (m ≫= k) h = None.
Proof. intros H. unfold mbind, M_bind. by rewrite H. Qed.

(** The loop of [splitByBrTag] from entry [i] on, an entry without
    [includes] still to come. *)
Lemma forEachFrom_throws d h l c xs k x :
  h !! l = Some c -> elems c = Some xs ->
  xs !! k = Some x -> noIncludes x = true ->
  forall n i acc, i <= k < i + n ->
    forEachFrom (VRef l) i n
      (fun item => parts ← splitItem d item; push parts (VRef (length h)))
      (h ++ [array acc])
    = None.
Proof.
  intros Hl He Hk Hx. induction n as [|n IH]; intros i acc Hi; [lia|].
  simpl forEachFrom.
  erewrite bind_run by (by eapply readArray_app).
  destruct (decide (i = k)) as [->|Hne].
  - rewrite Hk. do 2 apply bind_none. by apply splitItem_noIncludes.
  - destruct (xs !! i) as [y|] eqn:Ey; cycle 1.
    { apply lookup_ge_None in Ey. apply lookup_lt_Some in Hk. lia. }
    destruct (splitItem d y (h ++ [array acc])) as [[parts h']|] eqn:Es.
    + pose proof (splitItem_heap _ _ _ _ _ Es) as ->.
      erewrite bind_run; cycle 1.
      { erewrite bind_run by exact Es. apply push_last. }
      apply IH. lia.
    + by do 2 apply bind_none.
Qed.

End SplitThrows.

(** X17.  [splitByBrTag] throws when an entry of the array is neither a
    string nor an object ([true], left in by the filter for empty entries,
    [null], [undefined]), wherever the entry stands. *)
Theorem splitByBrTag_throws (h : heap) (l : loc) (c : cell) (xs : list val) (x : val) :
  h !! l = Some c -> elems c = Some xs -> x ∈ xs -> noIncludes x = true ->
  splitByBrTag (VRef l) h = None.
Proof.
  intros Hl He Hx Hn. apply list_elem_of_lookup in Hx as [k Hk].
  unfold splitByBrTag, splitByBrTagWith.
  erewrite bind_run by reflexivity. apply bind_none.
  unfold forEach. erewrite bind_run by (by eapply (readArray_app h l c xs)).
  apply (forEachFrom_throws "<br>" h l c xs k x Hl He Hk Hn).
  apply lookup_lt_Some in Hk. lia.
Qed.

Lemma splitByBrTag_throws_witness :
  splitByBrTag (VRef 0) [array [VStr "a<br>b"; VBool true; VStr "c"]] = None.
Proof.
  apply (splitByBrTag_throws _ 0 (array [VStr "a<br>b"; VBool true; VStr "c"])
           [VStr "a<br>b"; VBool true; VStr "c"] (VBool true));
    [reflexivity|reflexivity| |reflexivity].
  apply list_elem_of_further, list_elem_of_here.
Defined.

(** ** [mergeListParagraphs] and the parser *)

Section MergedList.

Lemma matchHere_wrapped_rest tag inner rest :
  tag <> "" -> allWordChars tag = true -> includes (closeTag tag) inner = false ->
  matchHere (matchText tag inner +:+ rest) = Some (tag, inner).
Proof.
  intros Hne Hw Hi.
  assert (matchText tag inner +:+ rest
          = String "<" (tag +:+ String ">" (inner +:+ closeTag tag +:+ rest))) as ->.
  { unfold matchText, openTag. by rewrite !str_app_assoc. }
  unfold matchHere. rewrite (wordRun_word tag ">" _ Hw eq_refl).
  assert (isEmpty tag = false) as -> by (by destruct tag).
  assert (closeTag tag = String "<" ("/" +:+ tag +:+ ">")) as Hc by done.
  rewrite Hc in Hi |- *.
  rewrite indexOf_fresh; [by rewrite takeStr_app| |done].
  rewrite str_app_cons, str_app_nil_l.
  change (Ascii.eqb "<" "/" || occurs "<" (tag +:+ ">") = false).
  by rewrite occurs_app, occurs_word.
Qed.

Lemma firstMatch_wrapped_rest tag inner rest :
  tag <> "" -> allWordChars tag = true -> includes (closeTag tag) inner = false ->
  firstMatch (matchText tag inner +:+ rest) = Some ("", tag, inner, rest).
Proof.
  intros Hne Hw Hi. rewrite firstMatch_unfold, matchHere_wrapped_rest by done.
  by rewrite dropStr_app.
Qed.

Lemma mergeList_app acc items :
  fold_left (fun paragraph paragraphs =>
               paragraph +:+ "<span>" +:+ join paragraphs +:+ "</span>") items acc
  = acc +:+ mergeListParagraphs (Some items).
Proof.
  unfold mergeListParagraphs. revert acc.
  induction items as [|ps items IH]; intros acc; [by rewrite str_app_nil_r|].
  simpl fold_left. rewrite IH, (IH (_ +:+ _)). by rewrite !str_app_assoc.
Qed.

Lemma mergeList_cons ps items :
  mergeListParagraphs (Some (ps :: items))
  = matchText "span" (join ps) +:+ mergeListParagraphs (Some items).
Proof.
  unfold mergeListParagraphs at 1. simpl fold_left. rewrite mergeList_app.
  unfold matchText. by rewrite !str_app_assoc.
Qed.

Lemma segmentsF_merged st items :
  Forall (fun ps => includes "</span>" (join ps) = false) items ->
  forall n, String.length (mergeListParagraphs (Some items)) < n ->
    segmentsF n (mergeListParagraphs (Some items)) st
    = concat ((fun ps => descend (join ps) st) <$> items).
Proof.
  induction 1 as [|ps items Hps _ IH]; intros n Hn.
  - destruct n; [simpl in Hn; lia|]. done.
  - destruct n as [|n]; [lia|]. rewrite mergeList_cons in Hn |- *.
    rewrite segmentsF_S, firstMatch_wrapped_rest by done. cbv zeta.
    assert (String.length (matchText "span" (join ps))
            = 13 + String.length (join ps)) as Hm.
    { unfold matchText. rewrite !str_length_app. simpl. lia. }
    rewrite str_length_app, Hm in Hn.
    rewrite descend_inner by lia. rewrite IH by lia.
    by destruct st as [[] [] []].
Qed.

End MergedList.

(** X18.  The [span] that [mergeListParagraphs] puts around the paragraphs
    of an item is dropped by the parser without a trace: for a list that is
    not empty and whose items hold no [</span>], the parts of the merged
    string are the parts of the first item's text, then those of the
    second, and so on. *)
Theorem mergeListParagraphs_parsed (items : list (list string)) (st : Styles) :
  items <> [] ->
  Forall (fun ps => includes "</span>" (join ps) = false) items ->
  exists rs,
    mapM (fun ps => processSegments (join ps) st) items = Some rs
    /\ processSegments (mergeListParagraphs (Some items)) st = Some (concat rs).
Proof.
  intros Hne Hi. exists ((fun ps => descend (join ps) st) <$> items). split.
  - apply mapM_Some. apply Forall2_fmap_r, Forall_Forall2_diag, Forall_forall.
    intros ps _. apply processSegmentsF_descend. lia.
  - unfold processSegments. rewrite processSegmentsF_descend by lia. f_equal.
    destruct items as [|ps items]; [done|].
    assert (isEmpty (mergeListParagraphs (Some (ps :: items))) = false) as E
      by (by rewrite mergeList_cons).
    unfold descend at 1. rewrite E. by apply segmentsF_merged; [|lia].
Qed.

Lemma mergeListParagraphs_parsed_witness :
  exists rs,
    mapM (fun ps => processSegments (join ps) noStyles) [["a"; "<b>c</b>"]; ["d"]]
    = Some rs
    /\ processSegments (mergeListParagraphs (Some [["a"; "<b>c</b>"]; ["d"]])) noStyles
       = Some (concat rs).
Proof.
  apply mergeListParagraphs_parsed; [done|].
  repeat constructor.
Defined.

(** ** From the parser to the output: the components *)

Section Rendered.

Variable twJoin : list (option string) -> string.
Variables textValue attrValue : string -> string.

Lemma nodeToObject_text nodeValue :
  nodeToObject (TextNode nodeValue)
  = Some (if isEmpty (trim nodeValue) then JNull else textObject nodeValue).
Proof. reflexivity. Qed.

(** The children of a rendered part, as the serializer collects them. *)
Lemma textChild_children c :
  reduceChildren nodeToObject pushSpread (textChild textValue c)
  = Some (if keptText (readBack textValue c) then [textObject (readBack textValue c)]
          else []).
Proof.
  unfold textChild, keptText. destruct (readBack textValue c) as [|a v]; [done|].
  simpl isEmpty at 1. cbv iota.
  rewrite reduceChildren_single, nodeToObject_text.
  by destruct (isEmpty (trim (String a v))).
Qed.

Lemma createTextRun_exported text className :
  nodeToObject (createTextRun twJoin textValue attrValue text [] className)
  = Some (exportedRun textValue text []).
Proof.
  destruct text as [ty c [b i u]]. unfold createTextRun, TextRun, exportedRun.
  rewrite nodeToObject_element. cbn [styles content bold italics underline].
  destruct b, i, u; cbv zeta;
    rewrite textChild_children; destruct (keptText (readBack textValue c));
    cbn; by rewrite ?str_app_nil_r.
Qed.

Lemma createTextRun_exported_tab text className alignment relativeTo :
  nodeToObject (createTextRun twJoin textValue attrValue text
                  (positionalTab alignment relativeTo) className)
  = Some (exportedRun textValue text (exportedTab alignment relativeTo)).
Proof.
  destruct text as [ty c [b i u]]. unfold createTextRun, TextRun, exportedRun.
  rewrite nodeToObject_element. cbn [styles content bold italics underline].
  destruct b, i, u; cbv zeta;
    rewrite textChild_children; destruct (keptText (readBack textValue c));
    cbn; by rewrite ?str_app_nil_r.
Qed.

End Rendered.

Section Columns.

Lemma columns_fold (targetIndex : option nat) (l : list StyledRun) j a b :
  fold_left (fun cols it =>
               if before it.1 targetIndex then (cols.1 ++ [it.2], cols.2)
               else (cols.1, cols.2 ++ [it.2]))
            (imap (fun i x => (j + i, x)) l) (a, b)
  = (a ++ take (default 0 targetIndex - j) l, b ++ drop (default 0 targetIndex - j) l).
Proof.
  revert j a b. induction l as [|x l IH]; intros j a b.
  - by rewrite take_nil, drop_nil, !app_nil_r.
  - rewrite imap_cons, fold_left_step. cbn [fst snd].
    rewrite (imap_ext _ (fun i x => (S j + i, x))) by (intros; simpl; f_equal; lia).
    destruct (before (j + 0) targetIndex) eqn:E.
    + destruct targetIndex as [k|]; [|done]. simpl in E. apply Nat.ltb_lt in E.
      rewrite IH. simpl default.
      replace (k - j) with (S (k - S j)) by lia. simpl. by rewrite <- app_assoc.
    + rewrite IH.
      assert (default 0 targetIndex <= j) as Hle.
      { destruct targetIndex as [k|]; [|simpl; lia]. simpl in E |- *.
        apply Nat.ltb_ge in E. lia. }
      replace (default 0 targetIndex - j) with 0 by lia.
      replace (default 0 targetIndex - S j) with 0 by lia.
      simpl. by rewrite <- app_assoc.
Qed.

Lemma columns_take_drop target parsed :
  columns target parsed
  = (take (default 0 (findIndex (fun text => String.eqb (content text) target) parsed))
          parsed,
     drop (default 0 (findIndex (fun text => String.eqb (content text) target) parsed))
          parsed).
Proof.
  unfold columns.
  rewrite (imap_ext pair (fun i x => (0 + i, x)) parsed) by done.
  by rewrite columns_fold, Nat.sub_0_r.
Qed.

Lemma findIndexFrom_Some {A} (p : A -> bool) i l k :
  findIndexFrom p i l = Some k ->
  i <= k /\ Forall (fun x => p x = false) (take (k - i) l)
  /\ exists x rest, drop (k - i) l = x :: rest /\ p x = true.
Proof.
  revert i. induction l as [|x l IH]; intros i; [done|]. simpl.
  destruct (p x) eqn:E.
  - intros [= <-]. rewrite Nat.sub_diag. split; [lia|]. split; [constructor|].
    by exists x, l.
  - intros H. destruct (IH _ H) as (Hk & Hf & y & rest & Hd & Hy).
    split; [lia|]. replace (k - i) with (S (k - S i)) by lia. simpl.
    split; [by constructor|]. by exists y, rest.
Qed.

Lemma findIndexFrom_None {A} (p : A -> bool) i l :
  findIndexFrom p i l = None -> Forall (fun x => p x = false) l.
Proof.
  revert i. induction l as [|x l IH]; intros i; [constructor|]. simpl.
  destruct (p x) eqn:E; [done|]. intros H. constructor; [done|]. by eapply IH.
Qed.

End Columns.

(** X19.  The two columns of a [Paragraph] are a cut of the parsed parts in
    two: the first column followed by the second is the sequence of the
    parts, no part of the first column has the target text as its content,
    and the second column starts with the first part that has.  When no
    part has, the first column is empty. *)
Theorem columns_partition (target : string) (parsed : list StyledRun) :
  exists firstColumn secondColumn,
    columns target parsed = (firstColumn, secondColumn)
    /\ firstColumn ++ secondColumn = parsed
    /\ Forall (fun text => content text <> target) firstColumn
    /\ ((exists text rest, secondColumn = text :: rest /\ content text = target)
        \/ (firstColumn = [] /\ Forall (fun text => content text <> target) parsed)).
Proof.
  eexists _, _. split; [apply columns_take_drop|].
  split; [apply take_drop|].
  assert (forall l, Forall (fun text => String.eqb (content text) target = false) l ->
                    Forall (fun text => content text <> target) l) as Hneq.
  { intros l Hl. eapply Forall_impl; [exact Hl|]. intros t. apply String.eqb_neq. }
  unfold findIndex.
  destruct (findIndexFrom _ 0 parsed) as [k|] eqn:E; simpl default.
  - apply findIndexFrom_Some in E as (_ & Hf & x & rest & Hd & Hx).
    rewrite Nat.sub_0_r in Hf, Hd. split; [by apply Hneq|].
    left. exists x, rest. split; [done|]. by apply String.eqb_eq.
  - split; [constructor|]. right. split; [done|].
    apply Hneq. by eapply findIndexFrom_None.
Qed.

Section RenderedParagraph.

Variable decodeEntities : string -> string.
Variable twJoin : list (option string) -> string.
Variables textValue attrValue : string -> string.

#[local] Abbreviation createTextRun' := (createTextRun twJoin textValue attrValue).
#[local] Abbreviation exportedRun' := (exportedRun textValue).

(** Children that each become an object are collected one by one, by both
    ways of pushing. *)
Lemma reduceChildren_objects push nodes vals :
  push = pushSpread \/ push = pushPlain ->
  Forall2 (fun n v => nodeToObject n = Some v /\ isObject v) nodes vals ->
  reduceChildren nodeToObject push nodes = Some vals.
Proof.
  intros Hp H. unfold reduceChildren. fold (reduceFrom push (Some []) nodes).
  assert (appends push) as Ha.
  { destruct Hp as [-> | ->]; [apply pushSpread_appends|apply pushPlain_appends]. }
  induction H as [|n v nodes vals [Hn [fs ->]] _ IH]; [done|].
  rewrite reduceFrom_cons. cbn [mbind option_bind]. rewrite Hn. cbn [mbind option_bind].
  rewrite reduceFrom_acc, IH by done.
  by destruct Hp as [-> | ->].
Qed.

Lemma exportedRun_object text extra : isObject (exportedRun' text extra).
Proof. by eexists. Qed.

Lemma firstColumn_children push runs :
  push = pushSpread \/ push = pushPlain ->
  reduceChildren nodeToObject push ((fun text => createTextRun' text [] "") <$> runs)
  = Some ((fun text => exportedRun' text []) <$> runs).
Proof.
  intros Hp. apply reduceChildren_objects; [done|].
  apply Forall2_fmap, Forall_Forall2_diag, Forall_forall. intros t _.
  split; [apply createTextRun_exported|apply exportedRun_object].
Qed.

Lemma secondColumn_children push alignment relativeTo runs :
  push = pushSpread \/ push = pushPlain ->
  reduceChildren nodeToObject push
    (imap (fun index text =>
             createTextRun' text
               (if index =? 0 then positionalTab alignment relativeTo else []) "") runs)
  = Some (imap (fun index text =>
                  exportedRun' text
                    (if index =? 0 then exportedTab alignment relativeTo else [])) runs).
Proof.
  intros Hp. apply reduceChildren_objects; [done|].
  destruct runs as [|t runs]; [constructor|]. rewrite !imap_cons. constructor.
  - split; [apply createTextRun_exported_tab|apply exportedRun_object].
  - rewrite (imap_ext _ (const (fun text => createTextRun' text [] ""))) by done.
    rewrite (imap_ext _ (const (fun text => exportedRun' text []))) by done.
    rewrite !imap_const. apply Forall2_fmap, Forall_Forall2_diag, Forall_forall.
    intros t' _. split; [apply createTextRun_exported|apply exportedRun_object].
Qed.

Lemma typeOf_setProp tagName attributes v :
  v <> "" -> typeOf tagName (setProp attributes "data-type" v) = v.
Proof.
  intros Hv. unfold typeOf. rewrite getProp_set_eq. by destruct v.
Qed.

Lemma typeOf_setProp_ne tagName attributes k v :
  k <> "data-type" ->
  typeOf tagName (setProp attributes k v) = typeOf tagName attributes.
Proof. intros Hk. unfold typeOf. by rewrite getProp_set_ne. Qed.

(** The object of an element of type [paragraph] whose children are
    collected as [children], not empty. *)
Lemma paragraph_object tagName attributes childNodes children :
  typeOf tagName attributes = "paragraph" ->
  is_Some (parseProperties attributes) ->
  reduceChildren nodeToObject pushSpread childNodes = Some children ->
  children <> [] ->
  exists fs,
    nodeToObject (ElementNode tagName attributes childNodes) = Some (JObj fs)
    /\ getProp fs "type" = Some (JStr "paragraph")
    /\ getProp fs "children" = Some (JArr children).
Proof.
  intros Ht [props Ep] Hc Hne. rewrite nodeToObject_element. cbv zeta.
  rewrite Ht, Ep, Hc. simpl String.eqb. cbv iota. cbn [mbind option_bind].
  rewrite bool_decide_true by (destruct children; [done|simpl; lia]).
  eexists. split; [done|]. split.
  - rewrite getProp_set_ne by done. apply spreadProps_type.
    intros x. by apply (parseProperties_no_type attributes).
  - apply getProp_set_eq.
Qed.

(** The object of a paragraph that holds the two column wrappers. *)
Lemma two_columns_object Tag props mode firstColumn secondColumn :
  (forall className,
     is_Some (parseProperties
                (setProp (setProp (setProp props "class" className)
                                  "data-type" "paragraph") "data-style" mode))) ->
  firstColumn ++ secondColumn <> [] ->
  forall className c1 c2,
     exists fs,
       nodeToObject
         (ElementNode Tag
            (setProp (setProp (setProp props "class" className)
                              "data-type" "paragraph") "data-style" mode)
            [firstColumnSpan twJoin textValue attrValue c1 firstColumn;
             secondColumnSpan twJoin textValue attrValue c2
               (positionalTab (tabOf mode).1 (tabOf mode).2) secondColumn])
       = Some (JObj fs)
       /\ getProp fs "type" = Some (JStr "paragraph")
       /\ getProp fs "children"
          = Some (JArr (((fun text => exportedRun' text []) <$> firstColumn)
                        ++ imap (fun index text =>
                                   exportedRun' text
                                     (if index =? 0
                                      then exportedTab (tabOf mode).1 (tabOf mode).2
                                      else [])) secondColumn)).
Proof.
  intros Hp Hne className c1 c2.
  eapply paragraph_object.
  - rewrite typeOf_setProp_ne by done. by apply typeOf_setProp.
  - apply Hp.
  - assert (forall c : option string,
              typeOf "SPAN" (match c with Some c => [("class", c)] | None => [] end
                             ++ [("data-type", "contentWrapper")]) = "contentWrapper")
      as Hw by (by intros [c|]).
    change [firstColumnSpan twJoin textValue attrValue c1 firstColumn; ?y]
      with ([firstColumnSpan twJoin textValue attrValue c1 firstColumn] ++ [y]).
    rewrite (reduceChildren_app pushSpread [_] [_] pushSpread_appends).
    unfold firstColumnSpan, secondColumnSpan.
    rewrite !reduceChildren_single, !nodeToObject_element. cbv zeta.
    rewrite !Hw. simpl String.eqb. cbv iota.
    rewrite firstColumn_children, secondColumn_children by (by right). done.
  - intros [H1 H2]%app_eq_nil. apply fmap_nil_inv in H1.
    destruct secondColumn; [|done]. subst. done.
Qed.

(** The parts of a string: the parser returns them, and there is one at
    least. *)
Lemma parsedOf_parts data :
  exists parsed,
    parseStyledString decodeEntities (InString data)
    = Some (mkOutcome [] (Normal parsed))
    /\ parsedOf decodeEntities data = Some parsed
    /\ parsed <> [].
Proof.
  unfold parsedOf, parseStyledString, parseString.
  set (s' := if testSentinel data then _ else _).
  exists (descend s' noStyles). unfold processSegments.
  rewrite processSegmentsF_descend by lia.
  repeat split. apply descend_nonempty.
Qed.

Lemma given_Some data : data <> "" -> given (Some data) = Some data.
Proof. by destruct data. Qed.

End RenderedParagraph.

(** X20.  A styled part rendered by [createTextRun] and read back by the
    serializer is a [text] object with a key [italics], [bold] or
    [underline] exactly for the styles of the part, in that order, and as
    its content what the HTML parser reads back from the content of the
    part; a content read back as white space only comes back empty. *)
Theorem createTextRun_round_trip (twJoin : list (option string) -> string)
    (textValue attrValue : string -> string)
    (text : StyledRun) (className : string) :
  htmlToDocx [createTextRun twJoin textValue attrValue text [] className]
  = Some [ JObj ([("type", JStr "text")]
                 ++ (if italics (styles text) then [("italics", JStr "true")] else [])
                 ++ (if bold (styles text) then [("bold", JStr "true")] else [])
                 ++ (if underline (styles text) then [("underline", JObj [])] else [])
                 ++ [("content",
                      JStr (if keptText (readBack textValue (content text))
                            then readBack textValue (content text) else ""))]) ].
Proof.
  unfold htmlToDocx. rewrite reduceChildren_single, createTextRun_exported. done.
Qed.



(** X22.  A [Paragraph] given a styled string that is not empty and a
    format of one of the two-column modes is exported as one object of type
    [paragraph] whose children are the parts of the first column followed
    by those of the second, the wrappers of the columns gone: every part of
    the string, once, in order.  The first part of the second column
    carries the positional tab of the mode. *)
Theorem twoColumnParagraph_exported (decodeEntities : string -> string)
    (twJoin : list (option string) -> string) (textValue attrValue : string -> string)
    (Tag : string) (props : list (string * string)) (mode data : string)
    (items : list (list string)) (numberingNumber : option string)
    (children : list Node) :
  data <> "" ->
  mode ∈ twoColumnModes ->
  (forall className,
     is_Some (parseProperties
                (setProp (setProp (setProp props "class" className)
                                  "data-type" "paragraph") "data-style" mode))) ->
  exists parsed firstColumn secondColumn node fs,
    parseStyledString decodeEntities (InString data)
    = Some (mkOutcome [] (Normal parsed))
    /\ columns (findSecondLeadingText items) parsed = (firstColumn, secondColumn)
    /\ Paragraph decodeEntities twJoin textValue attrValue Tag (Some data) children
         (Some (mkFormat mode items numberingNumber)) props = Some node
    /\ nodeToObject node = Some (JObj fs)
    /\ getProp fs "type" = Some (JStr "paragraph")
    /\ getProp fs "children"
       = Some (JArr (((fun text => exportedRun textValue text []) <$> firstColumn)
                     ++ imap (fun index text =>
                                exportedRun textValue text
                                  (if index =? 0
                                   then exportedTab (tabOf mode).1 (tabOf mode).2
                                   else [])) secondColumn)).
Proof.
  intros Hd Hmode Hp.
  destruct (parsedOf_parts decodeEntities data) as (parsed & Hs & Ho & Hne).
  exists parsed.
  destruct (columns (findSecondLeadingText items) parsed)
    as [firstColumn secondColumn] eqn:Ec.
  assert (firstColumn ++ secondColumn = parsed) as Happ.
  { rewrite columns_take_drop in Ec. injection Ec as <- <-. apply take_drop. }
  exists firstColumn, secondColumn.
  pose proof (two_columns_object twJoin textValue attrValue Tag props mode
                firstColumn secondColumn Hp) as Hnode.
  rewrite Happ in Hnode. specialize (Hnode Hne).
  unfold Paragraph. rewrite given_Some, Ho by done. cbn [mbind option_bind].
  rewrite Ec.
  assert (mode = "twoColumnLayoutWide" \/ mode = "twoColumnLayout"
          \/ mode = "twoColumnLayoutJustified" \/ mode = "twoLevelIndentation")
    as [-> | [-> | [-> | ->]]].
  { unfold twoColumnModes in Hmode.
    apply elem_of_cons in Hmode as [Hmode | Hmode]; [auto|].
    apply elem_of_cons in Hmode as [Hmode | Hmode]; [auto|].
    apply elem_of_cons in Hmode as [Hmode | Hmode]; [auto|].
    apply elem_of_cons in Hmode as [Hmode | Hmode]; [auto|].
    by apply elem_of_nil in Hmode. }
  all: simpl; edestruct Hnode as (fs & H1 & H2 & H3); eexists _, fs;
    (split; [exact Hs|]); (split; [reflexivity|]); (split; [reflexivity|]);
    repeat split; [exact H1|exact H2|exact H3].
Qed.

Lemma twoColumnParagraph_exported_witness :
  exists parsed firstColumn secondColumn node fs,
    parseStyledString (fun s => s) (InString "<b>Name</b> and text")
    = Some (mkOutcome [] (Normal parsed))
    /\ columns (findSecondLeadingText [["<b>Name</b>"]; [" and text"]]) parsed
       = (firstColumn, secondColumn)
    /\ Paragraph (fun s => s) (fun _ => "") (fun s => s) (fun s => s) "P"
         (Some "<b>Name</b> and text") []
         (Some (mkFormat "twoColumnLayoutJustified" [["<b>Name</b>"]; [" and text"]] None))
         [] = Some node
    /\ nodeToObject node = Some (JObj fs)
    /\ getProp fs "type" = Some (JStr "paragraph")
    /\ getProp fs "children"
       = Some (JArr (((fun text => exportedRun (fun s => s) text []) <$> firstColumn)
                     ++ imap (fun index text =>
                                exportedRun (fun s => s) text
                                  (if index =? 0
                                   then exportedTab (tabOf "twoColumnLayoutJustified").1
                                                    (tabOf "twoColumnLayoutJustified").2
                                   else [])) secondColumn)).
Proof.
  apply (twoColumnParagraph_exported (fun s => s) (fun _ => "") (fun s => s) (fun s => s)
           "P" [] "twoColumnLayoutJustified" "<b>Name</b> and text"
           [["<b>Name</b>"]; [" and text"]] None []).
  - done.
  - apply list_elem_of_In. simpl. tauto.
  - intros className. by eexists.
Defined.

(** Without a string, or with the empty string, [Paragraph] renders a [p]
    around its children, whatever [as] and the format are: with no
    children it is exported as a paragraph without content. *)
Example Paragraph_without_data :
  (node ← Paragraph (fun s => s) (fun _ => "") (fun s => s) (fun s => s) "DIV"
            (Some "") [] (Some (mkFormat "twoColumnLayout" [] None)) [];
   htmlToDocx [node])
  = Some [JObj [("type", JStr "paragraph")]]
  /\ (node ← Paragraph (fun s => s) (fun _ => "") (fun s => s) (fun s => s) "DIV"
               None [] None [];
      htmlToDocx [node])
     = Some [JObj [("type", JStr "paragraph")]].
Proof. split; reflexivity. Qed.

(** ** The leading text of the second item *)

Section LeadingText.

Lemma endsWith_app suffix x : endsWith suffix (x +:+ suffix) = true.
Proof.
  unfold endsWith. rewrite str_length_app.
  replace (String.length x + String.length suffix - String.length suffix)
    with (String.length x) by lia.
  rewrite dropStr_app, String.eqb_refl, andb_true_r. apply Nat.leb_le. lia.
Qed.

Lemma takeStr_S_index needle s j :
  indexOf needle s = Some j ->
  takeStr (j + String.length needle) s = takeStr j s +:+ needle.
Proof.
  intros H. pose proof (indexOf_bound _ _ _ H) as Hb. apply indexOf_Some in H.
  rewrite H at 1. rewrite <- str_app_assoc.
  replace (j + String.length needle)
    with (String.length (takeStr j s +:+ needle))
    by (rewrite str_length_app, length_takeStr; lia).
  apply takeStr_app.
Qed.

(** A match of the first alternative starts with [<] and ends with [>]. *)
Lemma tagAt_part s n :
  tagAt s = Some n ->
  startsWith "<" (takeStr n s) && endsWith ">" (takeStr n s) = true.
Proof.
  destruct s as [|a s1]; [done|]. unfold tagAt.
  destruct (Ascii.eqb_spec a "<") as [->|Ha]; cycle 1.
  { destruct a as [[][][][][][][][]]; try done. }
  assert (forall pre s2,
            match s2 with
            | String c s3 =>
                if isLetter c then
                  match indexOf ">" s3 with
                  | Some j => Some (String.length pre + 1 + j + 1)
                  | None => None
                  end
                else None
            | EmptyString => None
            end = Some n ->
            endsWith ">" (takeStr n (pre +:+ s2)) = true) as Hgen.
  { intros pre [|c s3]; [done|]. destruct (isLetter c); [|done].
    destruct (indexOf ">" s3) as [j|] eqn:Ej; [|done]. intros [= <-].
    replace (String.length pre + 1 + j + 1)
      with (String.length (pre +:+ String c "") + (j + String.length ">"))
      by (rewrite str_length_app; simpl; lia).
    change (pre +:+ String c s3) with (pre +:+ String c "" +:+ s3).
    rewrite <- str_app_assoc.
    assert (forall p r k, takeStr (String.length p + k) (p +:+ r) = p +:+ takeStr k r)
      as Htake.
    { clear. intros p r k. induction p as [|x p IH]; [done|].
      rewrite !str_app_cons. simpl. by rewrite IH. }
    rewrite Htake, (takeStr_S_index _ _ _ Ej), <- str_app_assoc.
    apply endsWith_app. }
  destruct s1 as [|b s1].
  - done.
  - destruct (Ascii.eqb_spec b "/") as [->|Hb].
    + intros H. assert (0 < n) as Hn.
      { destruct s1 as [|c s3]; [done|]. destruct (isLetter c); [|done].
        destruct (indexOf ">" s3); [|done]. injection H as <-. lia. }
      pose proof (Hgen "</" s1 H) as He.
      change ("</" +:+ s1) with (String "<" (String "/" s1)) in He.
      rewrite He. destruct n; [lia|]. done.
    + intros H.
      assert (match String b s1 with
              | String c s3 =>
                  if isLetter c then
                    match indexOf ">" s3 with
                    | Some j => Some (String.length "<" + 1 + j + 1)
                    | None => None
                    end
                  else None
              | EmptyString => None
              end = Some n) as H'.
      { destruct b as [[][][][][][][][]]; try done; exact H. }
      assert (0 < n) as Hn.
      { simpl in H'. destruct (isLetter b); [|done].
        destruct (indexOf ">" s1); [|done]. injection H' as <-. lia. }
      pose proof (Hgen "<" (String b s1) H') as He.
      change ("<" +:+ String b s1) with (String "<" (String b s1)) in He.
      rewrite He. destruct n; [lia|]. done.
Qed.

Lemma textRun_angleFree s : angleFree (textRun s) = true.
Proof.
  induction s as [|c s IH]; [done|]. simpl.
  destruct (isAngle c) eqn:E; [done|]. simpl. by rewrite E, IH.
Qed.

Lemma textRun_fixed s : angleFree s = true -> textRun s = s.
Proof.
  induction s as [|c s IH]; [done|]. simpl. intros [H1 H2]%andb_true_iff.
  apply negb_true_iff in H1. by rewrite H1, IH.
Qed.

Lemma matchParts_parts k s :
  Forall (fun part =>
            startsWith "<" part && endsWith ">" part = true
            \/ (angleFree part = true /\ part <> ""))
         (matchParts k s).
Proof.
  revert k. induction s as [|c s IH]; intros k; [constructor|].
  destruct k as [|k]; [|apply IH].
  change (matchParts 0 (String c s))
    with (match tagAt (String c s) with
          | Some n => takeStr n (String c s) :: matchParts (n - 1) s
          | None =>
              let t := textRun (String c s) in
              if isEmpty t then matchParts 0 s
              else t :: matchParts (String.length t - 1) s
          end).
  destruct (tagAt (String c s)) as [n|] eqn:E.
  - constructor; [|apply IH]. left. by apply tagAt_part.
  - cbv zeta. destruct (isEmpty (textRun (String c s))) eqn:Et; [apply IH|].
    constructor; [|apply IH]. right. split; [apply textRun_angleFree|].
    by destruct (textRun (String c s)).
Qed.

Lemma matchParts_skip k s : matchParts k s = matchParts 0 (dropStr k s).
Proof.
  revert k. induction s as [|c s IH]; intros k; [by destruct k|].
  destruct k as [|k]; [done|]. simpl matchParts at 1. by rewrite IH.
Qed.

Lemma tagAt_angleFree s : angleFree s = true -> tagAt s = None.
Proof.
  destruct s as [|c s]; [done|]. simpl angleFree. intros [H _]%andb_true_iff.
  apply negb_true_iff in H. unfold isAngle in H. apply orb_false_iff in H as [H _].
  apply Ascii.eqb_neq in H. unfold tagAt.
  destruct c as [[][][][][][][][]]; try done.
Qed.

Lemma dropStr_all s : dropStr (String.length s) s = "".
Proof. rewrite <- (str_app_nil_r s) at 2. apply dropStr_app. Qed.

Lemma matchParts_angleFree s :
  angleFree s = true -> s <> "" -> matchParts 0 s = [s].
Proof.
  intros Ha Hs. destruct s as [|c s]; [done|].
  change (matchParts 0 (String c s))
    with (match tagAt (String c s) with
          | Some n => takeStr n (String c s) :: matchParts (n - 1) s
          | None =>
              let t := textRun (String c s) in
              if isEmpty t then matchParts 0 s
              else t :: matchParts (String.length t - 1) s
          end).
  rewrite (tagAt_angleFree _ Ha). cbv zeta. rewrite (textRun_fixed _ Ha).
  simpl isEmpty. cbv iota. f_equal. rewrite matchParts_skip.
  replace (String.length (String c s) - 1) with (String.length s) by (simpl; lia).
  by rewrite dropStr_all.
Qed.

Lemma angleFree_not_tag part :
  angleFree part = true -> startsWith "<" part = false.
Proof.
  destruct part as [|c part]; [done|].
  change (negb (isAngle c) && angleFree part = true -> 
          (if Ascii.eqb "<" c then true else false) = false).
  intros [H _]%andb_true_iff.
  apply negb_true_iff in H. unfold isAngle in H. apply orb_false_iff in H as [H _].
  rewrite Ascii.eqb_sym in H. by rewrite H.
Qed.

End LeadingText.

(** X23.  The text [findSecondLeadingText] hands to the column layout holds
    neither [<] nor [>]; when the first paragraph of the second item holds
    none, it is that paragraph. *)
Theorem findSecondLeadingText_plain (list : list (list string)) :
  angleFree (findSecondLeadingText list) = true
  /\ forall item p ps rest,
       list = item :: (p :: ps) :: rest -> angleFree p = true ->
       findSecondLeadingText list = p.
Proof.
  split.
  - unfold findSecondLeadingText. cbv zeta.
    generalize (match list !! 1 with
                | Some paragraphs =>
                    match paragraphs !! 0 with Some p => p | None => "" end
                | None => ""
                end).
    intros s. pose proof (matchParts_parts 0 s) as H.
    induction H as [|part parts [Hp | [Hp Hne]] _ IH]; [done| |].
    + rewrite fmap_cons, Hp. simpl List.filter. exact IH.
    + rewrite fmap_cons, (angleFree_not_tag _ Hp). simpl andb. cbv iota.
      simpl List.filter. apply String.eqb_neq in Hne. by rewrite Hne.
  - intros item p ps rest -> Hp. unfold findSecondLeadingText. cbv zeta.
    assert ((item :: (p :: ps) :: rest) !! 1 = Some (p :: ps)) as -> by done.
    assert ((p :: ps) !! 0 = Some p) as -> by done.
    destruct p as [|c p]; [done|].
    rewrite (matchParts_angleFree _ Hp) by done.
    rewrite fmap_cons, (angleFree_not_tag _ Hp). simpl andb. cbv iota. done.
Qed.

Lemma findSecondLeadingText_plain_witness :
  findSecondLeadingText [["First"]; ["Name: x"; "<b>y</b>"]] = "Name: x".
Proof.
  by apply (proj2 (findSecondLeadingText_plain [["First"]; ["Name: x"; "<b>y</b>"]])
              ["First"] "Name: x" ["<b>y</b>"] []).
Defined.

(** ** Links *)

Lemma hyperlinkLabel_exported (textValue : string -> string) label :
  nodeToObject (TextRun [("data-style", "Hyperlink")] (textChild textValue label))
  = Some (JObj [ ("type", JStr "text"); ("style", JStr "Hyperlink");
                 ("content",
                  JStr (if keptText (readBack textValue label)
                        then readBack textValue label else "")) ]).
Proof.
  unfold TextRun. rewrite nodeToObject_element. cbv zeta.
  rewrite textChild_children. destruct (keptText (readBack textValue label)); cbn;
    by rewrite ?str_app_nil_r.
Qed.

(** X24.  The anchor of a [Link] is exported as an [externalHyperlink] with
    the address under [link] when the address starts with [http], written
    so, and as an [internalHyperlink] with the address under [anchor]
    otherwise; its one child is the label, a [text] object of style
    [Hyperlink].  The address and the label are exported as the HTML parser
    reads them back from the attribute and from the text; a label read
    back as white space only is exported empty. *)
Theorem linkAnchor_exported (textValue attrValue : string -> string)
    (href label : string) :
  nodeToObject (linkAnchor textValue attrValue href label)
  = Some (JObj
      [ ("type", JStr (if startsWith "http" href then "externalHyperlink"
                       else "internalHyperlink"));
        (if startsWith "http" href then "link" else "anchor", JStr (attrValue href));
        ("children",
         JArr [ JObj [ ("type", JStr "text"); ("style", JStr "Hyperlink");
                       ("content",
                        JStr (if keptText (readBack textValue label)
                              then readBack textValue label else "")) ] ]) ]).
Proof.
  unfold linkAnchor, linkDataAttrs. cbv zeta.
  destruct (startsWith "http" href); rewrite nodeToObject_element; cbv zeta;
    rewrite (reduceChildren_single pushSpread), hyperlinkLabel_exported; by cbn.
Qed.

(** A [Link] as a whole: a paragraph around the hyperlink. *)
Example Link_exported :
  (node ← Link (fun s => s) (fun _ => "") (fun s => s) (fun s => s)
            "https://example.org" "Example" [];
   htmlToDocx [node])
  = Some [ JObj [ ("type", JStr "paragraph");
                  ("children",
                   JArr [ JObj [ ("type", JStr "externalHyperlink");
                                 ("link", JStr "https://example.org");
                                 ("children",
                                  JArr [ JObj [ ("type", JStr "text");
                                                ("style", JStr "Hyperlink");
                                                ("content", JStr "Example") ] ]) ] ]) ] ].
Proof. reflexivity. Qed.

(** ** The block-content normalizer: what it returns and when it throws *)

Section Returned.

Lemma bind_inv {A B} (m : M A) (k : A -> M B) h b h' :
  (m ≫= k) h = Some (b, h') ->
  exists a h1, m h = Some (a, h1) /\ k a h1 = Some (b, h').
Proof.
  unfold mbind, M_bind. destruct (m h) as [[a h1]|]; [|done]. intros H. by exists a, h1.
Qed.

Lemma heapStable_length h h' : heapStable h h' -> length h <= length h'.
Proof.
  intros H. destruct (decide (length h = 0)) as [->|Hne]; [lia|].
  destruct (lookup_lt_is_Some_2 h (length h - 1)) as [c Hc]; [lia|].
  destruct (H _ _ Hc) as (c' & Hc' & _). apply lookup_lt_Some in Hc'. lia.
Qed.

Lemma preserves_length {A} (m : M A) h a h' :
  preserves m -> m h = Some (a, h') -> length h <= length h'.
Proof. intros Hm H. apply heapStable_length. by eapply Hm. Qed.

(** [splitByBrTag] returns the array it has made. *)
Lemma splitByBrTag_fresh arr h r h' :
  splitByBrTag arr h = Some (r, h') -> r = VRef (length h) /\ length h < length h'.
Proof.
  unfold splitByBrTag, splitByBrTagWith. intros H.
  apply bind_inv in H as (a & h1 & Ha & H). injection Ha as <- <-.
  apply bind_inv in H as (u & h2 & Hu & H). injection H as <- <-.
  split; [done|]. apply preserves_length in Hu.
  - rewrite length_app in Hu. simpl in Hu. lia.
  - apply preserves_forEach. intros x. apply preserves_bind; [apply preserves_splitItem|].
    intros parts. apply preserves_push.
Qed.

End Returned.

(** One operation of a run that returned is split off, the store not
    shorter after it. *)
Ltac split_off H :=
  let a := fresh "a" in
  let h1 := fresh "h" in
  let Hs := fresh "Hs" in
  apply bind_inv in H as (a & h1 & Hs & H);
  apply preserves_length in Hs; [|solve [repeat frame_step]].

(** X25.  The [paragraphs] that [parseBlockContent] returns is an array made
    during the call, whatever the block: never the array of the body, which
    the caller can go on using. *)
Theorem parseBlockContent_fresh_paragraphs
    (getBlockItems : heap -> val -> option val) (block : val) (h h' : heap)
    (r : BlockContent) :
  parseBlockContent getBlockItems block h = Some (r, h') ->
  exists l, paragraphs r = VRef l /\ length h <= l < length h'.
Proof.
  intros H. unfold parseBlockContent in H.
  repeat lazymatch type of H with
         | (splitByBrTag _ ≫= _) _ = _ => fail
         | _ => split_off H
         end.
  apply bind_inv in H as (p & hp & Hp & H).
  apply splitByBrTag_fresh in Hp as [-> Hlt].
  split_off H. injection H as <- <-.
  eexists. split; [reflexivity|]. lia.
Qed.

Lemma parseBlockContent_fresh_paragraphs_witness :
  exists r h' l,
    parseBlockContent (itemsAt 10) (VRef 0) sampleStore = Some (r, h')
    /\ paragraphs r = VRef l /\ length sampleStore <= l < length h'.
Proof.
  eexists _, _. 
  assert (forall r h', parseBlockContent (itemsAt 10) (VRef 0) sampleStore = Some (r, h') ->
            exists l, paragraphs r = VRef l /\ length sampleStore <= l < length h') as H.
  { intros r h'. apply parseBlockContent_fresh_paragraphs. }
  edestruct H as (l & H1 & H2); [vm_compute; reflexivity|].
  exists l. split; [vm_compute; reflexivity|]. split; [exact H1|exact H2].
Defined.

Section BannerWithoutImages.

Variables la k li : loc.

#[local] Abbreviation J := (bannerWithoutImages la k li).

Lemma J_app h c : J h -> J (h ++ [c]).
Proof.
  intros [(ca & ys & Ha & He & Hk) (ci & Hi & Hb & Hn)]. split.
  - exists ca, ys. split; [by apply lookup_app_l_Some|done].
  - exists ci. split; [by apply lookup_app_l_Some|done].
Qed.

(** A cell is overwritten: its elements kept or appended to, and its fields
    kept if it is the item. *)
Lemma J_insert h l c c' zs :
  J h -> h !! l = Some c ->
  elems c' = (fun ys => ys ++ zs) <$> elems c ->
  (l = li -> fields c' = fields c) ->
  J (<[l := c']> h).
Proof.
  intros [(ca & ys & Ha & He & Hk) (ci & Hi & Hb & Hn)] Hl Helems Hfields. split.
  - destruct (decide (l = la)) as [->|Hne].
    + exists c', (ys ++ zs). rewrite list_lookup_insert_eq by (by eapply lookup_lt_Some).
      split; [done|]. assert (c = ca) as -> by congruence.
      rewrite Helems, He. split; [done|]. by apply lookup_app_l_Some.
    + exists ca, ys. by rewrite list_lookup_insert_ne.
  - destruct (decide (l = li)) as [->|Hne].
    + exists c'. rewrite list_lookup_insert_eq by (by eapply lookup_lt_Some).
      split; [done|]. assert (c = ci) as -> by congruence.
      by rewrite Hfields.
    + exists ci. by rewrite list_lookup_insert_ne.
Qed.

Lemma getField_heap key v h a h1 : getField key v h = Some (a, h1) -> h1 = h.
Proof.
  destruct v as [| |b|s|l]; try done; simpl; try (by intros [= _ <-]).
  unfold mbind, M_bind, readCell. destruct (h !! l); [|done]. by intros [= _ <-].
Qed.

Lemma optField_heap key v h a h1 : optField key v h = Some (a, h1) -> h1 = h.
Proof.
  destruct v as [| |b|s|l]; try (by intros [= _ <-]); apply getField_heap.
Qed.

Lemma orObject_keeps x h a h1 : orObject x h = Some (a, h1) -> J h -> J h1.
Proof.
  unfold orObject. destruct (truthy x).
  - by intros [= _ <-].
  - intros [= _ <-]. apply J_app.
Qed.

Lemma push_keeps xs arr h u h1 : push xs arr h = Some (u, h1) -> J h -> J h1.
Proof.
  destruct arr as [| |b|s|l]; try done. simpl. intros H HJ.
  apply bind_inv in H as (c & h0 & Hc & H). unfold readCell in Hc.
  destruct (h !! l) as [c0|] eqn:El; [|done]. injection Hc as <- <-.
  destruct (elems c0) as [ys|] eqn:Ee; [|done].
  unfold writeCell in H. case_bool_decide; [|done]. injection H as _ <-.
  apply (J_insert h l c0 _ xs HJ El); [by rewrite Ee|done].
Qed.

Lemma deleteField_keeps key x h u h1 :
  deleteField key x h = Some (u, h1) -> x <> VRef li -> J h -> J h1.
Proof.
  destruct x as [| |b|s|l]; try done; try (by intros [= _ <-]). simpl. intros H Hx HJ.
  apply bind_inv in H as (c & h0 & Hc & H). unfold readCell in Hc.
  destruct (h !! l) as [c0|] eqn:El; [|done]. injection Hc as <- <-.
  unfold writeCell in H. case_bool_decide; [|done]. injection H as _ <-.
  apply (J_insert h l c0 _ [] HJ El).
  - simpl. destruct (elems c0); [|done]. simpl. by rewrite app_nil_r.
  - intros ->. done.
Qed.

Lemma moveBanner_keeps x h u h1 :
  moveBanner x h = Some (u, h1) -> x <> VRef li -> J h -> J h1.
Proof.
  unfold moveBanner. intros H Hx HJ.
  apply bind_inv in H as (banner & h0 & Hb & H). apply getField_heap in Hb as ->.
  destruct (truthy banner); [|by injection H as _ <-].
  apply bind_inv in H as (images & h0 & Hi & H). apply getField_heap in Hi as ->.
  apply bind_inv in H as (u1 & h2 & Hp & H).
  eapply deleteField_keeps; [exact H|done|]. by eapply push_keeps.
Qed.

Lemma moveBanner_dooms : dooms J (moveBanner (VRef li)).
Proof.
  intros h [_ (ci & Hi & Hb & Hn)]. unfold moveBanner.
  erewrite bind_run; cycle 1.
  { unfold getField. erewrite bind_run; [|unfold readCell; by rewrite Hi]. reflexivity. }
  rewrite Hb.
  erewrite bind_run; cycle 1.
  { unfold getField. erewrite bind_run; [|unfold readCell; by rewrite Hi]. reflexivity. }
  apply bind_none. by destruct (default VUndefined (getProp (fields ci) "images")).
Qed.

Lemma forEachFrom_dooms n : forall i h,
  i <= k < i + n -> J h -> forEachFrom (VRef la) i n moveBanner h = None.
Proof.
  induction n as [|n IH]; intros i h Hi HJ; [lia|].
  simpl forEachFrom. pose proof HJ as [(ca & ys & Ha & He & Hk) _].
  erewrite bind_run; cycle 1.
  { unfold readArray. erewrite bind_run; [|unfold readCell; by rewrite Ha].
    by rewrite He. }
  destruct (ys !! i) as [x|] eqn:Ex; cycle 1.
  { apply lookup_ge_None in Ex. apply lookup_lt_Some in Hk. lia. }
  assert (x = VRef li \/ x <> VRef li) as [-> | Hx].
  { destruct x as [| |b|s|l]; try (by right).
    destruct (decide (l = li)) as [->|Hl]; [by left|right; congruence]. }
  { apply bind_none. by apply moveBanner_dooms. }
  destruct (moveBanner x h) as [[u h1]|] eqn:Em; [|by apply bind_none].
  erewrite bind_run by exact Em.
  destruct (decide (i = k)) as [->|Hne]; [congruence|].
  apply IH; [lia|]. by eapply moveBanner_keeps.
Qed.

Lemma forEach_dooms : dooms J (forEach (VRef la) moveBanner).
Proof.
  intros h HJ. unfold forEach. pose proof HJ as [(ca & ys & Ha & He & Hk) _].
  erewrite bind_run; cycle 1.
  { unfold readArray. erewrite bind_run; [|unfold readCell; by rewrite Ha].
    by rewrite He. }
  apply forEachFrom_dooms; [|done]. apply lookup_lt_Some in Hk. lia.
Qed.

Lemma dooms_bind_keep {A B} (m : M A) (f : A -> M B) :
  (forall h a h1, m h = Some (a, h1) -> J h -> J h1) ->
  (forall a, dooms J (f a)) -> dooms J (m ≫= f).
Proof.
  intros Hm Hf h HJ. destruct (m h) as [[a h1]|] eqn:E; [|by apply bind_none].
  erewrite bind_run by exact E. apply Hf. by eapply Hm.
Qed.

Lemma dooms_bind {A B} (m : M A) (f : A -> M B) : dooms J m -> dooms J (m ≫= f).
Proof. intros Hm h HJ. apply bind_none. by apply Hm. Qed.

Lemma getField_keeps key v h a h1 : getField key v h = Some (a, h1) -> J h -> J h1.
Proof. by intros ->%getField_heap. Qed.

Lemma optField_keeps key v h a h1 : optField key v h = Some (a, h1) -> J h -> J h1.
Proof. by intros ->%optField_heap. Qed.

End BannerWithoutImages.

(** X26.  [parseBlockContent] throws when an item has a banner and no
    [images] array to receive it ([images] missing, [null] or any value
    that is no object), wherever the item stands among the items and
    whatever else the block holds. *)
Theorem parseBlockContent_banner_needs_images
    (getBlockItems : heap -> val -> option val) (block : val) (h : heap)
    (la k li : loc) :
  (forall h0, getBlockItems h0 block = Some (VRef la)) ->
  bannerWithoutImages la k li h ->
  parseBlockContent getBlockItems block h = None.
Proof.
  intros Hitems HJ. revert h HJ. change (dooms (bannerWithoutImages la k li)
                                           (parseBlockContent getBlockItems block)).
  unfold parseBlockContent.
  do 9 (apply dooms_bind_keep;
        [first [apply getField_keeps | apply optField_keeps | apply orObject_keeps]
        |intros ?]).
  intros h HJ. unfold mbind at 1, M_bind at 1, callGetBlockItems. rewrite Hitems.
  revert h HJ. apply dooms_bind. apply forEach_dooms.
Qed.

Lemma parseBlockContent_banner_needs_images_witness :
  parseBlockContent (itemsAt 1) (VRef 0)
    [ object [("main", VUndefined)];
      array [VRef 2; VRef 3];
      object [("paragraphs", VRef 4)];
      object [("banner", VStr "B"); ("paragraphs", VRef 4)];
      array [] ]
  = None.
Proof.
  apply (parseBlockContent_banner_needs_images (itemsAt 1) (VRef 0) _ 1 1 3); [done|].
  split.
  - eexists _, _. split; [reflexivity|]. split; reflexivity.
  - eexists. split; [reflexivity|]. split; reflexivity.
Defined.

(** ** Items without paragraphs *)

Section WithoutParagraphs.

Variables la k li : loc.

#[local] Abbreviation P := (withoutParagraphs la k li).

Lemma P_app h c : P h -> P (h ++ [c]).
Proof.
  intros [(ca & ys & Ha & He & Hk) (ci & Hi & Hn)]. split.
  - exists ca, ys. split; [by apply lookup_app_l_Some|done].
  - exists ci. split; [by apply lookup_app_l_Some|done].
Qed.

Lemma P_insert h l c c' zs :
  P h -> h !! l = Some c ->
  elems c' = (fun ys => ys ++ zs) <$> elems c ->
  (l = li -> getProp (fields c') "paragraphs" = getProp (fields c) "paragraphs") ->
  P (<[l := c']> h).
Proof.
  intros [(ca & ys & Ha & He & Hk) (ci & Hi & Hn)] Hl Helems Hfields. split.
  - destruct (decide (l = la)) as [->|Hne].
    + exists c', (ys ++ zs). rewrite list_lookup_insert_eq by (by eapply lookup_lt_Some).
      split; [done|]. assert (c = ca) as -> by congruence.
      rewrite Helems, He. split; [done|]. by apply lookup_app_l_Some.
    + exists ca, ys. by rewrite list_lookup_insert_ne.
  - destruct (decide (l = li)) as [->|Hne].
    + exists c'. rewrite list_lookup_insert_eq by (by eapply lookup_lt_Some).
      split; [done|]. assert (c = ci) as -> by congruence.
      by rewrite Hfields.
    + exists ci. by rewrite list_lookup_insert_ne.
Qed.

Lemma keeps_ret {A} (a : A) : keeps P (mret a).
Proof. by intros h a' h1 [= _ <-]. Qed.

Lemma keeps_throw {A} : keeps P (@throw A).
Proof. by intros h a h1. Qed.

Lemma keeps_bind {A B} (m : M A) (f : A -> M B) :
  keeps P m -> (forall a, keeps P (f a)) -> keeps P (m ≫= f).
Proof.
  intros Hm Hf h b h' H HP. apply bind_inv in H as (a & h1 & Ha & H).
  eapply Hf; [exact H|]. by eapply Hm.
Qed.

Lemma keeps_getField key v : keeps P (getField key v).
Proof. by intros h a h1 ->%getField_heap. Qed.

Lemma keeps_optField key v : keeps P (optField key v).
Proof. by intros h a h1 ->%optField_heap. Qed.

Lemma keeps_alloc c : keeps P (alloc c).
Proof. intros h a h1 [= _ <-]. apply P_app. Qed.

Lemma keeps_newArray xs : keeps P (newArray xs).
Proof. apply keeps_alloc. Qed.

Lemma keeps_newObject : keeps P newObject.
Proof. apply keeps_alloc. Qed.

Lemma keeps_orArray x : keeps P (orArray x).
Proof. unfold orArray. destruct (truthy x); [apply keeps_ret|apply keeps_newArray]. Qed.

Lemma keeps_orObject x : keeps P (orObject x).
Proof. unfold orObject. destruct (truthy x); [apply keeps_ret|apply keeps_newObject]. Qed.

Lemma keeps_readArray v : keeps P (readArray v).
Proof.
  intros h a h1 H. destruct v as [| |b|s|l]; try done. simpl in H.
  apply bind_inv in H as (c & h0 & Hc & H). unfold readCell in Hc.
  destruct (h !! l) as [c0|]; [|done]. injection Hc as <- <-.
  destruct (elems c0); [|done]. by injection H as _ <-.
Qed.

Lemma keeps_filterTruthy arr : keeps P (filterTruthy arr).
Proof.
  apply keeps_bind; [apply keeps_readArray|]. intros xs. apply keeps_newArray.
Qed.

Lemma keeps_push xs arr : keeps P (push xs arr).
Proof.
  intros h u h1 H HP. destruct arr as [| |b|s|l]; try done. simpl in H.
  apply bind_inv in H as (c & h0 & Hc & H). unfold readCell in Hc.
  destruct (h !! l) as [c0|] eqn:El; [|done]. injection Hc as <- <-.
  destruct (elems c0) as [ys|] eqn:Ee; [|done].
  unfold writeCell in H. case_bool_decide; [|done]. injection H as _ <-.
  apply (P_insert h l c0 _ xs HP El); [by rewrite Ee|done].
Qed.

Lemma keeps_deleteBanner x : keeps P (deleteField "banner" x).
Proof.
  intros h u h1 H HP.
  destruct x as [| |b|s|l]; try done; try (by injection H as _ <-). simpl in H.
  apply bind_inv in H as (c & h0 & Hc & H). unfold readCell in Hc.
  destruct (h !! l) as [c0|] eqn:El; [|done]. injection Hc as <- <-.
  unfold writeCell in H. case_bool_decide; [|done]. injection H as _ <-.
  apply (P_insert h l c0 _ [] HP El).
  - simpl. destruct (elems c0); [|done]. simpl. by rewrite app_nil_r.
  - intros _. simpl. by rewrite getProp_deleteProp_ne.
Qed.

Lemma keeps_forEachFrom arr i n f :
  (forall x, keeps P (f x)) -> keeps P (forEachFrom arr i n f).
Proof.
  intros Hf. revert i. induction n as [|n IH]; intros i; simpl.
  - apply keeps_ret.
  - apply keeps_bind; [apply keeps_readArray|]. intros xs.
    apply keeps_bind; [|intros; apply IH].
    destruct (xs !! i); [apply Hf|apply keeps_ret].
Qed.

Lemma keeps_forEach arr f : (forall x, keeps P (f x)) -> keeps P (forEach arr f).
Proof.
  intros Hf. apply keeps_bind; [apply keeps_readArray|].
  intros xs. by apply keeps_forEachFrom.
Qed.

Lemma keeps_moveBanner x : keeps P (moveBanner x).
Proof.
  unfold moveBanner. apply keeps_bind; [apply keeps_getField|]. intros banner.
  destruct (truthy banner); [|apply keeps_ret].
  apply keeps_bind; [apply keeps_getField|]. intros images.
  apply keeps_bind; [apply keeps_push|]. intros _. apply keeps_deleteBanner.
Qed.

(** [filterParagraphs] on another item than the one at [li]. *)
Lemma filterParagraphs_keeps x h u h1 :
  filterParagraphs x h = Some (u, h1) -> x <> VRef li -> P h -> P h1.
Proof.
  unfold filterParagraphs. intros H Hx HP.
  apply bind_inv in H as (p & h0 & Hp & H). apply getField_heap in Hp as ->.
  apply bind_inv in H as (p' & h2 & Hp' & H).
  pose proof (keeps_filterTruthy p _ _ _ Hp' HP) as HP2.
  destruct x as [| |b|s|l]; try done. simpl in H.
  apply bind_inv in H as (c & h0 & Hc & H). unfold readCell in Hc.
  destruct (h2 !! l) as [c0|] eqn:El; [|done]. injection Hc as <- <-.
  unfold writeCell in H. case_bool_decide; [|done]. injection H as _ <-.
  apply (P_insert h2 l c0 _ [] HP2 El).
  - simpl. destruct (elems c0); [|done]. simpl. by rewrite app_nil_r.
  - intros ->. done.
Qed.

Lemma filterParagraphs_dooms : dooms P (filterParagraphs (VRef li)).
Proof.
  intros h [_ (ci & Hi & Hn)]. unfold filterParagraphs.
  erewrite bind_run; cycle 1.
  { unfold getField. erewrite bind_run; [|unfold readCell; by rewrite Hi]. reflexivity. }
  apply bind_none. unfold filterTruthy. apply bind_none.
  by destruct (default VUndefined (getProp (fields ci) "paragraphs")).
Qed.

Lemma forEachFrom_filter_dooms n : forall i h,
  i <= k < i + n -> P h -> forEachFrom (VRef la) i n filterParagraphs h = None.
Proof.
  induction n as [|n IH]; intros i h Hi HP; [lia|].
  simpl forEachFrom. pose proof HP as [(ca & ys & Ha & He & Hk) _].
  erewrite bind_run; cycle 1.
  { unfold readArray. erewrite bind_run; [|unfold readCell; by rewrite Ha].
    by rewrite He. }
  destruct (ys !! i) as [x|] eqn:Ex; cycle 1.
  { apply lookup_ge_None in Ex. apply lookup_lt_Some in Hk. lia. }
  assert (x = VRef li \/ x <> VRef li) as [-> | Hx].
  { destruct x as [| |b|s|l]; try (by right).
    destruct (decide (l = li)) as [->|Hl]; [by left|right; congruence]. }
  { apply bind_none. by apply filterParagraphs_dooms. }
  destruct (filterParagraphs x h) as [[u h1]|] eqn:Em; [|by apply bind_none].
  erewrite bind_run by exact Em.
  destruct (decide (i = k)) as [->|Hne]; [congruence|].
  apply IH; [lia|]. by eapply filterParagraphs_keeps.
Qed.

Lemma forEach_filter_dooms : dooms P (forEach (VRef la) filterParagraphs).
Proof.
  intros h HP. unfold forEach. pose proof HP as [(ca & ys & Ha & He & Hk) _].
  erewrite bind_run; cycle 1.
  { unfold readArray. erewrite bind_run; [|unfold readCell; by rewrite Ha].
    by rewrite He. }
  apply forEachFrom_filter_dooms; [|done]. apply lookup_lt_Some in Hk. lia.
Qed.

Lemma dooms_after {A B} (m : M A) (f : A -> M B) :
  keeps P m -> (forall a, dooms P (f a)) -> dooms P (m ≫= f).
Proof.
  intros Hm Hf h HP. destruct (m h) as [[a h1]|] eqn:E; [|by apply bind_none].
  erewrite bind_run by exact E. apply Hf. by eapply Hm.
Qed.

Lemma dooms_now {A B} (m : M A) (f : A -> M B) : dooms P m -> dooms P (m ≫= f).
Proof. intros Hm h HP. apply bind_none. by apply Hm. Qed.

Lemma parseBlockContent_dooms (getBlockItems : heap -> val -> option val) block :
  (forall h0, getBlockItems h0 block = Some (VRef la)) ->
  dooms P (parseBlockContent getBlockItems block).
Proof.
  intros Hitems. unfold parseBlockContent.
  do 9 (apply dooms_after;
        [first [apply keeps_getField | apply keeps_optField | apply keeps_orObject]
        |intros ?]).
  intros h HP. unfold mbind at 1, M_bind at 1, callGetBlockItems. rewrite Hitems.
  revert h HP.
  apply dooms_after; [apply keeps_forEach, keeps_moveBanner|intros _].
  do 15 (apply dooms_after;
         [first [apply keeps_getField | apply keeps_optField | apply keeps_orArray
                | apply keeps_newArray | apply keeps_newObject]
         |intros ?]).
  apply dooms_after.
  { match goal with |- keeps _ (if ?b then _ else _) => destruct b end;
      [apply keeps_push|apply keeps_ret]. }
  intros _. apply dooms_after; [apply keeps_filterTruthy|intros ?].
  apply dooms_now, forEach_filter_dooms.
Qed.

End WithoutParagraphs.

(** X27.  [parseBlockContent] throws when an item has no array under
    [paragraphs] (the field missing, [null] or any value that is no
    object), wherever the item stands among the items and whatever else the
    block holds: the paragraphs of the body may be missing, those of an
    item may not. *)
Theorem parseBlockContent_item_needs_paragraphs
    (getBlockItems : heap -> val -> option val) (block : val) (h : heap)
    (la k li : loc) :
  (forall h0, getBlockItems h0 block = Some (VRef la)) ->
  withoutParagraphs la k li h ->
  parseBlockContent getBlockItems block h = None.
Proof. intros Hitems HP. by apply (parseBlockContent_dooms la k li). Qed.

Lemma parseBlockContent_item_needs_paragraphs_witness :
  parseBlockContent (itemsAt 1) (VRef 0)
    [ object [("main", VUndefined)];
      array [VRef 2; VRef 3];
      object [("paragraphs", VRef 4)];
      object [("title", VStr "t")];
      array [] ]
  = None.
Proof.
  apply (parseBlockContent_item_needs_paragraphs (itemsAt 1) (VRef 0) _ 1 1 3); [done|].
  split.
  - eexists _, _. split; [reflexivity|]. split; reflexivity.
  - eexists. split; [reflexivity|]. reflexivity.
Defined.

(** ** The properties in the object of an element *)

Section ElementProperties.

Lemma setProp_key {V} (o : list (string * V)) k v x :
  x ∈ (setProp o k v).*1 -> x = k \/ x ∈ o.*1.
Proof.
  induction o as [|[k' v'] o IH].
  - intros H. apply list_elem_of_singleton in H. by left.
  - cbn [setProp]. destruct (String.eqb_spec k' k) as [->|Hne].
    + rewrite !fmap_cons. cbn [fst]. by right.
    + rewrite !fmap_cons. cbn [fst]. intros [->|H]%elem_of_cons.
      * right. apply elem_of_cons. by left.
      * destruct (IH H) as [->|H']; [by left|]. right. apply elem_of_cons. by right.
Qed.

Lemma setProp_NoDup {V} (o : list (string * V)) k v :
  NoDup o.*1 -> NoDup (setProp o k v).*1.
Proof.
  induction o as [|[k' v'] o IH]; intros Hnd.
  - apply NoDup_singleton.
  - rewrite fmap_cons in Hnd. cbn [fst] in Hnd. apply NoDup_cons in Hnd as [Hk Hnd].
    cbn [setProp]. destruct (String.eqb_spec k' k) as [->|Hne].
    + rewrite fmap_cons. cbn [fst]. by apply NoDup_cons.
    + rewrite fmap_cons. cbn [fst]. apply NoDup_cons. split; [|by apply IH].
      intros [->|H]%setProp_key; done.
Qed.

Lemma assignPath_NoDup o groups leaf v o' :
  assignPath o groups leaf v = Some o' -> NoDup o.*1 -> NoDup o'.*1.
Proof.
  destruct groups as [|g groups]; simpl.
  - intros [= <-]. apply setProp_NoDup.
  - destruct (match getProp o g with
              | Some x => if propTruthy x then x else PObj []
              | None => PObj []
              end) as [s|gf]; [done|].
    destruct (assignPath gf groups leaf v) as [gf'|]; [|done]. simpl.
    intros [= <-]. apply setProp_NoDup.
Qed.

Lemma parseProperties_NoDup attributes properties :
  parseProperties attributes = Some properties -> NoDup properties.*1.
Proof.
  unfold parseProperties.
  assert (NoDup (@nil (string * PropVal)).*1) as Hinit by constructor.
  revert Hinit. generalize (@nil (string * PropVal)). revert properties.
  induction attributes as [|[name value] attrs IH]; intros p acc Hacc.
  - by intros [= <-].
  - rewrite fold_left_step.
    change (parseAttribute (Some acc) (name, value))
      with (if isDataAttribute name then
              match getProp translationTable name with
              | Some (EmptyRecord key) => Some (setProp acc key (PObj []))
              | Some (Field groups leaf) => assignPath acc groups leaf (PStr value)
              | None =>
                  if String.eqb (flatKey name) "__proto__" then Some acc
                  else Some (setProp acc (flatKey name) (PStr value))
              end
            else Some acc).
    destruct (isDataAttribute name); [|by apply IH].
    destruct (getProp translationTable name) as [[key|groups leaf]|].
    + apply IH. by apply setProp_NoDup.
    + destruct (assignPath acc groups leaf (PStr value)) as [acc'|] eqn:E.
      * apply IH. by eapply assignPath_NoDup.
      * intros H. exfalso. revert H. clear. by induction attrs.
    + destruct (String.eqb (flatKey name) "__proto__"); [by apply IH|].
      apply IH. by apply setProp_NoDup.
Qed.

Lemma getProp_None {V} (o : list (string * V)) k : k ∉ o.*1 -> getProp o k = None.
Proof.
  induction o as [|[k' v'] o IH]; [done|]. simpl. intros H.
  destruct (String.eqb_spec k' k) as [->|Hne].
  - exfalso. apply H. apply elem_of_cons. by left.
  - apply IH. intros Hk. apply H. apply elem_of_cons. by right.
Qed.

(** [{ type, ...properties }] holds every property under its key. *)
Lemma spreadProps_get type (properties : Props) k :
  NoDup properties.*1 -> k <> "type" ->
  getProp (spreadProps type properties) k = ofPropVal <$> getProp properties k.
Proof.
  intros Hnd Hk. unfold spreadProps.
  assert (forall acc,
            getProp (fold_left (fun o kv => setProp o kv.1 (ofPropVal kv.2)) properties acc) k
            = match getProp properties k with
              | Some v => Some (ofPropVal v)
              | None => getProp acc k
              end) as H.
  { induction properties as [|[k1 v1] ps IH]; intros acc; [done|].
    simpl in Hnd. apply NoDup_cons in Hnd as [Hk1 Hnd]. simpl.
    rewrite (IH Hnd). destruct (String.eqb_spec k1 k) as [->|Hne].
    - by rewrite (getProp_None ps k Hk1), getProp_set_eq.
    - by rewrite getProp_set_ne.
  }
  rewrite H. destruct (getProp properties k); [done|].
  change (getProp [("type", JStr type)] k)
    with (if String.eqb "type" k then Some (JStr type) else None).
  destruct (String.eqb_spec "type" k); [congruence|done].
Qed.

Lemma element_properties tagName attributes childNodes properties v k :
  typeOf tagName attributes <> "emptyLine" ->
  typeOf tagName attributes <> "contentWrapper" ->
  parseProperties attributes = Some properties ->
  nodeToObject (ElementNode tagName attributes childNodes) = Some v ->
  k <> "type" -> k <> "content" -> k <> "children" ->
  exists fs, v = JObj fs /\ getProp fs k = ofPropVal <$> getProp properties k.
Proof.
  intros H1 H2 Ep. rewrite nodeToObject_element. cbv zeta.
  apply String.eqb_neq in H1, H2. rewrite H1, H2, Ep. cbn [mbind option_bind].
  destruct (reduceChildren nodeToObject pushSpread childNodes) as [children|]; [|done].
  cbn [mbind option_bind]. intros [= <-] Hk1 Hk2 Hk3. eexists. split; [done|].
  pose proof (spreadProps_get (typeOf tagName attributes) properties k
                (parseProperties_NoDup _ _ Ep) Hk1) as Hg.
  destruct (String.eqb (typeOf tagName attributes) "text");
    [by rewrite getProp_set_ne|].
  destruct (bool_decide _); [by rewrite getProp_set_ne|done].
Qed.

End ElementProperties.

(** X28.  The object made for an element that is neither an [emptyLine] nor
    a [contentWrapper] holds every property [parseProperties] made of the
    attributes, under the same key and with the same value; only [type],
    [content] and [children] are the serializer's own. *)
Theorem nodeToObject_properties (tagName : string) (attributes : list (string * string))
    (childNodes : list Node) (properties : Props) (v : JsVal) (k : string) :
  typeOf tagName attributes <> "emptyLine" ->
  typeOf tagName attributes <> "contentWrapper" ->
  parseProperties attributes = Some properties ->
  nodeToObject (ElementNode tagName attributes childNodes) = Some v ->
  k <> "type" -> k <> "content" -> k <> "children" ->
  exists fs, v = JObj fs /\ getProp fs k = ofPropVal <$> getProp properties k.
Proof. apply element_properties. Qed.

Lemma nodeToObject_properties_witness :
  exists fs,
    JObj [("type", JStr "paragraph");
          ("spacing", JObj [("after", JStr "50")]);
          ("children", JArr [textObject "x"])] = JObj fs
    /\ getProp fs "spacing"
       = ofPropVal <$> getProp [("spacing", PObj [("after", PStr "50")])] "spacing".
Proof.
  apply (nodeToObject_properties "P"
           [("data-type", "paragraph"); ("data-spacing-after", "50")] [TextNode "x"]);
    done.
Defined.

(** ** Headings *)

Section Headings.

Variable twJoin : list (option string) -> string.
Variables textValue attrValue : string -> string.

Lemma createHeadingRun_exported text :
  nodeToObject (createHeadingRun twJoin textValue attrValue text)
  = Some (exportedRun textValue text []).
Proof.
  destruct text as [ty c [b i u]]. unfold createHeadingRun, TextRun, exportedRun.
  rewrite nodeToObject_element. cbn [styles content bold italics underline].
  destruct b, i, u; cbv zeta;
    rewrite textChild_children; destruct (keptText (readBack textValue c));
    cbn; by rewrite ?str_app_nil_r.
Qed.

Lemma headingRuns_children runs :
  reduceChildren nodeToObject pushSpread
    (createHeadingRun twJoin textValue attrValue <$> runs)
  = Some ((fun text => exportedRun textValue text []) <$> runs).
Proof.
  apply reduceChildren_objects; [by left|].
  apply Forall2_fmap, Forall_Forall2_diag, Forall_forall. intros t _.
  split; [apply createHeadingRun_exported|apply exportedRun_object].
Qed.

(** An attribute outside the table whose flat key is no first key of a path
    of the table is at its flat key whenever the loop returns. *)
Lemma parseProperties_flat_kept attributes : forall properties n v,
  NoDup attributes.*1 -> parseProperties attributes = Some properties ->
  (n, v) ∈ attributes -> isDataAttribute n = true -> dropped n = false ->
  getProp translationTable n = None ->
  (forall name t, getProp translationTable name = Some t -> targetHead t <> flatKey n) ->
  getProp properties (flatKey n) = Some (PStr v).
Proof.
  unfold parseProperties.
  induction attributes as [|[n' v'] attrs IH] using rev_ind;
    intros p n v Hnd Hp Hin Hd Hdr Hn Hheads.
  { by apply elem_of_nil in Hin. }
  rewrite fold_left_app in Hp.
  change (fold_left parseAttribute [(n', v')] ?a) with (parseAttribute a (n', v')) in Hp.
  destruct (fold_left parseAttribute attrs (Some [])) as [p0|] eqn:E0; [|done].
  rewrite fmap_app in Hnd. apply NoDup_app in Hnd as (Hnd1 & Hnd2 & _).
  apply elem_of_app in Hin as [Hin|Hin%list_elem_of_singleton].
  - assert (n <> n') as Hne.
    { intros <-. apply (Hnd2 n); [|by left]. apply list_elem_of_fmap. by exists (n, v). }
    specialize (IH p0 n v Hnd1 eq_refl Hin Hd Hdr Hn Hheads).
    destruct (isDataAttribute n') eqn:Ed';
      [|rewrite parseAttribute_other in Hp by done; by injection Hp as <-].
    destruct (dropped n') eqn:Edr';
      [rewrite parseAttribute_dropped in Hp by done; by injection Hp as <-|].
    rewrite parseAttribute_effect in Hp by done.
    pose proof (effect_path n' v') as Hep.
    destruct (effect n' v') as [[gs leaf] w].
    rewrite (assignPath_other_key _ _ _ _ _ _ Hp); [done|]. rewrite Hep.
    destruct (getProp translationTable n') as [t|] eqn:En'.
    + rewrite (effectPath_table _ _ En'). destruct (fullPath_head t) as [tl ->]. simpl.
      intros [= Heq]. by apply (Hheads n' t).
    + rewrite (effectPath_flat _ En'). simpl. intros [= Heq].
      apply Hne. symmetry. by apply flatKey_inj.
  - injection Hin as <- <-. rewrite parseAttribute_effect in Hp by done.
    unfold effect in Hp. rewrite Hn in Hp. injection Hp as <-.
    apply getProp_set_eq.
Qed.

End Headings.

(** X29.  A heading [H1] to [H4] given a styled string that is not empty is
    exported as one object of type [paragraph] that has the level under
    [heading] ([HEADING_1] to [HEADING_4]) and whose children are the parts
    of the string, one [text] object each, in order, whenever the
    serializer can read the attributes of the element.  Without a string,
    or with the empty string, a heading without children renders
    nothing. *)
Theorem heading_exported (decodeEntities : string -> string)
    (twJoin : list (option string) -> string) (textValue attrValue : string -> string)
    (tag plainTag name : string) (props : list (string * string)) (data : string)
    (children : option (list Node)) :
  let properties :=
    setProp (setProp props "data-type" "paragraph") "data-heading" name in
  let H := heading decodeEntities twJoin textValue attrValue tag plainTag name in
  (data <> "" ->
   NoDup properties.*1 ->
   is_Some (parseProperties properties) ->
   exists parsed node fs,
     parseStyledString decodeEntities (InString data)
     = Some (mkOutcome [] (Normal parsed))
     /\ H (Some data) children props = Some (Some node)
     /\ nodeToObject node = Some (JObj fs)
     /\ getProp fs "type" = Some (JStr "paragraph")
     /\ getProp fs "heading" = Some (JStr name)
     /\ getProp fs "children"
        = Some (JArr ((fun text => exportedRun textValue text []) <$> parsed)))
  /\ H None None props = Some None
  /\ H (Some "") None props = Some None.
Proof.
  intros attrs H. split; [|done].
  intros Hd Hnd [properties Ep].
  destruct (parsedOf_parts decodeEntities data) as (parsed & Hs & Ho & Hne).
  exists parsed.
  assert (typeOf tag attrs = "paragraph") as Ht.
  { unfold attrs. rewrite typeOf_setProp_ne by done. by apply typeOf_setProp. }
  assert (getProp properties "heading" = Some (PStr name)) as Hh.
  { apply (parseProperties_flat_kept attrs properties "data-heading" name);
      try done.
    - apply (getProp_Some_elem attrs). unfold attrs. apply getProp_set_eq.
    - intros n t Hn%getProp_Some_elem.
      assert (forallb (fun e => negb (String.eqb (targetHead e.2) "heading"))
                translationTable = true) as Hall by (vm_compute; reflexivity).
      rewrite forallb_forall in Hall.
      specialize (Hall _ ltac:(by apply list_elem_of_In)). simpl in Hall.
      intros Heq. change (flatKey "data-heading") with "heading" in Heq.
      by rewrite Heq in Hall. }
  destruct (paragraph_object tag attrs
              (createHeadingRun twJoin textValue attrValue <$> parsed)
              ((fun text => exportedRun textValue text []) <$> parsed))
    as (fs & H1 & H2 & H3).
  - done.
  - by eexists.
  - apply headingRuns_children.
  - by intros H'%fmap_nil_inv.
  - exists (ElementNode tag attrs (createHeadingRun twJoin textValue attrValue <$> parsed)),
      fs.
    split; [done|]. split.
    { unfold H, heading. rewrite given_Some, Ho by done. by destruct children. }
    split; [exact H1|]. split; [done|]. split; [|done].
    destruct (element_properties tag attrs
                (createHeadingRun twJoin textValue attrValue <$> parsed)
                properties (JObj fs) "heading")
      as (fs' & [= <-] & Hg); try done; try (by rewrite Ht).
    by rewrite Hg, Hh.
Qed.

Lemma heading_exported_witness :
  exists parsed node fs,
    parseStyledString (fun s => s) (InString "A <i>title</i>")
    = Some (mkOutcome [] (Normal parsed))
    /\ H2 (fun s => s) (fun _ => "") (fun s => s) (fun s => s)
         (Some "A <i>title</i>") None [("id", "t")] = Some (Some node)
    /\ nodeToObject node = Some (JObj fs)
    /\ getProp fs "type" = Some (JStr "paragraph")
    /\ getProp fs "heading" = Some (JStr "HEADING_2")
    /\ getProp fs "children"
       = Some (JArr ((fun text => exportedRun (fun s => s) text []) <$> parsed)).
Proof.
  apply (proj1 (heading_exported (fun s => s) (fun _ => "") (fun s => s) (fun s => s)
                  "H2" "H2" "HEADING_2" [("id", "t")] "A <i>title</i>" None)).
  - done.
  - apply (bool_decide_unpack _). vm_compute. exact I.
  - by eexists.
Defined.

(** ** The text nodes that are dropped *)

Section Trimmed.

Lemma trimEnd_empty s : isEmpty (trimEnd s) = allWhiteSpace s.
Proof.
  induction s as [|c s IH]; [done|].
  change (trimEnd (String c s))
    with (if isEmpty (trimEnd s) && isWhiteSpace c then EmptyString
          else String c (trimEnd s)).
  change (allWhiteSpace (String c s)) with (isWhiteSpace c && allWhiteSpace s).
  rewrite IH. by destruct (allWhiteSpace s), (isWhiteSpace c).
Qed.

Lemma trimStart_allWhiteSpace s : allWhiteSpace (trimStart s) = allWhiteSpace s.
Proof.
  induction s as [|c s IH]; [done|].
  change (trimStart (String c s)) with (if isWhiteSpace c then trimStart s else String c s).
  change (allWhiteSpace (String c s)) with (isWhiteSpace c && allWhiteSpace s).
  destruct (isWhiteSpace c) eqn:E; [done|].
  change (allWhiteSpace (String c s)) with (isWhiteSpace c && allWhiteSpace s).
  by rewrite E.
Qed.

End Trimmed.

(** X30.  For a text node whose value is made of code units below 256 (the
    values this development has), [nodeToObject] answers [null] exactly
    when every code unit of the value is one of the seven that [trim]
    strips among them (tab, line feed, vertical tab, form feed, carriage
    return, space and no-break space), the empty value included; any other
    such text node becomes a [text] object with the value untouched.
    Nothing is said of values with code units from 256 on, some of which
    [trim] strips too. *)
Theorem text_node_dropped_iff (nodeValue : string) :
  (nodeToObject (TextNode nodeValue) = Some JNull <-> allWhiteSpace nodeValue = true)
  /\ (allWhiteSpace nodeValue = false ->
      nodeToObject (TextNode nodeValue) = Some (textObject nodeValue)).
Proof.
  rewrite nodeToObject_text. unfold trim.
  rewrite trimEnd_empty, trimStart_allWhiteSpace.
  destruct (allWhiteSpace nodeValue); split; try done; split; done.
Qed.
